(** * The intermediate representation core of Command-Block-Assembly

    A shallow embedding of [cmd_ir/core.py] (with the activation hooks of
    [cmd_ir/instructions/events.py] and [cmd_ir/instructions/func_prop.py])
    and the properties of its scopes, blocks, functions, linker and object
    format.

    Python objects are mutable and shared by reference, so the embedding
    keeps an explicit object store: a [Heap] is a list of objects and a
    reference ([loc]) is an index into it.  Every method becomes a
    computation in the state-and-exception monad [M]; a raised Python
    exception is the [Err] result. *)

From Stdlib Require Import ZArith Lia.
From stdpp Require Import base tactics option list sorting strings pretty gmap.

Local Open Scope string_scope.
Local Open Scope list_scope.
Local Open Scope nat_scope.

(** ** Exceptions and results *)

Inductive PyErr : Type :=
| AssertionError (msg : string)
| KeyError (key : string)
| KeyErrorValue (value : nat)
| IndexError
| TypeError (msg : string)
| AttributeError (msg : string)
| StopIteration
| RecursionError
| RuntimeError (msg : string).

Inductive Res (A : Type) : Type :=
| Ok (a : A)
| Err (e : PyErr).
Arguments Ok {A} a.
Arguments Err {A} e.

Definition is_Ok {A} (r : Res A) : bool :=
  match r with Ok _ => true | Err _ => false end.

(** ** Python dictionaries

    [dict], [OrderedDict] and [defaultdict] keep insertion order; assigning
    to a key that is present replaces the value in place. *)

Section dict.
Context {K V : Type} `{EqDecision K}.

Fixpoint dict_get (d : list (K * V)) (k : K) : option V :=
  match d with
  | [] => None
  | (k', v) :: d' => if decide (k' = k) then Some v else dict_get d' k
  end.

Fixpoint dict_set (d : list (K * V)) (k : K) (v : V) : list (K * V) :=
  match d with
  | [] => [(k, v)]
  | (k', v') :: d' =>
      if decide (k' = k) then (k, v) :: d' else (k', v') :: dict_set d' k v
  end.

Definition dict_has (d : list (K * V)) (k : K) : bool :=
  match dict_get d k with Some _ => true | None => false end.

Definition dict_keys (d : list (K * V)) : list K := d.*1.
Definition dict_values (d : list (K * V)) : list V := d.*2.
End dict.

(** ** Values and instructions *)

(** A reference to an object: its index in the store. *)
Notation loc := nat (only parsing).

(** [VarType] is declared in [cmd_ir/variables.py]; [core.py] names its
    members [i32] and [q10] and treats the others alike. *)
Inductive VarType : Type :=
| i32
| q10
| OtherType (name : string).

Global Instance VarType_eq_dec : EqDecision VarType.
Proof. solve_decision. Defined.

(** What an argument slot, a call argument or a return destination holds:
    [None], a literal [int], a literal [float] (kept as its bit pattern; it
    is only ever tested for its type), a string, a tuple of types, or a
    reference to an object. *)
Inductive Val : Type :=
| VNone
| VInt (z : Z)
| VFloat (bits : Z)
| VStr (s : string)
| VTypes (ts : list VarType)
| VRef (l : loc).

Global Instance Val_eq_dec : EqDecision Val.
Proof. solve_decision. Defined.

(** Modelled from the spec: the instruction classes live in
    [cmd_ir/instructions/_core.py] and its siblings, of which only
    [events.py] and [func_prop.py] are at hand.  Following the spec (section
    9) an instruction is a tagged variant with per-variant flags
    (preamble-safe, inlining-copyable, terminator, constructor) and a list
    of argument slots.  The variants are the classes [core.py], [events.py]
    and [func_prop.py] name; [KOther] stands for every other class and
    carries its flags. *)
Inductive InsnKind : Type :=
| KBranch
| KReturn
| KPushNewStackFrame
| KPopStack
| KSetScore
| KDefineVariable
| KDefineGlobal
| KRunDeferredCallback
| KRevokeEventAdvancement
| KCreateEvent
| KAddEventCondition
| KEventHandler
| KSetupInsn
| KExternInsn
| KPureInsn
| KInlineInsn
| KRunCallbackOnExit
| KOther (insn_name : string) (is_terminator is_preamble_safe is_copyable : bool).

Global Instance InsnKind_eq_dec : EqDecision InsnKind.
Proof. solve_decision. Defined.

(** An instruction: its class, its argument slots, and [_value], the entity
    a constructor instruction built when it was activated. *)
Record Insn : Type := mkInsn {
  kind : InsnKind;
  args : list Val;
  _value : option loc
}.

Global Instance Insn_eq_dec : EqDecision Insn.
Proof. solve_decision. Defined.

Definition Branch (label : loc) : Insn := mkInsn KBranch [VRef label] None.
Definition Return : Insn := mkInsn KReturn [] None.
Definition PushNewStackFrame (types : list VarType) : Insn :=
  mkInsn KPushNewStackFrame [VTypes types] None.
Definition PopStack : Insn := mkInsn KPopStack [] None.
Definition SetScore (dest : loc) (src : Val) : Insn :=
  mkInsn KSetScore [VRef dest; src] None.
Definition DefineVariable (vartype : VarType) : Insn :=
  mkInsn KDefineVariable [VTypes [vartype]] None.
Definition DefineGlobal (vartype : VarType) : Insn :=
  mkInsn KDefineGlobal [VTypes [vartype]] None.
Definition RunDeferredCallback : Insn := mkInsn KRunDeferredCallback [] None.
Definition RevokeEventAdvancement (func : loc) : Insn :=
  mkInsn KRevokeEventAdvancement [VRef func] None.
Definition EventHandler (handler event : loc) : Insn :=
  mkInsn KEventHandler [VRef handler; VRef event] None.
Definition SetupInsn (func : loc) : Insn := mkInsn KSetupInsn [VRef func] None.

(** [insn.terminator()]: branch and return have terminator semantics. *)
Definition terminator (i : Insn) : bool :=
  match kind i with
  | KBranch | KReturn => true
  | KOther _ t _ _ => t
  | _ => false
  end.

(** [insn.preamble_safe]: the [PreambleOnlyInsn] classes of [events.py] and
    [func_prop.py], and the two definitions [core.py] adds to a preamble. *)
Definition preamble_safe (i : Insn) : bool :=
  match kind i with
  | KDefineVariable | KDefineGlobal
  | KCreateEvent | KAddEventCondition | KEventHandler | KSetupInsn
  | KExternInsn | KPureInsn | KInlineInsn | KRunCallbackOnExit => true
  | KOther _ _ p _ => p
  | _ => false
  end.

(** [insn.inline_copyable]: [func_prop.py] clears it for its four markers. *)
Definition inline_copyable (i : Insn) : bool :=
  match kind i with
  | KExternInsn | KPureInsn | KInlineInsn | KRunCallbackOnExit => false
  | KOther _ _ _ c => c
  | _ => true
  end.

(** [isinstance(insn, ConstructorInsn)]. *)
Definition is_constructor (i : Insn) : bool :=
  match kind i with
  | KDefineVariable | KDefineGlobal | KCreateEvent => true
  | _ => false
  end.

(** ** Objects *)

(** [Scope(OrderedDict)]: the local mapping, its inverse, and the parent
    scope it falls back to. *)
Record Scope : Type := mkScope {
  items : list (string * loc);
  inverse_dict : list (loc * string);
  parent : option loc
}.

(** [Preamble(InstructionSeq)]. *)
Record Preamble : Type := mkPreamble {
  p_insns : list Insn;
  p_holder : loc;
  is_top : bool
}.

(** [BasicBlock] and its subclass [SuperBlock] ([is_super]); [_clear] and
    [is_entry] are attributes of a [SuperBlock] only. *)
Record Block : Type := mkBlock {
  insns : list Insn;
  holder : loc;
  b_name : string;
  _func : loc;
  needs_success_tracker : bool;
  defined : bool;
  is_function : bool;
  force : bool;
  b_use : nat;
  is_super : bool;
  _clear : bool;
  is_entry : bool
}.

(** [IRFunction]. *)
Record Func : Type := mkFunc {
  f_scope : loc;
  f_name : string;
  f_preamble : loc;
  _finished : bool;
  f_use : nat;
  _entryblock : loc;
  _exitblock : loc;
  post_exit_insns : list Insn;
  _varsfinalized : bool;
  _is_extern : bool;
  _is_pure : bool;
  _is_inline : bool;
  f_params : list (VarType * string);
  f_returns : list VarType;
  future_expect_sig : list loc
}.

(** [ExternFunction]. *)
Record Extern : Type := mkExtern {
  _gname : string;
  e_params : list (VarType * string);
  e_returns : list VarType
}.

(** [TopLevel]. *)
Record Top : Type := mkTop {
  t_scope : loc;
  t_preamble : loc;
  t_finished : bool;
  pragmas : list (string * string)
}.

(** The variable classes of [cmd_ir/variables.py] that [core.py] tells
    apart, and the storage a proxy variable stands for ([var.var]). *)
Inductive VarClass : Type :=
| LocalVariable
| ParameterVariable
| ReturnVariable
| GlobalVariable.

Inductive Proxy : Type :=
| NbtOffsetVariable (type : VarType) (offset : Z)
| LocalStackVariable (type : VarType) (offset : Z) (frame : nat).

Record VarObj : Type := mkVariable {
  v_class : VarClass;
  v_type : VarType;
  passtype : string;
  var : option Proxy
}.

Inductive Obj : Type :=
| OScope (s : Scope)
| OPreamble (p : Preamble)
| OBlock (b : Block)
| OFunc (f : Func)
| OExtern (e : Extern)
| OTop (t : Top)
| OVar (v : VarObj)
| OEvent (name : string)
| OPosUtilEntity
| OGlobalEntity.

(** The store. *)
Notation Heap := (list Obj) (only parsing).

Global Instance VarClass_eq_dec : EqDecision VarClass.
Proof. solve_decision. Defined.
Global Instance Proxy_eq_dec : EqDecision Proxy.
Proof. solve_decision. Defined.

(** Attribute assignment, one function per attribute the code assigns. *)
Definition set_items (s : Scope) (it : list (string * loc)) (inv : list (loc * string)) : Scope :=
  mkScope it inv (parent s).
Definition set_parent (s : Scope) (p : option loc) : Scope :=
  mkScope (items s) (inverse_dict s) p.
Definition set_p_insns (p : Preamble) (l : list Insn) : Preamble :=
  mkPreamble l (p_holder p) (is_top p).
Definition set_insns (b : Block) (l : list Insn) : Block :=
  mkBlock l (holder b) (b_name b) (_func b) (needs_success_tracker b) (defined b)
          (is_function b) (force b) (b_use b) (is_super b) (_clear b) (is_entry b).
Definition set_defined (b : Block) (x : bool) : Block :=
  mkBlock (insns b) (holder b) (b_name b) (_func b) (needs_success_tracker b) x
          (is_function b) (force b) (b_use b) (is_super b) (_clear b) (is_entry b).
Definition set_is_function (b : Block) (x : bool) : Block :=
  mkBlock (insns b) (holder b) (b_name b) (_func b) (needs_success_tracker b) (defined b)
          x (force b) (b_use b) (is_super b) (_clear b) (is_entry b).
Definition set_force (b : Block) (x : bool) : Block :=
  mkBlock (insns b) (holder b) (b_name b) (_func b) (needs_success_tracker b) (defined b)
          (is_function b) x (b_use b) (is_super b) (_clear b) (is_entry b).
Definition set_b_use (b : Block) (n : nat) : Block :=
  mkBlock (insns b) (holder b) (b_name b) (_func b) (needs_success_tracker b) (defined b)
          (is_function b) (force b) n (is_super b) (_clear b) (is_entry b).
Definition set_clear (b : Block) (x : bool) : Block :=
  mkBlock (insns b) (holder b) (b_name b) (_func b) (needs_success_tracker b) (defined b)
          (is_function b) (force b) (b_use b) (is_super b) x (is_entry b).
Definition set_is_entry (b : Block) (x : bool) : Block :=
  mkBlock (insns b) (holder b) (b_name b) (_func b) (needs_success_tracker b) (defined b)
          (is_function b) (force b) (b_use b) (is_super b) (_clear b) x.

Definition set_finished (f : Func) (x : bool) : Func :=
  mkFunc (f_scope f) (f_name f) (f_preamble f) x (f_use f) (_entryblock f) (_exitblock f)
         (post_exit_insns f) (_varsfinalized f) (_is_extern f) (_is_pure f) (_is_inline f)
         (f_params f) (f_returns f) (future_expect_sig f).
Definition set_f_use (f : Func) (n : nat) : Func :=
  mkFunc (f_scope f) (f_name f) (f_preamble f) (_finished f) n (_entryblock f) (_exitblock f)
         (post_exit_insns f) (_varsfinalized f) (_is_extern f) (_is_pure f) (_is_inline f)
         (f_params f) (f_returns f) (future_expect_sig f).
Definition set_entryblock (f : Func) (l : loc) : Func :=
  mkFunc (f_scope f) (f_name f) (f_preamble f) (_finished f) (f_use f) l (_exitblock f)
         (post_exit_insns f) (_varsfinalized f) (_is_extern f) (_is_pure f) (_is_inline f)
         (f_params f) (f_returns f) (future_expect_sig f).
Definition set_exitblock (f : Func) (l : loc) : Func :=
  mkFunc (f_scope f) (f_name f) (f_preamble f) (_finished f) (f_use f) (_entryblock f) l
         (post_exit_insns f) (_varsfinalized f) (_is_extern f) (_is_pure f) (_is_inline f)
         (f_params f) (f_returns f) (future_expect_sig f).
Definition set_post_exit_insns (f : Func) (l : list Insn) : Func :=
  mkFunc (f_scope f) (f_name f) (f_preamble f) (_finished f) (f_use f) (_entryblock f) (_exitblock f)
         l (_varsfinalized f) (_is_extern f) (_is_pure f) (_is_inline f)
         (f_params f) (f_returns f) (future_expect_sig f).
Definition set_varsfinalized (f : Func) (x : bool) : Func :=
  mkFunc (f_scope f) (f_name f) (f_preamble f) (_finished f) (f_use f) (_entryblock f) (_exitblock f)
         (post_exit_insns f) x (_is_extern f) (_is_pure f) (_is_inline f)
         (f_params f) (f_returns f) (future_expect_sig f).
Definition set_is_extern (f : Func) (x : bool) : Func :=
  mkFunc (f_scope f) (f_name f) (f_preamble f) (_finished f) (f_use f) (_entryblock f) (_exitblock f)
         (post_exit_insns f) (_varsfinalized f) x (_is_pure f) (_is_inline f)
         (f_params f) (f_returns f) (future_expect_sig f).
Definition set_is_pure (f : Func) (x : bool) : Func :=
  mkFunc (f_scope f) (f_name f) (f_preamble f) (_finished f) (f_use f) (_entryblock f) (_exitblock f)
         (post_exit_insns f) (_varsfinalized f) (_is_extern f) x (_is_inline f)
         (f_params f) (f_returns f) (future_expect_sig f).
Definition set_is_inline (f : Func) (x : bool) : Func :=
  mkFunc (f_scope f) (f_name f) (f_preamble f) (_finished f) (f_use f) (_entryblock f) (_exitblock f)
         (post_exit_insns f) (_varsfinalized f) (_is_extern f) (_is_pure f) x
         (f_params f) (f_returns f) (future_expect_sig f).
Definition set_f_params (f : Func) (l : list (VarType * string)) : Func :=
  mkFunc (f_scope f) (f_name f) (f_preamble f) (_finished f) (f_use f) (_entryblock f) (_exitblock f)
         (post_exit_insns f) (_varsfinalized f) (_is_extern f) (_is_pure f) (_is_inline f)
         l (f_returns f) (future_expect_sig f).
Definition set_f_returns (f : Func) (l : list VarType) : Func :=
  mkFunc (f_scope f) (f_name f) (f_preamble f) (_finished f) (f_use f) (_entryblock f) (_exitblock f)
         (post_exit_insns f) (_varsfinalized f) (_is_extern f) (_is_pure f) (_is_inline f)
         (f_params f) l (future_expect_sig f).
Definition set_future_expect_sig (f : Func) (l : list loc) : Func :=
  mkFunc (f_scope f) (f_name f) (f_preamble f) (_finished f) (f_use f) (_entryblock f) (_exitblock f)
         (post_exit_insns f) (_varsfinalized f) (_is_extern f) (_is_pure f) (_is_inline f)
         (f_params f) (f_returns f) l.

Definition set_t_finished (t : Top) (x : bool) : Top :=
  mkTop (t_scope t) (t_preamble t) x (pragmas t).
Definition set_pragmas (t : Top) (l : list (string * string)) : Top :=
  mkTop (t_scope t) (t_preamble t) (t_finished t) l.
Definition set_var (v : VarObj) (p : option Proxy) : VarObj :=
  mkVariable (v_class v) (v_type v) (passtype v) p.

(** ** The state-and-exception monad *)

Definition M (A : Type) : Type := Heap → Res (A * Heap).

Definition ret {A} (a : A) : M A := λ h, Ok (a, h).
Definition raise {A} (e : PyErr) : M A := λ _, Err e.
Definition bind {A B} (c : M A) (k : A → M B) : M B :=
  λ h, match c h with
       | Ok (a, h') => k a h'
       | Err e => Err e
       end.

Notation "x <- c ;; k" := (bind c (λ x, k))
  (at level 100, c at next level, right associativity).
Notation "c ;;; k" := (bind c (λ _, k))
  (at level 100, right associativity).

(** [assert cond, msg]. *)
Definition assert (cond : bool) (msg : string) : M unit :=
  if cond then ret tt else raise (AssertionError msg).

(** Object creation, attribute read and attribute write. *)
Definition alloc (o : Obj) : M loc := λ h, Ok (length h, h ++ [o]).
Definition read (l : loc) : M Obj :=
  λ h, match h !! l with
       | Some o => Ok (o, h)
       | None => Err (RuntimeError "dangling reference")
       end.
Definition write (l : loc) (o : Obj) : M unit := λ h, Ok (tt, <[l := o]> h).
Definition get_heap : M Heap := λ h, Ok (h, h).

(** [for x in xs: body(x)]. *)
Fixpoint for_each {A} (xs : list A) (body : A → M unit) : M unit :=
  match xs with
  | [] => ret tt
  | x :: xs' => body x ;;; for_each xs' body
  end.

Definition get_scope (l : loc) : M Scope :=
  o <- read l ;;
  match o with OScope s => ret s | _ => raise (TypeError "Scope expected") end.
Definition get_block (l : loc) : M Block :=
  o <- read l ;;
  match o with OBlock b => ret b | _ => raise (AttributeError "BasicBlock expected") end.
Definition get_func (l : loc) : M Func :=
  o <- read l ;;
  match o with OFunc f => ret f | _ => raise (AttributeError "IRFunction expected") end.
Definition get_top (l : loc) : M Top :=
  o <- read l ;;
  match o with OTop t => ret t | _ => raise (AttributeError "TopLevel expected") end.
Definition get_preamble (l : loc) : M Preamble :=
  o <- read l ;;
  match o with OPreamble p => ret p | _ => raise (AttributeError "Preamble expected") end.

(** Run a computation that only reads the store. *)
Definition pure_read {A} (f : Heap → Res A) : M A :=
  λ h, match f h with Ok a => Ok (a, h) | Err e => Err e end.

(** ** Scope *)

(** [Scope.__setitem__]: store locally and record the inverse.  The value
    becomes a key of [inverse_dict] and is taken to be hashable, as the
    objects of every class of [core.py] but [Scope] are; for a [Scope],
    which is an [OrderedDict], the second assignment raises a
    [TypeError]. *)
Definition Scope_setitem (self : loc) (key : string) (value : loc) : M unit :=
  s <- get_scope self ;;
  write self (OScope (set_items s (dict_set (items s) key value)
                                  (dict_set (inverse_dict s) value key))).

(** [Scope.__contains__].  The recursion follows the parent chain; the fuel
    is the interpreter's recursion limit, taken as one more than the number
    of objects in the store, which every chain without a cycle fits in. *)
Fixpoint Scope_contains_rec (fuel : nat) (h : Heap) (self : loc) (key : string) : Res bool :=
  match fuel with
  | 0 => Err RecursionError
  | S fuel' =>
      match h !! self with
      | Some (OScope s) =>
          if dict_has (items s) key then Ok true
          else match parent s with
               | Some p => Scope_contains_rec fuel' h p key
               | None => Ok false
               end
      | _ => Err (TypeError "Scope expected")
      end
  end.

Definition recursion_limit (h : Heap) : nat := S (length h).

Definition Scope_contains (self : loc) (key : string) : M bool :=
  pure_read (λ h, Scope_contains_rec (recursion_limit h) h self key).

(** [Scope.__getitem__], falling back to [Scope.__missing__]. *)
Fixpoint Scope_getitem_rec (fuel : nat) (h : Heap) (self : loc) (key : string) : Res loc :=
  match fuel with
  | 0 => Err RecursionError
  | S fuel' =>
      match h !! self with
      | Some (OScope s) =>
          match dict_get (items s) key with
          | Some v => Ok v
          | None =>
              match parent s with
              | Some p => Scope_getitem_rec fuel' h p key
              | None => Err (KeyError key)
              end
          end
      | _ => Err (TypeError "Scope expected")
      end
  end.

Definition Scope_getitem (self : loc) (key : string) : M loc :=
  pure_read (λ h, Scope_getitem_rec (recursion_limit h) h self key).

(** [Scope.get_or_create]. *)
Definition Scope_get_or_create (self : loc) (name : string)
    (callback : string → M loc) : M loc :=
  c <- Scope_contains self name ;;
  if negb c then
    val <- callback name ;;
    Scope_setitem self name val ;;;
    ret val
  else
    Scope_getitem self name.

(** [Scope.contains_no_parent] and [Scope.get_no_parent]. *)
Definition Scope_contains_no_parent (self : loc) (key : string) : M bool :=
  s <- get_scope self ;;
  ret (dict_has (items s) key).

Definition Scope_get_no_parent (self : loc) (key : string) : M loc :=
  c <- Scope_contains_no_parent self key ;;
  if c then Scope_getitem self key else raise (KeyError key).

(** [Scope.for_value]. *)
Fixpoint Scope_for_value_rec (fuel : nat) (h : Heap) (self : loc) (value : loc)
    (look_parent : bool) : Res string :=
  match fuel with
  | 0 => Err RecursionError
  | S fuel' =>
      match h !! self with
      | Some (OScope s) =>
          match dict_get (inverse_dict s) value with
          | Some name => Ok name
          | None =>
              match look_parent, parent s with
              | true, Some p => Scope_for_value_rec fuel' h p value true
              | _, _ => Err (KeyErrorValue value)
              end
          end
      | _ => Err (TypeError "Scope expected")
      end
  end.

Definition Scope_for_value (self : loc) (value : loc) (look_parent : bool) : M string :=
  pure_read (λ h, Scope_for_value_rec (recursion_limit h) h self value look_parent).

(** ** VariableHolder

    The mixin of [TopLevel] and [IRFunction]; [self.scope] is read from
    whichever of the two [self] is. *)
Definition holder_scope (self : loc) : M loc :=
  o <- read self ;;
  match o with
  | OTop t => ret (t_scope t)
  | OFunc f => ret (f_scope f)
  | _ => raise (AttributeError "scope")
  end.

(** The number of names held by all scopes of the store: the [while] loop
    of [uniq_name] tries at most that many suffixes before one is free. *)
Definition scope_entries (h : Heap) : nat :=
  sum_list (map (λ o, match o with OScope s => length (items s) | _ => 0 end) h).

Fixpoint uniq_name_loop (fuel : nat) (scope : loc) (hint : string) (i : nat) : M string :=
  match fuel with
  | 0 => raise (RuntimeError "uniq_name does not terminate")
  | S fuel' =>
      c <- Scope_contains scope (hint +:+ pretty i) ;;
      if c then uniq_name_loop fuel' scope hint (S i)
      else ret (hint +:+ pretty i)
  end.

(** [VariableHolder.uniq_name]. *)
Definition uniq_name (self : loc) (hint : string) : M string :=
  scope <- holder_scope self ;;
  c <- Scope_contains scope hint ;;
  if negb c then ret hint
  else
    h <- get_heap ;;
    uniq_name_loop (S (scope_entries h)) scope hint 0.

(** [VariableHolder.uniq]. *)
Definition uniq (self : loc) (hint : string) (callback : string → M loc) : M loc :=
  name <- uniq_name self hint ;;
  obj <- callback name ;;
  scope <- holder_scope self ;;
  Scope_setitem scope name obj ;;;
  ret obj.

(** [VariableHolder.generate_name]. *)
Definition generate_name (self : loc) (namehint : string) (value : loc) : M loc :=
  uniq self namehint (λ _, ret value).

(** [VariableHolder.store]. *)
Definition store (self : loc) (name : string) (value : loc) : M unit :=
  scope <- holder_scope self ;;
  c <- Scope_contains_no_parent scope name ;;
  assert (negb c) name ;;;
  Scope_setitem scope name value.

(** [VariableHolder.name_for], [get_var] and [lookup]. *)
Definition name_for (self : loc) (value : loc) : M string :=
  scope <- holder_scope self ;;
  Scope_for_value scope value true.

Definition get_var (self : loc) (name : string) : M loc :=
  scope <- holder_scope self ;;
  Scope_getitem scope name.

Definition lookup (self : loc) (name : string) : M (option loc) :=
  scope <- holder_scope self ;;
  c <- Scope_contains scope name ;;
  if c then v <- Scope_getitem scope name ;; ret (Some v)
  else ret None.

(** ** BasicBlock and SuperBlock *)

(** [BasicBlock.__init__] and [SuperBlock.__init__]. *)
Definition new_BasicBlock (name : string) (func : loc) : M loc :=
  alloc (OBlock (mkBlock [] func name func false false false false 0 false false false)).

Definition new_SuperBlock (name : string) (func : loc) : M loc :=
  alloc (OBlock (mkBlock [] func name func false true false false 0 true false false)).

(** [usage], as [BasicBlock] defines it and as [SuperBlock] overrides it. *)
Definition Block_usage_obj (b : Block) : Block :=
  if is_super b then
    if _clear b then set_b_use b (S (b_use b)) else b
  else set_b_use b (S (b_use b)).

(** [use_count]. *)
Definition Block_use_count_obj (b : Block) : nat :=
  if is_super b then
    if _clear b then
      if is_entry b then 1 + b_use b else b_use b
    else 2
  else b_use b.

(** [reset]. *)
Definition Block_reset_obj (b : Block) : Block :=
  if is_super b then
    if _clear b then set_b_use b 0 else b
  else set_b_use b 0.

(** [SuperBlock.superclear]. *)
Definition superclear_obj (b : Block) : Block := set_clear b true.

(** [is_empty]: [InstructionSeq.is_empty], overridden by [SuperBlock]. *)
Definition Block_is_empty_obj (b : Block) : bool :=
  if is_super b then _clear b && bool_decide (length (insns b) = 0)
  else bool_decide (length (insns b) = 0).

Definition Block_usage (self : loc) : M unit :=
  b <- get_block self ;; write self (OBlock (Block_usage_obj b)).
Definition Block_use_count (self : loc) : M nat :=
  b <- get_block self ;; ret (Block_use_count_obj b).
Definition Block_reset (self : loc) : M unit :=
  b <- get_block self ;; write self (OBlock (Block_reset_obj b)).
Definition superclear (self : loc) : M unit :=
  b <- get_block self ;;
  if is_super b then write self (OBlock (superclear_obj b))
  else raise (AttributeError "superclear").

(** [BasicBlock.end]. *)
Definition Block_end (self : loc) : M unit :=
  b <- get_block self ;; assert (defined b) "block not defined".

(** [BasicBlock.is_terminated]. *)
Definition Block_is_terminated (self : loc) : M bool :=
  b <- get_block self ;;
  assert (defined b) "" ;;;
  if is_function b then ret true
  else match last (insns b) with
       | None => ret false
       | Some i => ret (terminator i)
       end.

(** [BasicBlock.validate_insn]: reject an append to a terminated block
    unless forced, and turn a [Return] into a branch to the exit block of
    the owning function. *)
Definition BasicBlock_validate_insn (self : loc) (insn : Insn) : M Insn :=
  b <- get_block self ;;
  (if negb (force b) && negb (bool_decide (insns b = []))
      && from_option terminator false (last (insns b))
   then raise (AssertionError "Block is terminated")
   else ret tt) ;;;
  if bool_decide (kind insn = KReturn) then
    f <- get_func (_func b) ;;
    ret (Branch (_exitblock f))
  else ret insn.

(** [Preamble.validate_insn]. *)
Definition Preamble_validate_insn (self : loc) (insn : Insn) : M Insn :=
  assert (preamble_safe insn) "insn.preamble_safe" ;;;
  ret insn.

(** [validate_insn], dispatched on the class of the sequence. *)
Definition validate_insn (self : loc) (insn : Insn) : M Insn :=
  o <- read self ;;
  match o with
  | OBlock _ => BasicBlock_validate_insn self insn
  | OPreamble _ => Preamble_validate_insn self insn
  | _ => raise (AttributeError "validate_insn")
  end.

(** [self.holder] and [self.insns.append(insn)] of an instruction sequence. *)
Definition seq_holder (self : loc) : M loc :=
  o <- read self ;;
  match o with
  | OBlock b => ret (holder b)
  | OPreamble p => ret (p_holder p)
  | _ => raise (AttributeError "holder")
  end.

Definition seq_append (self : loc) (insn : Insn) : M unit :=
  o <- read self ;;
  match o with
  | OBlock b => write self (OBlock (set_insns b (insns b ++ [insn])))
  | OPreamble p => write self (OPreamble (set_p_insns p (p_insns p ++ [insn])))
  | _ => raise (AttributeError "insns")
  end.

Definition seq_insns (self : loc) : M (list Insn) :=
  o <- read self ;;
  match o with
  | OBlock b => ret (insns b)
  | OPreamble p => ret (p_insns p)
  | _ => raise (AttributeError "insns")
  end.

(** ** Instruction hooks *)

(** [insn.insn_name].  Only a constructor instruction is ever named after
    its class.  Modelled from the spec: the names of [DefineVariable] and
    [DefineGlobal] are declared outside the sources at hand; [core.py] always
    passes them a name hint. *)
Definition insn_name (i : Insn) : string :=
  match kind i with
  | KCreateEvent => "event"
  | KAddEventCondition => "add_event_condition"
  | KEventHandler => "event_handler"
  | KRevokeEventAdvancement => "revoke_event_adv"
  | KSetupInsn => "setupfn"
  | KExternInsn => "extern"
  | KPureInsn => "pure_func"
  | KInlineInsn => "inline"
  | KRunCallbackOnExit => "run_callback_on_exit"
  | KDefineVariable => "define"
  | KDefineGlobal => "global"
  | KOther n _ _ _ => n
  | _ => ""
  end.

(** [construct()] of the constructor instructions: [CreateEvent] builds an
    [EventRef] ([events.py]).  Modelled from the spec: [DefineVariable] and
    [DefineGlobal] build a fresh variable of the given type that is not yet
    mapped to any storage. *)
Definition construct (insn : Insn) : M loc :=
  match kind insn, args insn with
  | KCreateEvent, [VStr event_name] => alloc (OEvent event_name)
  | KDefineVariable, [VTypes [t]] => alloc (OVar (mkVariable LocalVariable t "" None))
  | KDefineGlobal, [VTypes [t]] => alloc (OVar (mkVariable GlobalVariable t "" None))
  | _, _ => raise (TypeError "construct")
  end.

(** The flag setters of [IRFunction] the markers of [func_prop.py] call. *)
Definition set_extern (self : loc) (is_extern : bool) : M unit :=
  f <- get_func self ;; write self (OFunc (set_is_extern f is_extern)).
Definition set_pure (self : loc) : M unit :=
  f <- get_func self ;; write self (OFunc (set_is_pure f true)).
Definition set_inline (self : loc) : M unit :=
  f <- get_func self ;; write self (OFunc (set_is_inline f true)).

(** [InstructionSeq.add], over the activation hook [act] of the added
    instruction.  [with_name] is [False] ([NoName]), [True] ([AutoName]) or
    a string ([Named]). *)
Inductive WithName : Type :=
| NoName
| AutoName
| Named (name : string).

Definition add_with (act : Insn → loc → M (Insn * option loc))
    (self : loc) (insn : Insn) (with_name : WithName) (namehint : option string)
    : M (option loc) :=
  insn <- validate_insn self insn ;;
  r <- act insn self ;;
  seq_append self r.1 ;;;
  match with_name with
  | NoName | Named "" => ret None
  | _ =>
      match r.2 with
      | None => raise (AssertionError "ret is not None")
      | Some v =>
          holder <- seq_holder self ;;
          name <- match with_name with
                  | Named name => ret name
                  | _ => uniq_name holder
                           (match namehint with
                            | Some n => if bool_decide (n = "") then insn_name insn else n
                            | None => insn_name insn
                            end)
                  end ;;
          store holder name v ;;;
          ret (Some v)
      end
  end.

(** The activation hook every instruction inherits: nothing happens and
    nothing is returned. *)
Definition activate_default (insn : Insn) (seq : loc) : M (Insn * option loc) :=
  ret (insn, None).

(** [IRFunction.add_advancement_revoke].  The instruction it adds has the
    inherited activation hook. *)
Definition add_advancement_revoke (self : loc) (event : loc) : M unit :=
  f <- get_func self ;;
  add_with activate_default (_entryblock f) (RevokeEventAdvancement self) NoName None ;;;
  ret tt.

(** [insn.activate(seq)]: a constructor instruction builds its entity and
    keeps it in [_value]; [EventHandler] ([events.py]) and the four function
    markers ([func_prop.py]) act on the handler and on the holder.  An
    instruction of any other class is taken to have the hook it inherits,
    which does nothing; [add_with] leaves the hook open. *)
Definition activate (insn : Insn) (seq : loc) : M (Insn * option loc) :=
  match kind insn with
  | KDefineVariable | KDefineGlobal | KCreateEvent =>
      v <- construct insn ;;
      ret (mkInsn (kind insn) (args insn) (Some v), Some v)
  | KEventHandler =>
      match args insn with
      | [VRef handler; VRef event] =>
          o <- read event ;;
          match o with
          | OEvent name =>
              (if negb (bool_decide (name ∈ ["minecraft:tick"; "minecraft:load"]))
               then add_advancement_revoke handler event
               else ret tt) ;;;
              ret (insn, None)
          | _ => raise (AttributeError "name")
          end
      | _ => raise (TypeError "EventHandler")
      end
  | KExternInsn =>
      holder <- seq_holder seq ;; set_extern holder true ;;; ret (insn, None)
  | KPureInsn =>
      holder <- seq_holder seq ;; set_pure holder ;;; ret (insn, None)
  | KInlineInsn =>
      holder <- seq_holder seq ;; set_inline holder ;;; ret (insn, None)
  | KRunCallbackOnExit =>
      holder <- seq_holder seq ;;
      f <- get_func holder ;;
      write holder (OFunc (set_post_exit_insns f (post_exit_insns f ++ [RunDeferredCallback]))) ;;;
      ret (insn, None)
  | _ => activate_default insn seq
  end.

(** [InstructionSeq.add] and [InstructionSeq.define]. *)
Definition add (self : loc) (insn : Insn) (with_name : WithName)
    (namehint : option string) : M (option loc) :=
  add_with activate self insn with_name namehint.

Definition define (self : loc) (insn : Insn) : M (option loc) :=
  add self insn AutoName None.

(** ** Loops over live containers *)

(** [for name, var in scope.items(): ...], carrying the local variables
    [st] of the enclosing function along.  The iterator of an [OrderedDict]
    raises once the set of keys has changed under it; the value of a key is
    read when the key is reached. *)
Fixpoint fold_items_rec {St} (scope : loc) (keys0 todo : list string)
    (body : string → loc → St → M St) (st : St) : M St :=
  match todo with
  | [] => ret st
  | k :: rest =>
      s <- get_scope scope ;;
      if bool_decide (dict_keys (items s) = keys0) then
        match dict_get (items s) k with
        | Some v => st' <- body k v st ;; fold_items_rec scope keys0 rest body st'
        | None => raise (RuntimeError "OrderedDict mutated during iteration")
        end
      else raise (RuntimeError "OrderedDict mutated during iteration")
  end.

Definition fold_scope_items {St} (scope : loc) (body : string → loc → St → M St)
    (st : St) : M St :=
  s <- get_scope scope ;;
  fold_items_rec scope (dict_keys (items s)) (dict_keys (items s)) body st.

Definition for_scope_items (scope : loc) (body : string → loc → M unit) : M unit :=
  fold_scope_items scope (λ name var _, body name var) tt.

(** [for insn in insns: ...] over a list that the body may append to: the
    element at index [i] is read when it is reached.  The fuel bounds the
    run; a loop that outgrows it does not end in Python either, or visits
    instructions the body itself appended. *)
Fixpoint fold_live {St} (fuel : nat) (get : M (list Insn)) (i : nat)
    (body : Insn → St → M St) (st : St) : M St :=
  match fuel with
  | 0 => raise (RuntimeError "loop over a growing list")
  | S fuel' =>
      l <- get ;;
      match l !! i with
      | None => ret st
      | Some insn => st' <- body insn st ;; fold_live fuel' get (S i) body st'
      end
  end.

Definition fold_insns {St} (get : M (list Insn)) (body : Insn → St → M St)
    (st : St) : M St :=
  l <- get ;;
  fold_live (2 * length l + 1) get 0 body st.

Definition for_insns (get : M (list Insn)) (body : Insn → M unit) : M unit :=
  fold_insns get (λ insn _, body insn) tt.

(** ** VisibleFunction, ExternFunction *)

Definition get_extern (l : loc) : M Extern :=
  o <- read l ;;
  match o with OExtern e => ret e | _ => raise (AttributeError "ExternFunction expected") end.

Definition is_VisibleFunction (h : Heap) (l : loc) : bool :=
  match h !! l with
  | Some (OFunc _) | Some (OExtern _) => true
  | _ => false
  end.
Definition is_ExternFunction (h : Heap) (l : loc) : bool :=
  match h !! l with Some (OExtern _) => true | _ => false end.
Definition is_IRFunction (h : Heap) (l : loc) : bool :=
  match h !! l with Some (OFunc _) => true | _ => false end.
Definition is_BasicBlock (h : Heap) (l : loc) : bool :=
  match h !! l with Some (OBlock _) => true | _ => false end.

(** What a caller may pass for [params] of [ExternFunction.__init__]:
    [None], a list of [(type, pass-mode)] pairs, or (as [include_from]
    does) a [TopLevel]. *)
Inductive PyArg : Type :=
| PyNone
| PyParams (l : list (VarType * string))
| PyTopLevel (top : loc).

(** [ExternFunction.__init__].  [list(params or [])] raises a [TypeError]
    on an object that is not iterable; a [TopLevel] defines neither
    [__bool__] nor [__len__] nor [__iter__]. *)
Definition ExternFunction_init (global_name : string) (params : PyArg)
    (returns : option (list VarType)) : M loc :=
  ps <- match params with
        | PyNone => ret []
        | PyParams l => ret l
        | PyTopLevel _ => raise (TypeError "'TopLevel' object is not iterable")
        end ;;
  let rs := default [] returns in
  for_each ps (λ p, assert (bool_decide (p.2 ∈ ["byval"; "byref"])) "ppass") ;;;
  alloc (OExtern (mkExtern global_name ps rs)).

(** The [finished], [params] and [returns] attributes of a visible
    function: [ExternFunction.finished] is the constant [True]. *)
Definition ExternFunction_finished (e : Extern) : bool := true.

Definition finished (self : loc) : M bool :=
  o <- read self ;;
  match o with
  | OFunc f => ret (_finished f)
  | OExtern e => ret (ExternFunction_finished e)
  | _ => raise (AttributeError "finished")
  end.

Definition params (self : loc) : M (list (VarType * string)) :=
  o <- read self ;;
  match o with
  | OFunc f => ret (f_params f)
  | OExtern e => ret (e_params e)
  | _ => raise (AttributeError "params")
  end.

Definition returns (self : loc) : M (list VarType) :=
  o <- read self ;;
  match o with
  | OFunc f => ret (f_returns f)
  | OExtern e => ret (e_returns e)
  | _ => raise (AttributeError "returns")
  end.

(** [IRFunction.expect_signature]. *)
Definition IRFunction_expect_signature (self other : loc) : M unit :=
  fin <- finished other ;;
  assert fin "other.finished" ;;;
  f <- get_func self ;;
  if negb (_finished f) then
    write self (OFunc (set_future_expect_sig f (future_expect_sig f ++ [other])))
  else
    ps <- params other ;;
    assert (bool_decide (f_params f = ps)) "params" ;;;
    rs <- returns other ;;
    assert (bool_decide (f_returns f = rs)) "returns".

(** [ExternFunction.expect_signature].  An unfinished [other] is an
    [IRFunction], whose own check is deferred. *)
Definition ExternFunction_expect_signature (self other : loc) : M unit :=
  e <- get_extern self ;;
  fin <- finished other ;;
  if negb fin then IRFunction_expect_signature other self
  else
    ps <- params other ;;
    assert (bool_decide (e_params e = ps)) "params" ;;;
    rs <- returns other ;;
    assert (bool_decide (e_returns e = rs)) "returns".

Definition expect_signature (self other : loc) : M unit :=
  o <- read self ;;
  match o with
  | OFunc _ => IRFunction_expect_signature self other
  | OExtern _ => ExternFunction_expect_signature self other
  | _ => raise (AttributeError "expect_signature")
  end.

(** [VisibleFunction.validate_args]. *)
Definition validate_args (self : loc) (args retvars : option (list Val)) : M unit :=
  fin <- finished self ;;
  assert fin "self.finished" ;;;
  ps <- params self ;;
  match ps, args with
  | [], None => ret tt
  | [], Some _ => raise (AssertionError "Args when no params")
  | _ :: _, None => raise (AssertionError "Missing args")
  | _ :: _, Some args =>
      assert (bool_decide (length args = length ps)) "Incorrect number of args" ;;;
      for_each (zip ps args) (λ pa,
        match pa.2 with
        | VInt _ => assert (bool_decide (pa.1.1 = i32)) "Literal int on non i32"
        | VFloat _ => assert (bool_decide (pa.1.1 = q10)) "Literal float on non q10"
        | VRef l =>
            o <- read l ;;
            match o with
            | OVar v => assert (bool_decide (v_type v = pa.1.1)) "Arg type mismatch"
            | _ => raise (AssertionError "Arg must be variable")
            end
        | _ => raise (AssertionError "Arg must be variable")
        end)
  end ;;;
  rs <- returns self ;;
  match rs, retvars with
  | [], None => ret tt
  | [], Some _ => raise (AssertionError "Retvar when no returns")
  | _ :: _, None => raise (AssertionError "Missing return variables")
  | _ :: _, Some retvars =>
      assert (bool_decide (length retvars = length rs)) "Incorrect num of retvars" ;;;
      for_each (zip rs retvars) (λ rd,
        match rd.2 with
        | VNone => ret tt
        | VRef l =>
            o <- read l ;;
            match o with
            | OVar v => assert (bool_decide (v_type v = rd.1)) "Retvar type mismatch"
            | _ => raise (AssertionError "Retvar must be a var")
            end
        | _ => raise (AssertionError "Retvar must be a var")
        end)
  end.

(** ** IRFunction *)

(** [IRFunction.allblocks] and [IRFunction.blocks]. *)
Definition allblocks (self : loc) : M (list loc) :=
  f <- get_func self ;;
  s <- get_scope (f_scope f) ;;
  h <- get_heap ;;
  ret (List.filter (is_BasicBlock h) (dict_values (items s))).

Definition blocks (self : loc) : M (list loc) :=
  f <- get_func self ;;
  all <- allblocks self ;;
  ret (List.filter (λ b, negb (bool_decide (b ∈ [_entryblock f; _exitblock f]))) all).

(** [IRFunction._create_super_block] and [IRFunction._create_block]. *)
Definition _create_super_block (self : loc) (name : string) : M loc :=
  new_SuperBlock name self.
Definition _create_block (self : loc) (name : string) : M loc :=
  new_BasicBlock name self.

(** [IRFunction.__init__].  The object exists before its attributes are
    assigned; the two super blocks are named with a leading "0". *)
Definition IRFunction_init (name : string) (top : loc) : M loc :=
  t <- get_top top ;;
  self <- alloc (OFunc (mkFunc 0 name 0 false 0 0 0 [] false false false false [] [] [])) ;;
  scope <- alloc (OScope (mkScope [] [] (Some (t_scope t)))) ;;
  preamble <- alloc (OPreamble (mkPreamble [] self false)) ;;
  write self (OFunc (mkFunc scope name preamble false 0 0 0 [] false false false false [] [] [])) ;;;
  entry <- uniq self "0entry" (_create_super_block self) ;;
  f <- get_func self ;;
  write self (OFunc (set_entryblock f entry)) ;;;
  b <- get_block entry ;;
  write entry (OBlock (set_is_entry b true)) ;;;
  exit <- uniq self "0ret" (_create_super_block self) ;;
  f <- get_func self ;;
  write self (OFunc (set_exitblock f exit)) ;;;
  ret self.

(** [IRFunction.usage] and [IRFunction.entry_point_usage]. *)
Definition entry_point_usage (self : loc) : M unit :=
  all <- allblocks self ;;
  match all with
  | [] => raise IndexError
  | b0 :: _ =>
      Block_usage b0 ;;;
      f <- get_func self ;;
      if negb (_varsfinalized f) then
        bs <- blocks self ;;
        match bs with
        | [] => raise IndexError
        | b :: _ => Block_usage b
        end
      else ret tt
  end.

Definition IRFunction_usage (self : loc) : M unit :=
  f <- get_func self ;;
  write self (OFunc (set_f_use f (S (f_use f)))) ;;;
  entry_point_usage self.

(** [usage()], dispatched on the class of the object: [ExternFunction.usage]
    does nothing. *)
Definition usage (self : loc) : M unit :=
  o <- read self ;;
  match o with
  | OFunc _ => IRFunction_usage self
  | OExtern _ => ret tt
  | OBlock _ => Block_usage self
  | _ => raise (AttributeError "usage")
  end.

(** [insn.declare()]: [EventHandler] and [SetupInsn] ([events.py]) count a
    use of their function; the inherited hook does nothing. *)
Definition declare (insn : Insn) : M unit :=
  match kind insn, args insn with
  | KEventHandler, VRef handler :: _ => usage handler
  | KSetupInsn, VRef func :: _ => usage func
  | _, _ => ret tt
  end.

(** [IRFunction.add_parameter] and [IRFunction.add_return]. *)
Definition add_parameter (self : loc) (vtype : VarType) (passtype : string) : M unit :=
  f <- get_func self ;;
  write self (OFunc (set_f_params f (f_params f ++ [(vtype, passtype)]))).
Definition add_return (self : loc) (vtype : VarType) : M unit :=
  f <- get_func self ;;
  write self (OFunc (set_f_returns f (f_returns f ++ [vtype]))).

(** [IRFunction.is_defined] and [IRFunction.global_name]. *)
Definition is_defined (self : loc) : M bool :=
  f <- get_func self ;;
  if negb (_varsfinalized f) then
    bs <- blocks self ;; ret (bool_decide (0 < length bs))
  else
    bs <- allblocks self ;; ret (bool_decide (0 < length bs)).

Definition IRFunction_global_name (self : loc) : M string :=
  d <- is_defined self ;;
  f <- get_func self ;;
  assert d (f_name f) ;;;
  ret (f_name f).

(** [global_name] of a visible function: [ExternFunction.global_name]
    always fails its assertion. *)
Definition global_name (self : loc) : M string :=
  o <- read self ;;
  match o with
  | OFunc _ => IRFunction_global_name self
  | OExtern e => raise (AssertionError ("Extern function cannot be referenced: " +:+ _gname e))
  | _ => raise (AttributeError "global_name")
  end.

(** [IRFunction.get_or_create_block] and [IRFunction.create_block]. *)
Definition get_or_create_block (self : loc) (name : string) : M loc :=
  f <- get_func self ;;
  Scope_get_or_create (f_scope f) name (_create_block self).

Definition create_block (self : loc) (namehint : string) : M loc :=
  block <- uniq self namehint (_create_block self) ;;
  b <- get_block block ;;
  write block (OBlock (set_defined b true)) ;;;
  ret block.

(** [IRFunction.create_var]. *)
Definition create_var (self : loc) (namehint : string) (vartype : VarType) : M loc :=
  f <- get_func self ;;
  r <- add (f_preamble f) (DefineVariable vartype) AutoName (Some namehint) ;;
  match r with
  | Some v => ret v
  | None => raise (AssertionError "ret is not None")
  end.

(** [IRFunction.end]. *)
Definition IRFunction_end (self : loc) : M unit :=
  d <- is_defined self ;;
  assert d "self.is_defined" ;;;
  f <- get_func self ;;
  assert (negb (_finished f)) "not self.finished" ;;;
  bs <- blocks self ;;
  for_each bs Block_end ;;;
  f <- get_func self ;;
  write self (OFunc (set_finished f true)) ;;;
  for_each (future_expect_sig f) (λ other, IRFunction_expect_signature self other).

(** [IRFunction.is_closed]: [all] stops at the first block that is not
    terminated. *)
Fixpoint all_terminated (bs : list loc) : M bool :=
  match bs with
  | [] => ret true
  | b :: bs' =>
      t <- Block_is_terminated b ;;
      if t then all_terminated bs' else ret false
  end.

Definition is_closed (self : loc) : M bool :=
  bs <- blocks self ;;
  all_terminated bs.

(** Modelled from the spec: [set_proxy] and [realign_frame] belong to
    [cmd_ir/variables.py].  A parameter or return variable is given a
    dedicated stack slot, whose addressing [realign_frame] shifts by the
    given number of frame levels. *)
Definition set_proxy (self : loc) (p : Proxy) : M unit :=
  o <- read self ;;
  match o with
  | OVar v => write self (OVar (set_var v (Some p)))
  | _ => raise (AttributeError "set_proxy")
  end.

Definition realign_frame (self : loc) (n : nat) : M unit :=
  o <- read self ;;
  match o with
  | OVar v =>
      match var v with
      | Some (LocalStackVariable t off fr) =>
          write self (OVar (set_var v (Some (LocalStackVariable t off (fr + n)))))
      | _ => ret tt
      end
  | _ => raise (AttributeError "realign_frame")
  end.

Definition var_class_of (h : Heap) (l : loc) : option VarClass :=
  match h !! l with Some (OVar v) => Some (v_class v) | _ => None end.

Definition place_on_stack (hasownstackframe : bool) (v : loc) (offset : Z) : M unit :=
  o <- read v ;;
  match o with
  | OVar vo =>
      set_proxy v (LocalStackVariable (v_type vo) offset 0) ;;;
      if hasownstackframe then realign_frame v 1 else ret tt
  | _ => raise (AttributeError "type")
  end.

(** [IRFunction.configure_parameters]: parameters first, in the order of
    the scope, then the return variables. *)
Fixpoint configure_slots (hasownstackframe : bool) (vs : list loc) (offset : Z) : M Z :=
  match vs with
  | [] => ret offset
  | v :: vs' =>
      place_on_stack hasownstackframe v offset ;;;
      configure_slots hasownstackframe vs' (offset + 1)%Z
  end.

Definition configure_parameters (self : loc) (hasownstackframe : bool) : M unit :=
  f <- get_func self ;;
  s <- get_scope (f_scope f) ;;
  h <- get_heap ;;
  let values := dict_values (items s) in
  let pars := List.filter (λ v, bool_decide (var_class_of h v = Some ParameterVariable)) values in
  let rets := List.filter (λ v, bool_decide (var_class_of h v = Some ReturnVariable)) values in
  offset <- configure_slots hasownstackframe pars 0%Z ;;
  configure_slots hasownstackframe rets offset ;;;
  ret tt.

(** [IRFunction.add_entry_exit].

    [sorted(..., key=lambda v: v.offset)] is a merge sort on the offsets;
    [len({v.offset for v in vars})] counts the offsets without repeats. *)
Definition proxy_offset (p : Proxy) : Z :=
  match p with
  | NbtOffsetVariable _ o => o
  | LocalStackVariable _ o _ => o
  end.

Definition proxy_type (p : Proxy) : VarType :=
  match p with
  | NbtOffsetVariable t _ => t
  | LocalStackVariable t _ _ => t
  end.

(** [var.var] when [var] is a [LocalVariable] proxied by an
    [NbtOffsetVariable]. *)
Definition stack_resident (h : Heap) (l : loc) : option Proxy :=
  match h !! l with
  | Some (OVar v) =>
      match v_class v, var v with
      | LocalVariable, Some (NbtOffsetVariable t o) => Some (NbtOffsetVariable t o)
      | _, _ => None
      end
  | _ => None
  end.

Definition offset_le (a b : Proxy) : Prop := (proxy_offset a ≤ proxy_offset b)%Z.

Global Instance offset_le_dec : RelDecision offset_le.
Proof. intros a b. unfold offset_le. apply _. Defined.

Definition sorted_by_offset (l : list Proxy) : list Proxy :=
  merge_sort offset_le l.

(** The stack-resident locals of a scope, sorted from the tip of the stack
    to its base. *)
Definition stack_vars (h : Heap) (s : Scope) : list Proxy :=
  sorted_by_offset (omap (stack_resident h) (dict_values (items s))).

Definition add_ (self : loc) (insn : Insn) : M unit :=
  add self insn NoName None ;;; ret tt.

Definition get_post_exit_insns (self : loc) : M (list Insn) :=
  f <- get_func self ;; ret (post_exit_insns f).

Definition add_entry_exit (self : loc) : M (list Proxy) :=
  f <- get_func self ;;
  s <- get_scope (f_scope f) ;;
  h <- get_heap ;;
  let vars := stack_vars h s in
  (if bool_decide (vars = []) then ret tt
   else
     assert (bool_decide (from_option proxy_offset 0%Z (head vars) = 0%Z))
            "Stack tip not 0" ;;;
     assert (bool_decide (from_option proxy_offset 0%Z (last vars)
                          = (Z.of_nat (length vars) - 1)%Z))
            "Stack base not length - 1" ;;;
     assert (bool_decide (length (remove_dups (proxy_offset <$> vars)) = length vars))
            "Stack collision" ;;;
     add_ (_entryblock f) (PushNewStackFrame (proxy_type <$> reverse vars)) ;;;
     add_ (_exitblock f) PopStack) ;;;
  for_insns (get_post_exit_insns self) (λ insn, add_ (_exitblock f) insn) ;;;
  bs <- blocks self ;;
  match bs with
  | [] => raise IndexError
  | b0 :: _ => add_ (_entryblock f) (Branch b0) ;;; ret vars
  end.

(** [IRFunction.variables_finalized]. *)
Definition get_insns (block : loc) : M (list Insn) :=
  b <- get_block block ;; ret (insns b).

Definition variables_finalized (self : loc) : M unit :=
  d <- is_defined self ;;
  f <- get_func self ;;
  assert d (f_name f) ;;;
  assert (negb (_varsfinalized f)) (f_name f) ;;;
  stackvars <- add_entry_exit self ;;
  configure_parameters self (negb (bool_decide (stackvars = []))) ;;;
  closed <- is_closed self ;;
  (if closed then
     e <- get_block (_entryblock f) ;;
     write (_entryblock f) (OBlock (set_force e true)) ;;;
     for_insns (get_insns (_exitblock f)) (λ insn, add_ (_entryblock f) insn) ;;;
     x <- get_block (_exitblock f) ;;
     write (_exitblock f) (OBlock (set_insns x []))
   else ret tt) ;;;
  superclear (_entryblock f) ;;;
  superclear (_exitblock f) ;;;
  f <- get_func self ;;
  write self (OFunc (set_varsfinalized f true)).

(** ** Remapping and inlining *)

(** Modelled from the spec: [insn.query(arg_type)] yields the argument
    slots that hold an entity of the given kind; [apply_mapping] replaces
    the entity of each such slot that the mapping knows. *)
Definition map_arg (is_kind : loc → bool) (mapping : list (loc * Val)) (a : Val) : Val :=
  match a with
  | VRef l => if is_kind l then default a (dict_get mapping l) else a
  | _ => a
  end.

Definition map_insn (is_kind : loc → bool) (mapping : list (loc * Val)) (i : Insn) : Insn :=
  mkInsn (kind i) (map_arg is_kind mapping <$> args i) (_value i).

(** [InstructionSeq.apply_mapping]. *)
Definition apply_mapping (self : loc) (arg_type : Heap → loc → bool)
    (mapping : list (loc * Val)) : M unit :=
  h <- get_heap ;;
  o <- read self ;;
  match o with
  | OBlock b =>
      write self (OBlock (set_insns b (map_insn (arg_type h) mapping <$> insns b)))
  | OPreamble p =>
      write self (OPreamble (set_p_insns p (map_insn (arg_type h) mapping <$> p_insns p)))
  | _ => raise (AttributeError "insns")
  end.

(** Modelled from the spec: [insn.copy_with_changes(scope_mapping)] clones
    the instruction with the substitution applied to its operands; the
    clone has not been activated. *)
Definition copy_with_changes (i : Insn) (scope_mapping : list (loc * Val)) : Insn :=
  mkInsn (kind i) (map_arg (λ _, true) scope_mapping <$> args i) None.

(** [IRFunction._inline_seq]; the updated [scope_mapping] is returned. *)
Definition _inline_step (self to_seq : loc) (insn : Insn)
    (scope_mapping : list (loc * Val)) : M (list (loc * Val)) :=
  if negb (inline_copyable insn) then ret scope_mapping
  else
    let new_insn := copy_with_changes insn scope_mapping in
    scope_mapping' <-
      (if is_constructor insn then
         match _value insn with
         | None => raise (KeyError "None")
         | Some v =>
             name <- name_for self v ;;
             r <- add to_seq new_insn AutoName (Some name) ;;
             ret (dict_set scope_mapping v (from_option VRef VNone r))
         end
       else
         add to_seq new_insn NoName None ;;; ret scope_mapping) ;;
    declare new_insn ;;;
    ret scope_mapping'.

Definition _inline_seq (self from_seq to_seq : loc)
    (scope_mapping : list (loc * Val)) : M (list (loc * Val)) :=
  fold_insns (seq_insns from_seq) (_inline_step self to_seq) scope_mapping.

(** [IRFunction.inline_into].  The local variables of the first loop. *)
Record InlineState : Type := mkInlineState {
  block_mapping : list (loc * loc);
  scope_mapping : list (loc * Val);
  argiter : list Val;
  retiter : list Val;
  entry_insns : list Insn
}.

(** [arg_var.type]. *)
Definition val_type (a : Val) : M VarType :=
  match a with
  | VRef l =>
      o <- read l ;;
      match o with
      | OVar v => ret (v_type v)
      | _ => raise (AttributeError "type")
      end
  | _ => raise (AttributeError "type")
  end.

(** One round of the loop over [self.scope.items()]. *)
Definition inline_bind (other : loc) (name : string) (v : loc)
    (st : InlineState) : M InlineState :=
  o <- read v ;;
  match o with
  | OBlock b =>
      new_block <- create_block other (b_name b) ;;
      nb <- get_block new_block ;;
      write new_block (OBlock (set_defined (set_is_function nb (is_function b)) (defined b))) ;;;
      ret (mkInlineState (dict_set (block_mapping st) v new_block)
                         (dict_set (scope_mapping st) v (VRef new_block))
                         (argiter st) (retiter st) (entry_insns st))
  | OVar vo =>
      match v_class vo with
      | ParameterVariable =>
          match argiter st with
          | [] => raise StopIteration
          | arg_var :: argiter' =>
              match arg_var with
              | VInt _ | VFloat _ =>
                  assert (bool_decide (passtype vo = "byval")) "var.passtype == 'byval'" ;;;
                  ret (mkInlineState (block_mapping st)
                                     (dict_set (scope_mapping st) v arg_var)
                                     argiter' (retiter st) (entry_insns st))
              | _ =>
                  if bool_decide (passtype vo = "byval") then
                    match arg_var with
                    | VRef a =>
                        name <- name_for other a ;;
                        t <- val_type arg_var ;;
                        copy_var <- create_var other (name +:+ "_copy") t ;;
                        ret (mkInlineState (block_mapping st)
                                           (dict_set (scope_mapping st) v (VRef copy_var))
                                           argiter' (retiter st)
                                           (entry_insns st ++ [SetScore copy_var arg_var]))
                    | _ => raise (KeyError "arg_var")
                    end
                  else
                    ret (mkInlineState (block_mapping st)
                                       (dict_set (scope_mapping st) v arg_var)
                                       argiter' (retiter st) (entry_insns st))
              end
          end
      | ReturnVariable =>
          match retiter st with
          | [] => raise StopIteration
          | r :: retiter' =>
              ret (mkInlineState (block_mapping st)
                                 (dict_set (scope_mapping st) v r)
                                 (argiter st) retiter' (entry_insns st))
          end
      | _ => ret st
      end
  | _ => ret st
  end.

(** The loop over [block_mapping.items()]. *)
Fixpoint inline_blocks (self : loc) (bm : list (loc * loc))
    (scope_mapping : list (loc * Val)) : M (list (loc * Val)) :=
  match bm with
  | [] => ret scope_mapping
  | (old_block, new_block) :: bm' =>
      sm <- _inline_seq self old_block new_block scope_mapping ;;
      inline_blocks self bm' sm
  end.

Definition inline_into (self other : loc) (args retvars : option (list Val))
    : M (loc * loc) :=
  validate_args self args retvars ;;;
  f <- get_func self ;;
  assert (negb (_varsfinalized f)) "not self._varsfinalized" ;;;
  g <- get_func other ;;
  assert (negb (_varsfinalized g)) "not other._varsfinalized" ;;;
  st <- fold_scope_items (f_scope f) (inline_bind other)
          (mkInlineState [] [] (default [] args) (default [] retvars) []) ;;
  assert (bool_decide (argiter st = [])) "argiter" ;;;
  assert (bool_decide (retiter st = [])) "retiter" ;;;
  sm <- _inline_seq self (f_preamble f) (f_preamble g) (scope_mapping st) ;;
  bs <- blocks self ;;
  match bs with
  | [] => raise IndexError
  | b0 :: _ =>
      match dict_get (block_mapping st) b0 with
      | None => raise (KeyErrorValue b0)
      | Some entry_block =>
          for_each (entry_insns st) (add_ entry_block) ;;;
          inline_blocks self (block_mapping st) sm ;;;
          match dict_get (block_mapping st) (_exitblock f) with
          | None => raise (KeyErrorValue (_exitblock f))
          | Some exit_block =>
              f' <- get_func self ;;
              for_each (post_exit_insns f')
                (λ insn, assert (bool_decide (kind insn = KRunDeferredCallback))
                                "isinstance(insn, RunDeferredCallback)") ;;;
              ret (entry_block, exit_block)
          end
      end
  end.

(** ** TopLevel *)

(** [TopLevel.__init__]. *)
Definition TopLevel_init : M loc :=
  self <- alloc (OTop (mkTop 0 0 false [])) ;;
  scope <- alloc (OScope (mkScope [] [] None)) ;;
  preamble <- alloc (OPreamble (mkPreamble [] self true)) ;;
  write self (OTop (mkTop scope preamble false [])) ;;;
  pos_util <- alloc OPosUtilEntity ;;
  store self "pos_util" pos_util ;;;
  global_entity <- alloc OGlobalEntity ;;
  store self "_global_entity" global_entity ;;;
  ret self.

(** [TopLevel._create_func], [get_or_create_func] and [create_function]. *)
Definition _create_func (self : loc) (name : string) : M loc :=
  IRFunction_init name self.

Definition get_or_create_func (self : loc) (name : string) : M loc :=
  t <- get_top self ;;
  Scope_get_or_create (t_scope t) name (_create_func self).

Definition create_function (self : loc) (namehint : string) : M loc :=
  uniq self namehint (_create_func self).

(** [TopLevel.lookup_func]. *)
Definition lookup_func (self : loc) (name : string) : M (option loc) :=
  func <- lookup self name ;;
  match func with
  | None => ret None
  | Some l =>
      h <- get_heap ;;
      assert (is_VisibleFunction h l) "isinstance(func, VisibleFunction)" ;;;
      ret (Some l)
  end.

(** [name.startswith('__')]. *)
Definition startswith (name pre : string) : bool := String.prefix pre name.

(** [TopLevel.include_from]. *)
Definition include_from (self other : loc) : M unit :=
  o <- get_top other ;;
  for_scope_items (t_scope o) (λ name v,
    h <- get_heap ;;
    if is_VisibleFunction h v && negb (startswith name "__") then
      gname <- global_name v ;;
      stub <- ExternFunction_init gname (PyTopLevel self) None ;;
      t <- get_top self ;;
      Scope_setitem (t_scope t) name stub
    else ret tt).

(** [TopLevel.end]. *)
Definition TopLevel_end (self : loc) : M unit :=
  t <- get_top self ;;
  assert (negb (t_finished t)) "not self.finished" ;;;
  for_scope_items (t_scope t) (λ name v,
    h <- get_heap ;;
    if is_VisibleFunction h v then
      fin <- finished v ;;
      assert fin ("unfinished function " +:+ name)
    else ret tt) ;;;
  t <- get_top self ;;
  write self (OTop (set_t_finished t true)).

(** [TopLevel.define_function]. *)
Definition define_function (self : loc) (name : string) : M loc :=
  func <- get_or_create_func self name ;;
  h <- get_heap ;;
  if is_ExternFunction h func then
    real_func <- _create_func self name ;;
    t <- get_top self ;;
    Scope_setitem (t_scope t) name real_func ;;;
    expect_signature real_func func ;;;
    s <- get_scope (t_scope t) ;;
    h <- get_heap ;;
    for_each (List.filter (is_IRFunction h) (dict_values (items s))) (λ v,
      bs <- allblocks v ;;
      for_each bs (λ block, apply_mapping block is_ExternFunction [(func, VRef real_func)])) ;;;
    ret real_func
  else ret func.

(** ** The linker *)

(** The local variables of [TopLevel.linker]: the stubs deferred per name
    ([externs], a [defaultdict(list)]) and the blocks collected. *)
Record LinkState : Type := mkLinkState {
  externs : list (string * list loc);
  all_blocks : list loc
}.

(** One symbol of one unit: a stub is deferred, a genuine function is kept
    under its name and its scope re-parented, anything else is stored under
    a fresh name. *)
Definition link_symbol (out : loc) (name : string) (v : loc) (st : LinkState)
    : M LinkState :=
  h <- get_heap ;;
  if is_VisibleFunction h v then
    if is_ExternFunction h v then
      ret (mkLinkState (dict_set (externs st) name
                                 (default [] (dict_get (externs st) name) ++ [v]))
                       (all_blocks st))
    else
      store out name v ;;;
      f <- get_func v ;;
      s <- get_scope (f_scope f) ;;
      out_scope <- holder_scope out ;;
      write (f_scope f) (OScope (set_parent s (Some out_scope))) ;;;
      bs <- blocks v ;;
      ret (mkLinkState (externs st) (all_blocks st ++ bs))
  else
    generate_name out name v ;;;
    ret st.

(** One unit. *)
Definition link_top (out : loc) (top : loc) (st : LinkState) : M LinkState :=
  t <- get_top top ;;
  assert (t_finished t) "top.finished" ;;;
  o <- get_top out ;;
  tp <- get_preamble (t_preamble t) ;;
  op <- get_preamble (t_preamble o) ;;
  write (t_preamble o) (OPreamble (set_p_insns op (p_insns op ++ p_insns tp))) ;;;
  o <- get_top out ;;
  write out (OTop (set_pragmas o (pragmas o ++ pragmas t))) ;;;
  fold_scope_items (t_scope t) (link_symbol out) st.

Fixpoint link_tops (out : loc) (tops : list loc) (st : LinkState) : M LinkState :=
  match tops with
  | [] => ret st
  | top :: tops' => st' <- link_top out top st ;; link_tops out tops' st'
  end.

(** The stubs of one name: all must agree with the replacement, which is
    the genuine definition when there is one and the first stub otherwise. *)
Fixpoint resolve_stubs (replacement : loc) (externlist : list loc)
    (extern_mapping : list (loc * Val)) : M (list (loc * Val)) :=
  match externlist with
  | [] => ret extern_mapping
  | extern :: rest =>
      expect_signature extern replacement ;;;
      resolve_stubs replacement rest
        (if bool_decide (replacement ≠ extern)
         then dict_set extern_mapping extern (VRef replacement)
         else extern_mapping)
  end.

Definition resolve_name (out : loc) (name : string) (externlist : list loc)
    (extern_mapping : list (loc * Val)) : M (list (loc * Val)) :=
  match externlist with
  | [] => raise IndexError
  | new_extern :: _ =>
      concrete <- lookup_func out name ;;
      let replacement := default new_extern concrete in
      m <- resolve_stubs replacement externlist extern_mapping ;;
      match concrete with
      | Some _ => ret m
      | None => store out name new_extern ;;; ret m
      end
  end.

Fixpoint resolve_externs (out : loc) (ex : list (string * list loc))
    (extern_mapping : list (loc * Val)) : M (list (loc * Val)) :=
  match ex with
  | [] => ret extern_mapping
  | (name, externlist) :: ex' =>
      m <- resolve_name out name externlist extern_mapping ;;
      resolve_externs out ex' m
  end.

(** [TopLevel.linker]. *)
Definition linker (tops : list loc) : M loc :=
  match tops with
  | [] => raise (AssertionError "tops")
  | [top] => ret top
  | _ =>
      out <- TopLevel_init ;;
      st <- link_tops out tops (mkLinkState [] []) ;;
      extern_mapping <- resolve_externs out (externs st) [] ;;
      (if bool_decide (extern_mapping = []) then ret tt
       else for_each (all_blocks st)
              (λ block, apply_mapping block is_ExternFunction extern_mapping)) ;;;
      TopLevel_end out ;;;
      ret out
  end.

(** ** ObjectFormat *)

(** What [pickle] writes and rebuilds: the graph of objects reachable from
    a root, kept as the store with the reference of the root, and an
    [ObjectFormat] instance with its two attributes [top] and [__version]. *)
Inductive PyObject : Type :=
| PStored (h : Heap) (root : loc)
| PObjectFormat (top : PyObject) (version : string).

Definition VERSION : string := "1.0.0".

(** [ObjectFormat.__init__]. *)
Definition ObjectFormat_init (top : PyObject) : PyObject :=
  PObjectFormat top VERSION.

Section ObjectFormat.
(** [pickle] and [zlib] are libraries and enter as parameters.
    [pickle.dumps] does not write every object: it raises, among others, a
    [RecursionError] on a graph that is nested deeper than the recursion
    limit of the interpreter, as a unit with a long chain of blocks is. *)
Context {Pickled Compressed : Type}.
Variable pickle_dumps : PyObject → Res Pickled.
Variable pickle_loads : Pickled → Res PyObject.
Variable zlib_compress : Pickled → Compressed.
Variable zlib_decompress : Compressed → Res Pickled.

(** [ObjectFormat.save]: nothing is checked of [top], and what
    [pickle.dumps] raises is not caught. *)
Definition ObjectFormat_save (top : PyObject) : Res Compressed :=
  let obj := ObjectFormat_init top in
  match pickle_dumps obj with
  | Err e => Err e
  | Ok p => Ok (zlib_compress p)
  end.

(** [ObjectFormat.load]. *)
Definition ObjectFormat_load (data : Compressed) : Res PyObject :=
  match zlib_decompress data with
  | Err e => Err e
  | Ok p =>
      match pickle_loads p with
      | Err e => Err e
      | Ok obj =>
          match obj with
          | PObjectFormat _ version =>
              if bool_decide (version = VERSION) then Ok obj
              else Err (AssertionError "obj.__version == ObjectFormat.VERSION")
          | _ => Err (AttributeError "__version")
          end
      end
  end.
End ObjectFormat.

(** ** Running a computation *)

(** The value a computation returns, when it returns. *)
Definition eval {A} (c : M A) (h : Heap) : option A :=
  match c h with Ok (a, _) => Some a | Err _ => None end.

(** The store a computation leaves, when it returns. *)
Definition exec {A} (c : M A) (h : Heap) : option Heap :=
  match c h with Ok (_, h') => Some h' | Err _ => None end.

(** The exception a computation raises, when it raises. *)
Definition raised {A} (c : M A) (h : Heap) : option PyErr :=
  match c h with Ok _ => None | Err e => Some e end.

(** ** Usage tracking, as a caller drives it *)

(** [n] calls of [usage()]. *)
Fixpoint repeat_usage (n : nat) (self : loc) : M unit :=
  match n with
  | 0 => ret tt
  | S n' => Block_usage self ;;; repeat_usage n' self
  end.

(** A call of [usage()] or of [reset()]. *)
Inductive BlockOp : Type :=
| OpUsage
| OpReset.

Definition run_block_op (self : loc) (op : BlockOp) : M unit :=
  match op with
  | OpUsage => Block_usage self
  | OpReset => Block_reset self
  end.

(** A unit with one function ["f"], as [TopLevel()] and
    [create_function] build them; the function has the user block
    ["body"]. *)
Definition unit_with_function : M (loc * loc) :=
  top <- TopLevel_init ;;
  f <- create_function top "f" ;;
  create_block f "body" ;;;
  ret (top, f).

Definition entry_of (f : loc) : M loc :=
  fo <- get_func f ;; ret (_entryblock fo).
Definition exit_of (f : loc) : M loc :=
  fo <- get_func f ;; ret (_exitblock fo).

(** The store [unit_with_function] builds from nothing: the unit is object
    0, its function ["f"] object 5, whose entry and exit super blocks are
    objects 8 and 9 and whose block ["body"] is object 10. *)
Definition demo_heap : list Obj :=
  Eval vm_compute in default [] (exec unit_with_function []).

(** A finished unit that holds the finished function ["f"] and a stub for
    the external function ["g"]; the unit is object 0. *)
Definition unit_with_stub : M loc :=
  top <- TopLevel_init ;;
  f <- create_function top "f" ;;
  create_block f "body" ;;;
  IRFunction_end f ;;;
  stub <- ExternFunction_init "g" (PyParams [(i32, "byval")]) (Some [i32]) ;;
  store top "g" stub ;;;
  ret top.

Definition stub_heap : list Obj :=
  Eval vm_compute in default [] (exec unit_with_stub []).

(** The names a unit holds, with what they name. *)
Definition top_items (h : Heap) (top : loc) : list (string * loc) :=
  match h !! top with
  | Some (OTop t) =>
      match h !! t_scope t with
      | Some (OScope s) => items s
      | _ => []
      end
  | _ => []
  end.

(** A fresh unit, ended once: the store it leaves, with no function in
    it. *)
Definition ended_heap : list Obj :=
  Eval vm_compute in default [] (exec (top <- TopLevel_init ;; TopLevel_end top) []).

(** The block ["body"] of [demo_heap] after a [Return] was added to it. *)
Definition terminated_heap : list Obj :=
  Eval vm_compute in default [] (exec (add 10 Return NoName None) demo_heap).

(** A function with one local per given offset, each proxied by an
    [NbtOffsetVariable]; the function is object 5 of the store. *)
Definition add_local (f : loc) (offset : Z) : M unit :=
  v <- create_var f "x" i32 ;;
  set_proxy v (NbtOffsetVariable i32 offset).

Definition function_with_locals (offsets : list Z) : M loc :=
  r <- unit_with_function ;;
  for_each offsets (add_local r.2) ;;;
  ret r.2.

Definition locals_heap (offsets : list Z) : list Obj :=
  default [] (exec (function_with_locals offsets) []).

Definition dense_heap : list Obj := Eval vm_compute in locals_heap [1; 0]%Z.
Definition gap_heap : list Obj := Eval vm_compute in locals_heap [0; 2]%Z.

(** What is read off a stored unit: per visible function its name, its
    signature and the number of its blocks. *)
Definition function_summary (h : Heap) (name : string) (l : loc)
    : option (string * list (VarType * string) * list VarType * nat) :=
  match h !! l with
  | Some (OFunc f) =>
      match h !! f_scope f with
      | Some (OScope s) =>
          Some (name, f_params f, f_returns f,
                length (List.filter (is_BasicBlock h) (dict_values (items s))))
      | _ => Some (name, f_params f, f_returns f, 0)
      end
  | Some (OExtern e) => Some (name, e_params e, e_returns e, 0)
  | _ => None
  end.

Fixpoint unit_summary (o : PyObject)
    : list (string * list (VarType * string) * list VarType * nat) :=
  match o with
  | PStored h root => omap (λ kv, function_summary h kv.1 kv.2) (top_items h root)
  | PObjectFormat top _ => unit_summary top
  end.

(** [obj.top]. *)
Definition format_top (o : PyObject) : option PyObject :=
  match o with
  | PObjectFormat top _ => Some top
  | PStored _ _ => None
  end.

(** The number of objects a serializer has to write. *)
Fixpoint stored_objects (o : PyObject) : nat :=
  match o with
  | PStored h _ => length h
  | PObjectFormat top _ => S (stored_objects top)
  end.

(** A serializer and a compressor that write an object as itself; the
    serializer gives up on more than [limit] objects. *)
Definition bounded_dumps (limit : nat) (o : PyObject) : Res PyObject :=
  if bool_decide (stored_objects o ≤ limit) then Ok o else Err RecursionError.
Definition ideal_dumps (o : PyObject) : Res PyObject := Ok o.
Definition ideal_loads (p : PyObject) : Res PyObject := Ok p.
Definition ideal_compress (p : PyObject) : PyObject := p.
Definition ideal_decompress (c : PyObject) : Res PyObject := Ok c.

(** The finished unit of [stub_heap], as [save] is given it. *)
Definition stored_unit : PyObject := PStored stub_heap 0.

(** The local mapping of the scope at a reference. *)
Definition scope_items (h : Heap) (scope : loc) : list (string * loc) :=
  match h !! scope with
  | Some (OScope s) => items s
  | _ => []
  end.

(** [dense_heap] after an event was created in the preamble of the unit
    (object 2) and the function (object 5) was made its handler:
    [EventHandler.activate] has put a [RevokeEventAdvancement] into the
    entry super block of the function. *)
Definition register_handler (top_preamble f : loc) : M unit :=
  ev <- add top_preamble (mkInsn KCreateEvent [VStr "custom:event"] None) AutoName None ;;
  match ev with
  | Some e => add_ top_preamble (EventHandler f e)
  | None => ret tt
  end.

Definition handler_heap : list Obj :=
  Eval vm_compute in default [] (exec (register_handler 2 5) dense_heap).

(** [dense_heap] after the block ["body"] (object 10) was closed by a
    [Return]: every user block of the function is terminated. *)
Definition closed_heap : list Obj :=
  Eval vm_compute in default [] (exec (add_ 10 Return) dense_heap).

(** A parameter passed by value, as the preamble of a function declares
    it: the variable is stored under its name and the signature grows. *)
Definition declare_parameter (f : loc) (name : string) (t : VarType) : M loc :=
  v <- alloc (OVar (mkVariable ParameterVariable t "byval" None)) ;;
  store f name v ;;;
  add_parameter f t "byval" ;;;
  ret v.

(** A unit with the finished function ["callee"] (object 5) of two
    by-value parameters, whose block ["body"] copies the second parameter
    into a local and returns, and the function ["caller"] (object 14) with
    the block ["main"] and the local ["x"] (object 20). *)
Definition unit_with_call : M (loc * loc * loc) :=
  top <- TopLevel_init ;;
  callee <- create_function top "callee" ;;
  declare_parameter callee "a" i32 ;;;
  b <- declare_parameter callee "b" i32 ;;
  r <- create_var callee "r" i32 ;;
  body <- create_block callee "body" ;;
  add_ body (SetScore r (VRef b)) ;;;
  add_ body Return ;;;
  IRFunction_end callee ;;;
  caller <- create_function top "caller" ;;
  create_block caller "main" ;;;
  x <- create_var caller "x" i32 ;;
  ret (callee, caller, x).

Definition call_heap : list Obj :=
  Eval vm_compute in default [] (exec unit_with_call []).

(** A call of a function: an instruction of [cmd_ir/instructions] with one
    slot for the callee. *)
Definition Invoke (func : loc) : Insn :=
  mkInsn (KOther "Invoke" false false true) [VRef func] None.

(** A finished unit that defines the function [name] with one block. *)
Definition unit_defining (name : string) : M loc :=
  top <- TopLevel_init ;;
  f <- create_function top name ;;
  body <- create_block f "body" ;;
  add_ body Return ;;;
  IRFunction_end f ;;;
  TopLevel_end top ;;;
  ret top.

(** A finished unit that declares a stub for each given name and
    signature and defines [main], whose block calls every stub. *)
Definition declare_stub (top : loc) (d : string * list (VarType * string) * list VarType)
    : M loc :=
  stub <- ExternFunction_init d.1.1 (PyParams d.1.2) (Some d.2) ;;
  store top d.1.1 stub ;;;
  ret stub.

Fixpoint declare_stubs (top : loc)
    (ds : list (string * list (VarType * string) * list VarType)) : M (list loc) :=
  match ds with
  | [] => ret []
  | d :: ds' =>
      stub <- declare_stub top d ;;
      stubs <- declare_stubs top ds' ;;
      ret (stub :: stubs)
  end.

Definition unit_calling (main : string)
    (ds : list (string * list (VarType * string) * list VarType)) : M loc :=
  top <- TopLevel_init ;;
  stubs <- declare_stubs top ds ;;
  f <- create_function top main ;;
  body <- create_block f "body" ;;
  for_each stubs (λ stub, add_ body (Invoke stub)) ;;;
  add_ body Return ;;;
  IRFunction_end f ;;;
  TopLevel_end top ;;;
  ret top.

(** Three units: the first defines ["f"]; the second declares ["f"] and
    ["g"] and calls both; the third declares ["g"] with the signature
    given and calls it. *)
Definition three_units (g_params : list (VarType * string)) : M (list loc) :=
  a <- unit_defining "f" ;;
  b <- unit_calling "main" [("f", [], []); ("g", [(i32, "byval")], [i32])] ;;
  c <- unit_calling "other" [("g", g_params, [i32])] ;;
  ret [a; b; c].

(** The store the three units are built in from nothing: the units are
    objects 0, 11 and 24; ["f"] is object 5, its stub object 16; the stubs
    of ["g"] are objects 17 and 29; the blocks of the three defined
    functions are objects 10, 23 and 35.  In [mismatch_heap] the second
    stub of ["g"] takes a [q10] where the first takes an [i32]. *)
Definition link_heap : list Obj :=
  Eval vm_compute in default [] (exec (three_units [(i32, "byval")]) []).
Definition mismatch_heap : list Obj :=
  Eval vm_compute in default [] (exec (three_units [(q10, "byval")]) []).

(** * Properties *)

(** ** The monad *)

Lemma bind_Ok {A B} (c : M A) (k : A → M B) h b h' :
  bind c k h = Ok (b, h') ↔ ∃ a h1, c h = Ok (a, h1) ∧ k a h1 = Ok (b, h').
Proof.
  unfold bind. destruct (c h) as [[a h1]|e]; split.
  - intros H. by exists a, h1.
  - by intros (a' & h1' & [= <- <-] & H).
  - done.
  - by intros (? & ? & ? & ?).
Qed.

Lemma bind_Err {A B} (c : M A) (k : A → M B) h e :
  bind c k h = Err e ↔
  c h = Err e ∨ ∃ a h1, c h = Ok (a, h1) ∧ k a h1 = Err e.
Proof.
  unfold bind. destruct (c h) as [[a h1]|e']; split.
  - intros H. right. by exists a, h1.
  - intros [?|(a' & h1' & [= <- <-] & H)]; done.
  - intros [= ->]. by left.
  - intros [[= ->]|(? & ? & ? & ?)]; done.
Qed.

Lemma bind_eq {A B} (c : M A) (k : A → M B) h a h1 :
  c h = Ok (a, h1) → bind c k h = k a h1.
Proof. unfold bind. by intros ->. Qed.

Lemma bind_fail {A B} (c : M A) (k : A → M B) h e :
  c h = Err e → bind c k h = Err e.
Proof. unfold bind. by intros ->. Qed.

Lemma assert_Ok cond msg h r h' :
  assert cond msg h = Ok (r, h') ↔ cond = true ∧ h' = h.
Proof.
  unfold assert, ret, raise. destruct cond; split; try done.
  - by intros [= <- <-].
  - intros [_ ->]. by destruct r.
  - by intros [? _].
Qed.

Lemma read_Ok l h o h' : read l h = Ok (o, h') ↔ h !! l = Some o ∧ h' = h.
Proof.
  unfold read. destruct (h !! l); split; try done.
  - by intros [= <- <-].
  - by intros [[= <-] ->].
  - by intros [? _].
Qed.

Lemma get_block_Ok l h b h' :
  get_block l h = Ok (b, h') ↔ h !! l = Some (OBlock b) ∧ h' = h.
Proof.
  unfold get_block, bind, read, ret, raise.
  repeat case_match; naive_solver.
Qed.

Lemma get_func_Ok l h f h' :
  get_func l h = Ok (f, h') ↔ h !! l = Some (OFunc f) ∧ h' = h.
Proof.
  unfold get_func, bind, read, ret, raise.
  repeat case_match; naive_solver.
Qed.

Lemma get_scope_Ok l h s h' :
  get_scope l h = Ok (s, h') ↔ h !! l = Some (OScope s) ∧ h' = h.
Proof.
  unfold get_scope, bind, read, ret, raise.
  repeat case_match; naive_solver.
Qed.

Lemma get_top_Ok l h t h' :
  get_top l h = Ok (t, h') ↔ h !! l = Some (OTop t) ∧ h' = h.
Proof.
  unfold get_top, bind, read, ret, raise.
  repeat case_match; naive_solver.
Qed.

Lemma get_block_eq l h b : h !! l = Some (OBlock b) → get_block l h = Ok (b, h).
Proof. intros. by apply get_block_Ok. Qed.
Lemma get_func_eq l h f : h !! l = Some (OFunc f) → get_func l h = Ok (f, h).
Proof. intros. by apply get_func_Ok. Qed.
Lemma get_scope_eq l h s : h !! l = Some (OScope s) → get_scope l h = Ok (s, h).
Proof. intros. by apply get_scope_Ok. Qed.
Lemma get_top_eq l h t : h !! l = Some (OTop t) → get_top l h = Ok (t, h).
Proof. intros. by apply get_top_Ok. Qed.
Lemma read_eq l h o : h !! l = Some o → read l h = Ok (o, h).
Proof. intros. by apply read_Ok. Qed.

Lemma write_eq l o h : write l o h = Ok (tt, <[l := o]> h).
Proof. done. Qed.

(** ** SuperBlock: usage counts *)

Lemma Block_usage_eq self h b :
  h !! self = Some (OBlock b) →
  Block_usage self h = Ok (tt, <[self := OBlock (Block_usage_obj b)]> h).
Proof. intros Hb. unfold Block_usage. by rewrite (bind_eq _ _ _ _ _ (get_block_eq _ _ _ Hb)). Qed.

Lemma Block_reset_eq self h b :
  h !! self = Some (OBlock b) →
  Block_reset self h = Ok (tt, <[self := OBlock (Block_reset_obj b)]> h).
Proof. intros Hb. unfold Block_reset. by rewrite (bind_eq _ _ _ _ _ (get_block_eq _ _ _ Hb)). Qed.

Lemma Block_use_count_eq self h b :
  h !! self = Some (OBlock b) →
  Block_use_count self h = Ok (Block_use_count_obj b, h).
Proof. intros Hb. unfold Block_use_count. by rewrite (bind_eq _ _ _ _ _ (get_block_eq _ _ _ Hb)). Qed.

Lemma superclear_eq self h b :
  h !! self = Some (OBlock b) → is_super b = true →
  superclear self h = Ok (tt, <[self := OBlock (superclear_obj b)]> h).
Proof.
  intros Hb Hs. unfold superclear.
  rewrite (bind_eq _ _ _ _ _ (get_block_eq _ _ _ Hb)). by rewrite Hs.
Qed.

Lemma repeat_usage_eq n self h b :
  h !! self = Some (OBlock b) →
  repeat_usage n self h = Ok (tt, <[self := OBlock (Nat.iter n Block_usage_obj b)]> h).
Proof.
  revert h b. induction n as [|n IH]; intros h b Hb; cbn [repeat_usage Nat.iter].
  - unfold ret. by rewrite list_insert_id.
  - rewrite (bind_eq _ _ _ _ _ (Block_usage_eq _ _ _ Hb)).
    assert (Hlt : self < length h) by (by eapply lookup_lt_Some).
    rewrite (IH _ (Block_usage_obj b)); [|by apply list_lookup_insert_eq].
    by rewrite list_insert_insert_eq, Nat.iter_swap.
Qed.

(** A pinned super block ignores [usage()] and [reset()]. *)
Lemma pinned_ops_id self h b ops :
  h !! self = Some (OBlock b) → is_super b = true → _clear b = false →
  for_each ops (run_block_op self) h = Ok (tt, h).
Proof.
  intros Hb Hs Hc. induction ops as [|op ops IH]; [done|]. cbn [for_each].
  assert (run_block_op self op h = Ok (tt, h)) as Hop.
  { destruct op; cbn [run_block_op].
    - rewrite (Block_usage_eq _ _ _ Hb). unfold Block_usage_obj.
      rewrite Hs, Hc. by rewrite list_insert_id.
    - rewrite (Block_reset_eq _ _ _ Hb). unfold Block_reset_obj.
      rewrite Hs, Hc. by rewrite list_insert_id. }
  by rewrite (bind_eq _ _ _ _ _ Hop).
Qed.

Lemma iter_usage_cleared n b :
  is_super b = true → _clear b = true →
  Block_use_count_obj (Nat.iter n Block_usage_obj b)
  = (if is_entry b then 1 else 0) + b_use b + n.
Proof.
  intros Hs Hc.
  assert (∀ n, is_super (Nat.iter n Block_usage_obj b) = true
               ∧ _clear (Nat.iter n Block_usage_obj b) = true
               ∧ is_entry (Nat.iter n Block_usage_obj b) = is_entry b
               ∧ b_use (Nat.iter n Block_usage_obj b) = b_use b + n) as H.
  { clear n. induction n as [|n (IH1 & IH2 & IH3 & IH4)]; simpl.
    - repeat split; auto with lia.
    - unfold Block_usage_obj at 1 3 5 7. rewrite IH1, IH2. simpl.
      repeat split; auto with lia. }
  destruct (H n) as (H1 & H2 & H3 & H4).
  unfold Block_use_count_obj. rewrite H1, H2, H3, H4.
  destruct (is_entry b); lia.
Qed.

(** C7 (as amended).  A super block that has not been cleared ignores
    [usage()] and [reset()], and [use_count()] is 2 whatever was recorded.
    Once [superclear()] has run, [n] calls of [usage()] are counted: the
    exit super block reports [n], the entry super block reports [n + 1]. *)
Theorem superblock_use_count (h : Heap) (self : loc) (b : Block) :
  h !! self = Some (OBlock b) → is_super b = true →
  _clear b = false → b_use b = 0 →
  (∀ ops, for_each ops (run_block_op self) h = Ok (tt, h)
          ∧ eval (for_each ops (run_block_op self) ;;; Block_use_count self) h = Some 2)
  ∧ (∀ n, eval (superclear self ;;; repeat_usage n self ;;; Block_use_count self) h
          = Some (if is_entry b then S n else n)).
Proof.
  intros Hb Hs Hc Hu. split.
  - intros ops. pose proof (pinned_ops_id self h b ops Hb Hs Hc) as Hops.
    split; [done|]. unfold eval.
    rewrite (bind_eq _ _ _ _ _ Hops), (Block_use_count_eq _ _ _ Hb).
    unfold Block_use_count_obj. by rewrite Hs, Hc.
  - intros n. unfold eval.
    assert (Hlt : self < length h) by (by eapply lookup_lt_Some).
    rewrite (bind_eq _ _ _ _ _ (superclear_eq _ _ _ Hb Hs)).
    erewrite bind_eq; [|apply repeat_usage_eq; by apply list_lookup_insert_eq].
    erewrite Block_use_count_eq;
      [|apply list_lookup_insert_eq; by rewrite length_insert].
    rewrite iter_usage_cleared by done. simpl. rewrite Hu.
    destruct (is_entry b); f_equal; lia.
Qed.

Lemma superblock_use_count_witness :
  eval (for_each [OpUsage; OpReset; OpUsage] (run_block_op 9) ;;; Block_use_count 9)
       demo_heap = Some 2
  ∧ eval (superclear 9 ;;; repeat_usage 3 9 ;;; Block_use_count 9) demo_heap = Some 3
  ∧ eval (superclear 8 ;;; repeat_usage 3 8 ;;; Block_use_count 8) demo_heap = Some 4.
Proof.
  destruct (superblock_use_count demo_heap 9 _ eq_refl eq_refl eq_refl eq_refl)
    as [Hpinned Hexit].
  destruct (superblock_use_count demo_heap 8 _ eq_refl eq_refl eq_refl eq_refl)
    as [_ Hentry].
  split; [|split].
  - exact (proj2 (Hpinned [OpUsage; OpReset; OpUsage])).
  - exact (Hexit 3).
  - exact (Hentry 3).
Defined.

(** C7, counterexample.  The entry super block of a function, cleared and
    then used three times, reports a use count of four: one more than the
    calls of [usage()] recorded since. *)
Lemma entry_superblock_counts_one_more :
  eval (entry <- entry_of 5 ;;
        superclear entry ;;; repeat_usage 3 entry ;;; Block_use_count entry)
       demo_heap = Some 4
  ∧ 4 ≠ 3.
Proof. split; [reflexivity | lia]. Qed.

(** ** Dictionaries *)

Lemma dict_get_keys {V} (d : list (string * V)) k :
  k ∈ dict_keys d ↔ is_Some (dict_get d k).
Proof.
  unfold dict_keys. induction d as [|[k' v] d IH]; simpl.
  - split; [by intros ?%elem_of_nil | by intros [? ?]].
  - rewrite elem_of_cons. case_decide; subst.
    + split; eauto.
    + rewrite IH. naive_solver.
Qed.

Lemma dict_has_true {K V} `{EqDecision K} (d : list (K * V)) k :
  dict_has d k = true ↔ is_Some (dict_get d k).
Proof. unfold dict_has. destruct (dict_get d k); split; (done || by intros [? ?] || eauto). Qed.

Lemma dict_has_false {K V} `{EqDecision K} (d : list (K * V)) k :
  dict_has d k = false ↔ dict_get d k = None.
Proof. unfold dict_has. by destruct (dict_get d k). Qed.

Lemma dict_set_absent {K V} `{EqDecision K} (d : list (K * V)) k v :
  dict_get d k = None → dict_set d k v = d ++ [(k, v)].
Proof.
  induction d as [|[k' v'] d IH]; simpl; [done|].
  case_decide; [done|]. intros Hd. by rewrite IH.
Qed.

Lemma dict_get_app {K V} `{EqDecision K} (d1 d2 : list (K * V)) k :
  dict_get (d1 ++ d2) k = match dict_get d1 k with Some v => Some v | None => dict_get d2 k end.
Proof.
  induction d1 as [|[k' v'] d1 IH]; simpl; [done|]. by case_decide.
Qed.

Lemma dict_get_set_eq {K V} `{EqDecision K} (d : list (K * V)) k v :
  dict_get (dict_set d k v) k = Some v.
Proof.
  induction d as [|[k' v'] d IH]; simpl.
  - by rewrite decide_True.
  - case_decide; simpl; [by rewrite decide_True | by rewrite decide_False].
Qed.

Lemma dict_get_set_ne {K V} `{EqDecision K} (d : list (K * V)) k k' v :
  k ≠ k' → dict_get (dict_set d k v) k' = dict_get d k'.
Proof.
  intros Hne. induction d as [|[k0 v0] d IH]; simpl.
  - by rewrite decide_False.
  - case_decide; simpl; subst.
    + by rewrite !decide_False.
    + case_decide; done.
Qed.

Lemma dict_keys_set {K V} `{EqDecision K} (d : list (K * V)) k v :
  dict_keys (dict_set d k v)
  = if dict_has d k then dict_keys d else dict_keys d ++ [k].
Proof.
  unfold dict_keys, dict_has. induction d as [|[k' v'] d IH]; [done|].
  cbn [dict_set dict_get]. case_decide; [by subst|].
  rewrite !fmap_cons, IH. by destruct (dict_get d k).
Qed.

Lemma dict_keys_set_NoDup {K V} `{EqDecision K} (d : list (K * V)) k v :
  NoDup (dict_keys d) → NoDup (dict_keys (dict_set d k v)).
Proof.
  intros Hnd. rewrite dict_keys_set. destruct (dict_has d k) eqn:Hhas; [done|].
  apply NoDup_app. split; [done|]. split; [|apply NoDup_singleton].
  intros x Hx ->%list_elem_of_singleton.
  unfold dict_has in Hhas. 
  assert (is_Some (dict_get d k)) as [? Hsome]; [|by rewrite Hsome in Hhas].
  clear -Hx. unfold dict_keys in Hx. induction d as [|[k' v'] d IH]; simpl in *.
  - by apply elem_of_nil in Hx.
  - case_decide; [eauto|]. apply elem_of_cons in Hx as [->|Hx]; [done | auto].
Qed.

Lemma elem_of_dict_get {K V} `{EqDecision K} (d : list (K * V)) k v :
  NoDup (dict_keys d) → (k, v) ∈ d → dict_get d k = Some v.
Proof.
  unfold dict_keys. induction d as [|[k' v'] d IH]; intros Hnd Hin.
  - by apply elem_of_nil in Hin.
  - cbn in Hnd. apply NoDup_cons in Hnd as [Hk' Hnd]. cbn.
    apply elem_of_cons in Hin as [[= -> ->]|Hin]; [by rewrite decide_True|].
    case_decide as Heq; [|by apply IH]. subst. exfalso. apply Hk'.
    apply list_elem_of_fmap. by exists (k, v).
Qed.


(** ** Loops whose body only reads the store *)

Lemma fold_items_rec_readonly h scope s (body : string → loc → M unit) todo :
  h !! scope = Some (OScope s) →
  (∀ k v, body k v h = Ok (tt, h) ∨ ∃ e, body k v h = Err e) →
  todo ⊆ dict_keys (items s) →
  (fold_items_rec scope (dict_keys (items s)) todo (λ k v _, body k v) tt h = Ok (tt, h)
   ∧ ∀ k v, k ∈ todo → dict_get (items s) k = Some v → body k v h = Ok (tt, h))
  ∨ (∃ e k v,
       fold_items_rec scope (dict_keys (items s)) todo (λ k v _, body k v) tt h = Err e
       ∧ k ∈ todo ∧ dict_get (items s) k = Some v ∧ body k v h = Err e).
Proof.
  intros Hs Hbody. induction todo as [|k todo IH]; intros Hsub.
  - left. split; [done|]. by intros k v ?%elem_of_nil.
  - cbn [fold_items_rec].
    rewrite (bind_eq _ _ _ _ _ (get_scope_eq _ _ _ Hs)).
    rewrite bool_decide_eq_true_2 by done.
    assert (is_Some (dict_get (items s) k)) as [v Hv].
    { apply dict_get_keys, Hsub. by left. }
    rewrite Hv.
    destruct (Hbody k v) as [Hok | [e He]].
    + rewrite (bind_eq _ _ _ _ _ Hok).
      destruct IH as [[IH1 IH2] | (e & k' & v' & IH1 & IH2 & IH3 & IH4)].
      { intros x Hx. apply Hsub. by right. }
      * left. split; [done|]. intros k' v' [->|Hin]%elem_of_cons Hget.
        -- by simplify_eq.
        -- by apply IH2.
      * right. exists e, k', v'. repeat split; try done. by right.
    + right. exists e, k, v. rewrite (bind_fail _ _ _ _ He).
      repeat split; try done. by left.
Qed.

Lemma for_scope_items_readonly h scope s (body : string → loc → M unit) :
  h !! scope = Some (OScope s) →
  (∀ k v, body k v h = Ok (tt, h) ∨ ∃ e, body k v h = Err e) →
  (for_scope_items scope body h = Ok (tt, h)
   ∧ ∀ k v, dict_get (items s) k = Some v → body k v h = Ok (tt, h))
  ∨ (∃ e k v, for_scope_items scope body h = Err e
              ∧ dict_get (items s) k = Some v ∧ body k v h = Err e).
Proof.
  intros Hs Hbody. unfold for_scope_items, fold_scope_items.
  rewrite (bind_eq _ _ _ _ _ (get_scope_eq _ _ _ Hs)).
  destruct (fold_items_rec_readonly h scope s body (dict_keys (items s)) Hs Hbody)
    as [[H1 H2] | (e & k & v & H1 & H2 & H3 & H4)]; [done| |].
  - left. split; [done|]. intros k v Hget. apply H2; [|done].
    apply dict_get_keys. eauto.
  - right. by exists e, k, v.
Qed.

(** ** TopLevel.end and extern stubs *)

Lemma finished_extern h l e :
  h !! l = Some (OExtern e) → finished l h = Ok (true, h).
Proof. intros Hl. unfold finished. by rewrite (bind_eq _ _ _ _ _ (read_eq _ _ _ Hl)). Qed.

Lemma finished_func h l f :
  h !! l = Some (OFunc f) → finished l h = Ok (_finished f, h).
Proof. intros Hl. unfold finished. by rewrite (bind_eq _ _ _ _ _ (read_eq _ _ _ Hl)). Qed.

(** The body of the loop of [TopLevel.end] on one symbol. *)
Lemma end_check_cases h name v :
  let body := (h0 <- get_heap ;;
               if is_VisibleFunction h0 v then
                 fin <- finished v ;; assert fin ("unfinished function " +:+ name)
               else ret tt) in
  (body h = Ok (tt, h)
   ∧ ∀ f, h !! v = Some (OFunc f) → _finished f = true)
  ∨ (∃ f, body h = Err (AssertionError ("unfinished function " +:+ name))
          ∧ h !! v = Some (OFunc f) ∧ _finished f = false).
Proof.
  intros body. subst body. unfold get_heap. cbn [bind].
  unfold is_VisibleFunction.
  destruct (h !! v) as [o|] eqn:Hv; [destruct o|];
    try (left; split; [done | by intros ? [=]]).
  - rewrite (bind_eq _ _ _ _ _ (finished_func _ _ _ Hv)).
    destruct (_finished f) eqn:Hf.
    + left. split; [done|]. by intros ? [= <-].
    + right. by exists f.
  - rewrite (bind_eq _ _ _ _ _ (finished_extern _ _ _ Hv)).
    left. split; [done | by intros ? [=]].
Qed.

(** C10 (as amended).  The [finished] property of an extern stub is true
    whatever the stub is; [TopLevel.end] succeeds on a unit that is not yet
    finished and whose functions (the stubs apart) are all finished, and
    when it fails the unit was already finished or one of its
    [IRFunction]s is unfinished: never on account of a stub. *)
Theorem TopLevel_end_never_fails_on_extern (h : Heap) (self : loc) (t : Top)
    (s : Scope) :
  h !! self = Some (OTop t) →
  h !! t_scope t = Some (OScope s) →
  (∀ e, ExternFunction_finished e = true)
  ∧ (∀ l e, h !! l = Some (OExtern e) → finished l h = Ok (true, h))
  ∧ (t_finished t = false →
     (∀ name v f, dict_get (items s) name = Some v →
                  h !! v = Some (OFunc f) → _finished f = true) →
     TopLevel_end self h = Ok (tt, <[self := OTop (set_t_finished t true)]> h))
  ∧ (∀ err, TopLevel_end self h = Err err →
     t_finished t = true
     ∨ ∃ name v f, dict_get (items s) name = Some v
                   ∧ h !! v = Some (OFunc f) ∧ _finished f = false).
Proof.
  intros Ht Hs. split; [done|]. split; [apply finished_extern|].
  pose (body := λ (name : string) (v : loc),
          (h0 <- get_heap ;;
           if is_VisibleFunction h0 v then
             fin <- finished v ;; assert fin ("unfinished function " +:+ name)
           else ret tt)).
  assert (∀ k v, body k v h = Ok (tt, h) ∨ ∃ e, body k v h = Err e) as Hbody.
  { intros k v. destruct (end_check_cases h k v) as [[H _]|(f & H & _)]; eauto. }
  destruct (for_scope_items_readonly h (t_scope t) s body Hs Hbody)
    as [[Hloop Hall] | (e & k & v & Hloop & Hget & Hk)].
  - split.
    + intros Hfin _. unfold TopLevel_end.
      rewrite (bind_eq _ _ _ _ _ (get_top_eq _ _ _ Ht)). rewrite Hfin. cbn [negb assert].
      unfold ret at 1. cbn [bind]. fold body.
      rewrite (bind_eq _ _ _ _ _ Hloop).
      by rewrite (bind_eq _ _ _ _ _ (get_top_eq _ _ _ Ht)).
    + intros err. unfold TopLevel_end.
      rewrite (bind_eq _ _ _ _ _ (get_top_eq _ _ _ Ht)).
      destruct (t_finished t); [by left|]. cbn [negb assert].
      unfold ret at 1. cbn [bind]. fold body.
      rewrite (bind_eq _ _ _ _ _ Hloop).
      by rewrite (bind_eq _ _ _ _ _ (get_top_eq _ _ _ Ht)).
  - destruct (end_check_cases h k v) as [[H _]|(f & H & Hv & Hf)].
    { fold (body k v) in H. congruence. }
    split.
    + intros _ Hall. specialize (Hall k v f Hget Hv). congruence.
    + intros _ _. right. by exists k, v, f.
Qed.

Lemma TopLevel_end_never_fails_on_extern_witness :
  top_items stub_heap 0 = [("pos_util", 3); ("_global_entity", 4); ("f", 5); ("g", 11)]
  ∧ is_ExternFunction stub_heap 11 = true
  ∧ finished 11 stub_heap = Ok (true, stub_heap)
  ∧ is_Ok (TopLevel_end 0 stub_heap) = true.
Proof.
  destruct (TopLevel_end_never_fails_on_extern stub_heap 0 _ _ eq_refl eq_refl)
    as (_ & Hstub & Hend & _).
  split; [reflexivity|]. split; [reflexivity|]. split.
  - exact (Hstub 11 _ eq_refl).
  - rewrite Hend; [reflexivity | reflexivity |].
    intros name v f Hget Hv. cbn in Hget.
    repeat (case_decide; simplify_eq; try (cbn in Hv; by simplify_eq)).
Defined.

(** C10, counterexample.  A unit without any function in its scope, ended
    once, fails when it is ended again: [end()] also fails on a unit that
    is already finished. *)
Lemma TopLevel_end_twice_fails :
  forallb (λ kv, negb (is_VisibleFunction ended_heap kv.2)) (top_items ended_heap 0) = true
  ∧ raised (TopLevel_end 0) ended_heap = Some (AssertionError "not self.finished").
Proof. split; reflexivity. Qed.

(** ** Scope.get_or_create *)

Lemma Scope_contains_getitem fuel h s k :
  Scope_contains_rec fuel h s k = Ok true →
  ∃ v, Scope_getitem_rec fuel h s k = Ok v.
Proof.
  revert s. induction fuel as [|fuel IH]; intros s; cbn; [done|].
  destruct (h !! s) as [[sc| | | | | | | | |]|]; try done.
  unfold dict_has. destruct (dict_get (items sc) k) as [v|]; [eauto|].
  destruct (parent sc) as [p|]; [apply IH | done].
Qed.

Lemma Scope_contains_eq self key h :
  Scope_contains self key h
  = match Scope_contains_rec (recursion_limit h) h self key with
    | Ok b => Ok (b, h)
    | Err e => Err e
    end.
Proof. done. Qed.

Lemma Scope_contains_Ok self key h b h' :
  Scope_contains self key h = Ok (b, h') →
  Scope_contains_rec (recursion_limit h) h self key = Ok b ∧ h' = h.
Proof.
  rewrite Scope_contains_eq.
  destruct (Scope_contains_rec _ _ _ _); naive_solver.
Qed.

Lemma Scope_getitem_eq self key h :
  Scope_getitem self key h
  = match Scope_getitem_rec (recursion_limit h) h self key with
    | Ok v => Ok (v, h)
    | Err e => Err e
    end.
Proof. done. Qed.

Lemma Scope_setitem_eq self key value h s :
  h !! self = Some (OScope s) →
  Scope_setitem self key value h
  = Ok (tt, <[self := OScope (set_items s (dict_set (items s) key value)
                                          (dict_set (inverse_dict s) value key))]> h).
Proof.
  intros Hs. unfold Scope_setitem.
  by rewrite (bind_eq _ _ _ _ _ (get_scope_eq _ _ _ Hs)).
Qed.

(** C9.  When [name] is not in the local mapping of the scope but
    [name in self] holds, that is, the name is found along the parent
    chain, [get_or_create] returns the value the chain holds, whatever the
    factory is, and leaves the store as it was; whenever [name in self]
    holds the factory is not run; and when the name is absent from the
    whole chain the factory is run and its result stored in the local
    mapping. *)
Theorem get_or_create_parent_chain (h : Heap) (self : loc) (s : Scope)
    (name : string) :
  h !! self = Some (OScope s) →
  (dict_get (items s) name = None →
   Scope_contains self name h = Ok (true, h) →
   ∃ p v, parent s = Some p
          ∧ Scope_getitem_rec (length h) h p name = Ok v
          ∧ ∀ callback, Scope_get_or_create self name callback h = Ok (v, h))
  ∧ (Scope_contains self name h = Ok (true, h) →
     ∃ v, ∀ callback, Scope_get_or_create self name callback h = Ok (v, h))
  ∧ (Scope_contains self name h = Ok (false, h) →
     ∀ callback,
       Scope_get_or_create self name callback h
       = (val <- callback name ;; Scope_setitem self name val ;;; ret val) h)
  ∧ (Scope_contains self name h = Ok (false, h) →
     ∀ callback val h1 s1,
       callback name h = Ok (val, h1) → h1 !! self = Some (OScope s1) →
       ∃ h2, Scope_get_or_create self name callback h = Ok (val, h2)
             ∧ ∃ s2, h2 !! self = Some (OScope s2)
                     ∧ items s2 = dict_set (items s1) name val).
Proof.
  intros Hs.
  assert (Scope_contains self name h = Ok (true, h) →
          ∃ v, Scope_getitem_rec (recursion_limit h) h self name = Ok v
               ∧ ∀ callback, Scope_get_or_create self name callback h = Ok (v, h))
    as Hfound.
  { intros Hc. destruct (Scope_contains_Ok _ _ _ _ _ Hc) as [Hrec _].
    destruct (Scope_contains_getitem _ _ _ _ Hrec) as [v Hv].
    exists v. split; [done|]. intros callback. unfold Scope_get_or_create.
    rewrite (bind_eq _ _ _ _ _ Hc). cbn [negb].
    by rewrite Scope_getitem_eq, Hv. }
  split; [|split; [|split]].
  - intros Hloc Hc. destruct (Hfound Hc) as (v & Hv & Hall).
    destruct (Scope_contains_Ok _ _ _ _ _ Hc) as [Hrec _].
    unfold recursion_limit in Hv, Hrec. cbn in Hv, Hrec.
    rewrite Hs in Hv, Hrec. rewrite Hloc in Hv.
    rewrite (proj2 (dict_has_false _ _) Hloc) in Hrec.
    destruct (parent s) as [p|]; [|done].
    by exists p, v.
  - intros Hc. destruct (Hfound Hc) as (v & _ & Hall). by exists v.
  - intros Hc callback. unfold Scope_get_or_create.
    by rewrite (bind_eq _ _ _ _ _ Hc).
  - intros Hc callback val h1 s1 Hcb Hs1. unfold Scope_get_or_create.
    rewrite (bind_eq _ _ _ _ _ Hc). cbn [negb].
    rewrite (bind_eq _ _ _ _ _ Hcb).
    rewrite (bind_eq _ _ _ _ _ (Scope_setitem_eq _ _ _ _ _ Hs1)).
    eexists. split; [done|]. eexists. split.
    + apply list_lookup_insert_eq. by eapply lookup_lt_Some.
    + done.
Qed.

Lemma get_or_create_parent_chain_witness :
  Scope_get_or_create 6 "pos_util" (λ _, raise (RuntimeError "factory called")) demo_heap
  = Ok (3, demo_heap)
  ∧ eval (Scope_get_or_create 6 "loop" (_create_block 5)) demo_heap = Some 11.
Proof.
  destruct (get_or_create_parent_chain demo_heap 6 _ "pos_util" eq_refl)
    as (Hchain & _).
  destruct (Hchain eq_refl eq_refl) as (p & v & Hp & Hv & Hall).
  cbn in Hp. injection Hp as <-.
  vm_compute in Hv. injection Hv as <-.
  split; [exact (Hall _) | reflexivity].
Defined.

(** ** BasicBlock: insertion *)

(** The check [validate_insn] makes before anything else. *)
Definition terminated_unforced (b : Block) : bool :=
  negb (force b) && negb (bool_decide (insns b = []))
  && from_option terminator false (last (insns b)).

Lemma validate_insn_block h self b insn :
  h !! self = Some (OBlock b) →
  validate_insn self insn h = BasicBlock_validate_insn self insn h.
Proof. intros Hb. unfold validate_insn. by rewrite (bind_eq _ _ _ _ _ (read_eq _ _ _ Hb)). Qed.

Lemma BasicBlock_validate_insn_eq h self b insn :
  h !! self = Some (OBlock b) →
  BasicBlock_validate_insn self insn h
  = if terminated_unforced b then Err (AssertionError "Block is terminated")
    else if bool_decide (kind insn = KReturn) then
      match h !! _func b with
      | Some (OFunc f) => Ok (Branch (_exitblock f), h)
      | Some _ => Err (AttributeError "IRFunction expected")
      | None => Err (RuntimeError "dangling reference")
      end
    else Ok (insn, h).
Proof.
  intros Hb. unfold BasicBlock_validate_insn.
  rewrite (bind_eq _ _ _ _ _ (get_block_eq _ _ _ Hb)).
  fold (terminated_unforced b). destruct (terminated_unforced b); [done|].
  unfold ret at 1. cbn [bind]. case_bool_decide; [|done].
  unfold get_func, read, bind, ret, raise.
  by destruct (h !! _func b) as [[]|].
Qed.

Lemma seq_append_block h self b insn :
  h !! self = Some (OBlock b) →
  seq_append self insn h
  = Ok (tt, <[self := OBlock (set_insns b (insns b ++ [insn]))]> h).
Proof. intros Hb. unfold seq_append. by rewrite (bind_eq _ _ _ _ _ (read_eq _ _ _ Hb)). Qed.

(** C2.  Adding any instruction to a block whose last instruction has
    terminator semantics fails unless the block is forced; a forced block,
    and a block that is not terminated, accept the instruction; and a
    [Return] that is added is stored as a branch to the exit super block of
    the owning function, never as a [Return]. *)
Theorem add_after_terminator (h : Heap) (self : loc) (b : Block) :
  h !! self = Some (OBlock b) →
  (∀ last_insn insn with_name namehint,
     last (insns b) = Some last_insn → terminator last_insn = true →
     force b = false →
     add self insn with_name namehint h = Err (AssertionError "Block is terminated"))
  ∧ (∀ insn,
       force b = true ∨ from_option terminator false (last (insns b)) = false →
       kind insn ≠ KReturn →
       validate_insn self insn h = Ok (insn, h))
  ∧ (∀ insn with_name namehint r h',
       kind insn = KReturn →
       add self insn with_name namehint h = Ok (r, h') →
       ∃ f, h !! _func b = Some (OFunc f)
            ∧ h' = <[self := OBlock (set_insns b (insns b ++ [Branch (_exitblock f)]))]> h
            ∧ kind (Branch (_exitblock f)) ≠ KReturn).
Proof.
  intros Hb. split; [|split].
  - intros last_insn insn with_name namehint Hlast Hterm Hforce.
    unfold add, add_with. apply bind_fail.
    rewrite (validate_insn_block _ _ _ _ Hb), (BasicBlock_validate_insn_eq _ _ _ _ Hb).
    unfold terminated_unforced. rewrite Hforce, Hlast. cbn. rewrite Hterm.
    rewrite bool_decide_eq_false_2; [done|].
    intros Hnil. by rewrite Hnil in Hlast.
  - intros insn Hacc Hkind.
    rewrite (validate_insn_block _ _ _ _ Hb), (BasicBlock_validate_insn_eq _ _ _ _ Hb).
    assert (terminated_unforced b = false) as ->.
    { unfold terminated_unforced. destruct Hacc as [-> | ->]; [done|].
      by rewrite andb_false_r. }
    by rewrite bool_decide_eq_false_2.
  - intros insn with_name namehint r h' Hkind Hadd.
    unfold add, add_with in Hadd.
    apply bind_Ok in Hadd as (insn' & h1 & Hval & Hadd).
    rewrite (validate_insn_block _ _ _ _ Hb), (BasicBlock_validate_insn_eq _ _ _ _ Hb) in Hval.
    destruct (terminated_unforced b); [done|].
    rewrite bool_decide_eq_true_2 in Hval by done.
    destruct (h !! _func b) as [[]|] eqn:Hf; try done.
    injection Hval as <- <-. exists f. split; [done|]. split; [|done].
    apply bind_Ok in Hadd as (r0 & h2 & Hact & Hadd).
    injection Hact as <- <-. cbn [fst snd] in Hadd.
    rewrite (bind_eq _ _ _ _ _ (seq_append_block _ _ _ _ Hb)) in Hadd.
    destruct with_name as [| |[|]]; cbn in Hadd; unfold ret, raise in Hadd;
      by simplify_eq.
Qed.

Lemma add_after_terminator_witness :
  add 10 PopStack NoName None terminated_heap = Err (AssertionError "Block is terminated")
  ∧ (add 10 Return NoName None demo_heap = Ok (None, terminated_heap)
     ∧ ∃ b, terminated_heap !! 10 = Some (OBlock b) ∧ insns b = [Branch 9]).
Proof.
  split.
  - destruct (add_after_terminator terminated_heap 10 _ eq_refl) as (Hrej & _).
    exact (Hrej (Branch 9) PopStack NoName None eq_refl eq_refl eq_refl).
  - destruct (add_after_terminator demo_heap 10 _ eq_refl) as (_ & _ & Hret).
    destruct (Hret Return NoName None None terminated_heap eq_refl eq_refl)
      as (f & Hf & Hh & _).
    split; [reflexivity|]. eexists. split; reflexivity.
Defined.

(** ** Stack layout *)

Lemma remove_dups_length_le {A} `{EqDecision A} (l : list A) :
  length (remove_dups l) ≤ length l.
Proof.
  induction l as [|x l IH]; simpl; [done|]. case_decide; simpl; lia.
Qed.

Lemma remove_dups_length_NoDup {A} `{EqDecision A} (l : list A) :
  length (remove_dups l) = length l → NoDup l.
Proof.
  induction l as [|x l IH]; simpl; [constructor|].
  pose proof (remove_dups_length_le l). case_decide; simpl; intros Hlen.
  - lia.
  - constructor; [done|]. apply IH. lia.
Qed.

Lemma NoDup_remove_dups_length {A} `{EqDecision A} (l : list A) :
  NoDup l → length (remove_dups l) = length l.
Proof.
  induction 1 as [|x l Hx _ IH]; simpl; [done|].
  case_decide; [done|]. simpl. by rewrite IH.
Qed.

(** In a list of integers sorted without repeats, two entries are at least
    as far apart as their positions. *)
Lemma strictly_sorted_gap (l : list Z) i j x y :
  StronglySorted Z.lt l → i ≤ j → l !! i = Some x → l !! j = Some y →
  (Z.of_nat j - Z.of_nat i ≤ y - x)%Z.
Proof.
  intros Hl. revert i j x y.
  induction Hl as [|z l Hl IH Hz]; intros i j x y Hij Hi Hj.
  - by rewrite lookup_nil in Hi.
  - destruct i as [|i], j as [|j]; cbn in Hi, Hj.
    + simplify_eq. lia.
    + injection Hi as ->.
      destruct l as [|w l]; [by destruct j|].
      pose proof (IH 0 j w y ltac:(lia) eq_refl Hj) as IH'.
      rewrite Forall_forall in Hz.
      assert (x < w)%Z by (apply Hz; by left). lia.
    + lia.
    + pose proof (IH i j x y ltac:(lia) Hi Hj). lia.
Qed.

Lemma Sorted_le_NoDup_lt (l : list Z) :
  Sorted Z.le l → NoDup l → StronglySorted Z.lt l.
Proof.
  intros Hs%Sorted_StronglySorted Hn; [|intros ???; lia].
  induction Hs as [|x l Hs IH Hx]; [constructor|].
  apply NoDup_cons in Hn as [Hx' Hn]. constructor; [by apply IH|].
  rewrite Forall_forall in Hx |- *. intros y Hy.
  specialize (Hx y Hy). assert (x ≠ y) by (by intros ->). lia.
Qed.

(** Sorted offsets that start at 0, end at [N - 1] and do not repeat are
    exactly [0, 1, ..., N - 1]. *)
Lemma dense_offsets (l : list Z) :
  Sorted Z.le l → NoDup l →
  head l = Some 0%Z → last l = Some (Z.of_nat (length l) - 1)%Z →
  l = Z.of_nat <$> seq 0 (length l).
Proof.
  intros Hs Hn Hhd Hlast.
  pose proof (Sorted_le_NoDup_lt l Hs Hn) as Hlt.
  apply list_eq. intros i.
  rewrite list_lookup_fmap.
  destruct (l !! i) as [x|] eqn:Hi.
  - pose proof (lookup_lt_Some _ _ _ Hi) as Hlen.
    rewrite lookup_seq_lt by done. simpl. f_equal.
    assert (l !! 0 = Some 0%Z) as H0 by (by rewrite <- head_lookup).
    assert (l !! (length l - 1) = Some (Z.of_nat (length l) - 1)%Z) as Hn1.
    { rewrite <- Hlast, last_lookup. f_equal. lia. }
    pose proof (strictly_sorted_gap l 0 i _ _ Hlt ltac:(lia) H0 Hi).
    pose proof (strictly_sorted_gap l i (length l - 1) _ _ Hlt ltac:(lia) Hi Hn1).
    lia.
  - apply lookup_ge_None in Hi. by rewrite lookup_seq_ge.
Qed.

Global Instance offset_le_total : Total offset_le.
Proof. intros a b. unfold offset_le. lia. Qed.

Lemma sorted_by_offset_Sorted l :
  Sorted Z.le (proxy_offset <$> sorted_by_offset l).
Proof.
  unfold sorted_by_offset. eapply Sorted_fmap; [|apply Sorted_merge_sort, _].
  by intros a b.
Qed.

Lemma sorted_by_offset_Permutation l : sorted_by_offset l ≡ₚ l.
Proof. apply merge_sort_Permutation. Qed.

Lemma sorted_by_offset_length l : length (sorted_by_offset l) = length l.
Proof. by rewrite sorted_by_offset_Permutation. Qed.

(** ** Reading the blocks of a function *)

Ltac mstep_core H a H1 :=
  let h1 := fresh "h" in
  apply bind_Ok in H as (a & h1 & H1 & H);
  first [ apply get_func_Ok in H1 as [H1 ->]
        | apply get_scope_Ok in H1 as [H1 ->]
        | apply get_block_Ok in H1 as [H1 ->]
        | apply get_top_Ok in H1 as [H1 ->]
        | apply read_Ok in H1 as [H1 ->]
        | apply assert_Ok in H1 as [H1 ->]
        | lazymatch type of H1 with
          | get_heap _ = _ => unfold get_heap in H1; injection H1 as <- <-
          end
        | idtac ].

Tactic Notation "mstep" hyp(H) "as" ident(a) ident(H1) := mstep_core H a H1.

Tactic Notation "mbind" hyp(H) "as" ident(a) ident(h1) ident(H1) :=
  apply bind_Ok in H as (a & h1 & H1 & H).

Definition allblocks_of (h : Heap) (s : Scope) : list loc :=
  List.filter (is_BasicBlock h) (dict_values (items s)).

Definition blocks_of (h : Heap) (f : Func) (s : Scope) : list loc :=
  List.filter (λ b, negb (bool_decide (b ∈ [_entryblock f; _exitblock f])))
              (allblocks_of h s).

Lemma allblocks_eq h self f s :
  h !! self = Some (OFunc f) → h !! f_scope f = Some (OScope s) →
  allblocks self h = Ok (allblocks_of h s, h).
Proof.
  intros Hf Hs. unfold allblocks.
  rewrite (bind_eq _ _ _ _ _ (get_func_eq _ _ _ Hf)).
  by rewrite (bind_eq _ _ _ _ _ (get_scope_eq _ _ _ Hs)).
Qed.

Lemma blocks_eq h self f s :
  h !! self = Some (OFunc f) → h !! f_scope f = Some (OScope s) →
  blocks self h = Ok (blocks_of h f s, h).
Proof.
  intros Hf Hs. unfold blocks.
  rewrite (bind_eq _ _ _ _ _ (get_func_eq _ _ _ Hf)).
  by rewrite (bind_eq _ _ _ _ _ (allblocks_eq _ _ _ _ Hf Hs)).
Qed.

Lemma allblocks_Ok self h bs h' :
  allblocks self h = Ok (bs, h') →
  h' = h ∧ ∃ f s, h !! self = Some (OFunc f) ∧ h !! f_scope f = Some (OScope s)
                  ∧ bs = allblocks_of h s.
Proof.
  intros H. unfold allblocks in H.
  mstep H as f Hf. mstep H as s Hs. mstep H as hcur Hh.
  injection H as <- <-. split; [done|]. by eexists _, _.
Qed.

Lemma blocks_Ok self h bs h' :
  blocks self h = Ok (bs, h') →
  h' = h ∧ ∃ f s, h !! self = Some (OFunc f) ∧ h !! f_scope f = Some (OScope s)
                  ∧ bs = blocks_of h f s.
Proof.
  intros H. unfold blocks in H.
  mstep H as f Hf. mstep H as all Hall.
  apply allblocks_Ok in Hall as (-> & f' & s & Hf' & Hs & ->).
  injection H as <- <-. split; [done|]. exists f, s. by simplify_eq.
Qed.

Lemma is_defined_Ok self h d h' : is_defined self h = Ok (d, h') → h' = h.
Proof.
  intros H. unfold is_defined in H. mstep H as f Hf.
  destruct (negb _); mstep H as bs Hbs.
  - apply blocks_Ok in Hbs as [-> _]. by injection H as <- <-.
  - apply allblocks_Ok in Hbs as [-> _]. by injection H as <- <-.
Qed.

(** ** Finalization: the layout of the stack frame *)

(** The three assertions of [add_entry_exit]. *)
Definition layout_checks (vars : list Proxy) : bool :=
  bool_decide (from_option proxy_offset 0%Z (head vars) = 0%Z)
  && bool_decide (from_option proxy_offset 0%Z (last vars)
                  = (Z.of_nat (length vars) - 1)%Z)
  && bool_decide (length (remove_dups (proxy_offset <$> vars)) = length vars).

Lemma layout_checks_dense (l : list Proxy) :
  l ≠ [] →
  layout_checks (sorted_by_offset l) = true
  ↔ proxy_offset <$> sorted_by_offset l = Z.of_nat <$> seq 0 (length l).
Proof.
  intros Hne. pose proof (sorted_by_offset_Sorted l) as Hsorted.
  pose proof (sorted_by_offset_length l) as Hlen.
  set (vars := sorted_by_offset l) in *.
  assert (length (proxy_offset <$> vars) = length l) as Hlen'
    by (by rewrite length_fmap).
  unfold layout_checks. rewrite !andb_true_iff, !bool_decide_eq_true. split.
  - intros [[Hhd Hlast] Hdup]. rewrite <- Hlen'.
    apply dense_offsets; [done|..].
    + apply remove_dups_length_NoDup. by rewrite length_fmap.
    + rewrite <- Hhd. destruct vars; [by destruct l|done].
    + rewrite length_fmap, fmap_last, <- Hlast.
      destruct (last vars) eqn:Hl; [done|].
      apply last_None in Hl. rewrite Hl in Hlen. by destruct l.
  - intros Hd. rewrite <- Hlen in Hd.
    assert (0 < length vars) as Hpos by (rewrite Hlen; destruct l; [done|simpl; lia]).
    repeat split.
    + destruct vars as [|v vars']; [simpl in Hpos; lia|].
      simpl in *. by injection Hd as -> _.
    + assert (last (proxy_offset <$> vars) = Some (Z.of_nat (length vars) - 1)%Z) as Hl.
      { rewrite Hd, last_lookup, length_fmap, length_seq, list_lookup_fmap.
        rewrite lookup_seq_lt by lia. simpl. f_equal. lia. }
      rewrite fmap_last in Hl. by destruct (last vars); simplify_eq/=.
    + rewrite NoDup_remove_dups_length; [by rewrite length_fmap|].
      rewrite Hd. apply NoDup_fmap; [apply _ | apply NoDup_seq].
Qed.

Lemma sorted_by_offset_nil l : sorted_by_offset l = [] ↔ l = [].
Proof.
  split; [|by intros ->]. intros H.
  apply Permutation_nil_r. by rewrite <- H, sorted_by_offset_Permutation.
Qed.

Lemma add_entry_exit_unfold h self f s :
  h !! self = Some (OFunc f) → h !! f_scope f = Some (OScope s) →
  add_entry_exit self h =
  ((if bool_decide (stack_vars h s = []) then ret tt
    else
      assert (bool_decide (from_option proxy_offset 0%Z (head (stack_vars h s)) = 0%Z))
             "Stack tip not 0" ;;;
      assert (bool_decide (from_option proxy_offset 0%Z (last (stack_vars h s))
                           = (Z.of_nat (length (stack_vars h s)) - 1)%Z))
             "Stack base not length - 1" ;;;
      assert (bool_decide (length (remove_dups (proxy_offset <$> stack_vars h s))
                           = length (stack_vars h s)))
             "Stack collision" ;;;
      add_ (_entryblock f) (PushNewStackFrame (proxy_type <$> reverse (stack_vars h s))) ;;;
      add_ (_exitblock f) PopStack) ;;;
   for_insns (get_post_exit_insns self) (λ insn, add_ (_exitblock f) insn) ;;;
   bs <- blocks self ;;
   match bs with
   | [] => raise IndexError
   | b0 :: _ => add_ (_entryblock f) (Branch b0) ;;; ret (stack_vars h s)
   end) h.
Proof.
  intros Hf Hs. unfold add_entry_exit.
  rewrite (bind_eq _ _ _ _ _ (get_func_eq _ _ _ Hf)).
  by rewrite (bind_eq _ _ _ _ _ (get_scope_eq _ _ _ Hs)).
Qed.

Lemma three_asserts {A} c1 c2 c3 m1 m2 m3 (k : M A) h :
  (assert c1 m1 ;;; assert c2 m2 ;;; assert c3 m3 ;;; k) h
  = if c1 && c2 && c3 then k h
    else Err (AssertionError (if negb c1 then m1 else if negb c2 then m2 else m3)).
Proof. by destruct c1, c2, c3. Qed.

Lemma add_entry_exit_layout h self f s :
  h !! self = Some (OFunc f) → h !! f_scope f = Some (OScope s) →
  stack_vars h s ≠ [] →
  (layout_checks (stack_vars h s) = false →
   ∃ msg, add_entry_exit self h = Err (AssertionError msg))
  ∧ (∀ r h', add_entry_exit self h = Ok (r, h') →
             layout_checks (stack_vars h s) = true).
Proof.
  intros Hf Hs Hne.
  destruct (layout_checks (stack_vars h s)) eqn:Hchk; split; try done.
  - intros _. rewrite (add_entry_exit_unfold _ _ _ _ Hf Hs).
    rewrite (bool_decide_eq_false_2 _ Hne). unfold bind at 1.
    rewrite three_asserts. fold (layout_checks (stack_vars h s)).
    rewrite Hchk. eauto.
  - intros r h'. rewrite (add_entry_exit_unfold _ _ _ _ Hf Hs).
    rewrite (bool_decide_eq_false_2 _ Hne). unfold bind at 1.
    rewrite three_asserts. fold (layout_checks (stack_vars h s)).
    by rewrite Hchk.
Qed.

Lemma variables_finalized_add_entry_exit self h h' :
  variables_finalized self h = Ok (tt, h') →
  ∃ vars h1, add_entry_exit self h = Ok (vars, h1).
Proof.
  intros H. unfold variables_finalized in H.
  mstep H as d Hd. apply is_defined_Ok in Hd as ->.
  mstep H as f Hf. mstep H as u1 Hu1. mstep H as u2 Hu2.
  mstep H as vars Hvars. eauto.
Qed.

Lemma variables_finalized_fails self h e :
  add_entry_exit self h = Err e → ∃ e', variables_finalized self h = Err e'.
Proof.
  intros Herr. unfold variables_finalized.
  destruct (is_defined self h) as [[d h0]|e0] eqn:Hd;
    [|exists e0; by apply bind_fail].
  pose proof (is_defined_Ok _ _ _ _ Hd) as ->.
  rewrite (bind_eq _ _ _ _ _ Hd).
  destruct (get_func self h) as [[f h0]|e0] eqn:Hf;
    [|exists e0; by apply bind_fail].
  apply get_func_Ok in Hf as [Hf ->].
  rewrite (bind_eq _ _ _ _ _ (get_func_eq _ _ _ Hf)).
  destruct d; [|eexists; by apply bind_fail].
  cbn [assert]. unfold ret at 1. cbn [bind].
  destruct (negb (_varsfinalized f)); [|eexists; by apply bind_fail].
  cbn [assert]. unfold ret at 1. cbn [bind].
  exists e. by apply bind_fail.
Qed.

(** C1.  When the scope of a function holds at least one stack-resident
    local, [add_entry_exit], and with it [variables_finalized], succeeds
    only if the offsets of these locals, sorted ascending, are exactly
    0, 1, ..., N-1; when they are not (a gap, a repeat, a first offset that
    is not 0 or a last one that is not N-1) an assertion of
    [add_entry_exit] fails and so does the finalization. *)
Theorem stack_offsets_dense (h : Heap) (self : loc) (f : Func) (s : Scope) :
  h !! self = Some (OFunc f) →
  h !! f_scope f = Some (OScope s) →
  omap (stack_resident h) (dict_values (items s)) ≠ [] →
  let locals := omap (stack_resident h) (dict_values (items s)) in
  let offsets := proxy_offset <$> sorted_by_offset locals in
  let dense := Z.of_nat <$> seq 0 (length locals) in
  Sorted Z.le offsets
  ∧ (∀ r h', add_entry_exit self h = Ok (r, h') → offsets = dense)
  ∧ (∀ h', variables_finalized self h = Ok (tt, h') → offsets = dense)
  ∧ (offsets ≠ dense →
     (∃ msg, add_entry_exit self h = Err (AssertionError msg))
     ∧ ∃ e, variables_finalized self h = Err e).
Proof.
  intros Hf Hs Hne locals offsets dense.
  assert (stack_vars h s ≠ []) as Hne'.
  { unfold stack_vars. by rewrite sorted_by_offset_nil. }
  destruct (add_entry_exit_layout h self f s Hf Hs Hne') as [Hfail Hok].
  pose proof (layout_checks_dense locals Hne) as Hdense.
  fold (stack_vars h s) in Hdense. fold offsets dense in Hdense.
  split; [apply sorted_by_offset_Sorted|]. split; [|split].
  - intros r h' Hadd. apply Hdense. by eapply Hok.
  - intros h' Hfin.
    destruct (variables_finalized_add_entry_exit _ _ _ Hfin) as (vars & h1 & Hadd).
    apply Hdense. by eapply Hok.
  - intros Hnd.
    assert (layout_checks (stack_vars h s) = false) as Hchk.
    { destruct (layout_checks (stack_vars h s)) eqn:Hc; [|done].
      by apply Hdense in Hc. }
    destruct (Hfail Hchk) as [msg Hmsg]. split; [eauto|].
    by eapply variables_finalized_fails.
Qed.

Lemma stack_offsets_dense_witness :
  (proxy_offset <$> sorted_by_offset
     (omap (stack_resident dense_heap) (dict_values (scope_items dense_heap 6)))
   = [0; 1]%Z
   ∧ is_Ok (add_entry_exit 5 dense_heap) = true)
  ∧ (proxy_offset <$> sorted_by_offset
       (omap (stack_resident gap_heap) (dict_values (scope_items gap_heap 6)))
     = [0; 2]%Z
     ∧ ∃ msg, add_entry_exit 5 gap_heap = Err (AssertionError msg)).
Proof.
  split.
  - destruct (add_entry_exit 5 dense_heap) as [[r h']|e] eqn:Hadd;
      [|by vm_compute in Hadd].
    destruct (stack_offsets_dense dense_heap 5 _ _ eq_refl eq_refl) as (_ & Hok & _).
    { by vm_compute. }
    split; [exact (Hok r h' Hadd) | reflexivity].
  - destruct (stack_offsets_dense gap_heap 5 _ _ eq_refl eq_refl) as (_ & _ & _ & Hgap).
    { by vm_compute. }
    split; [reflexivity|]. apply Hgap. by vm_compute.
Defined.

(** ** ObjectFormat *)

Section ObjectFormat_roundtrip.
Context {Pickled Compressed : Type}.
Variable pickle_dumps : PyObject → Res Pickled.
Variable pickle_loads : Pickled → Res PyObject.
Variable zlib_compress : Pickled → Compressed.
Variable zlib_decompress : Compressed → Res Pickled.

(** The contracts of the two libraries: what was written is read back. *)
Hypothesis pickle_loads_dumps : ∀ o p, pickle_dumps o = Ok p → pickle_loads p = Ok o.
Hypothesis zlib_decompress_compress : ∀ p, zlib_decompress (zlib_compress p) = Ok p.

(** C5 (as amended).  [save] takes any object, finished unit or not, and
    fails exactly when [pickle.dumps] fails on the wrapper, with the same
    exception.  When it returns a blob, [load] of the blob returns the
    [ObjectFormat] wrapper, whose [top] is the object that was saved (so
    with the same visible function names, signatures and block counts) and
    whose version is the running one.  A blob whose embedded version
    differs from the running version makes [load] fail its assertion, and
    one that holds no [ObjectFormat] makes it fail on the attribute. *)
Theorem load_save_roundtrip :
  (∀ u blob,
     ObjectFormat_save pickle_dumps zlib_compress u = Ok blob →
     ∃ obj,
       ObjectFormat_load pickle_loads zlib_decompress blob = Ok obj
       ∧ obj = PObjectFormat u VERSION
       ∧ format_top obj = Some u
       ∧ unit_summary obj = unit_summary u)
  ∧ (∀ u, ObjectFormat_save pickle_dumps zlib_compress u
          = match pickle_dumps (PObjectFormat u VERSION) with
            | Ok p => Ok (zlib_compress p)
            | Err e => Err e
            end)
  ∧ (∀ data p top version,
       zlib_decompress data = Ok p →
       pickle_loads p = Ok (PObjectFormat top version) →
       version ≠ VERSION →
       ObjectFormat_load pickle_loads zlib_decompress data
       = Err (AssertionError "obj.__version == ObjectFormat.VERSION"))
  ∧ (∀ data p h root,
       zlib_decompress data = Ok p →
       pickle_loads p = Ok (PStored h root) →
       ObjectFormat_load pickle_loads zlib_decompress data
       = Err (AttributeError "__version")).
Proof.
  split; [|split; [|split]].
  - intros u blob Hsave. exists (PObjectFormat u VERSION).
    unfold ObjectFormat_save, ObjectFormat_init in Hsave.
    destruct (pickle_dumps (PObjectFormat u VERSION)) as [p|e] eqn:Hp; [|done].
    injection Hsave as <-. unfold ObjectFormat_load.
    rewrite zlib_decompress_compress, (pickle_loads_dumps _ _ Hp).
    by rewrite bool_decide_eq_true_2.
  - intros u. unfold ObjectFormat_save, ObjectFormat_init.
    by destruct (pickle_dumps (PObjectFormat u VERSION)).
  - intros data p top version Hz Hp Hv. unfold ObjectFormat_load.
    rewrite Hz, Hp. by rewrite bool_decide_eq_false_2.
  - intros data p h root Hz Hp. unfold ObjectFormat_load. by rewrite Hz, Hp.
Qed.
End ObjectFormat_roundtrip.

Lemma bounded_loads_dumps limit o p : bounded_dumps limit o = Ok p → ideal_loads p = Ok o.
Proof. unfold bounded_dumps, ideal_loads. case_bool_decide; by intros [= ->]. Defined.

(** The finished unit of [stub_heap] and the unit of [demo_heap], which is
    not finished, are saved and loaded alike; a serializer that gives up on
    the wrapper makes [save] fail. *)
Lemma load_save_roundtrip_witness :
  (∃ blob,
     ObjectFormat_save (bounded_dumps 20) ideal_compress stored_unit = Ok blob
     ∧ ObjectFormat_load ideal_loads ideal_decompress blob
       = Ok (PObjectFormat stored_unit VERSION))
  ∧ (∃ blob,
       ObjectFormat_save (bounded_dumps 20) ideal_compress (PStored demo_heap 0) = Ok blob
       ∧ ObjectFormat_load ideal_loads ideal_decompress blob
         = Ok (PObjectFormat (PStored demo_heap 0) VERSION))
  ∧ unit_summary (PObjectFormat stored_unit VERSION)
    = [("f", [], [], 3); ("g", [(i32, "byval")], [i32], 0)]
  ∧ ObjectFormat_save (bounded_dumps 10) ideal_compress stored_unit = Err RecursionError
  ∧ ObjectFormat_load ideal_loads ideal_decompress (PObjectFormat stored_unit "0.9.0")
    = Err (AssertionError "obj.__version == ObjectFormat.VERSION").
Proof.
  destruct (load_save_roundtrip (bounded_dumps 20) ideal_loads ideal_compress
              ideal_decompress (bounded_loads_dumps 20) (λ _, eq_refl))
    as (Hround & _ & Hversion & _).
  destruct (load_save_roundtrip (bounded_dumps 10) ideal_loads ideal_compress
              ideal_decompress (bounded_loads_dumps 10) (λ _, eq_refl))
    as (_ & Hsave & _ & _).
  split; [|split; [|split; [reflexivity|split]]].
  - eexists. split; [reflexivity|].
    destruct (Hround stored_unit _ eq_refl) as (obj & Hload & -> & _ & _). exact Hload.
  - eexists. split; [reflexivity|].
    destruct (Hround (PStored demo_heap 0) _ eq_refl) as (obj & Hload & -> & _ & _).
    exact Hload.
  - rewrite Hsave. reflexivity.
  - by apply (Hversion _ (PObjectFormat stored_unit "0.9.0") stored_unit "0.9.0").
Defined.

(** C5, counterexample.  What [load] returns for the blob [save(u)] made
    is the [ObjectFormat] wrapper, not the unit [u] embedded in it. *)
Lemma load_returns_the_wrapper :
  ∃ blob,
    ObjectFormat_save ideal_dumps ideal_compress stored_unit = Ok blob
    ∧ ObjectFormat_load ideal_loads ideal_decompress blob ≠ Ok stored_unit.
Proof. eexists. split; [reflexivity|]. vm_compute. discriminate. Qed.

(** ** TopLevel.include_from *)

Lemma global_name_readonly v h g h' : global_name v h = Ok (g, h') → h' = h.
Proof.
  intros H. unfold global_name in H. mstep H as o Ho.
  destruct o; try done. unfold IRFunction_global_name in H.
  mstep H as d Hd. apply is_defined_Ok in Hd as ->.
  mstep H as f' Hf'. mstep H as u Hu. by injection H as <- <-.
Qed.

(** One round of the loop of [include_from] never gets to store a stub:
    a symbol is skipped, or building its stub raises. *)
Lemma include_from_round self h name v :
  let body := (h0 <- get_heap ;;
               if is_VisibleFunction h0 v && negb (startswith name "__") then
                 gname <- global_name v ;;
                 stub <- ExternFunction_init gname (PyTopLevel self) None ;;
                 t <- get_top self ;;
                 Scope_setitem (t_scope t) name stub
               else ret tt) in
  (body h = Ok (tt, h)
   ∧ is_VisibleFunction h v && negb (startswith name "__") = false)
  ∨ (∃ e, body h = Err e
          ∧ is_VisibleFunction h v && negb (startswith name "__") = true).
Proof.
  intros body. subst body. unfold get_heap. cbn [bind].
  destruct (is_VisibleFunction h v && negb (startswith name "__")); [right|by left].
  destruct (global_name v h) as [[g h1]|e] eqn:Hg.
  - pose proof (global_name_readonly _ _ _ _ Hg) as ->.
    rewrite (bind_eq _ _ _ _ _ Hg). eexists. split; [|done].
    by apply bind_fail.
  - exists e. split; [|done]. by apply bind_fail.
Qed.

(** [include_from] succeeds only when the other unit has no symbol to
    import, and then the store is left as it was: no stub is ever stored. *)
Lemma include_from_stores_nothing self other h h' t s :
  h !! other = Some (OTop t) → h !! t_scope t = Some (OScope s) →
  include_from self other h = Ok (tt, h') →
  h' = h
  ∧ ∀ name v, dict_get (items s) name = Some v →
              is_VisibleFunction h v && negb (startswith name "__") = false.
Proof.
  intros Ht Hs H. unfold include_from in H.
  rewrite (bind_eq _ _ _ _ _ (get_top_eq _ _ _ Ht)) in H.
  match type of H with for_scope_items _ ?b _ = _ => set (body := b) in * end.
  assert (∀ k v, body k v h = Ok (tt, h) ∨ ∃ e, body k v h = Err e) as Hbody.
  { intros k v. destruct (include_from_round self h k v) as [[? _]|(e & ? & _)]; eauto. }
  destruct (for_scope_items_readonly h (t_scope t) s body Hs Hbody)
    as [[Hloop Hall] | (e & k & v & Hloop & _)]; [|congruence].
  rewrite Hloop in H. injection H as <-. split; [done|].
  intros name v Hget. specialize (Hall name v Hget).
  destruct (include_from_round self h name v) as [[_ ?]|(e & He & _)]; [done|].
  fold (body name v) in He. congruence.
Qed.

(** C6, the failing input.  Importing the finished unit of [stub_heap],
    which defines the function ["f"], into a fresh unit raises a
    [TypeError]: [include_from] hands the importing unit to
    [ExternFunction] as its [params]. *)
Lemma include_from_raises_TypeError :
  raised (this <- TopLevel_init ;; include_from this 0) stub_heap
  = Some (TypeError "'TopLevel' object is not iterable").
Proof. reflexivity. Qed.

(** ** Finalization: the entry and exit super blocks *)

(** The instructions whose activation hook is the inherited one and which
    [validate_insn] stores as they are. *)
Definition is_plain (i : Insn) : bool :=
  match kind i with
  | KBranch | KPushNewStackFrame | KPopStack | KSetScore | KRunDeferredCallback
  | KRevokeEventAdvancement | KAddEventCondition | KSetupInsn | KOther _ _ _ _ => true
  | _ => false
  end.

Lemma activate_plain insn seq h :
  is_plain insn = true → activate insn seq h = Ok ((insn, None), h).
Proof. destruct insn as [[] ? ?]; try done. Qed.

Lemma is_plain_not_Return insn : is_plain insn = true → kind insn ≠ KReturn.
Proof. by destruct insn as [[] ? ?]. Qed.

Lemma add_plain h l b insn :
  h !! l = Some (OBlock b) → is_plain insn = true →
  add_ l insn h
  = if terminated_unforced b then Err (AssertionError "Block is terminated")
    else Ok (tt, <[l := OBlock (set_insns b (insns b ++ [insn]))]> h).
Proof.
  intros Hb Hp. unfold add_, add, add_with.
  unfold bind at 1 2.
  rewrite (validate_insn_block _ _ _ _ Hb), (BasicBlock_validate_insn_eq _ _ _ _ Hb).
  destruct (terminated_unforced b); [done|].
  rewrite bool_decide_eq_false_2 by (by apply is_plain_not_Return).
  rewrite (bind_eq _ _ _ _ _ (activate_plain _ _ _ Hp)). cbn [fst snd].
  by rewrite (bind_eq _ _ _ _ _ (seq_append_block _ _ _ _ Hb)).
Qed.

Lemma add_plain_Ok h l b insn h' :
  h !! l = Some (OBlock b) → is_plain insn = true →
  add_ l insn h = Ok (tt, h') →
  h' = <[l := OBlock (set_insns b (insns b ++ [insn]))]> h.
Proof.
  intros Hb Hp. rewrite (add_plain _ _ _ _ Hb Hp).
  destruct (terminated_unforced b); [done|]. by intros [= <-].
Qed.

Lemma set_insns_id b : set_insns b (insns b) = b.
Proof. by destruct b. Qed.

Lemma set_insns_set_insns b l1 l2 : set_insns (set_insns b l1) l2 = set_insns b l2.
Proof. done. Qed.

Lemma get_post_exit_insns_eq self h f :
  h !! self = Some (OFunc f) →
  get_post_exit_insns self h = Ok (post_exit_insns f, h).
Proof.
  intros Hf. unfold get_post_exit_insns.
  by rewrite (bind_eq _ _ _ _ _ (get_func_eq _ _ _ Hf)).
Qed.

(** The loop over [post_exit_insns] when every queued instruction is
    plain: each is appended to the exit block. *)
Lemma post_exit_loop fuel self exit f i h bx h' :
  h !! self = Some (OFunc f) → h !! exit = Some (OBlock bx) →
  Forall (λ insn, is_plain insn = true) (post_exit_insns f) →
  fold_live fuel (get_post_exit_insns self) i (λ insn _, add_ exit insn) tt h
  = Ok (tt, h') →
  h' = <[exit := OBlock (set_insns bx (insns bx ++ drop i (post_exit_insns f)))]> h.
Proof.
  intros Hf Hx Hplain. revert i h bx Hf Hx.
  induction fuel as [|fuel IH]; intros i h bx Hf Hx Hloop; [done|].
  cbn [fold_live] in Hloop.
  rewrite (bind_eq _ _ _ _ _ (get_post_exit_insns_eq _ _ _ Hf)) in Hloop.
  destruct (post_exit_insns f !! i) as [insn|] eqn:Hi.
  - mstep Hloop as u Hadd. destruct u.
    assert (is_plain insn = true) as Hp.
    { rewrite Forall_forall in Hplain. apply Hplain. by eapply list_elem_of_lookup_2. }
    apply (add_plain_Ok _ _ _ _ _ Hx Hp) in Hadd. subst h0.
    assert (self ≠ exit) as Hne by (intros ->; congruence).
    assert (exit < length h) as Hlt by (by eapply lookup_lt_Some).
    apply (IH (S i) _ (set_insns bx (insns bx ++ [insn]))) in Hloop.
    + rewrite Hloop, list_insert_insert_eq. cbn [set_insns insns].
      rewrite (drop_S _ _ _ Hi), <- app_assoc. done.
    + by rewrite list_lookup_insert_ne.
    + by apply list_lookup_insert_eq.
  - injection Hloop as <-. apply lookup_ge_None in Hi.
    rewrite drop_ge by done. rewrite app_nil_r, set_insns_id.
    by rewrite list_insert_id.
Qed.

Lemma is_BasicBlock_insert h l b b' x :
  h !! l = Some (OBlock b) →
  is_BasicBlock (<[l := OBlock b']> h) x = is_BasicBlock h x.
Proof.
  intros Hl. unfold is_BasicBlock. destruct (decide (l = x)) as [->|Hne].
  - rewrite list_lookup_insert_eq by (by eapply lookup_lt_Some). by rewrite Hl.
  - by rewrite list_lookup_insert_ne.
Qed.

Lemma allblocks_of_insert h l b b' s :
  h !! l = Some (OBlock b) →
  allblocks_of (<[l := OBlock b']> h) s = allblocks_of h s.
Proof.
  intros Hl. unfold allblocks_of. apply filter_ext. intros x.
  by eapply is_BasicBlock_insert.
Qed.

Lemma blocks_of_insert h l b b' f s :
  h !! l = Some (OBlock b) →
  blocks_of (<[l := OBlock b']> h) f s = blocks_of h f s.
Proof. intros Hl. unfold blocks_of. by erewrite allblocks_of_insert. Qed.

(** The frame push and the frame pop [add_entry_exit] adds for the given
    stack-resident locals: none when there is no such local. *)
Definition frame_push (vars : list Proxy) : list Insn :=
  match vars with
  | [] => []
  | _ => [PushNewStackFrame (proxy_type <$> reverse vars)]
  end.

Definition frame_pop (vars : list Proxy) : list Insn :=
  match vars with
  | [] => []
  | _ => [PopStack]
  end.

Lemma add_entry_exit_frame_part h f be bx vars h2 :
  h !! _entryblock f = Some (OBlock be) →
  h !! _exitblock f = Some (OBlock bx) →
  _entryblock f ≠ _exitblock f →
  (if bool_decide (vars = []) then ret tt
   else
     assert (bool_decide (from_option proxy_offset 0%Z (head vars) = 0%Z))
            "Stack tip not 0" ;;;
     assert (bool_decide (from_option proxy_offset 0%Z (last vars)
                          = (Z.of_nat (length vars) - 1)%Z))
            "Stack base not length - 1" ;;;
     assert (bool_decide (length (remove_dups (proxy_offset <$> vars)) = length vars))
            "Stack collision" ;;;
     add_ (_entryblock f) (PushNewStackFrame (proxy_type <$> reverse vars)) ;;;
     add_ (_exitblock f) PopStack) h = Ok (tt, h2) →
  h2 = <[_exitblock f := OBlock (set_insns bx (insns bx ++ frame_pop vars))]>
         (<[_entryblock f := OBlock (set_insns be (insns be ++ frame_push vars))]> h).
Proof.
  intros Hbe Hbx Hne H. destruct vars as [|v vars].
  - injection H as <-. cbn [frame_push frame_pop].
    rewrite !app_nil_r, !set_insns_id.
    rewrite (list_insert_id _ _ _ Hbe). by rewrite (list_insert_id _ _ _ Hbx).
  - rewrite bool_decide_eq_false_2 in H by done.
    rewrite three_asserts in H. destruct (_ && _ && _); [|done].
    mstep H as u Hpush. destruct u.
    apply (add_plain_Ok _ _ _ (PushNewStackFrame _) _ Hbe eq_refl) in Hpush. subst h0.
    apply add_plain_Ok with (b := bx) in H; [done| |done].
    by rewrite list_lookup_insert_ne.
Qed.

(** C8 (as amended).  When [add_entry_exit] returns, the stack-resident
    locals it returns are those of the scope sorted by ascending offset;
    the entry super block holds what it held before, then (if and only if
    there is a stack-resident local) a frame push that carries the slot
    types by descending offset, and last an unconditional branch to the
    first user block; the exit super block holds what it held before, then
    (under the same condition) a frame pop, then the queued post-exit
    instructions; nothing else changes. *)
Theorem add_entry_exit_appends (h : Heap) (self : loc) (f : Func) (s : Scope)
    (be bx : Block) (vars : list Proxy) (h' : Heap) :
  h !! self = Some (OFunc f) →
  h !! f_scope f = Some (OScope s) →
  h !! _entryblock f = Some (OBlock be) →
  h !! _exitblock f = Some (OBlock bx) →
  _entryblock f ≠ _exitblock f →
  Forall (λ insn, insn = RunDeferredCallback) (post_exit_insns f) →
  add_entry_exit self h = Ok (vars, h') →
  vars = stack_vars h s
  ∧ Sorted (flip Z.le) (proxy_offset <$> reverse vars)
  ∧ ∃ b0,
      head (blocks_of h f s) = Some b0
      ∧ h' !! _entryblock f
        = Some (OBlock (set_insns be (insns be ++ frame_push vars ++ [Branch b0])))
      ∧ h' !! _exitblock f
        = Some (OBlock (set_insns bx (insns bx ++ frame_pop vars ++ post_exit_insns f)))
      ∧ ∀ l, l ≠ _entryblock f → l ≠ _exitblock f → h' !! l = h !! l.
Proof.
  intros Hf Hs Hbe Hbx Hne Hpost Hadd.
  rewrite (add_entry_exit_unfold _ _ _ _ Hf Hs) in Hadd.
  assert (self ≠ _entryblock f) as Hse by (intros Heq; rewrite Heq in Hf; congruence).
  assert (self ≠ _exitblock f) as Hsx by (intros Heq; rewrite Heq in Hf; congruence).
  assert (f_scope f ≠ _entryblock f) as Hce by (intros Heq; rewrite Heq in Hs; congruence).
  assert (f_scope f ≠ _exitblock f) as Hcx by (intros Heq; rewrite Heq in Hs; congruence).
  assert (_entryblock f < length h) as Hle by (by eapply lookup_lt_Some).
  assert (_exitblock f < length h) as Hlx by (by eapply lookup_lt_Some).
  mstep Hadd as u Hframe. destruct u.
  apply (add_entry_exit_frame_part _ _ _ _ _ _ Hbe Hbx Hne) in Hframe.
  set (be1 := set_insns be (insns be ++ frame_push (stack_vars h s))) in *.
  set (bx1 := set_insns bx (insns bx ++ frame_pop (stack_vars h s))) in *.
  assert (h0 !! self = Some (OFunc f)) as Hf0.
  { subst h0. by rewrite !list_lookup_insert_ne. }
  assert (h0 !! _exitblock f = Some (OBlock bx1)) as Hbx0.
  { subst h0. apply list_lookup_insert_eq. by rewrite length_insert. }
  mstep Hadd as u Hloop. destruct u.
  unfold for_insns, fold_insns in Hloop.
  rewrite (bind_eq _ _ _ _ _ (get_post_exit_insns_eq _ _ _ Hf0)) in Hloop.
  apply (post_exit_loop _ _ _ _ _ _ _ _ Hf0 Hbx0) in Hloop.
  2:{ eapply Forall_impl; [exact Hpost|]. by intros insn ->. }
  rewrite drop_0 in Hloop. cbn [set_insns insns bx1] in Hloop.
  rewrite <- app_assoc in Hloop.
  set (bx2 := set_insns bx (insns bx ++ frame_pop (stack_vars h s) ++ post_exit_insns f)) in *.
  assert (h1 !! self = Some (OFunc f)) as Hf1.
  { subst h1. by rewrite list_lookup_insert_ne. }
  assert (h1 !! f_scope f = Some (OScope s)) as Hs1.
  { subst h1 h0. by rewrite !list_lookup_insert_ne. }
  assert (h1 !! _entryblock f = Some (OBlock be1)) as Hbe1.
  { subst h1 h0. rewrite !list_lookup_insert_ne by done.
    by apply list_lookup_insert_eq. }
  rewrite (bind_eq _ _ _ _ _ (blocks_eq _ _ _ _ Hf1 Hs1)) in Hadd.
  assert (blocks_of h1 f s = blocks_of h f s) as Hblocks.
  { subst h1 h0. erewrite !blocks_of_insert; [done|exact Hbe| |].
    - by rewrite list_lookup_insert_ne.
    - apply list_lookup_insert_eq. by rewrite length_insert. }
  rewrite Hblocks in Hadd.
  destruct (blocks_of h f s) as [|b0 bs]; [done|].
  mstep Hadd as u Hbranch. destruct u. injection Hadd as <- <-.
  apply (add_plain_Ok _ _ _ (Branch _) _ Hbe1 eq_refl) in Hbranch.
  split; [done|]. split.
  { rewrite fmap_reverse. apply Sorted_reverse. apply sorted_by_offset_Sorted. }
  exists b0. split; [done|]. subst h2 h1 h0. split; [|split].
  - rewrite list_lookup_insert_eq by (by rewrite !length_insert).
    cbn [set_insns insns be1]. by rewrite <- app_assoc.
  - rewrite list_lookup_insert_ne by done.
    rewrite list_lookup_insert_eq by (by rewrite !length_insert). done.
  - intros l Hl1 Hl2. by rewrite !list_lookup_insert_ne.
Qed.

Lemma add_entry_exit_appends_witness :
  ∃ vars h',
    add_entry_exit 5 dense_heap = Ok (vars, h')
    ∧ proxy_offset <$> vars = [0; 1]%Z
    ∧ h' !! 8 = Some (OBlock (mkBlock [PushNewStackFrame [i32; i32]; Branch 10]
                                      5 "0entry" 5 false true false false 0 true false true))
    ∧ h' !! 9 = Some (OBlock (mkBlock [PopStack]
                                      5 "0ret" 5 false true false false 0 true false false)).
Proof.
  destruct (add_entry_exit 5 dense_heap) as [[vars h']|e] eqn:Hadd;
    [|by vm_compute in Hadd].
  exists vars, h'. split; [done|].
  destruct (add_entry_exit_appends dense_heap 5 _ _ _ _ vars h'
              eq_refl eq_refl eq_refl eq_refl ltac:(done) ltac:(constructor) Hadd)
    as (-> & _ & b0 & Hb0 & Hentry & Hexit & _).
  injection Hb0 as <-.
  split; [reflexivity|]. split; [exact Hentry | exact Hexit].
Defined.

(** C8, counterexample.  In a function that handles an event the entry
    super block already holds a [RevokeEventAdvancement] when the function
    is finalized, and the frame push is placed after it, not before; and in
    a function whose user blocks are all terminated, [variables_finalized]
    leaves the entry super block ending in the frame pop it took over from
    the exit super block, not in the branch. *)
Lemma frame_push_is_appended :
  eval (add_entry_exit 5 ;;; get_insns 8) handler_heap
  = Some [RevokeEventAdvancement 5; PushNewStackFrame [i32; i32]; Branch 10]
  ∧ eval (variables_finalized 5 ;;; get_insns 8) closed_heap
    = Some [PushNewStackFrame [i32; i32]; Branch 10; PopStack].
Proof. split; reflexivity. Qed.

(** ** How the store evolves while instructions are added

    Adding an instruction appends to the sequence it is added to and, through
    the activation hook of [EventHandler], to the entry block of a function;
    it may create objects and name them in a scope.  [step T h h'] says that
    [h'] arises from [h] by such changes, the blocks appended to being among
    those of [T]. *)

(** [l] is the entry block of a function of the store. *)
Definition is_entry_of (h : Heap) (l : loc) : Prop :=
  ∃ lf f, h !! lf = Some (OFunc f) ∧ _entryblock f = l.

Definition obj_step (touched : Prop) (o o' : Obj) : Prop :=
  match o, o' with
  | OBlock b, OBlock b' =>
      insns b `prefix_of` insns b' ∧ (¬ touched → insns b' = insns b)
  | OPreamble p, OPreamble p' => p_holder p' = p_holder p
  | OFunc f, OFunc f' =>
      _entryblock f' = _entryblock f ∧ _exitblock f' = _exitblock f
      ∧ f_scope f' = f_scope f ∧ f_preamble f' = f_preamble f
  | OScope s, OScope s' => parent s' = parent s ∧ items s `prefix_of` items s'
  | OExtern e, OExtern e' => e' = e
  | OTop t, OTop t' => t_scope t' = t_scope t
  | OVar v, OVar v' => v' = v
  | OEvent n, OEvent n' => n' = n
  | OPosUtilEntity, OPosUtilEntity => True
  | OGlobalEntity, OGlobalEntity => True
  | _, _ => False
  end.

Definition new_ok (untouched : Prop) (o : Obj) : Prop :=
  match o with
  | OFunc _ => False
  | OBlock b => untouched → insns b = []
  | OVar v => v_class v ≠ ParameterVariable ∧ v_class v ≠ ReturnVariable
  | _ => True
  end.

Record step (T : loc → Prop) (h h' : Heap) : Prop := mkStep {
  step_old : ∀ l o, h !! l = Some o → ∃ o', h' !! l = Some o' ∧ obj_step (T l) o o';
  step_new : ∀ l o', h !! l = None → h' !! l = Some o' → new_ok (¬ T l) o'
}.

Lemma obj_step_refl P o : obj_step P o o.
Proof. destruct o; simpl; auto. Qed.

Lemma obj_step_trans P o1 o2 o3 :
  obj_step P o1 o2 → obj_step P o2 o3 → obj_step P o1 o3.
Proof.
  destruct o1, o2; simpl; try done; destruct o3; simpl; try done; try congruence.
  - intros [H1 H2] [H3 H4]. split; [congruence | by etrans].
  - intros [H1 H1'] [H2 H2']. split; [by etrans|].
    intros Hn. rewrite (H2' Hn). auto.
  - intros (?&?&?&?) (?&?&?&?). repeat split; congruence.
Qed.

Lemma obj_step_mono (P Q : Prop) o o' : (P → Q) → obj_step P o o' → obj_step Q o o'.
Proof.
  intros HPQ. destruct o, o'; simpl; try done.
  intros [H1 H2]. split; [done|]. intros Hn. apply H2. tauto.
Qed.

Lemma step_refl T h : step T h h.
Proof.
  split.
  - intros l o Hl. exists o. split; [done | apply obj_step_refl].
  - intros l o' Hn Hs. congruence.
Qed.

Lemma new_ok_step P o o' : new_ok (¬ P) o → obj_step P o o' → new_ok (¬ P) o'.
Proof.
  destruct o, o'; simpl; try done.
  - intros Hn [_ Heq] HP. rewrite (Heq HP). auto.
  - by intros ? ->.
Qed.

Lemma step_trans T h1 h2 h3 : step T h1 h2 → step T h2 h3 → step T h1 h3.
Proof.
  intros [Ho1 Hn1] [Ho2 Hn2]. split.
  - intros l o Hl. destruct (Ho1 l o Hl) as (o2 & Hl2 & Hs12).
    destruct (Ho2 l o2 Hl2) as (o3 & Hl3 & Hs23).
    exists o3. split; [done|]. by eapply obj_step_trans.
  - intros l o' Hl1 Hl3. destruct (h2 !! l) as [o2|] eqn:Hl2.
    + destruct (Ho2 l o2 Hl2) as (o3 & Hl3' & Hs23). simplify_eq.
      eapply new_ok_step; [|done]. by apply Hn1.
    + by apply Hn2.
Qed.

Lemma step_mono (T T' : loc → Prop) h h' :
  (∀ l, T l → T' l) → step T h h' → step T' h h'.
Proof.
  intros HT [Ho Hn]. split.
  - intros l o Hl. destruct (Ho l o Hl) as (o' & Hl' & Hs).
    exists o'. split; [done|]. eapply obj_step_mono; [apply HT | done].
  - intros l o' Hl Hl'. specialize (Hn l o' Hl Hl').
    destruct o'; simpl in *; try done. intros HnT. apply Hn. intros ?. apply HnT. auto.
Qed.

Lemma step_length T h h' : step T h h' → length h ≤ length h'.
Proof.
  intros [Ho _]. destruct (decide (length h ≤ length h')) as [|Hgt]; [done|].
  destruct (lookup_lt_is_Some_2 h (length h')) as [o Hl]; [lia|].
  destruct (Ho _ _ Hl) as (o' & Hl' & _).
  apply lookup_lt_Some in Hl'. lia.
Qed.

Lemma step_entry T h h' l : step T h h' → is_entry_of h' l → is_entry_of h l.
Proof.
  intros [Ho Hn] (lf & f' & Hf' & <-).
  destruct (h !! lf) as [o|] eqn:Hl.
  - destruct (Ho _ _ Hl) as (o' & Hl' & Hs). simplify_eq.
    destruct o; simpl in Hs; try done. destruct Hs as (Heq & _).
    exists lf, f. split; [done | congruence].
  - by destruct (Hn _ _ Hl Hf').
Qed.

(** One object is updated in place. *)
Lemma step_insert T h l o o' :
  h !! l = Some o → obj_step (T l) o o' → step T h (<[l := o']> h).
Proof.
  intros Hl Hs. split.
  - intros l' o1 Hl1. destruct (decide (l = l')) as [<-|Hne].
    + simplify_eq. exists o'. split; [|done].
      apply list_lookup_insert_eq. by eapply lookup_lt_Some.
    + exists o1. rewrite list_lookup_insert_ne by done.
      split; [done | apply obj_step_refl].
  - intros l' o1 Hn Hs1. destruct (decide (l = l')) as [<-|Hne]; [congruence|].
    rewrite list_lookup_insert_ne in Hs1 by done. congruence.
Qed.

(** One object is created. *)
Lemma step_alloc T h o :
  new_ok True o → step T h (h ++ [o]).
Proof.
  intros Hnew. split.
  - intros l o1 Hl. exists o1. split; [|apply obj_step_refl].
    by apply lookup_app_l_Some.
  - intros l o' Hn Hl. apply lookup_ge_None in Hn.
    rewrite lookup_app_r in Hl by done.
    destruct (l - length h) as [|n]; simpl in Hl; [|by destruct n].
    injection Hl as <-. destruct o; simpl in *; auto.
Qed.

(** *** Computations that only read *)

Lemma pure_read_Ok {A} (f : Heap → Res A) h a h' :
  pure_read f h = Ok (a, h') → h' = h ∧ f h = Ok a.
Proof. unfold pure_read. destruct (f h); naive_solver. Qed.

Lemma holder_scope_Ok self h scope h' :
  holder_scope self h = Ok (scope, h') →
  h' = h ∧ ((∃ t, h !! self = Some (OTop t) ∧ scope = t_scope t)
            ∨ (∃ f, h !! self = Some (OFunc f) ∧ scope = f_scope f)).
Proof.
  intros H. unfold holder_scope in H. mstep H as o Ho.
  destruct o; try done; injection H as <- <-; split; eauto.
Qed.

Lemma seq_holder_Ok self h r h' : seq_holder self h = Ok (r, h') → h' = h.
Proof.
  intros H. unfold seq_holder in H. mstep H as o Ho.
  destruct o; try done; by injection H as <- <-.
Qed.

Lemma Scope_contains_no_parent_Ok self key h c h' :
  Scope_contains_no_parent self key h = Ok (c, h') →
  h' = h ∧ ∃ s, h !! self = Some (OScope s) ∧ c = dict_has (items s) key.
Proof.
  intros H. unfold Scope_contains_no_parent in H. mstep H as s Hs.
  injection H as <- <-. eauto.
Qed.

Lemma Scope_contains_false_local fuel h scope s key :
  h !! scope = Some (OScope s) →
  Scope_contains_rec fuel h scope key = Ok false →
  dict_get (items s) key = None.
Proof.
  intros Hs. destruct fuel as [|fuel]; [done|]. cbn. rewrite Hs.
  unfold dict_has. by destruct (dict_get (items s) key).
Qed.

Lemma uniq_name_loop_Ok fuel scope hint i h name h' :
  uniq_name_loop fuel scope hint i h = Ok (name, h') →
  h' = h ∧ Scope_contains scope name h = Ok (false, h).
Proof.
  revert i. induction fuel as [|fuel IH]; intros i H; [done|].
  cbn [uniq_name_loop] in H. mstep H as c Hc.
  pose proof Hc as Hc'. apply Scope_contains_Ok in Hc' as [_ ->].
  destruct c; [by apply IH in H|]. by injection H as <- <-.
Qed.

Lemma uniq_name_Ok self hint h name h' :
  uniq_name self hint h = Ok (name, h') →
  h' = h ∧ ∃ scope, holder_scope self h = Ok (scope, h)
                    ∧ Scope_contains scope name h = Ok (false, h).
Proof.
  intros H. unfold uniq_name in H. mstep H as scope Hscope.
  pose proof Hscope as Hscope'. apply holder_scope_Ok in Hscope' as [-> _].
  mstep H as c Hc. pose proof Hc as Hc'. apply Scope_contains_Ok in Hc' as [_ ->].
  destruct c; cbn [negb] in H.
  - mstep H as hh Hh. apply uniq_name_loop_Ok in H as [-> H]. eauto.
  - injection H as <- <-. eauto.
Qed.

Lemma validate_insn_Ok self insn h insn' h' :
  validate_insn self insn h = Ok (insn', h') →
  h' = h ∧ (kind insn' = kind insn ∨ (kind insn = KReturn ∧ kind insn' = KBranch)).
Proof.
  intros H. unfold validate_insn in H. mstep H as o Ho. destruct o; try done.
  - unfold Preamble_validate_insn in H. mstep H as u Hu.
    injection H as <- <-. auto.
  - unfold BasicBlock_validate_insn in H. mstep H as blk Hb.
    mstep H as u Hu. assert (h0 = h) as ->.
    { destruct (_ && _ && _); [done|]. by injection Hu as <-. }
    destruct (bool_decide (kind insn = KReturn)) eqn:Hk.
    + apply bool_decide_eq_true in Hk.
      mstep H as fn Hf. injection H as <- <-. auto.
    + injection H as <- <-. auto.
Qed.

Lemma name_for_Ok self v h name h' : name_for self v h = Ok (name, h') → h' = h.
Proof.
  intros H. unfold name_for in H. mstep H as scope Hscope.
  apply holder_scope_Ok in Hscope as [-> _].
  unfold Scope_for_value in H. by apply pure_read_Ok in H as [-> _].
Qed.

Lemma val_type_Ok a h t h' : val_type a h = Ok (t, h') → h' = h.
Proof.
  intros H. unfold val_type in H. destruct a; try done.
  mstep H as o Ho. destruct o; try done. by injection H as <- <-.
Qed.

(** *** The primitive updates *)

Lemma seq_append_step T self insn h h' :
  seq_append self insn h = Ok (tt, h') → T self → step T h h'.
Proof.
  intros H HT. unfold seq_append in H. mstep H as o Ho.
  destruct o; try done; injection H as <-; (eapply step_insert; [done|]); simpl.
  - done.
  - split; [by apply prefix_app_r | tauto].
Qed.

Lemma Scope_setitem_step T scope key v h h' s :
  h !! scope = Some (OScope s) → dict_get (items s) key = None →
  Scope_setitem scope key v h = Ok (tt, h') → step T h h'.
Proof.
  intros Hs Hnone H. rewrite (Scope_setitem_eq _ _ _ _ _ Hs) in H.
  injection H as <-. eapply step_insert; [done|]. simpl. split; [done|].
  rewrite dict_set_absent by done. by apply prefix_app_r.
Qed.

Lemma store_step T holder name v h h' :
  store holder name v h = Ok (tt, h') → step T h h'.
Proof.
  intros H. unfold store in H. mstep H as scope Hscope.
  apply holder_scope_Ok in Hscope as [-> _].
  mstep H as c Hc. apply Scope_contains_no_parent_Ok in Hc as (-> & s & Hs & ->).
  mstep H as u Hu. apply negb_true_iff, dict_has_false in Hu.
  by eapply Scope_setitem_step.
Qed.

Lemma Block_usage_step T l h h' : Block_usage l h = Ok (tt, h') → step T h h'.
Proof.
  intros H. unfold Block_usage in H. mstep H as b Hb. injection H as <-.
  eapply step_insert; [done|]. simpl.
  assert (insns (Block_usage_obj b) = insns b) as ->.
  { unfold Block_usage_obj. by repeat case_match. }
  done.
Qed.

(** *** Activation, [add] and [declare] *)

Lemma construct_Ok insn h v h' :
  construct insn h = Ok (v, h') →
  v = length h ∧ ∃ o, h' = h ++ [o] ∧ new_ok True o
    ∧ (∀ t, insn = DefineVariable t → o = OVar (mkVariable LocalVariable t "" None)).
Proof.
  intros H. unfold construct, alloc in H.
  repeat case_match; simplify_eq;
    (split; [done|]); eexists; (split; [done|]); (split; [done|]);
    intros t' Heq; unfold DefineVariable in Heq; destruct insn; by simplify_eq/=.
Qed.

Lemma add_advancement_revoke_step handler ev h h' T :
  add_advancement_revoke handler ev h = Ok (tt, h') →
  (∀ l, is_entry_of h l → T l) → step T h h'.
Proof.
  intros H HT. unfold add_advancement_revoke in H. mstep H as f Hf.
  mstep H as r Hadd. unfold ret in H.
  unfold add_with in Hadd. mstep Hadd as insn1 Hval.
  apply validate_insn_Ok in Hval as [-> _].
  mstep Hadd as r1 Hact. unfold activate_default, ret in Hact. simplify_eq.
  cbn [fst snd] in Hadd.
  mstep Hadd as u Happ. destruct u. unfold ret in Hadd. simplify_eq.
  eapply seq_append_step; [done|]. apply HT. by exists handler, f.
Qed.

Lemma write_func_step T l f f' h :
  h !! l = Some (OFunc f) →
  _entryblock f' = _entryblock f → _exitblock f' = _exitblock f →
  f_scope f' = f_scope f → f_preamble f' = f_preamble f →
  step T h (<[l := OFunc f']> h).
Proof. intros. eapply step_insert; [done|]. by simpl. Qed.

Lemma set_flag_step T (set : Func → Func) holder h h' :
  (∀ f, _entryblock (set f) = _entryblock f ∧ _exitblock (set f) = _exitblock f
        ∧ f_scope (set f) = f_scope f ∧ f_preamble (set f) = f_preamble f) →
  (f <- get_func holder ;; write holder (OFunc (set f))) h = Ok (tt, h') →
  step T h h'.
Proof.
  intros Hset H. mstep H as f Hf. unfold write in H. simplify_eq.
  destruct (Hset f) as (?&?&?&?). by eapply write_func_step.
Qed.

Lemma activate_step insn seq h insn' r h' T :
  activate insn seq h = Ok ((insn', r), h') →
  (∀ l, is_entry_of h l → T l) →
  step T h h'.
Proof.
  intros H HT. unfold activate in H.
  destruct (kind insn) eqn:Hkind;
    try (unfold activate_default, ret in H; simplify_eq; apply step_refl);
    try (mstep H as v Hv; unfold ret in H; simplify_eq;
         apply construct_Ok in Hv as (-> & o & -> & Hnew & _); by apply step_alloc).
  - destruct (args insn) as [|[] [|[] [|]]]; try done.
    mstep H as o Ho. destruct o; try done. mstep H as u Hu.
    unfold ret in H. simplify_eq.
    destruct (negb _).
    + destruct u. by eapply add_advancement_revoke_step.
    + unfold ret in Hu. simplify_eq. apply step_refl.
  - mstep H as holder Hh. apply seq_holder_Ok in Hh as ->.
    mstep H as u Hu. unfold ret in H. simplify_eq. destruct u.
    by eapply (set_flag_step T (λ f, set_is_extern f true)).
  - mstep H as holder Hh. apply seq_holder_Ok in Hh as ->.
    mstep H as u Hu. unfold ret in H. simplify_eq. destruct u.
    by eapply (set_flag_step T (λ f, set_is_pure f true)).
  - mstep H as holder Hh. apply seq_holder_Ok in Hh as ->.
    mstep H as u Hu. unfold ret in H. simplify_eq. destruct u.
    by eapply (set_flag_step T (λ f, set_is_inline f true)).
  - mstep H as holder Hh. apply seq_holder_Ok in Hh as ->.
    mstep H as f Hf. mstep H as u Hu. unfold ret in H. unfold write in Hu.
    simplify_eq. by eapply write_func_step.
Qed.

Lemma activate_kind insn seq h insn' r h' :
  activate insn seq h = Ok ((insn', r), h') → kind insn' = kind insn.
Proof.
  intros H. unfold activate in H.
  destruct (kind insn) eqn:Hkind;
    try (unfold activate_default, ret in H; by simplify_eq);
    try (mstep H as v Hv; unfold ret in H; by simplify_eq).
  - destruct (args insn) as [|[] [|[] [|]]]; try done.
    mstep H as o Ho. destruct o; try done. mstep H as u Hu.
    unfold ret in H. by simplify_eq.
  - mstep H as holder Hh. mstep H as u Hu. unfold ret in H. by simplify_eq.
  - mstep H as holder Hh. mstep H as u Hu. unfold ret in H. by simplify_eq.
  - mstep H as holder Hh. mstep H as u Hu. unfold ret in H. by simplify_eq.
  - mstep H as holder Hh. mstep H as f Hf. mstep H as u Hu.
    unfold ret in H. by simplify_eq.
Qed.

Lemma activate_constructs insn seq h insn' r h' :
  activate insn seq h = Ok ((insn', r), h') →
  is_constructor insn = true →
  r = Some (length h)
  ∧ ∃ o, h' = h ++ [o]
         ∧ (∀ t, insn = DefineVariable t
                 → o = OVar (mkVariable LocalVariable t "" None)).
Proof.
  intros H Hc. unfold activate in H. unfold is_constructor in Hc.
  destruct (kind insn) eqn:Hkind; try done;
    mstep H as v Hv; unfold ret in H; simplify_eq;
    apply construct_Ok in Hv as (-> & o & -> & Hnew & Ho); eauto.
Qed.

(** The steps of a successful [add]. *)
Lemma add_Ok_inv self insn wn nh h r h' :
  add self insn wn nh h = Ok (r, h') →
  ∃ insn1 insn2 r2 h1 h2,
    validate_insn self insn h = Ok (insn1, h)
    ∧ activate insn1 self h = Ok ((insn2, r2), h1)
    ∧ seq_append self insn2 h1 = Ok (tt, h2)
    ∧ ((r = None ∧ h' = h2 ∧ (wn = NoName ∨ wn = Named ""))
       ∨ (∃ v holder name, r2 = Some v ∧ r = Some v
                           ∧ store holder name v h2 = Ok (tt, h'))).
Proof.
  intros H. unfold add, add_with in H. mstep H as insn1 Hval.
  pose proof (validate_insn_Ok _ _ _ _ _ Hval) as [-> _].
  mbind H as r1 h1 Hact. destruct r1 as [insn2 r2]. cbn [fst snd] in H.
  mbind H as u h2 Happ. destruct u.
  exists insn1, insn2, r2, h1, h2. split; [done|]. split; [done|]. split; [done|].
  assert (∀ wn', match r2 with
                 | None => raise (AssertionError "ret is not None")
                 | Some v =>
                     holder <- seq_holder self ;;
                     name <- match wn' with
                             | Named name => ret name
                             | _ => uniq_name holder
                                      (match nh with
                                       | Some n => if bool_decide (n = "")
                                                   then insn_name insn1 else n
                                       | None => insn_name insn1
                                       end)
                             end ;;
                     store holder name v ;;; ret (Some v)
                 end h2 = Ok (r, h') →
          ∃ v holder name, r2 = Some v ∧ r = Some v
                           ∧ store holder name v h2 = Ok (tt, h')) as Hnamed.
  { intros wn' Hn. destruct r2 as [v|]; [|done].
    mstep Hn as holder Hh. apply seq_holder_Ok in Hh as ->.
    mbind Hn as name h3 Hname.
    assert (h3 = h2) as ->.
    { destruct wn'; try (by apply uniq_name_Ok in Hname as [-> _]).
      unfold ret in Hname. by simplify_eq. }
    mbind Hn as u h4 Hstore. destruct u. unfold ret in Hn. simplify_eq.
    by exists v, holder, name. }
  destruct wn as [| |[|]].
  - left. unfold ret in H. simplify_eq. auto.
  - right. eapply (Hnamed AutoName). exact H.
  - left. unfold ret in H. simplify_eq. auto.
  - right. eapply (Hnamed (Named _)). exact H.
Qed.

Lemma add_step self insn wn nh h r h' T :
  add self insn wn nh h = Ok (r, h') →
  T self → (∀ l, is_entry_of h l → T l) →
  step T h h'.
Proof.
  intros H Hself HT.
  apply add_Ok_inv in H
    as (insn1 & insn2 & r2 & h1 & h2 & Hval & Hact & Happ & Hname).
  pose proof (activate_step _ _ _ _ _ _ T Hact HT) as Hs1.
  pose proof (seq_append_step T _ _ _ _ Happ Hself) as Hs2.
  destruct Hname as [(_ & -> & _) | (v & holder & name & _ & _ & Hstore)].
  - by eapply step_trans.
  - eapply step_trans; [done|]. eapply step_trans; [done|]. by eapply store_step.
Qed.

(** What is stored for an instruction: the instruction itself once
    activated, or a branch when it was a [Return]. *)
Definition stored_as (insn insn' : Insn) : Prop :=
  kind insn' = kind insn ∨ (kind insn = KReturn ∧ kind insn' = KBranch).

(** A block that is not the entry block of a function gains exactly the
    instruction added to it. *)
Lemma add_appends self insn wn nh h r h' b :
  add self insn wn nh h = Ok (r, h') →
  h !! self = Some (OBlock b) → ¬ is_entry_of h self →
  ∃ insn' b', h' !! self = Some (OBlock b')
              ∧ insns b' = insns b ++ [insn'] ∧ stored_as insn insn'.
Proof.
  intros H Hb Hne.
  apply add_Ok_inv in H
    as (insn1 & insn2 & r2 & h1 & h2 & Hval & Hact & Happ & Hname).
  pose proof (validate_insn_Ok _ _ _ _ _ Hval) as [_ Hk1].
  pose proof (activate_kind _ _ _ _ _ _ Hact) as Hk2.
  pose proof (activate_step _ _ _ _ _ _ (is_entry_of h) Hact (λ _ H, H)) as Hs1.
  destruct (step_old _ _ _ Hs1 _ _ Hb) as (o1 & Hb1 & Hstep1).
  destruct o1 as [| |b1| | | | | | |]; try done. destruct Hstep1 as [_ Heq1].
  specialize (Heq1 Hne).
  rewrite (seq_append_block _ _ _ _ Hb1) in Happ. injection Happ as <-.
  assert (<[self := OBlock (set_insns b1 (insns b1 ++ [insn2]))]> h1 !! self
          = Some (OBlock (set_insns b1 (insns b1 ++ [insn2])))) as Hb2.
  { apply list_lookup_insert_eq. by eapply lookup_lt_Some. }
  assert (stored_as insn insn2) as Hstored.
  { unfold stored_as. rewrite Hk2. destruct Hk1 as [->|[-> ->]]; auto. }
  destruct Hname as [(_ & -> & _) | (v & holder & name & _ & _ & Hstore)].
  - eexists _, _. split; [done|]. cbn. by rewrite Heq1.
  - pose proof (store_step (λ _, False) _ _ _ _ _ Hstore) as Hs3.
    destruct (step_old _ _ _ Hs3 _ _ Hb2) as (o3 & Hb3 & Hstep3).
    destruct o3 as [| |b3| | | | | | |]; try done. destruct Hstep3 as [_ Heq3].
    eexists _, b3. split; [done|]. rewrite Heq3 by tauto. cbn. by rewrite Heq1.
Qed.

(** A named [add] of a constructor instruction returns the entity built,
    which is a new object. *)
Lemma add_constructs self insn nh h r h' :
  add self insn AutoName nh h = Ok (r, h') →
  is_constructor insn = true →
  r = Some (length h)
  ∧ ∃ o, h' !! length h = Some o
         ∧ (∀ t, insn = DefineVariable t
                 → o = OVar (mkVariable LocalVariable t "" None)).
Proof.
  intros H Hc.
  apply add_Ok_inv in H
    as (insn1 & insn2 & r2 & h1 & h2 & Hval & Hact & Happ & Hname).
  assert (insn1 = insn) as ->.
  { unfold validate_insn in Hval. mstep Hval as o Ho. destruct o; try done.
    - unfold Preamble_validate_insn in Hval. mstep Hval as u Hu.
      unfold ret in Hval. by simplify_eq.
    - unfold BasicBlock_validate_insn in Hval. mstep Hval as blk Hb.
      mstep Hval as u Hu. rewrite bool_decide_eq_false_2 in Hval.
      + unfold ret in Hval. by simplify_eq.
      + intros Hk. unfold is_constructor in Hc. by rewrite Hk in Hc. }
  destruct (activate_constructs _ _ _ _ _ _ Hact Hc) as (-> & o & -> & Ho).
  assert (self < length h) as Hlt.
  { unfold validate_insn in Hval. mstep Hval as o' Ho'. by eapply lookup_lt_Some. }
  assert (h2 !! length h = Some o) as Ho2.
  { unfold seq_append in Happ. mstep Happ as o' Ho'.
    destruct o'; try done; unfold write in Happ; simplify_eq;
      (rewrite list_lookup_insert_ne by lia);
      by rewrite lookup_app_r, Nat.sub_diag by done. }
  destruct Hname as [(_ & _ & [?|?]) | (v & holder & name & ? & -> & Hstore)];
    simplify_eq.
  split; [done|].
  pose proof (store_step (λ _, False) _ _ _ _ _ Hstore) as Hs3.
  destruct (step_old _ _ _ Hs3 _ _ Ho2) as (o3 & Ho3 & Hstep3).
  exists o3. split; [done|]. intros t Ht. specialize (Ho t Ht). subst o.
  destruct o3; try done. simpl in Hstep3. by subst.
Qed.

Lemma usage_step T l h h' : usage l h = Ok (tt, h') → step T h h'.
Proof.
  intros H. unfold usage in H. mstep H as o Ho. destruct o; try done.
  - by eapply Block_usage_step.
  - unfold IRFunction_usage in H. mstep H as f' Hf'.
    mbind H as u h1 Hw. unfold write in Hw. simplify_eq.
    eapply step_trans;
      [by apply (write_func_step T l f (set_f_use f (S (f_use f))))|].
    unfold entry_point_usage in H. mbind H as all h2 Hall.
    apply allblocks_Ok in Hall as [-> _]. destruct all as [|b0 all]; [done|].
    mbind H as u h3 Hu. destruct u.
    eapply step_trans; [by eapply Block_usage_step|].
    mstep H as f2 Hf2. destruct (negb _).
    + mbind H as bs h4 Hbs. apply blocks_Ok in Hbs as [-> _].
      destruct bs; [done|]. by eapply Block_usage_step.
    + unfold ret in H. simplify_eq. apply step_refl.
  - unfold ret in H. simplify_eq. apply step_refl.
Qed.

Lemma declare_step T insn h h' : declare insn h = Ok (tt, h') → step T h h'.
Proof.
  intros H. unfold declare in H.
  destruct (kind insn); try (unfold ret in H; simplify_eq; apply step_refl);
    destruct (args insn) as [|[] ?];
    try (unfold ret in H; simplify_eq; apply step_refl);
    by eapply usage_step.
Qed.

Lemma Scope_contains_Ok_scope scope name h c h' :
  Scope_contains scope name h = Ok (c, h') →
  ∃ s, h !! scope = Some (OScope s).
Proof.
  intros H. apply Scope_contains_Ok in H as [H _].
  unfold recursion_limit in H. cbn in H.
  destruct (h !! scope) as [[]|]; try done. eauto.
Qed.

(** [create_block] makes a new, empty block. *)
Lemma create_block_Ok T other hint h nb h' :
  create_block other hint h = Ok (nb, h') →
  nb = length h ∧ step T h h'
  ∧ ∃ b, h' !! nb = Some (OBlock b) ∧ insns b = [].
Proof.
  intros H. unfold create_block in H. mbind H as block h3 Huniq.
  unfold uniq in Huniq. mbind Huniq as name h0 Hname.
  apply uniq_name_Ok in Hname as (-> & scope & Hscope & Hcont).
  destruct (Scope_contains_Ok_scope _ _ _ _ _ Hcont) as [s Hs].
  pose proof (Scope_contains_Ok _ _ _ _ _ Hcont) as [Hrec _].
  pose proof (Scope_contains_false_local _ _ _ _ _ Hs Hrec) as Hnone.
  mbind Huniq as obj h1 Hnew.
  unfold _create_block, new_BasicBlock, alloc in Hnew. simplify_eq.
  mbind Huniq as scope' h2 Hscope'.
  apply holder_scope_Ok in Hscope' as (-> & Hcase).
  apply holder_scope_Ok in Hscope as (_ & Hcase0).
  assert (scope' = scope) as ->.
  { destruct Hcase0 as [(t & Ht & ->)|(f & Hf & ->)];
      destruct Hcase as [(t' & Ht' & ->)|(f' & Hf' & ->)];
      rewrite lookup_app_l in * by (by eapply lookup_lt_Some); by simplify_eq. }
  mbind Huniq as u h4 Hset. destruct u. unfold ret in Huniq. simplify_eq.
  assert ((h ++ [OBlock (mkBlock [] other name other false false false false 0
                                 false false false)]) !! scope = Some (OScope s)) as Hs1.
  { by apply lookup_app_l_Some. }
  pose proof Hset as Hset'.
  rewrite (Scope_setitem_eq _ _ _ _ _ Hs1) in Hset'. injection Hset' as <-.
  mstep H as b Hb. mbind H as u h5 Hw. unfold write in Hw. unfold ret in H.
  simplify_eq. split; [done|].
  assert (scope ≠ length h) as Hne.
  { apply lookup_lt_Some in Hs. lia. }
  rewrite list_lookup_insert_ne in Hb by done.
  rewrite lookup_app_r, Nat.sub_diag in Hb by done. injection Hb as <-.
  split.
  - eapply (step_trans _ _ (h ++ [OBlock (mkBlock [] other name other false false false
                                                  false 0 false false false)])).
    { apply step_alloc. by simpl. }
    eapply step_trans; [by eapply Scope_setitem_step|].
    eapply step_insert.
    + rewrite list_lookup_insert_ne by done.
      by rewrite lookup_app_r, Nat.sub_diag by done.
    + done.
  - eexists. split.
    + apply list_lookup_insert_eq. rewrite length_insert, length_app. simpl. lia.
    + done.
Qed.

(** [create_var] makes a new local variable. *)
Lemma create_var_Ok T other hint t h cv h' g :
  create_var other hint t h = Ok (cv, h') →
  h !! other = Some (OFunc g) →
  T (f_preamble g) → (∀ l, is_entry_of h l → T l) →
  cv = length h ∧ step T h h'
  ∧ h' !! cv = Some (OVar (mkVariable LocalVariable t "" None)).
Proof.
  intros H Hg HTp HT. unfold create_var in H.
  rewrite (bind_eq _ _ _ _ _ (get_func_eq _ _ _ Hg)) in H.
  mbind H as r h1 Hadd. destruct r as [v|]; [|done]. unfold ret in H. simplify_eq.
  pose proof (add_step _ _ _ _ _ _ _ T Hadd HTp HT) as Hstep.
  destruct (add_constructs _ _ _ _ _ _ Hadd eq_refl) as ([= ->] & o & Ho & Hdef).
  split; [done|]. split; [done|]. by rewrite Ho, (Hdef t eq_refl).
Qed.

(** *** Loops with an invariant *)

Lemma fold_items_rec_inv {St} (I : St → Heap → Prop) scope keys0 todo
    (body : string → loc → St → M St) st h st' h' :
  fold_items_rec scope keys0 todo body st h = Ok (st', h') →
  I st h →
  (∀ k v st h st1 h1 s,
     I st h → h !! scope = Some (OScope s) → dict_keys (items s) = keys0 →
     dict_get (items s) k = Some v → k ∈ todo →
     body k v st h = Ok (st1, h1) → I st1 h1) →
  I st' h'.
Proof.
  revert st h. induction todo as [|k todo IH]; intros st h H HI Hbody.
  - cbn in H. unfold ret in H. by simplify_eq.
  - cbn [fold_items_rec] in H. mstep H as s Hs.
    case_bool_decide as Hkeys; [|done].
    destruct (dict_get (items s) k) as [v|] eqn:Hget; [|done].
    mbind H as st1 h1 Hb.
    eapply (IH st1 h1); [done| |].
    + eapply Hbody; eauto. by left.
    + intros k' v' st2 h2 st3 h3 s2 HI2 Hs2 Hk2 Hg2 Hin Hb2.
      eapply Hbody; eauto. by right.
Qed.

Lemma fold_live_inv {St} (I : St → Heap → Prop) fuel (get : M (list Insn)) i
    (body : Insn → St → M St) st h st' h' :
  fold_live fuel get i body st h = Ok (st', h') →
  (∀ h l h1, get h = Ok (l, h1) → h1 = h) →
  I st h →
  (∀ insn st h st1 h1, I st h → body insn st h = Ok (st1, h1) → I st1 h1) →
  I st' h'.
Proof.
  intros H Hget HI Hbody. revert i st h H HI.
  induction fuel as [|fuel IH]; intros i st h H HI; [done|].
  cbn [fold_live] in H. mbind H as l h1 Hl.
  pose proof (Hget _ _ _ Hl) as ->.
  destruct (l !! i) as [insn|]; [|unfold ret in H; by simplify_eq].
  mbind H as st1 h2 Hb. eapply IH; [done|]. by eapply Hbody.
Qed.

Lemma seq_insns_Ok self h l h' : seq_insns self h = Ok (l, h') → h' = h.
Proof.
  intros H. unfold seq_insns in H. mstep H as o Ho.
  destruct o; try done; unfold ret in H; by simplify_eq.
Qed.

(** *** Replaying instructions *)

Lemma _inline_step_step T self to_seq insn sm h sm' h' :
  _inline_step self to_seq insn sm h = Ok (sm', h') →
  T to_seq → (∀ l, is_entry_of h l → T l) →
  step T h h'.
Proof.
  intros H Hto HT. unfold _inline_step in H.
  destruct (negb (inline_copyable insn)); [unfold ret in H; simplify_eq; apply step_refl|].
  mbind H as sm1 h1 Hadd. mbind H as u h2 Hdecl. destruct u.
  unfold ret in H. simplify_eq.
  eapply step_trans; [|by eapply declare_step].
  destruct (is_constructor insn).
  - destruct (_value insn) as [v|]; [|done].
    mbind Hadd as name h3 Hname. apply name_for_Ok in Hname as ->.
    mbind Hadd as r h4 Hadd'. unfold ret in Hadd. simplify_eq.
    by eapply add_step.
  - mbind Hadd as r h4 Hadd'. unfold ret in Hadd. simplify_eq.
    by eapply add_step.
Qed.

Lemma _inline_seq_step T self from_seq to_seq sm h sm' h' :
  _inline_seq self from_seq to_seq sm h = Ok (sm', h') →
  T to_seq → (∀ l, is_entry_of h l → T l) →
  step T h h'.
Proof.
  intros H Hto HT. unfold _inline_seq, fold_insns in H.
  mbind H as l h1 Hl. apply seq_insns_Ok in Hl as ->.
  eapply (fold_live_inv (λ _ hc, step T h hc)); [done| | |].
  - intros ???. apply seq_insns_Ok.
  - apply step_refl.
  - intros insn st hc st1 h1 Hstep Hb. eapply step_trans; [done|].
    eapply _inline_step_step; [done|done|].
    intros l' Hl'. apply HT. by eapply step_entry.
Qed.

Lemma inline_blocks_step self bm sm h sm' h' :
  inline_blocks self bm sm h = Ok (sm', h') → step (λ _, True) h h'.
Proof.
  revert sm h. induction bm as [|[old new] bm IH]; intros sm h H.
  - cbn in H. unfold ret in H. simplify_eq. apply step_refl.
  - cbn [inline_blocks] in H. mbind H as sm1 h1 Hseq.
    eapply step_trans; [by eapply _inline_seq_step | by eapply IH].
Qed.

(** The copies of the arguments are plain instructions: adding them to an
    empty block fills it with exactly them. *)
Lemma for_each_add_copies l eb h h' b :
  for_each l (add_ eb) h = Ok (tt, h') →
  Forall (λ insn, is_plain insn = true) l →
  h !! eb = Some (OBlock b) →
  h' = <[eb := OBlock (set_insns b (insns b ++ l))]> h.
Proof.
  revert h b. induction l as [|insn l IH]; intros h b H Hplain Hb.
  - cbn in H. unfold ret in H. simplify_eq.
    by rewrite app_nil_r, set_insns_id, list_insert_id.
  - cbn [for_each] in H. mbind H as u h1 Hadd. destruct u.
    apply Forall_cons in Hplain as [Hp Hplain].
    apply (add_plain_Ok _ _ _ _ _ Hb Hp) in Hadd. subst h1.
    apply (IH _ (set_insns b (insns b ++ [insn]))) in H; [|done|].
    + rewrite H, list_insert_insert_eq. cbn [set_insns insns].
      by rewrite <- app_assoc.
    + apply list_lookup_insert_eq. by eapply lookup_lt_Some.
Qed.

(** *** [validate_args] only reads *)

Lemma for_each_readonly {A} (l : list A) (body : A → M unit) h h' :
  for_each l body h = Ok (tt, h') →
  (∀ x h1 h2, body x h1 = Ok (tt, h2) → h2 = h1) →
  h' = h.
Proof.
  intros H Hbody. revert h H. induction l as [|x l IH]; intros h H.
  - cbn in H. unfold ret in H. by simplify_eq.
  - cbn [for_each] in H. mbind H as u h1 Hx. destruct u.
    apply Hbody in Hx as ->. by apply IH.
Qed.

Lemma finished_Ok self h r h' : finished self h = Ok (r, h') → h' = h.
Proof.
  intros H. unfold finished in H. mstep H as o Ho.
  destruct o; try done; unfold ret in H; by simplify_eq.
Qed.

Lemma params_Ok self h r h' : params self h = Ok (r, h') → h' = h.
Proof.
  intros H. unfold params in H. mstep H as o Ho.
  destruct o; try done; unfold ret in H; by simplify_eq.
Qed.

Lemma returns_Ok self h r h' : returns self h = Ok (r, h') → h' = h.
Proof.
  intros H. unfold returns in H. mstep H as o Ho.
  destruct o; try done; unfold ret in H; by simplify_eq.
Qed.

Lemma validate_args_Ok self args retvars h h' :
  validate_args self args retvars h = Ok (tt, h') → h' = h.
Proof.
  intros H. unfold validate_args in H.
  mbind H as fin h1 Hfin. apply finished_Ok in Hfin as ->.
  mstep H as u Hu. mbind H as ps h1 Hps. apply params_Ok in Hps as ->.
  mbind H as u1 h1 Hargs. mbind H as rs h2 Hrs. apply returns_Ok in Hrs as ->.
  assert (h1 = h) as ->.
  { destruct ps, args; try done; try (unfold ret in Hargs; by simplify_eq).
    mstep Hargs as u2 Hu2. destruct u1.
    eapply for_each_readonly; [done|].
    intros [pt a] h3 h4 Hx. cbn in Hx. destruct a; try done.
    - by apply assert_Ok in Hx as [_ ->].
    - by apply assert_Ok in Hx as [_ ->].
    - mstep Hx as o Ho. destruct o; try done. by apply assert_Ok in Hx as [_ ->]. }
  destruct rs, retvars; try done; try (unfold ret in H; by simplify_eq).
  mstep H as u2 Hu2.
  eapply for_each_readonly; [done|].
  intros [rt a] h3 h4 Hx. cbn in Hx. destruct a; try done.
  - unfold ret in Hx. by simplify_eq.
  - mstep Hx as o Ho. destruct o; try done. by apply assert_Ok in Hx as [_ ->].
Qed.

Lemma copies_plain cvs vars : Forall (λ insn, is_plain insn = true) (zip_with SetScore cvs vars).
Proof.
  revert vars. induction cvs as [|c cvs IH]; intros [|a vars]; cbn; by constructor.
Qed.

(** *** The binding loop of [inline_into] *)

Definition is_literal (a : Val) : bool :=
  match a with VInt _ | VFloat _ => true | _ => false end.

Definition is_variable (a : Val) : bool :=
  match a with VRef _ => true | _ => false end.

(** The arguments that are variables, in order. *)
Definition variable_args (args : list Val) : list Val := List.filter is_variable args.

(** Every parameter of the scope is passed by value. *)
Definition all_byval (h : Heap) (s : Scope) : bool :=
  forallb (λ kv, match h !! kv.2 with
                 | Some (OVar vo) =>
                     match v_class vo with
                     | ParameterVariable => bool_decide (passtype vo = "byval")
                     | _ => true
                     end
                 | _ => true
                 end) (items s).

(** The classes of the objects a function refers to: its entry block is a
    [SuperBlock], its preamble a [Preamble]. *)
Definition is_SuperBlock (h : Heap) (l : loc) : bool :=
  match h !! l with Some (OBlock b) => is_super b | _ => false end.

Definition is_Preamble (h : Heap) (l : loc) : bool :=
  match h !! l with Some (OPreamble _) => true | _ => false end.

Definition funcs_closed (h : Heap) : bool :=
  forallb (λ o, match o with
                | OFunc fn => is_SuperBlock h (_entryblock fn) && is_Preamble h (f_preamble fn)
                | _ => true
                end) h.

(** What the scope names are objects of the store, and the user blocks
    among them are plain [BasicBlock]s. *)
Definition scope_closed (h : Heap) (s : Scope) : bool :=
  forallb (λ v, bool_decide (v < length h)) (dict_values (items s)).

Definition plain_blocks (h : Heap) (f : Func) (s : Scope) : bool :=
  forallb (λ b, negb (is_SuperBlock h b)) (blocks_of h f s).

(** [isinstance(var, ParameterVariable)]. *)
Definition is_parameter (h : Heap) (v : loc) : bool :=
  match h !! v with
  | Some (OVar vo) => bool_decide (v_class vo = ParameterVariable)
  | _ => false
  end.

(** The values [for name, var in scope.items()] reads, in order, and the
    parameters among them. *)
Definition scope_values (s : Scope) : list loc :=
  omap (dict_get (items s)) (dict_keys (items s)).

Definition params_of (h : Heap) (s : Scope) : list loc :=
  List.filter (is_parameter h) (scope_values s).

(** What [scope_mapping] holds for the parameter that takes the argument
    at index [i]: the argument itself when it is a literal, and the copy
    variable of its rank among the arguments that are variables when it is
    a variable. *)
Definition binding (args : list Val) (copy_vars : list loc) (i : nat) : option Val :=
  match args !! i with
  | Some (VRef _) => VRef <$> copy_vars !! length (variable_args (take i args))
  | Some a => Some a
  | None => None
  end.

(** The mapping [sm] is [sm0] but for keys that a replayed constructor
    instruction has bound to the entity its clone built, an object that was
    not in the store of [n0] objects. *)
Definition rebound (n0 : nat) (sm0 sm : list (loc * Val)) : Prop :=
  ∀ k, dict_get sm k = dict_get sm0 k
       ∨ ∃ insn n, is_constructor insn = true ∧ _value insn = Some k
                   ∧ n0 ≤ n ∧ dict_get sm k = Some (VRef n).

(** The instruction [c] is what is stored for the clone of [insn]: its
    operands are those of [insn] with the mapping applied. *)
Definition clone_of (n0 : nat) (sm0 : list (loc * Val)) (insn c : Insn) : Prop :=
  ∃ sm, rebound n0 sm0 sm
        ∧ stored_as (copy_with_changes insn sm) c
        ∧ (kind insn ≠ KReturn → args c = map_arg (λ _, true) sm <$> args insn).

Lemma dict_get_elem_of {K V} `{EqDecision K} (d : list (K * V)) k v :
  dict_get d k = Some v → (k, v) ∈ d.
Proof.
  induction d as [|[k' v'] d IH]; simpl; [done|].
  case_decide; [intros [= ->]; subst; by left | intros; right; auto].
Qed.

Lemma all_byval_spec h s k v vo :
  all_byval h s = true → dict_get (items s) k = Some v → h !! v = Some (OVar vo) →
  v_class vo = ParameterVariable → passtype vo = "byval".
Proof.
  intros Hall Hget Hv Hclass. unfold all_byval in Hall.
  rewrite forallb_forall in Hall.
  specialize (Hall (k, v)). cbn in Hall. rewrite Hv, Hclass in Hall.
  eapply bool_decide_eq_true_1. apply Hall.
  apply list_elem_of_In. by apply dict_get_elem_of.
Qed.

Lemma funcs_closed_typed h l fn :
  funcs_closed h = true → h !! l = Some (OFunc fn) →
  (∃ be, h !! _entryblock fn = Some (OBlock be) ∧ is_super be = true)
  ∧ ∃ p, h !! f_preamble fn = Some (OPreamble p).
Proof.
  intros Hall Hl. unfold funcs_closed in Hall. rewrite forallb_forall in Hall.
  specialize (Hall (OFunc fn)). cbn in Hall.
  apply andb_true_iff in Hall as [H1 H2].
  - unfold is_SuperBlock in H1. unfold is_Preamble in H2. split.
    + destruct (h !! _entryblock fn) as [[]|]; try done. eauto.
    + destruct (h !! f_preamble fn) as [[]|]; try done. eauto.
  - apply list_elem_of_In. by eapply list_elem_of_lookup_2.
Qed.

Lemma funcs_closed_spec h l fn :
  funcs_closed h = true → h !! l = Some (OFunc fn) →
  _entryblock fn < length h ∧ f_preamble fn < length h.
Proof.
  intros Hall Hl.
  destruct (funcs_closed_typed _ _ _ Hall Hl) as [(be & Hbe & _) (p & Hp)].
  split; by eapply lookup_lt_Some.
Qed.

Lemma scope_closed_spec h s v :
  scope_closed h s = true → v ∈ dict_values (items s) → v < length h.
Proof.
  intros Hall Hv. unfold scope_closed in Hall. rewrite forallb_forall in Hall.
  eapply bool_decide_eq_true_1. apply Hall. by apply list_elem_of_In.
Qed.

Lemma plain_blocks_spec h f s b :
  plain_blocks h f s = true → b ∈ blocks_of h f s → is_SuperBlock h b = false.
Proof.
  intros Hall Hb. unfold plain_blocks in Hall. rewrite forallb_forall in Hall.
  apply negb_true_iff. apply Hall. by apply list_elem_of_In.
Qed.

Lemma dict_get_values {K V} `{EqDecision K} (d : list (K * V)) k v :
  dict_get d k = Some v → v ∈ dict_values d.
Proof.
  intros Hget. unfold dict_values. apply list_elem_of_fmap.
  exists (k, v). split; [done|]. by apply dict_get_elem_of.
Qed.

Lemma variable_args_app l1 l2 :
  variable_args (l1 ++ l2) = variable_args l1 ++ variable_args l2.
Proof. apply List.filter_app. Qed.

Lemma variable_args_lookup args i a :
  args !! i = Some (VRef a) →
  length (variable_args (take i args)) < length (variable_args args).
Proof.
  intros Hi. rewrite <- (take_drop_middle _ _ _ Hi) at 2.
  rewrite variable_args_app, length_app. cbn. lia.
Qed.

Lemma binding_app c rest cvs cvs' i :
  i < length c → length (variable_args c) ≤ length cvs → cvs `prefix_of` cvs' →
  binding (c ++ rest) cvs' i = binding c cvs i.
Proof.
  intros Hi Hlen [extra ->]. unfold binding.
  rewrite lookup_app_l by done. rewrite take_app_le by lia.
  destruct (c !! i) as [[| | | | |a]|] eqn:Hc; try done.
  rewrite lookup_app_l; [done|].
  pose proof (variable_args_lookup _ _ _ Hc). lia.
Qed.

Lemma binding_literal c a cvs :
  is_variable a = false → binding (c ++ [a]) cvs (length c) = Some a.
Proof.
  intros Ha. unfold binding. rewrite lookup_app_r by lia.
  rewrite Nat.sub_diag. cbn. by destruct a.
Qed.

Lemma binding_variable c a cvs cv :
  length cvs = length (variable_args c) →
  binding (c ++ [VRef a]) (cvs ++ [cv]) (length c) = Some (VRef cv).
Proof.
  intros Hlen. unfold binding. rewrite lookup_app_r by lia.
  rewrite Nat.sub_diag. cbn. rewrite take_app_length.
  rewrite lookup_app_r by lia. rewrite Hlen, Nat.sub_diag. done.
Qed.

Lemma rebound_refl n0 sm0 : rebound n0 sm0 sm0.
Proof. intros k. by left. Qed.

Lemma rebound_set n0 sm0 sm insn v n :
  rebound n0 sm0 sm → is_constructor insn = true → _value insn = Some v → n0 ≤ n →
  rebound n0 sm0 (dict_set sm v (VRef n)).
Proof.
  intros Hr Hc Hv Hn k. destruct (decide (v = k)) as [<-|Hne].
  - right. exists insn, n. by rewrite dict_get_set_eq.
  - rewrite dict_get_set_ne by done. apply Hr.
Qed.

(** The loop over the items of a scope that only gains names reads the
    values the scope had, in order. *)
Lemma fold_items_rec_visits {St} (I : list loc → St → Heap → Prop) scope (s0 : Scope)
    keys0 todo (body : string → loc → St → M St) st h st' h' d :
  fold_items_rec scope keys0 todo body st h = Ok (st', h') →
  I d st h →
  (∀ d st h s1, I d st h → h !! scope = Some (OScope s1) →
     items s0 `prefix_of` items s1) →
  (∀ d k v st h st1 h1, I d st h → dict_get (items s0) k = Some v →
     body k v st h = Ok (st1, h1) → I (d ++ [v]) st1 h1) →
  (∀ k, k ∈ todo → k ∈ dict_keys (items s0)) →
  I (d ++ omap (dict_get (items s0)) todo) st' h'.
Proof.
  revert d st h. induction todo as [|k todo IH]; intros d st h H HI Hgrow Hbody Hkeys.
  - cbn in H. unfold ret in H. simplify_eq. by rewrite app_nil_r.
  - cbn [fold_items_rec] in H. mstep H as s1 Hs1.
    case_bool_decide as Hk; [|done].
    destruct (Hgrow _ _ _ _ HI Hs1) as [extra Hextra].
    assert (is_Some (dict_get (items s0) k)) as [v0 Hv0].
    { apply dict_get_keys. apply Hkeys. by left. }
    rewrite Hextra, dict_get_app, Hv0 in H.
    mbind H as st1 h1 Hb.
    cbn [omap list_omap]. rewrite Hv0. cbn.
    rewrite (cons_middle v0), app_assoc.
    eapply IH; [done| |done|done|].
    + by eapply Hbody.
    + intros k' Hk'. apply Hkeys. by right.
Qed.

Definition is_copy_var (h : Heap) (c : loc) : Prop :=
  ∃ t, h !! c = Some (OVar (mkVariable LocalVariable t "" None)).

Section binding_loop.
Variables (h0 : Heap) (other fscope : loc) (g : Func) (s : Scope) (args0 : list Val).
Hypothesis Hother : h0 !! other = Some (OFunc g).
Hypothesis Hscope : h0 !! fscope = Some (OScope s).
Hypothesis Hbyval : all_byval h0 s = true.

Definition T0 (l : loc) : Prop := l = f_preamble g ∨ is_entry_of h0 l.

(** The parameters among the values [d] visited so far have taken the
    arguments consumed so far, and the mapping binds each to what its
    argument gives (the last one, should the scope name a parameter
    twice). *)
Definition params_bound (d : list loc) (consumed : list Val) (cvs : list loc)
    (sm : list (loc * Val)) : Prop :=
  length (List.filter (is_parameter h0) d) = length consumed
  ∧ ∀ i p, List.filter (is_parameter h0) d !! i = Some p →
           (∀ j, i < j → List.filter (is_parameter h0) d !! j ≠ Some p) →
           dict_get sm p = binding consumed cvs i.

(** The state of the loop: the blocks mapped so far are fresh blocks of
    the target, one for each block of the scope that was visited; the
    arguments consumed so far have each contributed a copy to
    [entry_insns] exactly when they are variables, and the parameters that
    took them are bound. *)
Definition bind_inv (d : list loc) (st : InlineState) (h : Heap) : Prop :=
  step T0 h0 h
  ∧ NoDup (dict_keys (block_mapping st))
  ∧ (∀ old new, dict_get (block_mapping st) old = Some new →
       old ∈ dict_values (items s) ∧ length h0 ≤ new < length h
       ∧ ∃ b, h !! new = Some (OBlock b))
  ∧ (∀ o1 o2 n, dict_get (block_mapping st) o1 = Some n →
                dict_get (block_mapping st) o2 = Some n → o1 = o2)
  ∧ ∃ consumed cvs,
      args0 = consumed ++ argiter st
      ∧ entry_insns st = zip_with SetScore cvs (variable_args consumed)
      ∧ length cvs = length (variable_args consumed)
      ∧ Forall (λ c, length h0 ≤ c < length h ∧ is_copy_var h c) cvs
      ∧ NoDup cvs
      ∧ params_bound d consumed cvs (scope_mapping st).

Lemma T0_entry h l : step T0 h0 h → is_entry_of h l → T0 l.
Proof. intros Hs He. right. by eapply step_entry. Qed.

Lemma step_block T h h' l b :
  step T h h' → h !! l = Some (OBlock b) → ∃ b', h' !! l = Some (OBlock b').
Proof.
  intros [Ho _] Hl. destruct (Ho _ _ Hl) as (o' & Hl' & Hs).
  destruct o'; try done. eauto.
Qed.

Lemma step_block_untouched (T : loc → Prop) h h' l b :
  step T h h' → h !! l = Some (OBlock b) → ¬ T l →
  ∃ b', h' !! l = Some (OBlock b') ∧ insns b' = insns b.
Proof.
  intros [Ho _] Hl HT. destruct (Ho _ _ Hl) as (o' & Hl' & Hs).
  destruct o'; try done. simpl in Hs. destruct Hs as [_ Hs]. eauto.
Qed.

Lemma step_copy_var T h h' c : step T h h' → is_copy_var h c → is_copy_var h' c.
Proof.
  intros [Ho _] [t Hl]. destruct (Ho _ _ Hl) as (o' & Hl' & Hs).
  destruct o'; try done. simpl in Hs. subst. by exists t.
Qed.

Lemma step_func T h h' l fn :
  step T h h' → h !! l = Some (OFunc fn) →
  ∃ fn', h' !! l = Some (OFunc fn') ∧ f_preamble fn' = f_preamble fn
         ∧ _entryblock fn' = _entryblock fn ∧ _exitblock fn' = _exitblock fn
         ∧ f_scope fn' = f_scope fn.
Proof.
  intros [Ho _] Hl. destruct (Ho _ _ Hl) as (o' & Hl' & Hs).
  destruct o'; try done. simpl in Hs. naive_solver.
Qed.

Lemma step_is_BasicBlock T h h' l :
  step T h h' → l < length h → is_BasicBlock h' l = is_BasicBlock h l.
Proof.
  intros [Ho _] Hl. destruct (lookup_lt_is_Some_2 _ _ Hl) as [o Hlo].
  destruct (Ho _ _ Hlo) as (o' & Hl' & Hs).
  unfold is_BasicBlock. rewrite Hlo, Hl'. by destruct o, o'.
Qed.

(** An object is a parameter of the store the call started from exactly
    when it is one now: variables stay as they are, and the call creates
    no parameter. *)
Lemma is_parameter_step T h v o :
  step T h0 h → h !! v = Some o →
  is_parameter h0 v = match o with
                      | OVar vo => bool_decide (v_class vo = ParameterVariable)
                      | _ => false
                      end.
Proof.
  intros [Hold Hnew] Hv. unfold is_parameter.
  destruct (h0 !! v) as [o0|] eqn:Hv0.
  - destruct (Hold _ _ Hv0) as (o' & Hl' & Hst). simplify_eq.
    destruct o0, o; try done. simpl in Hst. by subst.
  - specialize (Hnew _ _ Hv0 Hv). destruct o; try done.
    simpl in Hnew. destruct Hnew as [Hp _]. by rewrite bool_decide_false.
Qed.

Lemma filter_snoc_false d v :
  is_parameter h0 v = false →
  List.filter (is_parameter h0) (d ++ [v]) = List.filter (is_parameter h0) d.
Proof. intros Hv. rewrite List.filter_app. cbn. by rewrite Hv, app_nil_r. Qed.

Lemma filter_snoc_true d v :
  is_parameter h0 v = true →
  List.filter (is_parameter h0) (d ++ [v]) = List.filter (is_parameter h0) d ++ [v].
Proof. intros Hv. rewrite List.filter_app. cbn. by rewrite Hv. Qed.

Lemma params_bound_skip d c cvs sm v :
  params_bound d c cvs sm → is_parameter h0 v = false →
  params_bound (d ++ [v]) c cvs sm.
Proof. intros Hpb Hv. unfold params_bound. by rewrite filter_snoc_false. Qed.

Lemma params_bound_skip_set d c cvs sm v x :
  params_bound d c cvs sm → is_parameter h0 v = false →
  params_bound (d ++ [v]) c cvs (dict_set sm v x).
Proof.
  intros [Hlen Hpb] Hv. unfold params_bound. rewrite filter_snoc_false by done.
  split; [done|]. intros i p Hp Hlast.
  rewrite dict_get_set_ne; [by apply Hpb|]. intros <-.
  apply list_elem_of_lookup_2, list_elem_of_In, filter_In in Hp as [_ Hp]. congruence.
Qed.

Lemma params_bound_bind d c cvs cvs' sm v a b :
  params_bound d c cvs sm → is_parameter h0 v = true →
  length (variable_args c) ≤ length cvs → cvs `prefix_of` cvs' →
  binding (c ++ [a]) cvs' (length c) = Some b →
  params_bound (d ++ [v]) (c ++ [a]) cvs' (dict_set sm v b).
Proof.
  intros [Hlen Hpb] Hv Hcvs Hpre Hb. unfold params_bound.
  rewrite filter_snoc_true by done. set (ps := List.filter (is_parameter h0) d) in *.
  split; [rewrite !length_app; cbn; lia|].
  intros i p Hp Hlast.
  destruct (decide (i < length ps)) as [Hi|Hi].
  - rewrite lookup_app_l in Hp by done.
    assert (p ≠ v) as Hne.
    { intros ->. apply (Hlast (length ps)); [done|].
      rewrite lookup_app_r by lia. by rewrite Nat.sub_diag. }
    rewrite dict_get_set_ne by done.
    rewrite (binding_app c [a] cvs cvs') by (done || lia).
    apply Hpb; [done|]. intros j Hj Hpj. apply (Hlast j Hj).
    by apply lookup_app_l_Some.
  - assert (i = length ps) as ->.
    { apply lookup_lt_Some in Hp. rewrite length_app in Hp. cbn in Hp. lia. }
    rewrite lookup_app_r in Hp by lia. rewrite Nat.sub_diag in Hp. cbn in Hp.
    simplify_eq. rewrite dict_get_set_eq. by rewrite Hlen.
Qed.

Lemma bind_inv_skip d st h v :
  bind_inv d st h → is_parameter h0 v = false → bind_inv (d ++ [v]) st h.
Proof.
  intros (Hs & Hk & Hbm & Hinj & consumed & cvs & H1 & H2 & H3 & H4 & H5 & Hpb) Hv.
  split; [done|]. split; [done|]. split; [done|]. split; [done|].
  exists consumed, cvs. repeat (split; [done|]). by apply params_bound_skip.
Qed.

Lemma bind_inv_frame d st h h1 :
  bind_inv d st h → step T0 h h1 →
  step T0 h0 h1
  ∧ NoDup (dict_keys (block_mapping st))
  ∧ (∀ old new, dict_get (block_mapping st) old = Some new →
       old ∈ dict_values (items s) ∧ length h0 ≤ new < length h1
       ∧ ∃ b, h1 !! new = Some (OBlock b))
  ∧ (∀ o1 o2 n, dict_get (block_mapping st) o1 = Some n →
                dict_get (block_mapping st) o2 = Some n → o1 = o2)
  ∧ ∃ consumed cvs,
      args0 = consumed ++ argiter st
      ∧ entry_insns st = zip_with SetScore cvs (variable_args consumed)
      ∧ length cvs = length (variable_args consumed)
      ∧ Forall (λ c, length h0 ≤ c < length h1 ∧ is_copy_var h1 c) cvs
      ∧ NoDup cvs
      ∧ params_bound d consumed cvs (scope_mapping st).
Proof.
  intros (Hs & Hkeys & Hbm & Hinj & consumed & cvs & Hargs & Hentry & Hlen & Hcvs & Hnd & Hpb)
    Hs1.
  pose proof (step_length _ _ _ Hs1) as Hlen1.
  split; [by eapply step_trans|]. split; [done|]. split; [|split; [done|]].
  - intros old new Hget. destruct (Hbm _ _ Hget) as (? & ? & b & Hb).
    split; [done|]. split; [lia|]. by eapply step_block.
  - exists consumed, cvs. repeat split; try done; try apply Hpb.
    eapply Forall_impl; [done|]. intros c ((? & ?) & Hc). cbn beta.
    split; [lia|]. by eapply step_copy_var.
Qed.

Lemma inline_bind_inv d k v st h st1 h1 :
  bind_inv d st h → dict_get (items s) k = Some v →
  inline_bind other k v st h = Ok (st1, h1) → bind_inv (d ++ [v]) st1 h1.
Proof.
  intros Hinv Hget0 H.
  unfold inline_bind in H. mstep H as o Ho.
  pose proof (is_parameter_step _ _ _ _ (proj1 Hinv) Ho) as Hparam.
  destruct o as [| |b| | | |vo| | |];
    try (unfold ret in H; simplify_eq; by apply bind_inv_skip).
  - (* a block of the inlined function *)
    mbind H as nb h2 Hcreate.
    apply (create_block_Ok T0) in Hcreate as (-> & Hstep & b' & Hb' & Hempty).
    mstep H as nb Hnb. assert (nb = b') as -> by congruence.
    mbind H as u h3 Hw. unfold write in Hw. simplify_eq.
    unfold ret in H. simplify_eq.
    assert (step T0 h (<[length h:=OBlock (set_defined (set_is_function b' (is_function b)) (defined b))]> h2)) as Hstep3.
    { eapply step_trans; [done|]. eapply step_insert; [done|]. simpl. split; [done|]. done. }
    pose proof Hinv as (Hs0 & _). apply step_length in Hs0.
    pose proof (lookup_lt_Some _ _ _ Hb') as Hlt.
    destruct (bind_inv_frame _ _ _ _ Hinv Hstep3)
      as (Hs & Hk & Hbm & Hinj & consumed & cvs & H1 & H2 & H3 & H4 & H5 & Hpb).
    split; [done|]. split; [by apply dict_keys_set_NoDup|]. split; [|split].
    + cbn [block_mapping]. intros old new Hg.
      destruct (decide (v = old)) as [<-|Hne].
      * rewrite dict_get_set_eq in Hg. simplify_eq.
        split; [by eapply dict_get_values|]. rewrite length_insert. split; [lia|].
        eexists. apply list_lookup_insert_eq. done.
      * rewrite dict_get_set_ne in Hg by done. by eapply Hbm.
    + cbn [block_mapping]. intros o1 o2 n Hg1 Hg2.
      destruct Hinv as (_ & _ & Hbm0 & _).
      destruct (decide (v = o1)) as [<-|Hne1]; destruct (decide (v = o2)) as [<-|Hne2];
        try done.
      * rewrite dict_get_set_eq in Hg1. rewrite dict_get_set_ne in Hg2 by done.
        simplify_eq. destruct (Hbm0 _ _ Hg2) as (_ & ? & _). lia.
      * rewrite dict_get_set_eq in Hg2. rewrite dict_get_set_ne in Hg1 by done.
        simplify_eq. destruct (Hbm0 _ _ Hg1) as (_ & ? & _). lia.
      * rewrite dict_get_set_ne in Hg1, Hg2 by done. by eapply Hinj.
    + exists consumed, cvs. cbn [argiter entry_insns scope_mapping].
      repeat (split; [done|]). by apply params_bound_skip_set.
  - (* a variable *)
    destruct (v_class vo) eqn:Hclass;
      try (unfold ret in H; simplify_eq; by apply bind_inv_skip).
    + (* a parameter *)
      assert (passtype vo = "byval") as Hpass.
      { destruct Hinv as ([Hold Hnew] & _).
        destruct (h0 !! v) as [o0|] eqn:Hv0.
        - destruct (Hold _ _ Hv0) as (o' & Hl' & Hstep). simplify_eq.
          destruct o0; try done. simpl in Hstep. subst. by eapply all_byval_spec.
        - specialize (Hnew _ _ Hv0 Ho). simpl in Hnew. by destruct Hnew. }
      destruct (argiter st) as [|arg rest] eqn:Hargs; [done|].
      destruct Hinv as (Hs & Hk & Hbm & Hinj & consumed & cvs & Hsplit & Hentry & Hlen & Hcvs & Hnd & Hpb).
      assert (args0 = (consumed ++ [arg]) ++ rest) as Hsplit'.
      { rewrite <- app_assoc. simpl. congruence. }
      destruct arg as [|z|q|str|ts|a].
      * rewrite bool_decide_true in H by done. done.
      * mstep H as u Hu. unfold ret in H. simplify_eq.
        split; [done|]. split; [done|]. split; [done|]. split; [done|].
        exists (consumed ++ [VInt z]), cvs. cbn [argiter entry_insns scope_mapping].
        rewrite variable_args_app. cbn. rewrite app_nil_r.
        repeat (split; [done|]).
        eapply params_bound_bind; [done|done|lia|done|]. by apply binding_literal.
      * mstep H as u Hu. unfold ret in H. simplify_eq.
        split; [done|]. split; [done|]. split; [done|]. split; [done|].
        exists (consumed ++ [VFloat q]), cvs. cbn [argiter entry_insns scope_mapping].
        rewrite variable_args_app. cbn. rewrite app_nil_r.
        repeat (split; [done|]).
        eapply params_bound_bind; [done|done|lia|done|]. by apply binding_literal.
      * rewrite bool_decide_true in H by done. done.
      * rewrite bool_decide_true in H by done. done.
      * rewrite bool_decide_true in H by done.
        mbind H as name h2 Hname. apply name_for_Ok in Hname as ->.
        mbind H as t h2 Ht. apply val_type_Ok in Ht as ->.
        mbind H as cv h2 Hcv.
        destruct (step_func _ _ _ _ _ Hs Hother) as (g' & Hg' & Hpre & _).
        eapply (create_var_Ok T0) in Hcv as (-> & Hstep & Hnewvar); [|done| |].
        2:{ left. done. }
        2:{ intros l. by apply T0_entry. }
        unfold ret in H. simplify_eq.
        pose proof (step_length _ _ _ Hs) as Hlen0.
        pose proof (step_length _ _ _ Hstep) as Hlen1.
        split; [by eapply step_trans|]. split; [done|]. split; [|split; [done|]].
        { intros old new Hg. destruct (Hbm _ _ Hg) as (? & ? & b & Hb).
          split; [done|]. split; [lia|]. by eapply step_block. }
        exists (consumed ++ [VRef a]), (cvs ++ [length h]).
        cbn [argiter entry_insns scope_mapping]. rewrite variable_args_app. cbn.
        split; [done|]. split; [rewrite zip_with_app by done; by rewrite Hentry|].
        split; [rewrite !length_app; simpl; lia|]. split; [|split].
        -- apply Forall_app. split.
           ++ eapply Forall_impl; [done|]. intros c ((? & ?) & Hc). cbn beta.
              split; [lia|]. by eapply step_copy_var.
           ++ apply Forall_singleton. split.
              ** split; [done|]. by eapply lookup_lt_Some.
              ** by eexists.
        -- apply NoDup_app. split; [done|]. split; [|apply NoDup_singleton].
           intros c Hc ->%list_elem_of_singleton.
           rewrite Forall_forall in Hcvs. destruct (Hcvs _ Hc) as ((? & ?) & _). lia.
        -- eapply params_bound_bind; [done|done|lia|by apply prefix_app_r|].
           by apply binding_variable.
    + (* a return variable *)
      destruct (retiter st) as [|r rest]; [done|].
      unfold ret in H. simplify_eq.
      destruct Hinv as (Hs & Hk & Hbm & Hinj & consumed & cvs & H1 & H2 & H3 & H4 & H5 & Hpb).
      split; [done|]. split; [done|]. split; [done|]. split; [done|].
      exists consumed, cvs. cbn [argiter entry_insns scope_mapping].
      repeat (split; [done|]). by apply params_bound_skip_set.
Qed.

End binding_loop.

(** *** Replaying a block *)

(** A loop over a list that stays as it is visits its elements in
    order. *)
Lemma fold_live_list {St} (I : nat → St → Heap → Prop) (L : list Insn) fuel
    (get : M (list Insn)) i (body : Insn → St → M St) st h st' h' :
  fold_live fuel get i body st h = Ok (st', h') →
  (∀ j st h, I j st h → get h = Ok (L, h)) →
  I i st h → i ≤ length L →
  (∀ j insn st h st1 h1, I j st h → L !! j = Some insn →
     body insn st h = Ok (st1, h1) → I (S j) st1 h1) →
  I (length L) st' h'.
Proof.
  intros H Hget HI Hi Hbody. revert i st h H HI Hi.
  induction fuel as [|fuel IH]; intros i st h H HI Hi; [done|].
  cbn [fold_live] in H. rewrite (bind_eq _ _ _ _ _ (Hget _ _ _ HI)) in H.
  destruct (L !! i) as [insn|] eqn:Hl.
  - mbind H as st1 h1 Hb. eapply (IH (S i)); [done| |].
    + by eapply Hbody.
    + apply lookup_lt_Some in Hl. lia.
  - unfold ret in H. simplify_eq. apply lookup_ge_None in Hl.
    by replace (length L) with i by lia.
Qed.

(** *** The operands of the clones *)

Lemma validate_insn_same self insn h insn' h' :
  validate_insn self insn h = Ok (insn', h') → kind insn ≠ KReturn → insn' = insn.
Proof.
  intros H Hk. unfold validate_insn in H. mstep H as o Ho. destruct o; try done.
  - unfold Preamble_validate_insn in H. mstep H as u Hu. by injection H as <- <-.
  - unfold BasicBlock_validate_insn in H. mstep H as blk Hb.
    mstep H as u Hu. rewrite bool_decide_false in H by done.
    unfold ret in H. by simplify_eq.
Qed.

Lemma activate_args insn seq h insn' r h' :
  activate insn seq h = Ok ((insn', r), h') → args insn' = args insn.
Proof.
  intros H. unfold activate in H.
  destruct (kind insn) eqn:Hkind;
    try (unfold activate_default, ret in H; by simplify_eq);
    try (mstep H as v Hv; unfold ret in H; by simplify_eq).
  - destruct (args insn) as [|[] [|[] [|]]] eqn:Hargs; try done.
    mstep H as o Ho. destruct o; try done. mstep H as u Hu.
    unfold ret in H. by simplify_eq.
  - mstep H as holder Hh. mstep H as u Hu. unfold ret in H. by simplify_eq.
  - mstep H as holder Hh. mstep H as u Hu. unfold ret in H. by simplify_eq.
  - mstep H as holder Hh. mstep H as u Hu. unfold ret in H. by simplify_eq.
  - mstep H as holder Hh. mstep H as f Hf. mstep H as u Hu.
    unfold ret in H. by simplify_eq.
Qed.

(** What a block that is not an entry block gains has the operands of the
    instruction added, unless that was a [Return]. *)
Lemma add_appends_args self insn wn nh h r h' b :
  add self insn wn nh h = Ok (r, h') →
  h !! self = Some (OBlock b) → ¬ is_entry_of h self →
  ∃ insn' b', h' !! self = Some (OBlock b')
              ∧ insns b' = insns b ++ [insn'] ∧ stored_as insn insn'
              ∧ (kind insn ≠ KReturn → args insn' = args insn).
Proof.
  intros H Hb Hne.
  apply add_Ok_inv in H
    as (insn1 & insn2 & r2 & h1 & h2 & Hval & Hact & Happ & Hname).
  pose proof (validate_insn_Ok _ _ _ _ _ Hval) as [_ Hk1].
  pose proof (activate_kind _ _ _ _ _ _ Hact) as Hk2.
  pose proof (activate_args _ _ _ _ _ _ Hact) as Ha2.
  pose proof (activate_step _ _ _ _ _ _ (is_entry_of h) Hact (λ _ H, H)) as Hs1.
  destruct (step_old _ _ _ Hs1 _ _ Hb) as (o1 & Hb1 & Hstep1).
  destruct o1 as [| |b1| | | | | | |]; try done. destruct Hstep1 as [_ Heq1].
  specialize (Heq1 Hne).
  rewrite (seq_append_block _ _ _ _ Hb1) in Happ. injection Happ as <-.
  assert (<[self := OBlock (set_insns b1 (insns b1 ++ [insn2]))]> h1 !! self
          = Some (OBlock (set_insns b1 (insns b1 ++ [insn2])))) as Hb2.
  { apply list_lookup_insert_eq. by eapply lookup_lt_Some. }
  assert (stored_as insn insn2) as Hstored.
  { unfold stored_as. rewrite Hk2. destruct Hk1 as [->|[-> ->]]; auto. }
  assert (kind insn ≠ KReturn → args insn2 = args insn) as Hargs.
  { intros Hk. rewrite Ha2. by rewrite (validate_insn_same _ _ _ _ _ Hval Hk). }
  destruct Hname as [(_ & -> & _) | (v & holder & name & _ & _ & Hstore)].
  - eexists _, _. split; [done|]. cbn. by rewrite Heq1.
  - pose proof (store_step (λ _, False) _ _ _ _ _ Hstore) as Hs3.
    destruct (step_old _ _ _ Hs3 _ _ Hb2) as (o3 & Hb3 & Hstep3).
    destruct o3 as [| |b3| | | | | | |]; try done. destruct Hstep3 as [_ Heq3].
    eexists _, b3. split; [done|]. rewrite Heq3 by tauto. cbn. by rewrite Heq1.
Qed.

(** Replaying an instruction leaves the mapping as it is, or binds the
    entity of a constructor instruction to the entity its clone built. *)
Lemma _inline_step_rebound n0 sm0 self eb insn sm hc sm1 h1 :
  _inline_step self eb insn sm hc = Ok (sm1, h1) →
  rebound n0 sm0 sm → n0 ≤ length hc →
  rebound n0 sm0 sm1 ∧ n0 ≤ length h1.
Proof.
  intros H Hr Hn.
  assert (length hc ≤ length h1) as Hlen.
  { eapply step_length. by eapply (_inline_step_step (λ _, True)). }
  split; [|lia].
  unfold _inline_step in H. destruct (inline_copyable insn); cbn [negb] in H.
  2:{ unfold ret in H. by simplify_eq. }
  mbind H as sm2 h2 Hadd. mbind H as u h3 Hdecl. destruct u.
  unfold ret in H. simplify_eq.
  destruct (is_constructor insn) eqn:Hc.
  - destruct (_value insn) as [v|] eqn:Hv; [|done].
    mbind Hadd as name h4 Hname. apply name_for_Ok in Hname as ->.
    mbind Hadd as r h4 Hadd'. unfold ret in Hadd. simplify_eq.
    apply add_constructs in Hadd' as [-> _]; [|exact Hc].
    cbn. by eapply rebound_set.
  - mbind Hadd as r h4 Hadd'. unfold ret in Hadd. by simplify_eq.
Qed.

Lemma _inline_seq_rebound n0 sm0 self from eb sm h sm' h' :
  _inline_seq self from eb sm h = Ok (sm', h') →
  rebound n0 sm0 sm → n0 ≤ length h →
  rebound n0 sm0 sm' ∧ n0 ≤ length h'.
Proof.
  intros H Hr Hn. unfold _inline_seq, fold_insns in H.
  mbind H as l h1 Hl. apply seq_insns_Ok in Hl as ->.
  eapply (fold_live_inv (λ st hc, rebound n0 sm0 st ∧ n0 ≤ length hc)); [done| |done|].
  - intros ???. apply seq_insns_Ok.
  - intros insn st hc st1 h1 [? ?] Hb. by eapply _inline_step_rebound.
Qed.

Lemma inline_blocks_rebound n0 sm0 self bm sm h sm' h' :
  inline_blocks self bm sm h = Ok (sm', h') →
  rebound n0 sm0 sm → n0 ≤ length h →
  rebound n0 sm0 sm' ∧ n0 ≤ length h'.
Proof.
  revert sm h. induction bm as [|[old new] bm IH]; intros sm h H Hr Hn.
  - cbn in H. unfold ret in H. by simplify_eq.
  - cbn [inline_blocks] in H. mbind H as sm1 h1 Hseq.
    destruct (_inline_seq_rebound _ _ _ _ _ _ _ _ _ Hseq Hr Hn) as [Hr1 Hn1].
    by eapply IH.
Qed.

(** One instruction of the source: nothing is added for an instruction
    that is not copyable, its clone under the mapping otherwise. *)
Lemma _inline_step_clones n0 sm0 self eb insn sm hc sm1 h1 b :
  _inline_step self eb insn sm hc = Ok (sm1, h1) →
  hc !! eb = Some (OBlock b) → ¬ is_entry_of hc eb →
  rebound n0 sm0 sm →
  ∃ b1 new, h1 !! eb = Some (OBlock b1) ∧ insns b1 = insns b ++ new
            ∧ Forall2 (clone_of n0 sm0) (List.filter inline_copyable [insn]) new.
Proof.
  intros H Hb Hne Hr. unfold _inline_step in H. cbn [List.filter].
  destruct (inline_copyable insn) eqn:Hcopy; cbn [negb] in H.
  2:{ unfold ret in H. simplify_eq. exists b, []. by rewrite app_nil_r. }
  mbind H as sm2 h2 Hadd. mbind H as u h3 Hdecl. destruct u.
  unfold ret in H. simplify_eq.
  assert (∃ insn' b', h2 !! eb = Some (OBlock b') ∧ insns b' = insns b ++ [insn']
                      ∧ stored_as (copy_with_changes insn sm) insn'
                      ∧ (kind insn ≠ KReturn →
                         args insn' = map_arg (λ _, true) sm <$> args insn))
    as (insn' & b' & Hb' & Hins & Hst & Hargs).
  { destruct (is_constructor insn).
    - destruct (_value insn) as [v|]; [|done].
      mbind Hadd as name h4 Hname. apply name_for_Ok in Hname as ->.
      mbind Hadd as r h4 Hadd'. unfold ret in Hadd. simplify_eq.
      exact (add_appends_args _ _ _ _ _ _ _ _ Hadd' Hb Hne).
    - mbind Hadd as r h4 Hadd'. unfold ret in Hadd. simplify_eq.
      exact (add_appends_args _ _ _ _ _ _ _ _ Hadd' Hb Hne). }
  destruct (step_block_untouched (λ _, False) _ _ _ _ (declare_step _ _ _ _ Hdecl) Hb')
    as (b1 & Hb1 & Hins1); [tauto|].
  exists b1, [insn']. split; [done|]. split; [congruence|].
  constructor; [|constructor]. by exists sm.
Qed.

(** Replaying the block [from] into the block [eb] appends the clones of
    the copyable instructions of [from], in order, each under the mapping
    as it was when the instruction was reached. *)
Lemma _inline_seq_clones n0 sm0 self from eb sm h sm' h' src b :
  _inline_seq self from eb sm h = Ok (sm', h') →
  h !! from = Some (OBlock src) → h !! eb = Some (OBlock b) →
  from ≠ eb → ¬ is_entry_of h from → ¬ is_entry_of h eb →
  rebound n0 sm0 sm → n0 ≤ length h →
  ∃ b' body, h' !! eb = Some (OBlock b') ∧ insns b' = insns b ++ body
             ∧ Forall2 (clone_of n0 sm0) (List.filter inline_copyable (insns src)) body.
Proof.
  intros H Hsrc Hb Hne Hfrom Heb Hr Hn. unfold _inline_seq, fold_insns in H.
  mbind H as l0 hx Hl0. apply seq_insns_Ok in Hl0 as ->.
  set (T2 := λ l, l = eb ∨ is_entry_of h l).
  assert (¬ T2 from) as HTfrom by (intros [?|?]; done).
  pose (I := λ (j : nat) (st : list (loc * Val)) (hc : Heap),
          step T2 h hc ∧ rebound n0 sm0 st ∧ n0 ≤ length hc
          ∧ ∃ bj body, hc !! eb = Some (OBlock bj) ∧ insns bj = insns b ++ body
                       ∧ Forall2 (clone_of n0 sm0)
                           (List.filter inline_copyable (take j (insns src))) body).
  assert (I (length (insns src)) sm' h') as (_ & _ & _ & bj & body & Hbj & Hins & Hall).
  { eapply (fold_live_list I (insns src)); [done| | |lia|].
    - intros j st hc (Hstep & _).
      destruct (step_block_untouched _ _ _ _ _ Hstep Hsrc HTfrom) as (src' & Hsrc' & Heq).
      unfold seq_insns. rewrite (bind_eq _ _ _ _ _ (read_eq _ _ _ Hsrc')).
      unfold ret. by rewrite Heq.
    - split; [apply step_refl|]. split; [done|]. split; [done|].
      exists b, []. rewrite app_nil_r. cbn. by split.
    - intros j insn st hc st1 h1 (Hstep & Hrj & Hnj & bj & body & Hbj & Hins & Hall) Hj Hbody.
      assert (∀ l, is_entry_of hc l → T2 l) as Hentries.
      { intros l Hl. right. by eapply step_entry. }
      assert (¬ is_entry_of hc eb) as Heb'.
      { intros He. apply Heb. by eapply step_entry. }
      split.
      { eapply step_trans; [done|]. eapply _inline_step_step; [done|by left|done]. }
      destruct (_inline_step_rebound _ _ _ _ _ _ _ _ _ Hbody Hrj Hnj) as [Hr1 Hn1].
      split; [done|]. split; [done|].
      destruct (_inline_step_clones _ _ _ _ _ _ _ _ _ _ Hbody Hbj Heb' Hrj)
        as (b1 & new & Hb1 & Hins1 & Hnew).
      exists b1, (body ++ new). split; [done|]. split.
      { rewrite Hins1, Hins. by rewrite app_assoc. }
      rewrite (take_S_r _ _ _ Hj), List.filter_app. by apply Forall2_app. }
  rewrite take_ge in Hall by done. eauto.
Qed.

Lemma clone_of_stored_as n0 sm0 insn c : clone_of n0 sm0 insn c → stored_as insn c.
Proof. by intros (sm & _ & Hst & _). Qed.

Lemma inline_blocks_app self l1 l2 sm h :
  inline_blocks self (l1 ++ l2) sm h
  = (sm1 <- inline_blocks self l1 sm ;; inline_blocks self l2 sm1) h.
Proof.
  revert sm h. induction l1 as [|[old new] l1 IH]; intros sm h; [done|].
  cbn [app inline_blocks]. unfold bind.
  destruct (_inline_seq self old new sm h) as [[sm1 h1]|e]; [|done].
  rewrite IH. done.
Qed.

(** Replaying blocks touches the blocks replayed into and the entry
    blocks. *)
Lemma inline_blocks_frame (T : loc → Prop) self bm sm h sm' h' :
  inline_blocks self bm sm h = Ok (sm', h') →
  (∀ old new, (old, new) ∈ bm → T new) → (∀ l, is_entry_of h l → T l) →
  step T h h'.
Proof.
  revert sm h. induction bm as [|[old new] bm IH]; intros sm h H Hnew HT.
  - cbn in H. unfold ret in H. simplify_eq. apply step_refl.
  - cbn [inline_blocks] in H. mbind H as sm1 h1 Hseq.
    assert (step T h h1) as Hs1.
    { eapply _inline_seq_step; [done| |done]. apply (Hnew old). by left. }
    eapply step_trans; [done|]. eapply IH; [done| |].
    + intros o n Hin. apply (Hnew o). by right.
    + intros l Hl. apply HT. by eapply step_entry.
Qed.

Lemma dict_get_split {K V} `{EqDecision K} (d : list (K * V)) k v :
  dict_get d k = Some v → ∃ l1 l2, d = l1 ++ (k, v) :: l2.
Proof.
  induction d as [|[k' v'] d IH]; [done|]. cbn. case_decide.
  - intros [= ->]. subst. by exists [], d.
  - intros (l1 & l2 & ->)%IH. by exists ((k', v') :: l1), l2.
Qed.

(** The user blocks of a function whose scope has gained names: those it
    had come first. *)
Lemma blocks_of_grown (T : loc → Prop) h h' f f' s s' :
  step T h h' → scope_closed h s = true →
  _entryblock f' = _entryblock f → _exitblock f' = _exitblock f →
  items s `prefix_of` items s' →
  ∃ more, blocks_of h' f' s' = blocks_of h f s ++ more.
Proof.
  intros Hstep Hclosed He Hx [extra Hextra].
  unfold blocks_of, allblocks_of, dict_values. rewrite Hextra, He, Hx, fmap_app.
  rewrite !List.filter_app. eexists. f_equal. f_equal.
  apply List.filter_ext_in. intros v Hv.
  eapply step_is_BasicBlock; [done|].
  eapply scope_closed_spec; [done|]. by apply list_elem_of_In.
Qed.

Lemma blocks_of_elem h f s b :
  b ∈ blocks_of h f s ↔
  b ∈ dict_values (items s) ∧ is_BasicBlock h b = true
  ∧ b ≠ _entryblock f ∧ b ≠ _exitblock f.
Proof.
  unfold blocks_of, allblocks_of.
  rewrite list_elem_of_In, filter_In, filter_In, <- list_elem_of_In, negb_true_iff.
  rewrite bool_decide_eq_false, !elem_of_cons, elem_of_nil. naive_solver.
Qed.

(** ** Inlining copies exactly the variable arguments *)


(** ** Linking *)

(** *** What the linker leaves alone

    Linking allocates nothing after the merged unit was created, and it
    writes to the merged unit, to its preamble, to scopes and to functions;
    only the scope [sc] of the merged unit gains names. *)
Definition obj_kept (grow : Prop) (o o' : Obj) : Prop :=
  match o, o' with
  | OBlock b, OBlock b' => b' = b
  | OExtern e, OExtern e' => e' = e
  | OFunc f, OFunc f' =>
      f_scope f' = f_scope f ∧ _entryblock f' = _entryblock f
      ∧ _exitblock f' = _exitblock f
  | OTop t, OTop t' => t_scope t' = t_scope t ∧ t_preamble t' = t_preamble t
  | OScope s, OScope s' =>
      (grow → parent s' = parent s
              ∧ ∀ k v, dict_get (items s) k = Some v → dict_get (items s') k = Some v)
      ∧ (¬ grow → items s' = items s)
  | OPreamble _, OPreamble _ => True
  | OVar _, OVar _ => True
  | OEvent _, OEvent _ => True
  | OPosUtilEntity, OPosUtilEntity => True
  | OGlobalEntity, OGlobalEntity => True
  | _, _ => False
  end.

Record kept (sc : loc) (h h' : Heap) : Prop := mkKept {
  kept_length : length h' = length h;
  kept_obj : ∀ l o, h !! l = Some o → ∃ o', h' !! l = Some o' ∧ obj_kept (l = sc) o o'
}.

Lemma obj_kept_refl g o : obj_kept g o o.
Proof. destruct o; simpl; auto. Qed.

Lemma obj_kept_trans g o1 o2 o3 : obj_kept g o1 o2 → obj_kept g o2 o3 → obj_kept g o1 o3.
Proof.
  destruct o1, o2; simpl; try done; destruct o3; simpl; try done.
  - intros [H1 H1'] [H2 H2']. split.
    + intros Hg. destruct (H1 Hg) as [Hp1 Hb1]. destruct (H2 Hg) as [Hp2 Hb2].
      split; [congruence | auto].
    + intros Hg. rewrite (H2' Hg). auto.
  - congruence.
  - intros (? & ? & ?) (? & ? & ?). repeat split; congruence.
  - congruence.
  - intros (? & ?) (? & ?). split; congruence.
Qed.

Lemma kept_refl sc h : kept sc h h.
Proof. split; [done|]. intros l o Hl. exists o. split; [done | apply obj_kept_refl]. Qed.

Lemma kept_trans sc h1 h2 h3 : kept sc h1 h2 → kept sc h2 h3 → kept sc h1 h3.
Proof.
  intros [Hl1 H1] [Hl2 H2]. split; [congruence|].
  intros l o Hl. destruct (H1 _ _ Hl) as (o2 & Ho2 & Hk1).
  destruct (H2 _ _ Ho2) as (o3 & Ho3 & Hk2).
  exists o3. split; [done|]. by eapply obj_kept_trans.
Qed.

Lemma kept_insert sc h l o o' :
  h !! l = Some o → obj_kept (l = sc) o o' → kept sc h (<[l := o']> h).
Proof.
  intros Hl Hk. split; [apply length_insert|].
  intros l' o1 Hl1. destruct (decide (l = l')) as [<-|Hne].
  - simplify_eq. exists o'. split; [|done].
    apply list_lookup_insert_eq. by eapply lookup_lt_Some.
  - exists o1. split; [|apply obj_kept_refl].
    by rewrite list_lookup_insert_ne.
Qed.

Lemma kept_None sc h h' l : kept sc h h' → h !! l = None → h' !! l = None.
Proof.
  intros [Hlen _] Hl. apply lookup_ge_None. apply lookup_ge_None in Hl. lia.
Qed.

Lemma kept_block sc h h' l b :
  kept sc h h' → h !! l = Some (OBlock b) → h' !! l = Some (OBlock b).
Proof.
  intros [_ H] Hl. destruct (H _ _ Hl) as (o' & Ho' & Hk).
  destruct o'; try done. simpl in Hk. by subst.
Qed.

Lemma kept_extern sc h h' l e :
  kept sc h h' → h !! l = Some (OExtern e) → h' !! l = Some (OExtern e).
Proof.
  intros [_ H] Hl. destruct (H _ _ Hl) as (o' & Ho' & Hk).
  destruct o'; try done. simpl in Hk. by subst.
Qed.

Lemma kept_func sc h h' l f :
  kept sc h h' → h !! l = Some (OFunc f) →
  ∃ f', h' !! l = Some (OFunc f') ∧ f_scope f' = f_scope f
        ∧ _entryblock f' = _entryblock f ∧ _exitblock f' = _exitblock f.
Proof.
  intros [_ H] Hl. destruct (H _ _ Hl) as (o' & Ho' & Hk).
  destruct o'; try done. simpl in Hk. naive_solver.
Qed.

Lemma kept_top sc h h' l t :
  kept sc h h' → h !! l = Some (OTop t) →
  ∃ t', h' !! l = Some (OTop t') ∧ t_scope t' = t_scope t ∧ t_preamble t' = t_preamble t.
Proof.
  intros [_ H] Hl. destruct (H _ _ Hl) as (o' & Ho' & Hk).
  destruct o'; try done. simpl in Hk. naive_solver.
Qed.

Lemma kept_scope sc h h' l s :
  kept sc h h' → h !! l = Some (OScope s) → l ≠ sc →
  ∃ s', h' !! l = Some (OScope s') ∧ items s' = items s.
Proof.
  intros [_ H] Hl Hne. destruct (H _ _ Hl) as (o' & Ho' & Hk).
  destruct o'; try done. simpl in Hk. destruct Hk as [_ Hk]. eauto.
Qed.

Lemma kept_out_scope sc h h' s :
  kept sc h h' → h !! sc = Some (OScope s) →
  ∃ s', h' !! sc = Some (OScope s') ∧ parent s' = parent s
        ∧ ∀ k v, dict_get (items s) k = Some v → dict_get (items s') k = Some v.
Proof.
  intros [_ H] Hl. destruct (H _ _ Hl) as (o' & Ho' & Hk).
  destruct o'; try done. simpl in Hk. destruct Hk as [Hk _].
  destruct (Hk eq_refl). eauto.
Qed.

(** The classes of the objects stay. *)
Lemma kept_is_ExternFunction sc h h' l :
  kept sc h h' → is_ExternFunction h' l = is_ExternFunction h l.
Proof.
  intros Hk. unfold is_ExternFunction.
  destruct (h !! l) as [o|] eqn:Hl.
  - destruct (kept_obj _ _ _ Hk _ _ Hl) as (o' & -> & Hobj).
    by destruct o, o'.
  - by rewrite (kept_None _ _ _ _ Hk Hl).
Qed.

Lemma kept_is_IRFunction sc h h' l :
  kept sc h h' → is_IRFunction h' l = is_IRFunction h l.
Proof.
  intros Hk. unfold is_IRFunction.
  destruct (h !! l) as [o|] eqn:Hl.
  - destruct (kept_obj _ _ _ Hk _ _ Hl) as (o' & -> & Hobj).
    by destruct o, o'.
  - by rewrite (kept_None _ _ _ _ Hk Hl).
Qed.

Lemma kept_is_VisibleFunction sc h h' l :
  kept sc h h' → is_VisibleFunction h' l = is_VisibleFunction h l.
Proof.
  intros Hk. unfold is_VisibleFunction.
  destruct (h !! l) as [o|] eqn:Hl.
  - destruct (kept_obj _ _ _ Hk _ _ Hl) as (o' & -> & Hobj).
    by destruct o, o'.
  - by rewrite (kept_None _ _ _ _ Hk Hl).
Qed.

Lemma kept_is_BasicBlock sc h h' l :
  kept sc h h' → is_BasicBlock h' l = is_BasicBlock h l.
Proof.
  intros Hk. unfold is_BasicBlock.
  destruct (h !! l) as [o|] eqn:Hl.
  - destruct (kept_obj _ _ _ Hk _ _ Hl) as (o' & -> & Hobj).
    by destruct o, o'.
  - by rewrite (kept_None _ _ _ _ Hk Hl).
Qed.

(** *** Storing a name in the merged unit *)

(** The scope of the merged unit after [name] was bound in it. *)
Definition bound (s : Scope) (name : string) (v : loc) : Scope :=
  set_items s (items s ++ [(name, v)]) (dict_set (inverse_dict s) v name).

Lemma store_Ok self name v h h' t :
  store self name v h = Ok (tt, h') → h !! self = Some (OTop t) →
  ∃ s, h !! t_scope t = Some (OScope s) ∧ dict_get (items s) name = None
       ∧ h' = <[t_scope t := OScope (bound s name v)]> h.
Proof.
  intros H Ht. unfold store in H. mbind H as scope h1 Hscope.
  apply holder_scope_Ok in Hscope as [-> [(t' & Ht' & ->)|(f & Hf & _)]]; [|congruence].
  assert (t' = t) as -> by congruence.
  mbind H as c h1 Hc. apply Scope_contains_no_parent_Ok in Hc as (-> & s & Hs & ->).
  mstep H as u Hu. apply negb_true_iff, dict_has_false in Hu.
  rewrite (Scope_setitem_eq _ _ _ _ _ Hs) in H. simplify_eq.
  exists s. split; [done|]. split; [done|].
  unfold bound. by rewrite dict_set_absent.
Qed.

Lemma generate_name_Ok self hint v h r h' t :
  generate_name self hint v h = Ok (r, h') → h !! self = Some (OTop t) →
  ∃ s name, h !! t_scope t = Some (OScope s) ∧ dict_get (items s) name = None
            ∧ h' = <[t_scope t := OScope (bound s name v)]> h.
Proof.
  intros H Ht. unfold generate_name, uniq in H. mbind H as name h1 Hname.
  apply uniq_name_Ok in Hname as (-> & scope & Hscope & Hc).
  apply holder_scope_Ok in Hscope as [_ [(t' & Ht' & ->)|(f & Hf & _)]]; [|congruence].
  assert (t' = t) as -> by congruence. clear Ht'.
  mbind H as obj h2 Hobj. unfold ret in Hobj. simplify_eq.
  mbind H as scope h3 Hscope.
  apply holder_scope_Ok in Hscope as [-> [(t' & Ht' & ->)|(f & Hf & _)]]; [|congruence].
  assert (t' = t) as -> by congruence.
  destruct (Scope_contains_Ok_scope _ _ _ _ _ Hc) as [s Hs].
  apply Scope_contains_Ok in Hc as [Hc _].
  pose proof (Scope_contains_false_local _ _ _ _ _ Hs Hc) as Hnone.
  mbind H as u h4 Hset. rewrite (Scope_setitem_eq _ _ _ _ _ Hs) in Hset.
  unfold ret in H. simplify_eq.
  exists s, name. split; [done|]. split; [done|].
  unfold bound. by rewrite dict_set_absent.
Qed.

Lemma kept_bound sc h s name v :
  h !! sc = Some (OScope s) → dict_get (items s) name = None →
  kept sc h (<[sc := OScope (bound s name v)]> h).
Proof.
  intros Hs Hnone. eapply kept_insert; [done|]. simpl. split; [|done].
  intros _. split; [done|]. intros k v' Hget.
  rewrite dict_get_app, Hget. done.
Qed.

(** *** The merged unit, as [TopLevel()] creates it *)

Definition fresh_unit (n : nat) : list Obj :=
  [OTop (mkTop (n + 1) (n + 2) false []);
   OScope (mkScope [("pos_util", n + 3); ("_global_entity", n + 4)]
                   [(n + 3, "pos_util"); (n + 4, "_global_entity")] None);
   OPreamble (mkPreamble [] n true);
   OPosUtilEntity;
   OGlobalEntity].

Lemma lookup_end {A} (h l : list A) i : (h ++ l) !! (length h + i) = l !! i.
Proof. rewrite lookup_app_r by lia. f_equal. lia. Qed.

Lemma lookup_end0 {A} (h l : list A) : (h ++ l) !! length h = l !! 0.
Proof. rewrite <- (lookup_end h l 0). f_equal. lia. Qed.

Lemma insert_end0 {A} (h l : list A) x : <[length h := x]> (h ++ l) = h ++ <[0 := x]> l.
Proof. rewrite <- (insert_app_r h l 0 x). f_equal. lia. Qed.

Ltac heapnorm H :=
  rewrite <- ?app_assoc in H; cbn [app] in H;
  rewrite ?length_insert, ?length_app in H; cbn [length] in H;
  rewrite ?insert_end0, ?insert_app_r in H;
  cbn [insert list_insert] in H;
  rewrite <- ?app_assoc in H; cbn [app] in H.

Lemma TopLevel_init_Ok h out h' :
  TopLevel_init h = Ok (out, h') → out = length h ∧ h' = h ++ fresh_unit (length h).
Proof.
  intros H. unfold TopLevel_init in H.
  mbind H as self h1 Hself. unfold alloc in Hself. simplify_eq.
  mbind H as scope h1 Hscope. unfold alloc in Hscope. simplify_eq.
  mbind H as preamble h1 Hpre. unfold alloc in Hpre. simplify_eq.
  mbind H as u h1 Hw. unfold write in Hw. simplify_eq.
  mbind H as pos h1 Hpos. unfold alloc in Hpos. simplify_eq.
  mbind H as u1 h1 Hst. destruct u1.
  heapnorm Hst.
  eapply store_Ok in Hst as (s & Hs & _ & Heq); [|rewrite lookup_end0; reflexivity].
  subst h1. cbn [t_scope lookup list_lookup] in *. rewrite lookup_end in Hs. cbn in Hs. simplify_eq.
  mbind H as ge h1 Hge. unfold alloc in Hge. simplify_eq.
  mbind H as u1 h1 Hst. destruct u1.
  heapnorm Hst.
  eapply store_Ok in Hst as (s & Hs & _ & Heq); [|rewrite lookup_end0; reflexivity].
  subst h1. cbn [t_scope lookup list_lookup] in *. rewrite lookup_end in Hs. cbn in Hs. simplify_eq.
  unfold ret in H. simplify_eq. split; [done|].
  rewrite insert_app_r. f_equal. unfold bound, fresh_unit. cbn.
  rewrite decide_False by lia. reflexivity.
Qed.

(** *** What the units hold *)

(** The symbols of a scope, as a loop over its items visits them. *)
Definition symbols_of_keys (s : Scope) (ks : list string) : list (string * loc) :=
  omap (λ k, pair k <$> dict_get (items s) k) ks.

Definition scope_symbols (s : Scope) : list (string * loc) :=
  symbols_of_keys s (dict_keys (items s)).

Definition unit_symbols (h : Heap) (top : loc) : list (string * loc) :=
  match h !! top with
  | Some (OTop t) =>
      match h !! t_scope t with
      | Some (OScope s) => scope_symbols s
      | _ => []
      end
  | _ => []
  end.

(** The symbols of the units, in the order the linker scans them. *)
Definition all_symbols (h : Heap) (tops : list loc) : list (string * loc) :=
  tops ≫= unit_symbols h.

(** The stubs declared under a name, and the functions defined under it. *)
Definition stubs_in (h : Heap) (P : list (string * loc)) (name : string) : list loc :=
  (List.filter (λ kv, bool_decide (kv.1 = name) && is_ExternFunction h kv.2) P).*2.

Definition genuine_in (h : Heap) (P : list (string * loc)) (name : string) : list loc :=
  (List.filter (λ kv, bool_decide (kv.1 = name) && is_IRFunction h kv.2) P).*2.

Definition stubs_named (h : Heap) (tops : list loc) (name : string) : list loc :=
  stubs_in h (all_symbols h tops) name.

Definition genuine_named (h : Heap) (tops : list loc) (name : string) : list loc :=
  genuine_in h (all_symbols h tops) name.

(** [func.blocks] of a defined function, and the blocks the linker
    collects. *)
Definition function_blocks (h : Heap) (v : loc) : list loc :=
  match h !! v with
  | Some (OFunc f) =>
      match h !! f_scope f with
      | Some (OScope s) => blocks_of h f s
      | _ => []
      end
  | _ => []
  end.

Definition collected_in (h : Heap) (P : list (string * loc)) : list loc :=
  (List.filter (λ kv, is_IRFunction h kv.2) P).*2 ≫= function_blocks h.

Definition collected_blocks (h : Heap) (tops : list loc) : list loc :=
  collected_in h (all_symbols h tops).

(** The units are objects of the store, with their scopes and the scopes
    of the functions they define. *)
Definition closed_unit (h : Heap) (top : loc) : bool :=
  match h !! top with
  | Some (OTop t) =>
      bool_decide (t_scope t < length h)
      && forallb (λ kv, match h !! kv.2 with
                        | Some (OFunc f) => bool_decide (f_scope f < length h)
                        | _ => true
                        end) (unit_symbols h top)
  | _ => false
  end.

Definition closed_units (h : Heap) (tops : list loc) : bool := forallb (closed_unit h) tops.

(** No stub is declared under two names. *)
Definition stubs_unshared (h : Heap) (tops : list loc) : bool :=
  let stubs := List.filter (λ kv, is_ExternFunction h kv.2) (all_symbols h tops) in
  forallb (λ kv1, forallb (λ kv2, implb (bool_decide (kv1.2 = kv2.2))
                                        (bool_decide (kv1.1 = kv2.1))) stubs) stubs.

Lemma symbols_of_keys_app s ks1 ks2 :
  symbols_of_keys s (ks1 ++ ks2) = symbols_of_keys s ks1 ++ symbols_of_keys s ks2.
Proof. apply omap_app. Qed.

Lemma stubs_in_app h P1 P2 n : stubs_in h (P1 ++ P2) n = stubs_in h P1 n ++ stubs_in h P2 n.
Proof. unfold stubs_in. by rewrite List.filter_app, fmap_app. Qed.

Lemma genuine_in_app h P1 P2 n :
  genuine_in h (P1 ++ P2) n = genuine_in h P1 n ++ genuine_in h P2 n.
Proof. unfold genuine_in. by rewrite List.filter_app, fmap_app. Qed.

Lemma collected_in_app h P1 P2 :
  collected_in h (P1 ++ P2) = collected_in h P1 ++ collected_in h P2.
Proof. unfold collected_in. by rewrite List.filter_app, fmap_app, bind_app. Qed.

Lemma kinds_disjoint h v : is_IRFunction h v = true → is_ExternFunction h v = false.
Proof. unfold is_IRFunction, is_ExternFunction. by destruct (h !! v) as [[]|]. Qed.

Lemma visible_cases h v :
  is_VisibleFunction h v = is_ExternFunction h v || is_IRFunction h v.
Proof.
  unfold is_VisibleFunction, is_IRFunction, is_ExternFunction.
  by destruct (h !! v) as [[]|].
Qed.

(** *** Loops that record what they have visited *)

Lemma fold_items_rec_done {St} (I : list string → St → Heap → Prop) scope keys0 todo
    (body : string → loc → St → M St) done st h st' h' :
  fold_items_rec scope keys0 todo body st h = Ok (st', h') →
  I done st h →
  (∀ k v done st h st1 h1 s,
     I done st h → h !! scope = Some (OScope s) → dict_keys (items s) = keys0 →
     dict_get (items s) k = Some v →
     body k v st h = Ok (st1, h1) → I (done ++ [k]) st1 h1) →
  I (done ++ todo) st' h'.
Proof.
  revert done st h. induction todo as [|k todo IH]; intros done st h H HI Hbody.
  - cbn in H. unfold ret in H. simplify_eq. by rewrite app_nil_r.
  - cbn [fold_items_rec] in H. mstep H as s Hs.
    case_bool_decide as Hkeys; [|done].
    destruct (dict_get (items s) k) as [v|] eqn:Hget; [|done].
    mbind H as st1 h1 Hb.
    replace (done ++ k :: todo) with ((done ++ [k]) ++ todo) by by rewrite <- app_assoc.
    eapply (IH (done ++ [k]) st1 h1); [done| |done].
    eapply Hbody; eauto.
Qed.

(** *** The objects of the merged unit are no functions and no blocks *)

Lemma fresh_unit_lookup h l :
  h !! l = None →
  match (h ++ fresh_unit (length h)) !! l with
  | Some (OFunc _) | Some (OExtern _) | Some (OBlock _) => False
  | _ => True
  end.
Proof.
  intros Hl. apply lookup_ge_None in Hl.
  rewrite lookup_app_r by done.
  destruct (l - length h) as [|[|[|[|[|i]]]]]; cbn; done.
Qed.

Lemma fresh_unit_old h l o :
  h !! l = Some o → (h ++ fresh_unit (length h)) !! l = Some o.
Proof. apply lookup_app_l_Some. Qed.

Lemma fresh_is_ExternFunction h l :
  is_ExternFunction (h ++ fresh_unit (length h)) l = is_ExternFunction h l.
Proof.
  unfold is_ExternFunction. destruct (h !! l) as [o|] eqn:Hl.
  - by rewrite (fresh_unit_old _ _ _ Hl).
  - pose proof (fresh_unit_lookup _ _ Hl) as H.
    by destruct ((h ++ fresh_unit (length h)) !! l) as [[]|].
Qed.

Lemma fresh_is_IRFunction h l :
  is_IRFunction (h ++ fresh_unit (length h)) l = is_IRFunction h l.
Proof.
  unfold is_IRFunction. destruct (h !! l) as [o|] eqn:Hl.
  - by rewrite (fresh_unit_old _ _ _ Hl).
  - pose proof (fresh_unit_lookup _ _ Hl) as H.
    by destruct ((h ++ fresh_unit (length h)) !! l) as [[]|].
Qed.

Lemma fresh_is_BasicBlock h l :
  is_BasicBlock (h ++ fresh_unit (length h)) l = is_BasicBlock h l.
Proof.
  unfold is_BasicBlock. destruct (h !! l) as [o|] eqn:Hl.
  - by rewrite (fresh_unit_old _ _ _ Hl).
  - pose proof (fresh_unit_lookup _ _ Hl) as H.
    by destruct ((h ++ fresh_unit (length h)) !! l) as [[]|].
Qed.

Lemma blocks_of_ext h1 h2 f1 f2 s1 s2 :
  (∀ l, is_BasicBlock h1 l = is_BasicBlock h2 l) →
  items s1 = items s2 → _entryblock f1 = _entryblock f2 → _exitblock f1 = _exitblock f2 →
  blocks_of h1 f1 s1 = blocks_of h2 f2 s2.
Proof.
  intros Hb Hi He Hx. unfold blocks_of, allblocks_of. rewrite Hi, He, Hx.
  f_equal. apply List.filter_ext. intros l. apply Hb.
Qed.

(** *** Scanning the units *)

Section scan.
Variable h : Heap.

(** The state of the scan after the symbols [P] were visited: the stubs
    are deferred per name, the defined functions are bound in the scope of
    the merged unit, their blocks are collected. *)
Definition scan_inv (P : list (string * loc)) (st : LinkState) (hc : Heap) : Prop :=
  kept (length h + 1) (h ++ fresh_unit (length h)) hc
  ∧ (∃ s, hc !! (length h + 1) = Some (OScope s)
          ∧ (∀ k c, (k, c) ∈ P → is_IRFunction h c = true → dict_get (items s) k = Some c)
          ∧ (∀ k v, dict_get (items s) k = Some v → is_VisibleFunction h v = true →
                    (k, v) ∈ P ∧ is_IRFunction h v = true))
  ∧ NoDup (dict_keys (externs st))
  ∧ (∀ n, default [] (dict_get (externs st) n) = stubs_in h P n)
  ∧ (∀ n l, dict_get (externs st) n = Some l → l ≠ [])
  ∧ all_blocks st = collected_in h P.

Lemma scan_is_ExternFunction hc l :
  kept (length h + 1) (h ++ fresh_unit (length h)) hc →
  is_ExternFunction hc l = is_ExternFunction h l.
Proof. intros Hk. by rewrite (kept_is_ExternFunction _ _ _ _ Hk), fresh_is_ExternFunction. Qed.

Lemma scan_is_IRFunction hc l :
  kept (length h + 1) (h ++ fresh_unit (length h)) hc →
  is_IRFunction hc l = is_IRFunction h l.
Proof. intros Hk. by rewrite (kept_is_IRFunction _ _ _ _ Hk), fresh_is_IRFunction. Qed.

Lemma scan_is_BasicBlock hc l :
  kept (length h + 1) (h ++ fresh_unit (length h)) hc →
  is_BasicBlock hc l = is_BasicBlock h l.
Proof. intros Hk. by rewrite (kept_is_BasicBlock _ _ _ _ Hk), fresh_is_BasicBlock. Qed.

Lemma scan_is_VisibleFunction hc l :
  kept (length h + 1) (h ++ fresh_unit (length h)) hc →
  is_VisibleFunction hc l = is_VisibleFunction h l.
Proof.
  intros Hk. by rewrite !visible_cases, scan_is_ExternFunction, scan_is_IRFunction.
Qed.

Lemma scan_out hc :
  kept (length h + 1) (h ++ fresh_unit (length h)) hc →
  ∃ t, hc !! length h = Some (OTop t) ∧ t_scope t = length h + 1
       ∧ t_preamble t = length h + 2.
Proof.
  intros Hk.
  destruct (kept_top _ _ _ (length h) _ Hk (lookup_end0 h (fresh_unit (length h))))
    as (t & Ht & Hsc & Hpre).
  by exists t.
Qed.

Lemma stubs_in_one v k n :
  stubs_in h [(k, v)] n
  = if bool_decide (k = n) && is_ExternFunction h v then [v] else [].
Proof. unfold stubs_in. cbn. by destruct (bool_decide (k = n) && is_ExternFunction h v). Qed.

Lemma collected_in_one v k :
  collected_in h [(k, v)] = if is_IRFunction h v then function_blocks h v else [].
Proof.
  unfold collected_in. cbn. destruct (is_IRFunction h v); cbn; [|done].
  by rewrite app_nil_r.
Qed.

Lemma link_symbol_inv P st hc k v st1 h1 :
  scan_inv P st hc →
  (∀ f, h !! v = Some (OFunc f) → f_scope f < length h) →
  link_symbol (length h) k v st hc = Ok (st1, h1) →
  scan_inv (P ++ [(k, v)]) st1 h1.
Proof.
  intros (Hk & (s & Hs & Hfwd & Hbwd) & Hnd & Hbuckets & Hne & Hblocks) Hclosed H.
  unfold link_symbol in H. mstep H as hc' Hhc.
  rewrite (scan_is_VisibleFunction _ _ Hk), (scan_is_ExternFunction _ _ Hk) in H.
  destruct (is_VisibleFunction h v) eqn:Hvis.
  - destruct (is_ExternFunction h v) eqn:Hext.
    + (* a stub *)
      unfold ret in H. simplify_eq. unfold scan_inv. cbn [externs all_blocks].
      assert (is_IRFunction h v = false) as Hir.
      { destruct (is_IRFunction h v) eqn:Hir; [|done].
        apply kinds_disjoint in Hir. congruence. }
      split; [done|]. split.
      { exists s. split; [done|]. split.
        - intros k' c [Hin|Hin%list_elem_of_singleton]%elem_of_app Hc; [auto|].
          simplify_eq. congruence.
        - intros k' v' Hget Hv'. destruct (Hbwd _ _ Hget Hv'). split; [|done].
          apply elem_of_app. by left. }
      split; [by apply dict_keys_set_NoDup|]. split.
      { intros n. rewrite stubs_in_app, stubs_in_one, Hext, andb_true_r.
        case_bool_decide as Hkn.
        - subst n. rewrite dict_get_set_eq. cbn. by rewrite Hbuckets.
        - rewrite dict_get_set_ne by done. by rewrite app_nil_r. }
      split.
      { intros n l. destruct (decide (k = n)) as [->|Hkn].
        - rewrite dict_get_set_eq. intros [= <-]. by destruct (default [] _).
        - rewrite dict_get_set_ne by done. apply Hne. }
      by rewrite collected_in_app, collected_in_one, Hir, app_nil_r.
    + (* a defined function *)
      assert (is_IRFunction h v = true) as Hir.
      { rewrite visible_cases, Hext in Hvis. done. }
      destruct (scan_out _ Hk) as (t & Ht & Hsc & Hpre).
      mbind H as u h2 Hstore. destruct u.
      eapply store_Ok in Hstore as (s' & Hs' & Hnone & Hh2); [|done].
      rewrite Hsc in Hs', Hh2. assert (s' = s) as -> by congruence.
      mstep H as f2 Hf2. mstep H as sf Hsf.
      mbind H as osc h3 Hosc. apply holder_scope_Ok in Hosc as [-> _].
      mbind H as u h3 Hw. destruct u. unfold write in Hw. simplify_eq.
      mbind H as bs h4 Hbs.
      apply blocks_Ok in Hbs as (-> & f3 & s3 & Hf3 & Hs3 & ->).
      unfold ret in H. simplify_eq. unfold scan_inv. cbn [externs all_blocks].
      (* the function and its scope are objects of the given store *)
      unfold is_IRFunction in Hir.
      destruct (h !! v) as [[| | |f| | | | | |]|] eqn:Hv; try done.
      pose proof (Hclosed _ eq_refl) as Hlt.
      destruct (kept_func _ _ _ _ _ Hk (fresh_unit_old _ _ _ Hv)) as (fc & Hfc & Hfsc & Hfe & Hfx).
      assert (v ≠ length h + 1) as Hvne.
      { apply lookup_lt_Some in Hv. lia. }
      rewrite list_lookup_insert_ne in Hf2 by done.
      assert (f2 = fc) as -> by congruence.
      assert (f_scope fc ≠ length h + 1) as Hscne by lia.
      rewrite list_lookup_insert_ne in Hsf by done.
      set (h2 := <[length h + 1 := OScope (bound s k v)]> hc) in *.
      set (h3 := <[f_scope fc := OScope (set_parent sf (Some osc))]> h2) in *.
      assert (kept (length h + 1) hc h2) as Hk2 by by apply kept_bound.
      assert (kept (length h + 1) h2 h3) as Hk3.
      { eapply kept_insert.
        - unfold h2. by rewrite list_lookup_insert_ne.
        - simpl. split; [intros; lia | done]. }
      assert (kept (length h + 1) (h ++ fresh_unit (length h)) h3) as Hk'.
      { eapply kept_trans; [done|]. by eapply kept_trans. }
      split; [done|]. split.
      { exists (bound s k v). split.
        { unfold h3, h2. rewrite list_lookup_insert_ne by done.
          apply list_lookup_insert_eq. by eapply lookup_lt_Some. }
        cbn [bound set_items items]. split.
        - intros k' c [Hin|Hin%list_elem_of_singleton]%elem_of_app Hc.
          + rewrite dict_get_app. by rewrite (Hfwd _ _ Hin Hc).
          + simplify_eq. rewrite dict_get_app, Hnone. cbn. by rewrite decide_True.
        - intros k' v' Hget Hv'. rewrite dict_get_app in Hget.
          destruct (dict_get (items s) k') as [v0|] eqn:Hold.
          + simplify_eq. destruct (Hbwd _ _ Hold Hv'). split; [|done].
            apply elem_of_app. by left.
          + cbn in Hget. case_decide; [|done]. simplify_eq. split.
            * apply elem_of_app. right. by apply list_elem_of_singleton.
            * unfold is_IRFunction. by rewrite Hv. }
      split; [done|]. split.
      { intros n. rewrite stubs_in_app, stubs_in_one, Hext, andb_false_r, app_nil_r.
        apply Hbuckets. }
      split; [done|].
      rewrite collected_in_app, collected_in_one. unfold is_IRFunction. rewrite Hv.
      rewrite Hblocks. f_equal.
      (* the blocks read during the scan are those of the given store *)
      assert (h3 !! v = Some (OFunc fc)) as Hv3.
      { unfold h3, h2. rewrite list_lookup_insert_ne.
        - by rewrite list_lookup_insert_ne.
        - intros Heq. rewrite Heq in Hsf. congruence. }
      assert (f3 = fc) as -> by congruence.
      assert (∃ s0, h !! f_scope f = Some (OScope s0) ∧ items s3 = items s0) as (s0 & Hs0 & Hitems).
      { destruct (lookup_lt_is_Some_2 h (f_scope f) Hlt) as [o Ho].
        destruct (kept_obj _ _ _ Hk' _ _ (fresh_unit_old _ _ _ Ho)) as (o' & Ho' & Hobj).
        rewrite <- Hfsc in Ho'. rewrite Hs3 in Ho'. simplify_eq.
        destruct o; try done. simpl in Hobj. destruct Hobj as [_ Hobj].
        eexists. split; [done|]. apply Hobj. lia. }
      unfold function_blocks. rewrite Hv, Hs0.
      apply blocks_of_ext; try done. intros l. by apply scan_is_BasicBlock.
  - (* anything else *)
    assert (is_ExternFunction h v = false ∧ is_IRFunction h v = false) as [Hext Hir].
    { rewrite visible_cases in Hvis. by apply orb_false_iff in Hvis. }
    destruct (scan_out _ Hk) as (t & Ht & Hsc & Hpre).
    mbind H as r h2 Hgen.
    eapply generate_name_Ok in Hgen as (s' & name & Hs' & Hnone & Hh2); [|done].
    rewrite Hsc in Hs', Hh2. assert (s' = s) as -> by congruence.
    unfold ret in H. simplify_eq.
    split; [eapply kept_trans; [done|]; by apply kept_bound|]. split.
    { exists (bound s name v). split.
      { apply list_lookup_insert_eq. by eapply lookup_lt_Some. }
      cbn [bound set_items items]. split.
      - intros k' c [Hin|Hin%list_elem_of_singleton]%elem_of_app Hc.
        + rewrite dict_get_app. by rewrite (Hfwd _ _ Hin Hc).
        + simplify_eq. congruence.
      - intros k' v' Hget Hv'. rewrite dict_get_app in Hget.
        destruct (dict_get (items s) k') as [v0|] eqn:Hold.
        + simplify_eq. destruct (Hbwd _ _ Hold Hv'). split; [|done].
          apply elem_of_app. by left.
        + cbn in Hget. case_decide; [|done]. simplify_eq. congruence. }
    split; [done|]. split.
    { intros n. rewrite stubs_in_app, stubs_in_one, Hext, andb_false_r, app_nil_r.
      apply Hbuckets. }
    split; [done|].
    by rewrite collected_in_app, collected_in_one, Hir, app_nil_r.
Qed.

End scan.

Lemma closed_unit_spec h top :
  closed_unit h top = true →
  ∃ t, h !! top = Some (OTop t) ∧ t_scope t < length h
       ∧ ∀ k v f, (k, v) ∈ unit_symbols h top → h !! v = Some (OFunc f) →
                  f_scope f < length h.
Proof.
  unfold closed_unit. destruct (h !! top) as [[| | | | |t| | | |]|] eqn:Ht; try done.
  intros [Hsc Hall]%andb_true_iff. apply bool_decide_eq_true_1 in Hsc.
  exists t. split; [done|]. split; [done|].
  intros k v f Hin Hv. rewrite forallb_forall in Hall.
  specialize (Hall (k, v)). cbn in Hall. rewrite Hv in Hall.
  eapply bool_decide_eq_true_1. apply Hall. by apply list_elem_of_In.
Qed.

Lemma symbols_of_keys_elem s k v :
  dict_get (items s) k = Some v → (k, v) ∈ scope_symbols s.
Proof.
  intros Hget. unfold scope_symbols, symbols_of_keys.
  apply list_elem_of_omap. exists k. split.
  - apply dict_get_keys. eauto.
  - by rewrite Hget.
Qed.

Lemma get_preamble_Ok l h p h' :
  get_preamble l h = Ok (p, h') ↔ h !! l = Some (OPreamble p) ∧ h' = h.
Proof.
  unfold get_preamble, bind, read, ret, raise.
  repeat case_match; naive_solver.
Qed.

Lemma get_extern_Ok l h e h' :
  get_extern l h = Ok (e, h') ↔ h !! l = Some (OExtern e) ∧ h' = h.
Proof.
  unfold get_extern, bind, read, ret, raise.
  repeat case_match; naive_solver.
Qed.

Section scan_units.
Variable h : Heap.

(** Writes that leave the scope of the merged unit as it is keep the state
    of the scan. *)
Lemma scan_inv_frame P st hc l o o' :
  scan_inv h P st hc → hc !! l = Some o → obj_kept False o o' → l ≠ length h + 1 →
  scan_inv h P st (<[l := o']> hc).
Proof.
  intros (Hk & (s & Hs & Hfwd & Hbwd) & Hrest) Hl Hobj Hne.
  split.
  { eapply kept_trans; [done|]. eapply kept_insert; [done|].
    destruct o, o'; simpl in *; try done. split; [intros; done | tauto]. }
  split; [|done].
  exists s. split; [|done]. by rewrite list_lookup_insert_ne.
Qed.

Lemma link_top_inv P st hc top st1 h1 :
  scan_inv h P st hc → closed_unit h top = true →
  link_top (length h) top st hc = Ok (st1, h1) →
  scan_inv h (P ++ unit_symbols h top) st1 h1.
Proof.
  intros Hinv (t & Ht & Hsc & Hclosed)%closed_unit_spec H.
  pose proof Hinv as (Hk & _).
  unfold link_top in H. mstep H as tc Htc. mstep H as u Hfin.
  mstep H as o Ho.
  mbind H as tp hp1 Htp. apply get_preamble_Ok in Htp as [Htp ->].
  mbind H as op hp2 Hop. apply get_preamble_Ok in Hop as [Hop ->].
  destruct (scan_out _ _ Hk) as (o' & Ho' & Hosc & Hopre).
  assert (o' = o) as -> by congruence.
  mbind H as u1 hw1 Hw1. unfold write in Hw1. simplify_eq.
  mstep H as o2 Ho2. mbind H as u2 hw2 Hw2. unfold write in Hw2. simplify_eq.
  rewrite Hopre in *.
  rewrite list_lookup_insert_ne in Ho2 by lia. assert (o2 = o) as -> by congruence.
  (* the state of the scan before the symbols of the unit *)
  assert (scan_inv h P st
            (<[length h := OTop (set_pragmas o (pragmas o ++ pragmas tc))]>
               (<[length h + 2 := OPreamble (set_p_insns op (p_insns op ++ p_insns tp))]> hc)))
    as Hinv2.
  { eapply scan_inv_frame; [|by rewrite list_lookup_insert_ne by lia| |lia].
    - eapply scan_inv_frame; [done|done| |lia]. done.
    - done. }
  clear Hinv.
  set (h3 := <[length h := _]> _) in *.
  (* the scope of the unit is an object of the given store *)
  destruct (kept_top _ _ _ _ _ Hk (fresh_unit_old _ _ _ Ht)) as (tc' & Htc' & Htsc & _).
  assert (tc' = tc) as -> by congruence.
  unfold fold_scope_items in H. mstep H as sc Hscope.
  assert (∃ s0, h !! t_scope t = Some (OScope s0)
                ∧ ∀ hx sx, kept (length h + 1) (h ++ fresh_unit (length h)) hx →
                           hx !! t_scope t = Some (OScope sx) → items sx = items s0)
    as (s0 & Hs0 & Hsame).
  { destruct (lookup_lt_is_Some_2 h (t_scope t) Hsc) as [ob Hob].
    destruct Hinv2 as (Hk3 & _).
    destruct (kept_obj _ _ _ Hk3 _ _ (fresh_unit_old _ _ _ Hob)) as (ob' & Hob' & Hobj).
    rewrite <- Htsc, Hscope in Hob'. simplify_eq.
    destruct ob as [s0| | | | | | | | |]; try done.
    exists s0. split; [done|]. intros hx sx Hkx Hx.
    destruct (kept_scope _ _ _ _ _ Hkx (fresh_unit_old _ _ _ Hob)) as (sx' & Hsx' & Hitems);
      [lia|]. congruence. }
  assert (unit_symbols h top = scope_symbols s0) as Hsyms.
  { unfold unit_symbols. by rewrite Ht, Hs0. }
  assert (items sc = items s0) as Hitems.
  { destruct Hinv2 as (Hk3 & _). eapply Hsame; [done|]. by rewrite <- Htsc. }
  rewrite Hsyms. unfold scope_symbols. rewrite Hitems in H.
  eapply (fold_items_rec_done (λ done st hx, scan_inv h (P ++ symbols_of_keys s0 done) st hx)
            _ _ _ _ []); [done| |].
  - cbn. by rewrite app_nil_r.
  - intros k v done st0 hx st2 hx2 sx Hinvx Hsx Hkeys Hget Hbody.
    pose proof Hinvx as (Hkx & _).
    assert (items sx = items s0) as Hitemsx.
    { eapply Hsame; [done|]. by rewrite <- Htsc. }
    rewrite Hitemsx in Hget.
    rewrite symbols_of_keys_app, app_assoc. cbn. rewrite Hget. cbn.
    eapply link_symbol_inv; [done| |done].
    intros f Hf. eapply Hclosed; [|done].
    rewrite Hsyms. by apply symbols_of_keys_elem.
Qed.

Lemma link_tops_inv tops P st hc st1 h1 :
  scan_inv h P st hc → closed_units h tops = true →
  link_tops (length h) tops st hc = Ok (st1, h1) →
  scan_inv h (P ++ all_symbols h tops) st1 h1.
Proof.
  revert P st hc. induction tops as [|top tops IH]; intros P st hc Hinv Hclosed H.
  - cbn in H. unfold ret in H. simplify_eq. unfold all_symbols. cbn. by rewrite app_nil_r.
  - cbn [link_tops] in H. mbind H as st2 h2 Htop.
    cbn in Hclosed. apply andb_true_iff in Hclosed as [Hc1 Hc2].
    unfold all_symbols. rewrite bind_cons, app_assoc.
    eapply IH; [|done|done]. by eapply link_top_inv.
Qed.

(** The scan starts from the fresh merged unit. *)
Lemma scan_inv_init : scan_inv h [] (mkLinkState [] []) (h ++ fresh_unit (length h)).
Proof.
  split; [apply kept_refl|]. split.
  { eexists. split; [by rewrite lookup_end|]. split.
    - intros k c Hin. by apply elem_of_nil in Hin.
    - cbn. intros k v Hget Hvis. exfalso.
      assert (h !! v = None) as Hnone.
      { apply lookup_ge_None. repeat case_decide; simplify_eq; lia. }
      unfold is_VisibleFunction in Hvis. by rewrite Hnone in Hvis. }
  split; [apply NoDup_nil_2|]. split; [done|]. split; [done|]. done.
Qed.

End scan_units.

(** *** Checking the signatures of the stubs

    [expect_signature] writes at most to a function, which notes a check
    to come. *)
Definition noted (h h' : Heap) : Prop :=
  length h' = length h
  ∧ ∀ l o, h !! l = Some o →
      match o with
      | OFunc f => ∃ f', h' !! l = Some (OFunc f') ∧ f_scope f' = f_scope f
                         ∧ _entryblock f' = _entryblock f ∧ _exitblock f' = _exitblock f
      | _ => h' !! l = Some o
      end.

Lemma noted_refl h : noted h h.
Proof. split; [done|]. intros l o Hl. destruct o; eauto. Qed.

Lemma noted_trans h1 h2 h3 : noted h1 h2 → noted h2 h3 → noted h1 h3.
Proof.
  intros [Hl1 H1] [Hl2 H2]. split; [congruence|].
  intros l o Hl. specialize (H1 _ _ Hl).
  destruct o; try (by apply (H2 _ _ H1)).
  destruct H1 as (f' & Hf' & ? & ? & ?). destruct (H2 _ _ Hf') as (f'' & ? & ? & ? & ?).
  exists f''. repeat split; congruence.
Qed.

Lemma noted_kept sc h h' : noted h h' → kept sc h h'.
Proof.
  intros [Hlen H]. split; [done|]. intros l o Hl. specialize (H _ _ Hl).
  destruct o; try (eexists; split; [done | apply obj_kept_refl]).
  destruct H as (f' & Hf' & ? & ? & ?). exists (OFunc f'). by split.
Qed.

Lemma noted_scope h h' l s : noted h h' → h !! l = Some (OScope s) → h' !! l = Some (OScope s).
Proof. intros [_ H] Hl. apply (H _ _ Hl). Qed.

Lemma noted_top h h' l t : noted h h' → h !! l = Some (OTop t) → h' !! l = Some (OTop t).
Proof. intros [_ H] Hl. apply (H _ _ Hl). Qed.

Lemma noted_extern h h' l e :
  noted h h' → h !! l = Some (OExtern e) → h' !! l = Some (OExtern e).
Proof. intros [_ H] Hl. apply (H _ _ Hl). Qed.

Lemma IRFunction_expect_signature_noted self other h h' :
  IRFunction_expect_signature self other h = Ok (tt, h') → noted h h'.
Proof.
  intros H. unfold IRFunction_expect_signature in H.
  mbind H as fin h1 Hfin. apply finished_Ok in Hfin as ->.
  mstep H as u Hu. mstep H as f Hf.
  destruct (negb (_finished f)).
  - unfold write in H. simplify_eq. split; [apply length_insert|].
    intros l o Hl. destruct (decide (self = l)) as [<-|Hne].
    + simplify_eq. eexists. split.
      * apply list_lookup_insert_eq. by eapply lookup_lt_Some.
      * done.
    + rewrite list_lookup_insert_ne by done. destruct o; eauto.
  - mbind H as ps h1 Hps. apply params_Ok in Hps as ->.
    mstep H as u1 Hu1. mbind H as rs h1 Hrs. apply returns_Ok in Hrs as ->.
    apply assert_Ok in H as [_ ->]. apply noted_refl.
Qed.

(** Two stubs pass the check only with equal signatures. *)
Lemma expect_signature_Ok self other h h' :
  expect_signature self other h = Ok (tt, h') →
  noted h h'
  ∧ ∀ e1 e2, h !! self = Some (OExtern e1) → h !! other = Some (OExtern e2) →
             e_params e1 = e_params e2 ∧ e_returns e1 = e_returns e2.
Proof.
  intros H. unfold expect_signature in H. mstep H as o Ho.
  destruct o as [| | |f|e| | | | |]; try done.
  - split; [by eapply IRFunction_expect_signature_noted|]. intros; congruence.
  - unfold ExternFunction_expect_signature in H.
    mbind H as e' hx He'. apply get_extern_Ok in He' as [He' ->].
    assert (e' = e) as -> by congruence.
    mbind H as fin h1 Hfin. pose proof Hfin as Hfin'. apply finished_Ok in Hfin' as ->.
    destruct fin; cbn [negb] in H.
    + mbind H as ps h1 Hps. pose proof Hps as Hps'. apply params_Ok in Hps' as ->.
      mstep H as u1 Hu1. mbind H as rs h1 Hrs. pose proof Hrs as Hrs'.
      apply returns_Ok in Hrs' as ->.
      apply assert_Ok in H as [Hu2 ->]. split; [apply noted_refl|].
      intros e1 e2 He1 He2. simplify_eq.
      apply bool_decide_eq_true_1 in Hu1, Hu2.
      unfold params in Hps. rewrite (bind_eq _ _ _ _ _ (read_eq _ _ _ He2)) in Hps.
      unfold returns in Hrs. rewrite (bind_eq _ _ _ _ _ (read_eq _ _ _ He2)) in Hrs.
      unfold ret in Hps, Hrs. simplify_eq. done.
    + split; [by eapply IRFunction_expect_signature_noted|].
      intros e1 e2 He1 He2. rewrite (finished_extern _ _ _ He2) in Hfin. done.
Qed.

(** *** Looking a name up in the merged unit *)

Lemma lookup_func_Ok out name h r h' t s :
  lookup_func out name h = Ok (r, h') →
  h !! out = Some (OTop t) → h !! t_scope t = Some (OScope s) → parent s = None →
  h' = h ∧ r = dict_get (items s) name
  ∧ ∀ c, r = Some c → is_VisibleFunction h c = true.
Proof.
  intros H Ht Hs Hparent. unfold lookup_func in H.
  mbind H as func h1 Hlookup.
  assert (h1 = h ∧ func = dict_get (items s) name) as [-> ->].
  { unfold lookup in Hlookup. mbind Hlookup as scope h2 Hscope.
    apply holder_scope_Ok in Hscope as [-> [(t' & Ht' & ->)|(f & Hf & _)]]; [|congruence].
    assert (t' = t) as -> by congruence.
    mbind Hlookup as c h2 Hc. apply Scope_contains_Ok in Hc as [Hc ->].
    unfold recursion_limit in Hc. cbn in Hc. rewrite Hs, Hparent in Hc.
    unfold dict_has in Hc.
    destruct (dict_get (items s) name) as [v|] eqn:Hget; simplify_eq.
    - mbind Hlookup as v' h2 Hv. unfold Scope_getitem in Hv.
      apply pure_read_Ok in Hv as [-> Hv]. unfold recursion_limit in Hv. cbn in Hv.
      rewrite Hs, Hget in Hv. unfold ret in Hlookup. by simplify_eq.
    - unfold ret in Hlookup. by simplify_eq. }
  destruct (dict_get (items s) name) as [c|].
  - mstep H as hx Hhx. mstep H as u Hu. unfold ret in H. simplify_eq.
    split; [done|]. split; [done|]. intros c' [= <-]. done.
  - unfold ret in H. simplify_eq. done.
Qed.

(** *** The stubs of one name *)

Lemma resolve_stubs_Ok r l m h m' h' :
  resolve_stubs r l m h = Ok (m', h') →
  noted h h'
  ∧ (∀ e, e ∈ l → e ≠ r → dict_get m' e = Some (VRef r))
  ∧ (∀ e, e ∉ l ∨ e = r → dict_get m' e = dict_get m e)
  ∧ (∀ e e1 e2, e ∈ l → h !! e = Some (OExtern e1) → h !! r = Some (OExtern e2) →
                e_params e1 = e_params e2 ∧ e_returns e1 = e_returns e2).
Proof.
  revert m h. induction l as [|x l IH]; intros m h H.
  - cbn in H. unfold ret in H. simplify_eq. split; [apply noted_refl|].
    split; [by intros e ?%elem_of_nil|]. split; [done|]. by intros e e1 e2 ?%elem_of_nil.
  - cbn [resolve_stubs] in H. mbind H as u h1 Hsig. destruct u.
    apply expect_signature_Ok in Hsig as [Hn1 Hsig].
    apply IH in H as (Hn2 & Hin & Hout & Hsigs).
    split; [by eapply noted_trans|]. split; [|split].
    + intros e He Hne. destruct (decide (e ∈ l)) as [Hel|Hel]; [by apply Hin|].
      apply elem_of_cons in He as [->|He]; [|done].
      rewrite Hout by by left. rewrite bool_decide_true by done.
      apply dict_get_set_eq.
    + intros e He. rewrite Hout.
      2:{ destruct He as [He|He]; [|by right]. left. intros ?. apply He. by right. }
      case_bool_decide as Hrx; [|done].
      apply dict_get_set_ne. destruct He as [He| ->]; [|done].
      intros <-. apply He. by left.
    + intros e e1 e2 He He1 He2. apply elem_of_cons in He as [->|He]; [by eapply Hsig|].
      eapply Hsigs; [done| |]; by eapply noted_extern.
Qed.

Lemma stubs_in_elem h P k e :
  e ∈ stubs_in h P k ↔ (k, e) ∈ P ∧ is_ExternFunction h e = true.
Proof.
  unfold stubs_in. rewrite list_elem_of_fmap. split.
  - intros ([k' e'] & -> & Hin). apply list_elem_of_In, filter_In in Hin as [Hin Hc].
    cbn in *. apply andb_true_iff in Hc as [Hk He]. apply bool_decide_eq_true_1 in Hk.
    subst. split; [by apply list_elem_of_In | done].
  - intros [Hin He]. exists (k, e). split; [done|].
    apply list_elem_of_In, filter_In. split; [by apply list_elem_of_In|].
    cbn. by rewrite bool_decide_true, He.
Qed.

Lemma genuine_in_elem h P k c :
  c ∈ genuine_in h P k ↔ (k, c) ∈ P ∧ is_IRFunction h c = true.
Proof.
  unfold genuine_in. rewrite list_elem_of_fmap. split.
  - intros ([k' e'] & -> & Hin). apply list_elem_of_In, filter_In in Hin as [Hin Hc].
    cbn in *. apply andb_true_iff in Hc as [Hk He]. apply bool_decide_eq_true_1 in Hk.
    subst. split; [by apply list_elem_of_In | done].
  - intros [Hin He]. exists (k, c). split; [done|].
    apply list_elem_of_In, filter_In. split; [by apply list_elem_of_In|].
    cbn. by rewrite bool_decide_true, He.
Qed.

(** Two stubs agree on parameters and returns. *)
Definition same_signature (h : Heap) (e1 e2 : loc) : bool :=
  match h !! e1, h !! e2 with
  | Some (OExtern a), Some (OExtern b) =>
      bool_decide (e_params a = e_params b) && bool_decide (e_returns a = e_returns b)
  | _, _ => false
  end.

(** What the references to the stubs of a name are replaced by: the
    function defined under the name when there is one, the first stub
    otherwise. *)
Definition replacement (h : Heap) (P : list (string * loc)) (name : string) : loc :=
  default (default 0 (head (stubs_in h P name))) (head (genuine_in h P name)).

Section resolve.
Variables (h : Heap) (P : list (string * loc)).
Hypothesis Hunshared : ∀ n1 n2 e, e ∈ stubs_in h P n1 → e ∈ stubs_in h P n2 → n1 = n2.

(** The state after the names [done] were resolved. *)
Definition resolve_inv (done : list string) (m : list (loc * Val)) (hc : Heap) : Prop :=
  kept (length h + 1) (h ++ fresh_unit (length h)) hc
  ∧ (∃ s, hc !! (length h + 1) = Some (OScope s)
          ∧ (∀ k c, (k, c) ∈ P → is_IRFunction h c = true → dict_get (items s) k = Some c)
          ∧ (∀ k v, dict_get (items s) k = Some v → is_VisibleFunction h v = true →
                    ((k, v) ∈ P ∧ is_IRFunction h v = true) ∨ k ∈ done)
          ∧ (∀ k, k ∈ done → dict_get (items s) k = Some (replacement h P k)))
  ∧ (∀ e v, dict_get m e = Some v →
        ∃ k, k ∈ done ∧ e ∈ stubs_in h P k ∧ v = VRef (replacement h P k)
             ∧ e ≠ replacement h P k)
  ∧ (∀ k e, k ∈ done → e ∈ stubs_in h P k → e ≠ replacement h P k →
            dict_get m e = Some (VRef (replacement h P k)))
  ∧ (∀ k e, k ∈ done → genuine_in h P k = [] → e ∈ stubs_in h P k →
            same_signature h e (replacement h P k) = true).

Lemma scan_resolve_inv st hc : scan_inv h P st hc → resolve_inv [] [] hc.
Proof.
  intros (Hk & (s & Hs & Hfwd & Hbwd) & _).
  split; [done|]. split.
  { exists s. split; [done|]. split; [done|]. split.
    - intros k v Hget Hv. left. by apply Hbwd.
    - by intros k ?%elem_of_nil. }
  split; [done|]. split; [by intros k e ?%elem_of_nil|]. by intros k e ?%elem_of_nil.
Qed.

Lemma resolve_name_inv done m hc k l m' h' :
  resolve_inv done m hc → k ∉ done → l = stubs_in h P k → l ≠ [] →
  resolve_name (length h) k l m hc = Ok (m', h') →
  resolve_inv (done ++ [k]) m' h'.
Proof.
  intros (Hk & (s & Hs & Hfwd & Hbwd & Hreps) & Hm1 & Hm2 & Hsigs) Hknew Hl Hlne H.
  unfold resolve_name in H. destruct l as [|first rest] eqn:Hlist; [done|]. clear Hlne.
  destruct (scan_out _ _ Hk) as (t & Ht & Hsc & Hpre).
  assert (parent s = None) as Hparent.
  { destruct (kept_out_scope _ _ _ _ Hk (lookup_end h (fresh_unit (length h)) 1 : _ = Some (OScope _)))
      as (s' & Hs' & Hp & _). assert (s' = s) as -> by congruence. done. }
  mbind H as concrete hx Hlookup. rewrite <- Hsc in Hs.
  eapply lookup_func_Ok in Hlookup as (Hhx & Hconc & Hvis); [|done|done|done].
  subst hx concrete.
  rewrite Hsc in Hs.
  (* what the references are replaced by *)
  assert (default first (dict_get (items s) k) = replacement h P k
          ∧ (dict_get (items s) k = None → genuine_in h P k = [])
          ∧ (is_Some (dict_get (items s) k) → genuine_in h P k ≠ [])) as (Hrepl & Hnone & Hsome).
  { unfold replacement. rewrite <- Hl. cbn [head default].
    destruct (dict_get (items s) k) as [c|] eqn:Hget.
    - pose proof (Hvis _ eq_refl) as Hc. rewrite (scan_is_VisibleFunction _ _ _ Hk) in Hc.
      destruct (Hbwd _ _ Hget Hc) as [[Hin Hir]|Hin]; [|done].
      assert (c ∈ genuine_in h P k) as Hgen by by apply genuine_in_elem.
      destruct (genuine_in h P k) as [|c' cs] eqn:Hg; [by apply elem_of_nil in Hgen|].
      assert (c' ∈ genuine_in h P k) as Hc' by (rewrite Hg; by left).
      apply genuine_in_elem in Hc' as [Hin' Hir'].
      rewrite (Hfwd _ _ Hin' Hir') in Hget. simplify_eq. done.
    - destruct (genuine_in h P k) as [|c' cs] eqn:Hg.
      + split; [done|]. split; [done|]. by intros [? ?].
      + assert (c' ∈ genuine_in h P k) as Hc' by (rewrite Hg; by left).
        apply genuine_in_elem in Hc' as [Hin' Hir'].
        rewrite (Hfwd _ _ Hin' Hir') in Hget. done. }
  cbv zeta in H. rewrite Hrepl in H.
  mbind H as m1 h2 Hstubs.
  apply resolve_stubs_Ok in Hstubs as (Hnoted & Hin & Hout & Hsig).
  assert (kept (length h + 1) (h ++ fresh_unit (length h)) h2) as Hk2.
  { eapply kept_trans; [done|]. by apply noted_kept. }
  pose proof (noted_scope _ _ _ _ Hnoted Hs) as Hs2.
  pose proof (noted_top _ _ _ _ Hnoted Ht) as Ht2.
  (* the mapping and the signatures, whatever is stored afterwards *)
  assert ((∀ e v, dict_get m1 e = Some v →
             ∃ k0, k0 ∈ done ++ [k] ∧ e ∈ stubs_in h P k0 ∧ v = VRef (replacement h P k0)
                   ∧ e ≠ replacement h P k0)
          ∧ (∀ k0 e, k0 ∈ done ++ [k] → e ∈ stubs_in h P k0 → e ≠ replacement h P k0 →
                     dict_get m1 e = Some (VRef (replacement h P k0)))
          ∧ (∀ k0 e, k0 ∈ done ++ [k] → genuine_in h P k0 = [] → e ∈ stubs_in h P k0 →
                     same_signature h e (replacement h P k0) = true)) as Hmapping.
  { split; [|split].
    - intros e v Hget.
      destruct (decide (e ∈ first :: rest ∧ e ≠ replacement h P k)) as [[He Hne]|Hno].
      + rewrite (Hin _ He Hne) in Hget. simplify_eq.
        exists k. split; [apply elem_of_app; right; by left|]. by rewrite <- Hl.
      + rewrite Hout in Hget.
        * destruct (Hm1 _ _ Hget) as (k0 & Hk0 & ?). exists k0.
          split; [apply elem_of_app; by left | done].
        * destruct (decide (e ∈ first :: rest)); [|by left].
          right. destruct (decide (e = replacement h P k)); [done|]. exfalso. by apply Hno.
    - intros k0 e [Hk0|Hk0%list_elem_of_singleton]%elem_of_app He Hne.
      + rewrite Hout; [by apply Hm2|]. left. rewrite Hl. intros He'.
        apply Hknew. by rewrite <- (Hunshared _ _ _ He He').
      + subst k0. apply Hin; [by rewrite <- Hl in He | done].
    - intros k0 e [Hk0|Hk0%list_elem_of_singleton]%elem_of_app Hgen He; [by apply Hsigs|].
      subst k0. pose proof He as He'. apply stubs_in_elem in He' as [_ Hext].
      assert (replacement h P k = first) as Hfirst.
      { unfold replacement. by rewrite Hgen, <- Hl. }
      assert (first ∈ stubs_in h P k) as Hf by (rewrite <- Hl; by left).
      apply stubs_in_elem in Hf as [_ Hfext].
      unfold is_ExternFunction in Hext, Hfext.
      destruct (h !! e) as [[| | | |e1| | | | |]|] eqn:He1; try done.
      destruct (h !! first) as [[| | | |e2| | | | |]|] eqn:He2; try done.
      unfold same_signature. rewrite Hfirst, He1, He2.
      destruct (Hsig e e1 e2) as [Hp Hr].
      + by rewrite <- Hl in He.
      + eapply kept_extern; [exact Hk|]. by apply fresh_unit_old.
      + rewrite Hfirst. eapply kept_extern; [exact Hk|]. by apply fresh_unit_old.
      + by rewrite !bool_decide_true. }
  destruct Hmapping as (Hm1' & Hm2' & Hsigs').
  destruct (dict_get (items s) k) as [c|] eqn:Hget.
  - (* a function is defined under the name *)
    unfold ret in H. simplify_eq.
    split; [done|]. split; [|done].
    exists s. split; [done|]. split; [done|]. split.
    + intros k0 v Hg Hv. destruct (Hbwd _ _ Hg Hv) as [?|?]; [by left|].
      right. apply elem_of_app. by left.
    + intros k0 [Hk0|Hk0%list_elem_of_singleton]%elem_of_app; [by apply Hreps|].
      subst k0. by rewrite <- Hrepl.
  - (* the first stub is put back *)
    mbind H as u h3 Hstore. destruct u. unfold ret in H. simplify_eq.
    eapply store_Ok in Hstore as (s' & Hs' & Hnone' & ->); [|done].
    rewrite Hsc in *. assert (s' = s) as -> by congruence.
    split; [eapply kept_trans; [done|]; by apply kept_bound|]. split; [|done].
    exists (bound s k first). split.
    { apply list_lookup_insert_eq. by eapply lookup_lt_Some. }
    cbn [bound set_items items]. split; [|split].
    + intros k0 c Hin0 Hc. by rewrite dict_get_app, (Hfwd _ _ Hin0 Hc).
    + intros k0 v Hg Hv. rewrite dict_get_app in Hg.
      destruct (dict_get (items s) k0) as [v0|] eqn:Hold.
      * simplify_eq. destruct (Hbwd _ _ Hold Hv) as [?|?]; [by left|].
        right. apply elem_of_app. by left.
      * cbn in Hg. case_decide; [|done]. simplify_eq.
        right. apply elem_of_app. right. by left.
    + intros k0 [Hk0|Hk0%list_elem_of_singleton]%elem_of_app.
      * by rewrite dict_get_app, (Hreps _ Hk0).
      * subst k0. rewrite dict_get_app, Hget. cbn. rewrite decide_True by done.
        by rewrite <- Hrepl.
Qed.

Lemma resolve_externs_inv ex done m hc m' h' :
  resolve_inv done m hc → NoDup (done ++ ex.*1) →
  (∀ k l, (k, l) ∈ ex → l = stubs_in h P k ∧ l ≠ []) →
  resolve_externs (length h) ex m hc = Ok (m', h') →
  resolve_inv (done ++ ex.*1) m' h'.
Proof.
  revert done m hc. induction ex as [|[k l] ex IH]; intros done m hc Hinv Hnd Hex H.
  - cbn in H. unfold ret in H. simplify_eq. cbn. by rewrite app_nil_r.
  - cbn [resolve_externs] in H. mbind H as m1 h1 Hname.
    rewrite fmap_cons. cbn [fst].
    replace (done ++ k :: ex.*1) with ((done ++ [k]) ++ ex.*1) by by rewrite <- app_assoc.
    rewrite fmap_cons in Hnd. cbn [fst] in Hnd.
    destruct (Hex k l) as [Hl Hlne]; [by left|].
    eapply IH; [| |by intros; apply Hex; right|done].
    + eapply resolve_name_inv; [done| |done|done|done].
      apply NoDup_app in Hnd as (_ & Hnd & _). intros Hin. apply (Hnd _ Hin). by left.
    + by rewrite <- app_assoc.
Qed.

End resolve.

(** *** Rewriting the collected blocks *)

Definition rewrite_obj (is_kind : loc → bool) (m : list (loc * Val)) (o : Obj) : Obj :=
  match o with
  | OBlock b => OBlock (set_insns b (map_insn is_kind m <$> insns b))
  | OPreamble p => OPreamble (set_p_insns p (map_insn is_kind m <$> p_insns p))
  | _ => o
  end.

Lemma map_insn_ext f g m i : (∀ l, f l = g l) → map_insn f m i = map_insn g m i.
Proof.
  intros Hfg. unfold map_insn. f_equal. apply list_fmap_ext. intros _ a _.
  unfold map_arg. destruct a; try done. by rewrite Hfg.
Qed.

Lemma rewrite_obj_ext f g m o : (∀ l, f l = g l) → rewrite_obj f m o = rewrite_obj g m o.
Proof.
  intros Hfg. destruct o; cbn; try done; do 2 f_equal;
    apply list_fmap_ext; intros _ i _; by apply map_insn_ext.
Qed.

Lemma apply_mapping_Ok block m hc h' :
  apply_mapping block is_ExternFunction m hc = Ok (tt, h') →
  ∃ o, hc !! block = Some o ∧ h' = <[block := rewrite_obj (is_ExternFunction hc) m o]> hc.
Proof.
  intros H. unfold apply_mapping in H. mstep H as hx Hhx. mstep H as o Ho.
  exists o. split; [done|].
  destruct o; try done; unfold write in H; by simplify_eq.
Qed.

Lemma rewrite_obj_is_ExternFunction f m hc block o l :
  hc !! block = Some o →
  is_ExternFunction (<[block := rewrite_obj f m o]> hc) l = is_ExternFunction hc l.
Proof.
  intros Ho. unfold is_ExternFunction. destruct (decide (block = l)) as [<-|Hne].
  - rewrite list_lookup_insert_eq by by eapply lookup_lt_Some. rewrite Ho. by destruct o.
  - by rewrite list_lookup_insert_ne.
Qed.

Lemma apply_mapping_all is_kind m bl hc h' :
  for_each bl (λ block, apply_mapping block is_ExternFunction m) hc = Ok (tt, h') →
  (∀ l, is_ExternFunction hc l = is_kind l) →
  (∀ o, rewrite_obj is_kind m (rewrite_obj is_kind m o) = rewrite_obj is_kind m o) →
  length h' = length hc
  ∧ ∀ l o, hc !! l = Some o →
      h' !! l = Some (if bool_decide (l ∈ bl) then rewrite_obj is_kind m o else o).
Proof.
  intros H Hkind Hidem. revert hc H Hkind.
  induction bl as [|x bl IH]; intros hc H Hkind.
  - cbn in H. unfold ret in H. simplify_eq. split; [done|]. intros l o Hl.
    rewrite bool_decide_false; [done|]. by intros ?%elem_of_nil.
  - cbn [for_each] in H. mbind H as u h1 Hx. destruct u.
    apply apply_mapping_Ok in Hx as (ox & Hox & ->).
    rewrite (rewrite_obj_ext _ is_kind) in H by done.
    apply IH in H as [Hlen Hall].
    2:{ intros l. by rewrite rewrite_obj_is_ExternFunction. }
    split; [by rewrite Hlen, length_insert|].
    intros l o Hl. destruct (decide (x = l)) as [<-|Hne].
    + assert (o = ox) as -> by congruence.
      rewrite (Hall x (rewrite_obj is_kind m ox)).
      2:{ apply list_lookup_insert_eq. by eapply lookup_lt_Some. }
      rewrite (bool_decide_true (x ∈ x :: bl)) by by left.
      case_bool_decide; by rewrite ?Hidem.
    + rewrite (Hall l o) by by rewrite list_lookup_insert_ne.
      f_equal. rewrite (bool_decide_ext (l ∈ x :: bl) (l ∈ bl)); [done|].
      rewrite elem_of_cons. naive_solver.
Qed.

(** A replaced reference is not replaced again. *)
Lemma replacement_settled h P done m hc :
  (∀ n1 n2 e, e ∈ stubs_in h P n1 → e ∈ stubs_in h P n2 → n1 = n2) →
  resolve_inv h P done m hc →
  ∀ l v, dict_get m l = Some v →
         map_arg (is_ExternFunction h) m v = v.
Proof.
  intros Hunshared (_ & _ & Hm1 & _) l v Hget.
  destruct (Hm1 _ _ Hget) as (k & Hk & Hl & -> & Hne).
  cbn. destruct (is_ExternFunction h (replacement h P k)) eqn:Hext; [|done].
  destruct (dict_get m (replacement h P k)) as [v'|] eqn:Hget'; [|done]. exfalso.
  destruct (Hm1 _ _ Hget') as (k2 & Hk2 & Hl2 & _ & Hne2).
  unfold replacement in Hext, Hl2, Hne2 |- *.
  destruct (genuine_in h P k) as [|c cs] eqn:Hgen; cbn in *.
  - destruct (stubs_in h P k) as [|first rest] eqn:Hstubs; [by apply elem_of_nil in Hl|].
    cbn in *. assert (first ∈ stubs_in h P k) as Hf by (rewrite Hstubs; by left).
    assert (k = k2) as <- by by eapply Hunshared.
    unfold replacement in Hne2. rewrite Hgen, Hstubs in Hne2. done.
  - assert (c ∈ genuine_in h P k) as Hc by (rewrite Hgen; by left).
    apply genuine_in_elem in Hc as [_ Hir]. apply kinds_disjoint in Hir. congruence.
Qed.

Lemma mapping_idempotent h P done m hc :
  (∀ n1 n2 e, e ∈ stubs_in h P n1 → e ∈ stubs_in h P n2 → n1 = n2) →
  resolve_inv h P done m hc →
  ∀ o, rewrite_obj (is_ExternFunction h) m (rewrite_obj (is_ExternFunction h) m o)
       = rewrite_obj (is_ExternFunction h) m o.
Proof.
  intros Hunshared Hinv.
  assert (∀ i, map_insn (is_ExternFunction h) m (map_insn (is_ExternFunction h) m i)
               = map_insn (is_ExternFunction h) m i) as Hinsn.
  { intros i. unfold map_insn. cbn. f_equal. rewrite <- list_fmap_compose.
    apply list_fmap_ext. intros _ a _. cbn.
    destruct a as [| | | | |l]; try done. cbn.
    destruct (is_ExternFunction h l) eqn:Hext; [|cbn; by rewrite Hext].
    destruct (dict_get m l) as [v|] eqn:Hget; cbn.
    - by eapply replacement_settled.
    - by rewrite Hext, Hget. }
  intros o. destruct o; cbn; try done; do 2 f_equal;
    rewrite <- list_fmap_compose; apply list_fmap_ext; intros _ i _; apply Hinsn.
Qed.

(** *** Ending the merged unit *)

Lemma TopLevel_end_Ok self h h' :
  TopLevel_end self h = Ok (tt, h') →
  ∃ t, h !! self = Some (OTop t) ∧ h' = <[self := OTop (set_t_finished t true)]> h.
Proof.
  intros H. unfold TopLevel_end in H. mstep H as t Ht. mstep H as u Hu.
  mbind H as u1 h1 Hloop.
  assert (h1 = h) as ->.
  { unfold for_scope_items, fold_scope_items in Hloop. mstep Hloop as s Hs.
    eapply (fold_items_rec_inv (λ _ hx, hx = h)); [done|done|].
    intros k v [] hx [] hx1 s1 -> _ _ _ _ Hbody.
    mstep Hbody as hy Hhy. destruct (is_VisibleFunction h v); [|unfold ret in Hbody; by simplify_eq].
    mbind Hbody as fin hz Hfin. apply finished_Ok in Hfin as ->.
    by apply assert_Ok in Hbody as [_ ->]. }
  mstep H as t' Ht'. assert (t' = t) as -> by congruence.
  unfold write in H. simplify_eq. eauto.
Qed.

Lemma stubs_unshared_spec h tops n1 n2 e :
  stubs_unshared h tops = true →
  e ∈ stubs_in h (all_symbols h tops) n1 → e ∈ stubs_in h (all_symbols h tops) n2 →
  n1 = n2.
Proof.
  intros Hall [Hin1 He]%stubs_in_elem [Hin2 _]%stubs_in_elem.
  unfold stubs_unshared in Hall. rewrite forallb_forall in Hall.
  assert (In (n1, e) (List.filter (λ kv, is_ExternFunction h kv.2) (all_symbols h tops))) as H1.
  { apply filter_In. split; [by apply list_elem_of_In | done]. }
  assert (In (n2, e) (List.filter (λ kv, is_ExternFunction h kv.2) (all_symbols h tops))) as H2.
  { apply filter_In. split; [by apply list_elem_of_In | done]. }
  specialize (Hall _ H1). rewrite forallb_forall in Hall. specialize (Hall _ H2).
  cbn in Hall. rewrite bool_decide_true in Hall by done.
  by apply bool_decide_eq_true_1 in Hall.
Qed.

Lemma map_arg_nil f a : map_arg f [] a = a.
Proof. unfold map_arg. destruct a; try done. by destruct (f l). Qed.

Lemma map_insn_nil f i : map_insn f [] i = i.
Proof.
  destruct i as [k a v]. unfold map_insn. cbn. f_equal.
  induction a as [|x a IH]; [done|]. cbn. by rewrite map_arg_nil, IH.
Qed.

Lemma fmap_map_insn_nil f (l : list Insn) : map_insn f [] <$> l = l.
Proof. induction l as [|i l IH]; [done|]. cbn. by rewrite map_insn_nil, IH. Qed.

Lemma rewrite_obj_nil f o : rewrite_obj f [] o = o.
Proof.
  destruct o as [|p|b| | | | | | |]; cbn; try done; rewrite fmap_map_insn_nil.
  - by destruct p.
  - by destruct b.
Qed.

Lemma collected_is_block h P block :
  block ∈ collected_in h P → ∃ b, h !! block = Some (OBlock b).
Proof.
  unfold collected_in. intros (v & Hin & _)%list_elem_of_bind.
  unfold function_blocks in Hin.
  destruct (h !! v) as [[| | |f| | | | | |]|]; try by apply elem_of_nil in Hin.
  destruct (h !! f_scope f) as [[s| | | | | | | | |]|]; try by apply elem_of_nil in Hin.
  unfold blocks_of, allblocks_of in Hin.
  apply list_elem_of_In, filter_In in Hin as [Hin _].
  apply filter_In in Hin as [_ Hb]. unfold is_BasicBlock in Hb.
  destruct (h !! block) as [[]|]; try done. eauto.
Qed.

(** No reference to a stub whose name is defined is left by the mapping. *)
Lemma no_stub_after h P done m hc name c cs e a :
  (∀ n1 n2 e, e ∈ stubs_in h P n1 → e ∈ stubs_in h P n2 → n1 = n2) →
  resolve_inv h P done m hc → name ∈ done →
  genuine_in h P name = c :: cs → e ∈ stubs_in h P name →
  map_arg (is_ExternFunction h) m a ≠ VRef e.
Proof.
  intros Hunshared (_ & _ & Hm1 & Hm2 & _) Hname Hgen He Heq.
  pose proof He as He'. apply stubs_in_elem in He' as [_ Hext].
  assert (c ∈ genuine_in h P name) as Hc by (rewrite Hgen; by left).
  apply genuine_in_elem in Hc as [_ Hcir].
  assert (e ≠ replacement h P name) as Hne.
  { unfold replacement. rewrite Hgen. cbn. intros ->.
    apply kinds_disjoint in Hcir. congruence. }
  pose proof (Hm2 _ _ Hname He Hne) as Hget.
  destruct a as [| | | | |l]; try done. cbn in Heq.
  destruct (is_ExternFunction h l) eqn:Hl; [|simplify_eq; congruence].
  destruct (dict_get m l) as [v|] eqn:Hgetl; cbn in Heq; [|simplify_eq; congruence].
  subst v. destruct (Hm1 _ _ Hgetl) as (k' & Hk' & Hl' & [= Hrepl] & Hne').
  unfold replacement in Hrepl.
  destruct (genuine_in h P k') as [|c' cs'] eqn:Hgen'; cbn in Hrepl.
  - destruct (stubs_in h P k') as [|first rest] eqn:Hstubs; [by apply elem_of_nil in Hl'|].
    cbn in Hrepl. subst first.
    assert (e ∈ stubs_in h P k') as He2 by (rewrite Hstubs; by left).
    assert (name = k') as <- by by eapply Hunshared. congruence.
  - subst c'. assert (e ∈ genuine_in h P k') as He2 by (rewrite Hgen'; by left).
    apply genuine_in_elem in He2 as [_ Hir]. apply kinds_disjoint in Hir. congruence.
Qed.

(** ** The linker resolves the stubs *)

(** What a successful run of the linker on two or more units leaves. *)
Definition resolved (h : Heap) (tops : list loc) (out : loc) (h' : Heap) : Prop :=
  ∃ mapping,
    (∀ block b, block ∈ collected_blocks h tops → h !! block = Some (OBlock b) →
       h' !! block
       = Some (OBlock (set_insns b (map_insn (is_ExternFunction h) mapping <$> insns b))))
    ∧ ∀ name first rest, stubs_named h tops name = first :: rest →
        match genuine_named h tops name with
        | c :: _ =>
            dict_get (top_items h' out) name = Some c
            ∧ Forall (λ e, dict_get mapping e = Some (VRef c)) (first :: rest)
            ∧ ∀ block b' insn e,
                block ∈ collected_blocks h tops → h' !! block = Some (OBlock b') →
                insn ∈ insns b' → e ∈ first :: rest → VRef e ∉ args insn
        | [] =>
            dict_get (top_items h' out) name = Some first
            ∧ Forall (λ e, same_signature h e first = true) rest
        end.

Lemma linker_Ok_resolved tops h out h' :
  linker tops h = Ok (out, h') → 2 ≤ length tops →
  closed_units h tops = true → stubs_unshared h tops = true →
  resolved h tops out h'.
Proof.
  intros H Hlen Hclosed Hunshared.
  pose proof (λ n1 n2 e, stubs_unshared_spec h tops n1 n2 e Hunshared) as Hun.
  unfold linker in H.
  destruct tops as [|t1 [|t2 tops']]; [cbn in Hlen; lia | cbn in Hlen; lia |].
  set (tops := t1 :: t2 :: tops') in *. clearbody tops. clear Hlen.
  set (P := all_symbols h tops) in *.
  mbind H as out0 h0 Hinit. apply TopLevel_init_Ok in Hinit as [-> ->].
  mbind H as st h1 Hscan.
  eapply (link_tops_inv h tops []) in Hscan; [|apply scan_inv_init|done].
  cbn [app] in Hscan. fold P in Hscan.
  pose proof Hscan as (Hk1 & _ & Hnd & Hbuckets & Hne & Hblocks).
  mbind H as m hC Hres.
  eapply (resolve_externs_inv h P Hun (externs st) []) in Hres;
    [|by eapply scan_resolve_inv|done|].
  2:{ intros k l Hin. apply (elem_of_dict_get _ _ _ Hnd) in Hin.
      split; [|by eapply Hne]. by rewrite <- Hbuckets, Hin. }
  cbn [app] in Hres.
  pose proof Hres as (HkC & (s & Hs & Hfwd & _ & Hreps) & Hm1 & Hm2 & Hsigs).
  (* the collected blocks are rewritten *)
  mbind H as u hD Hmap. destruct u.
  assert (length hD = length hC
          ∧ ∀ l o, hC !! l = Some o →
              hD !! l = Some (if bool_decide (l ∈ all_blocks st)
                              then rewrite_obj (is_ExternFunction h) m o else o))
    as [HlenD HD].
  { case_bool_decide as Hm.
    - unfold ret in Hmap. simplify_eq. split; [done|]. intros l o Hl.
      rewrite Hl. by rewrite rewrite_obj_nil, Tauto.if_same.
    - eapply apply_mapping_all; [done| |by eapply mapping_idempotent].
      intros l. by apply scan_is_ExternFunction. }
  mbind H as u hE Hend. destruct u.
  apply TopLevel_end_Ok in Hend as (tD & HtD & ->). unfold ret in H. simplify_eq.
  (* the merged unit and its scope *)
  destruct (scan_out _ _ HkC) as (t & Ht & Hsc & Hpre).
  pose proof (HD _ _ Ht) as HtD'. rewrite Tauto.if_same in HtD'. cbn in HtD'.
  assert (tD = t) as -> by congruence.
  pose proof (HD _ _ Hs) as HsD. rewrite Tauto.if_same in HsD. cbn in HsD.
  assert (top_items (<[length h := OTop (set_t_finished t true)]> hD) (length h) = items s)
    as Hitems.
  { unfold top_items. rewrite list_lookup_insert_eq by by eapply lookup_lt_Some.
    cbn. rewrite Hsc, list_lookup_insert_ne by lia. by rewrite HsD. }
  assert (∀ block b, block ∈ collected_blocks h tops → h !! block = Some (OBlock b) →
            <[length h := OTop (set_t_finished t true)]> hD !! block
            = Some (OBlock (set_insns b (map_insn (is_ExternFunction h) m <$> insns b))))
    as Hrewritten.
  { intros block b Hin Hb.
    rewrite list_lookup_insert_ne by (apply lookup_lt_Some in Hb; lia).
    rewrite (HD block (OBlock b)).
    - rewrite bool_decide_true; [done|]. by rewrite Hblocks.
    - eapply kept_block; [exact HkC|]. by apply fresh_unit_old. }
  exists m. split; [done|].
  intros name first rest Hstubs. unfold stubs_named in Hstubs. fold P in Hstubs.
  assert (name ∈ (externs st).*1) as Hname.
  { apply dict_get_keys. specialize (Hbuckets name). rewrite Hstubs in Hbuckets.
    destruct (dict_get (externs st) name); [eauto | done]. }
  rewrite Hitems, (Hreps _ Hname). unfold genuine_named. fold P.
  destruct (genuine_in h P name) as [|c cs] eqn:Hgen.
  - (* no unit defines the name *)
    assert (replacement h P name = first) as Hfirst.
    { unfold replacement. by rewrite Hgen, Hstubs. }
    rewrite Hfirst. split; [done|].
    apply Forall_forall. intros e He. rewrite <- Hfirst.
    apply Hsigs; [done|done|]. rewrite Hstubs. by right.
  - (* a unit defines the name *)
    assert (replacement h P name = c) as Hc.
    { unfold replacement. by rewrite Hgen. }
    rewrite Hc. split; [done|]. split.
    + apply Forall_forall. intros e He. rewrite <- Hc. apply Hm2; [done|by rewrite Hstubs|].
      rewrite Hc. intros ->. rewrite <- Hstubs in He.
      apply stubs_in_elem in He as [_ Hext].
      assert (c ∈ genuine_in h P name) as Hcin by (rewrite Hgen; by left).
      apply genuine_in_elem in Hcin as [_ Hir]. apply kinds_disjoint in Hir. congruence.
    + intros block b' insn e Hin Hb' Hinsn He Hargs.
      destruct (collected_is_block _ _ _ Hin) as [b Hb].
      rewrite (Hrewritten _ _ Hin Hb) in Hb'. simplify_eq. cbn in Hinsn.
      apply list_elem_of_fmap in Hinsn as (i0 & -> & _). cbn in Hargs.
      apply list_elem_of_fmap in Hargs as (a & Ha & _).
      eapply no_stub_after; [exact Hun|exact Hres|done|done| |done].
      by rewrite Hstubs.
Qed.

(** C4.  For two or more units: when the linker returns, every collected
    block has its instructions rewritten by one mapping of stubs; for a
    name with stubs that some unit defines, the merged unit binds the name
    to the definition, the mapping sends every stub of the name to it, and
    no collected block refers to a stub of the name any more; for a name
    with stubs that no unit defines, the merged unit binds the name to the
    first stub and every other stub has the signature of the first.  And
    when no unit defines a name and one of its stubs differs in signature
    from the first, the linker fails. *)
Theorem linker_resolves tops h :
  2 ≤ length tops → closed_units h tops = true → stubs_unshared h tops = true →
  (∀ out h', linker tops h = Ok (out, h') → resolved h tops out h')
  ∧ (∀ name first rest e,
       stubs_named h tops name = first :: rest → genuine_named h tops name = [] →
       e ∈ rest → same_signature h e first = false →
       ∃ err, linker tops h = Err err).
Proof.
  intros Hlen Hclosed Hunshared. split.
  - intros out h' H. by eapply linker_Ok_resolved.
  - intros name first rest e Hstubs Hgen He Hsig.
    destruct (linker tops h) as [[out h']|err] eqn:H; [|eauto]. exfalso.
    destruct (linker_Ok_resolved _ _ _ _ H Hlen Hclosed Hunshared) as (m & _ & Hnames).
    specialize (Hnames _ _ _ Hstubs). rewrite Hgen in Hnames.
    destruct Hnames as [_ Hall]. rewrite Forall_forall in Hall.
    specialize (Hall _ He). congruence.
Qed.

Lemma linker_resolves_witness :
  ∃ out h',
    linker [0; 11; 24] link_heap = Ok (out, h')
    ∧ dict_get (top_items h' out) "f" = Some 5
    ∧ dict_get (top_items h' out) "g" = Some 17
    ∧ same_signature link_heap 29 17 = true
    ∧ (∀ b', h' !! 23 = Some (OBlock b') → ∀ insn, insn ∈ insns b' → VRef 16 ∉ args insn).
Proof.
  destruct (linker [0; 11; 24] link_heap) as [[out h']|err] eqn:Hrun;
    [|by vm_compute in Hrun].
  exists out, h'. split; [reflexivity|].
  destruct (linker_resolves [0; 11; 24] link_heap ltac:(simpl; lia) eq_refl eq_refl)
    as [Hok _].
  destruct (Hok out h' Hrun) as (mapping & _ & Hnames).
  pose proof (Hnames "f" 16 [] eq_refl) as Hf.
  pose proof (Hnames "g" 17 [29] eq_refl) as Hg.
  change (genuine_named link_heap [0; 11; 24] "f") with [5] in Hf.
  change (genuine_named link_heap [0; 11; 24] "g") with (@nil nat) in Hg.
  cbv iota in Hf, Hg. destruct Hf as (Hf & _ & Hnone). destruct Hg as (Hg & Hsig).
  split; [exact Hf|]. split; [exact Hg|]. split.
  - exact (Forall_inv Hsig).
  - intros b' Hb' insn Hinsn. eapply (Hnone 23 b' insn 16).
    + change (collected_blocks link_heap [0; 11; 24]) with [10; 23; 35].
      apply elem_of_cons. right. apply elem_of_cons. by left.
    + exact Hb'.
    + exact Hinsn.
    + apply elem_of_cons. by left.
Defined.

(** Two stubs of one name that no unit defines, with differing signatures:
    the assertion of [expect_signature] fails the linker. *)
Lemma linker_signature_mismatch :
  linker [0; 11; 24] mismatch_heap = Err (AssertionError "params").
Proof. reflexivity. Qed.
(** * The command writer and its temporaries

    [CmdWriter] and [TemporaryVarGen] ([core.py]) do not touch the object
    store of the intermediate representation: they are modelled on their own
    state. *)

Module Writer.

(** [TemporaryVarGen].  [temps] is the list of free temporaries ([append]
    and [pop] work at its end), [in_use] a set; [writer] records the calls
    of [write_objective] the generator makes on its [FuncWriter], as the
    pairs of a name and a criteria. *)
Record TemporaryVarGen : Type := mkTemporaryVarGen {
  temps : list string;
  in_use : gset string;
  counter : nat;
  writer : list (string * option string)
}.

(** [TemporaryVarGen.__init__], on a writer that has not been written to. *)
Definition TemporaryVarGen_init : TemporaryVarGen :=
  mkTemporaryVarGen [] ∅ 0 [].

(** ['temp_%d' % counter]. *)
Definition temp_name (counter : nat) : string := "temp_" +:+ pretty counter.

(** [TemporaryVarGen.next]. *)
Definition next (self : TemporaryVarGen) : string * TemporaryVarGen :=
  match last (temps self) with
  | None =>
      let tmp := temp_name (counter self) in
      (tmp, mkTemporaryVarGen (temps self) ({[tmp]} ∪ in_use self) (S (counter self))
                              (writer self ++ [(tmp, None)]))
  | Some tmp =>
      (tmp, mkTemporaryVarGen (removelast (temps self)) ({[tmp]} ∪ in_use self)
                              (counter self) (writer self))
  end.

(** [TemporaryVarGen.free]. *)
Definition free (self : TemporaryVarGen) (temp : string) : Res TemporaryVarGen :=
  if bool_decide (temp ∈ in_use self) then
    Ok (mkTemporaryVarGen (temps self ++ [temp]) (in_use self ∖ {[temp]})
                          (counter self) (writer self))
  else Err (AssertionError "temp in self.in_use").

(** [TemporaryVarGen.finish]. *)
Definition finish (self : TemporaryVarGen) : Res unit :=
  if bool_decide (in_use self = ∅) then Ok tt
  else Err (AssertionError "not self.in_use").

(** A client of the generator: the calls it makes, in order.  A call that
    fails ends the run. *)
Inductive GenOp : Type :=
| Next
| Free (temp : string).

Fixpoint run (ops : list GenOp) (self : TemporaryVarGen) : Res TemporaryVarGen :=
  match ops with
  | [] => Ok self
  | Next :: ops' => run ops' (next self).2
  | Free temp :: ops' =>
      match free self temp with
      | Ok self' => run ops' self'
      | Err e => Err e
      end
  end.

(** [CmdWriter]: the three lists of commands.  [allocate_temp] and
    [free_temp] hand over to [next] and [free] of the generator the writer
    shares with the other writers. *)
Section CmdWriter.
Context {Cmd : Type}.

Record CmdWriter : Type := mkCmdWriter {
  pre : list Cmd;
  out : list Cmd;
  post : list Cmd
}.

Definition CmdWriter_init : CmdWriter := mkCmdWriter [] [] [].

Definition prepend (self : CmdWriter) (cmd : Cmd) : CmdWriter :=
  mkCmdWriter (pre self ++ [cmd]) (out self) (post self).
Definition last_cmd (self : CmdWriter) (cmd : Cmd) : CmdWriter :=
  mkCmdWriter (pre self) (out self) (post self ++ [cmd]).
Definition write_cmd (self : CmdWriter) (cmd : Cmd) : CmdWriter :=
  mkCmdWriter (pre self) (out self ++ [cmd]) (post self).
Definition get_output (self : CmdWriter) : list Cmd :=
  pre self ++ out self ++ post self.

Definition allocate_temp (temp_gen : TemporaryVarGen) : string * TemporaryVarGen :=
  next temp_gen.
Definition free_temp (temp_gen : TemporaryVarGen) (tmp : string) : Res TemporaryVarGen :=
  free temp_gen tmp.

(** The calls an instruction makes on the writer while it is applied. *)
Inductive WriterOp : Type :=
| Prepend (cmd : Cmd)
| Last (cmd : Cmd)
| Write (cmd : Cmd).

Definition writer_step (self : CmdWriter) (op : WriterOp) : CmdWriter :=
  match op with
  | Prepend cmd => prepend self cmd
  | Last cmd => last_cmd self cmd
  | Write cmd => write_cmd self cmd
  end.

Definition prepended (op : WriterOp) : option Cmd :=
  match op with Prepend cmd => Some cmd | _ => None end.
Definition written (op : WriterOp) : option Cmd :=
  match op with Write cmd => Some cmd | _ => None end.
Definition put_last (op : WriterOp) : option Cmd :=
  match op with Last cmd => Some cmd | _ => None end.

End CmdWriter.
Global Arguments CmdWriter : clear implicits.
Global Arguments WriterOp : clear implicits.

(** A client that takes two temporaries and gives the first one back. *)
Definition two_live_one_freed : list GenOp := [Next; Next; Free "temp_0"].
Definition after_two_live_one_freed : TemporaryVarGen :=
  mkTemporaryVarGen ["temp_0"] {["temp_1"]} 2 [("temp_0", None); ("temp_1", None)].

Lemma two_live_one_freed_run :
  run two_live_one_freed TemporaryVarGen_init = Ok after_two_live_one_freed.
Proof. vm_compute. reflexivity. Defined.

(** ** Properties of the generator *)

Lemma temp_name_inj : Inj (=) (=) temp_name.
Proof.
  intros i j H. unfold temp_name in H.
  apply (inj (String.app "temp_")) in H. by apply (inj pretty) in H.
Qed.

(** What holds of the generator whatever its client has done. *)
Record gen_inv (g : TemporaryVarGen) : Prop := mkGenInv {
  inv_NoDup : NoDup (temps g);
  inv_disjoint : ∀ t, t ∈ temps g → t ∉ in_use g;
  inv_names : ∀ t, t ∈ temps g ∨ t ∈ in_use g ↔ ∃ i, i < counter g ∧ t = temp_name i;
  inv_writer : writer g = (λ i, (temp_name i, None)) <$> seq 0 (counter g)
}.

Lemma gen_inv_init : gen_inv TemporaryVarGen_init.
Proof.
  split; cbn.
  - constructor.
  - intros t Ht. by apply elem_of_nil in Ht.
  - intros t. split.
    + intros [Ht|Ht]; [by apply elem_of_nil in Ht | set_solver].
    + intros (i & Hi & _). lia.
  - done.
Qed.

Lemma last_removelast {A} (l : list A) x :
  last l = Some x → l = removelast l ++ [x].
Proof.
  intros H. destruct (last_Some l x) as [[l' ->] _]; [done|].
  by rewrite removelast_last.
Qed.

Lemma gen_inv_next g : gen_inv g → gen_inv (next g).2.
Proof.
  intros [Hnd Hdisj Hnames Hw]. unfold next.
  destruct (last (temps g)) as [tmp|] eqn:Hlast; cbn.
  - apply last_removelast in Hlast. set (rest := removelast (temps g)) in *.
    rewrite Hlast in Hnd. apply NoDup_app in Hnd as (Hnd1 & Hnd2 & _).
    split; cbn; fold rest.
    + done.
    + intros t Ht. rewrite elem_of_union, elem_of_singleton. intros [->|Hin].
      * by eapply Hnd2; [|apply list_elem_of_singleton].
      * eapply Hdisj; [|done]. rewrite Hlast. apply elem_of_app. by left.
    + intros t. rewrite <- Hnames, Hlast, elem_of_app, list_elem_of_singleton,
        elem_of_union, elem_of_singleton. tauto.
    + done.
  - apply last_None in Hlast. rewrite Hlast in *. split; cbn [temps in_use counter writer].
    + constructor.
    + intros t Ht. by apply elem_of_nil in Ht.
    + intros t. rewrite elem_of_union, elem_of_singleton. split.
      * intros [Ht|[->|Ht]]; [by apply elem_of_nil in Ht| |].
        -- exists (counter g). split; [lia|done].
        -- destruct (proj1 (Hnames t)) as (i & Hi & ->); [by right|].
           exists i. split; [lia|done].
      * intros (i & Hi & ->). right.
        destruct (decide (i = counter g)) as [->|Hne]; [by left|]. right.
        destruct (proj2 (Hnames (temp_name i))) as [Ht|Ht]; [exists i; split; [lia|done] | |done].
        by apply elem_of_nil in Ht.
    + rewrite seq_S, fmap_app, Hw. done.
Qed.

Lemma gen_inv_free g temp g' : gen_inv g → free g temp = Ok g' → gen_inv g'.
Proof.
  intros [Hnd Hdisj Hnames Hw] H. unfold free in H.
  case_bool_decide as Hin; [|done]. injection H as <-. split; cbn.
  - apply NoDup_app. split; [done|]. split; [|apply NoDup_singleton].
    intros t Ht ->%list_elem_of_singleton. by eapply Hdisj.
  - intros t. rewrite elem_of_app, list_elem_of_singleton, elem_of_difference,
      elem_of_singleton. intros [Ht| ->] [Hu Hne]; [by eapply Hdisj|done].
  - intros t. rewrite <- Hnames, elem_of_app, list_elem_of_singleton, elem_of_difference,
      elem_of_singleton. destruct (decide (t = temp)) as [->|]; naive_solver.
  - done.
Qed.

Lemma run_inv ops g g' : gen_inv g → run ops g = Ok g' → gen_inv g'.
Proof.
  revert g. induction ops as [|[|temp] ops IH]; intros g Hinv H; cbn in H.
  - by injection H as <-.
  - eapply IH; [|done]. by apply gen_inv_next.
  - destruct (free g temp) as [g1|] eqn:Hfree; [|done].
    eapply IH; [|done]. by eapply gen_inv_free.
Qed.

Lemma next_fresh g : gen_inv g → (next g).1 ∉ in_use g.
Proof.
  intros [Hnd Hdisj Hnames Hw]. unfold next.
  destruct (last (temps g)) as [tmp|] eqn:Hlast; cbn.
  - apply Hdisj. apply last_removelast in Hlast. rewrite Hlast.
    apply elem_of_app. right. by apply list_elem_of_singleton.
  - intros Hin. destruct (proj1 (Hnames (temp_name (counter g)))) as (i & Hi & Heq);
      [by right|]. apply temp_name_inj in Heq. lia.
Qed.

Lemma next_in_use g : in_use (next g).2 = {[(next g).1]} ∪ in_use g.
Proof. unfold next. by destruct (last (temps g)). Qed.

(** X1.  Whatever calls of [next] and [free] a client has made, the
    temporary the following [next] hands out is not in use at that moment;
    afterwards it is in use and no longer on the free list.  Two live
    temporaries therefore never share a name. *)
Theorem next_never_in_use (ops : list GenOp) (g : TemporaryVarGen) :
  run ops TemporaryVarGen_init = Ok g →
  (next g).1 ∉ in_use g
  ∧ (next g).1 ∈ in_use (next g).2
  ∧ (next g).1 ∉ temps (next g).2.
Proof.
  intros H. pose proof (run_inv _ _ _ gen_inv_init H) as Hinv.
  split; [by apply next_fresh|]. split.
  - rewrite next_in_use. set_solver.
  - intros Hin. apply (inv_disjoint _ (gen_inv_next _ Hinv)) in Hin.
    apply Hin. rewrite next_in_use. set_solver.
Qed.

Lemma next_never_in_use_witness :
  run two_live_one_freed TemporaryVarGen_init = Ok after_two_live_one_freed
  ∧ (next after_two_live_one_freed).1 ∉ in_use after_two_live_one_freed.
Proof.
  split; [apply two_live_one_freed_run|].
  apply (next_never_in_use two_live_one_freed), two_live_one_freed_run.
Defined.

(** X2.  Whatever the client has done, the objectives the generator has
    declared on its writer are [temp_0], [temp_1], ... up to the counter,
    each declared once and with no criteria, and the temporaries it holds,
    free or in use, are exactly the declared ones. *)
Theorem objectives_declared_once (ops : list GenOp) (g : TemporaryVarGen) :
  run ops TemporaryVarGen_init = Ok g →
  writer g = (λ i, (temp_name i, None)) <$> seq 0 (counter g)
  ∧ NoDup (writer g).*1
  ∧ ∀ t, t ∈ temps g ∨ t ∈ in_use g ↔ t ∈ (writer g).*1.
Proof.
  intros H. pose proof (run_inv _ _ _ gen_inv_init H) as [Hnd Hdisj Hnames Hw].
  assert (Hfst : (writer g).*1 = temp_name <$> seq 0 (counter g)).
  { rewrite Hw, <- list_fmap_compose. by apply list_fmap_ext. }
  split; [done|]. rewrite Hfst. split.
  - apply (NoDup_fmap_2 _). apply NoDup_seq.
  - intros t. rewrite Hnames, list_elem_of_fmap. split.
    + intros (i & Hi & ->). exists i. split; [done|]. apply elem_of_seq. lia.
    + intros (i & -> & Hi%elem_of_seq). exists i. split; [lia|done].
Qed.

Lemma objectives_declared_once_witness :
  run two_live_one_freed TemporaryVarGen_init = Ok after_two_live_one_freed
  ∧ NoDup (writer after_two_live_one_freed).*1.
Proof.
  split; [apply two_live_one_freed_run|].
  apply (objectives_declared_once two_live_one_freed), two_live_one_freed_run.
Defined.

(** X3.  A temporary that has just been freed is the one the next call of
    [next] returns, which puts the generator back as it was before the
    [free] (no objective is declared); and freeing it a second time fails. *)
Theorem free_then_next (g : TemporaryVarGen) (temp : string) (g1 : TemporaryVarGen) :
  free g temp = Ok g1 →
  next g1 = (temp, g)
  ∧ free g1 temp = Err (AssertionError "temp in self.in_use").
Proof.
  intros H. unfold free in H. case_bool_decide as Hin; [|done]. injection H as <-.
  split.
  - unfold next. cbn [temps in_use counter writer]. rewrite last_snoc, removelast_last.
    f_equal. destruct g as [ts us c w]. cbn in *. f_equal.
    apply set_eq. intros x. rewrite elem_of_union, elem_of_difference, elem_of_singleton.
    destruct (decide (x = temp)); naive_solver.
  - unfold free. cbn [in_use]. rewrite bool_decide_eq_false_2; [done|]. set_solver.
Qed.

Lemma free_then_next_witness :
  free (next TemporaryVarGen_init).2 "temp_0"
  = Ok (mkTemporaryVarGen ["temp_0"] ∅ 1 [("temp_0", None)])
  ∧ next (mkTemporaryVarGen ["temp_0"] ∅ 1 [("temp_0", None)])
    = ("temp_0", (next TemporaryVarGen_init).2).
Proof.
  assert (Hfree : free (next TemporaryVarGen_init).2 "temp_0"
                  = Ok (mkTemporaryVarGen ["temp_0"] ∅ 1 [("temp_0", None)]))
    by (vm_compute; reflexivity).
  split; [exact Hfree|].
  exact (proj1 (free_then_next _ _ _ Hfree)).
Defined.

(** The calls of [next] and of [free] among those of a client. *)
Definition count_next (ops : list GenOp) : nat :=
  length (List.filter (λ op, match op with Next => true | _ => false end) ops).
Definition count_free (ops : list GenOp) : nat :=
  length (List.filter (λ op, match op with Free _ => true | _ => false end) ops).

Lemma run_size ops g g' :
  gen_inv g → run ops g = Ok g' →
  size (in_use g') + count_free ops = size (in_use g) + count_next ops.
Proof.
  revert g. induction ops as [|[|temp] ops IH]; intros g Hinv H; cbn in H.
  - injection H as <-. cbn. lia.
  - apply IH in H; [|by apply gen_inv_next].
    rewrite next_in_use in H. rewrite size_union in H.
    + rewrite size_singleton in H. unfold count_next, count_free in *. cbn. lia.
    + pose proof (next_fresh _ Hinv). set_solver.
  - destruct (free g temp) as [g1|] eqn:Hfree; [|done].
    apply IH in H; [|by eapply gen_inv_free].
    unfold free in Hfree. case_bool_decide as Hin; [|done]. injection Hfree as <-.
    cbn [in_use] in H. rewrite size_difference in H by set_solver.
    rewrite size_singleton in H.
    assert (size (in_use g) ≠ 0) by (rewrite size_non_empty_iff; set_solver).
    unfold count_next, count_free in *. cbn. lia.
Qed.

(** X4.  After any run of calls that did not fail, the number of
    temporaries in use is the number of calls of [next] less the number of
    calls of [free], and [finish] succeeds exactly when every temporary
    handed out has been freed. *)
Theorem finish_iff_all_freed (ops : list GenOp) (g : TemporaryVarGen) :
  run ops TemporaryVarGen_init = Ok g →
  size (in_use g) + count_free ops = count_next ops
  ∧ (finish g = Ok tt ↔ count_free ops = count_next ops)
  ∧ (count_free ops ≠ count_next ops →
     finish g = Err (AssertionError "not self.in_use")).
Proof.
  intros H. pose proof (run_size _ _ _ gen_inv_init H) as Hsize.
  cbn [in_use TemporaryVarGen_init] in Hsize. rewrite size_empty in Hsize.
  split; [lia|]. unfold finish. case_bool_decide as He.
  - rewrite He, size_empty in Hsize. split; [split; [lia|done] | lia].
  - assert (size (in_use g) ≠ 0) by (by intros ?%size_empty_inv%leibniz_equiv).
    split; [split; [done|lia] | done].
Qed.

Lemma finish_iff_all_freed_witness :
  run two_live_one_freed TemporaryVarGen_init = Ok after_two_live_one_freed
  ∧ size (in_use after_two_live_one_freed) + count_free two_live_one_freed
    = count_next two_live_one_freed.
Proof.
  split; [apply two_live_one_freed_run|].
  apply (finish_iff_all_freed two_live_one_freed), two_live_one_freed_run.
Defined.

(** ** Properties of the writer *)

Lemma get_output_from {Cmd} (w : CmdWriter Cmd) (ops : list (WriterOp Cmd)) :
  get_output (foldl writer_step w ops)
  = (pre w ++ omap prepended ops) ++ (out w ++ omap written ops)
    ++ (post w ++ omap put_last ops).
Proof.
  revert w. induction ops as [|op ops IH]; intros w; cbn [foldl omap].
  - by rewrite !app_nil_r.
  - rewrite IH. destruct op; cbn; by rewrite <- ?app_assoc.
Qed.

(** X5.  Whatever the order in which commands are prepended, written and
    put last, the output of the writer is the prepended commands, then the
    written ones, then those put last, each group in the order of the
    calls (a later [prepend] comes after an earlier one). *)
Theorem get_output_order {Cmd} (ops : list (WriterOp Cmd)) :
  get_output (foldl writer_step CmdWriter_init ops)
  = omap prepended ops ++ omap written ops ++ omap put_last ops.
Proof. by rewrite get_output_from. Qed.

End Writer.
(** * Names and scopes *)

(** ** What a binding changes *)

Lemma Scope_getitem_rec_insert fuel h sc s s' l key :
  h !! sc = Some (OScope s) → parent s' = parent s →
  dict_get (items s') key = dict_get (items s) key →
  Scope_getitem_rec fuel (<[sc := OScope s']> h) l key = Scope_getitem_rec fuel h l key.
Proof.
  intros Hs Hp Hk. revert l. induction fuel as [|fuel IH]; intros l; [done|]. cbn.
  destruct (decide (l = sc)) as [->|Hne].
  - rewrite list_lookup_insert_eq by (by eapply lookup_lt_Some). rewrite Hs, Hk, Hp.
    destruct (dict_get (items s) key); [done|]. destruct (parent s); [apply IH|done].
  - rewrite list_lookup_insert_ne by done.
    destruct (h !! l) as [[s0| | | | | | | | |]|]; try done.
    destruct (dict_get (items s0) key); [done|]. destruct (parent s0); [apply IH|done].
Qed.

Lemma Scope_contains_rec_insert fuel h sc s s' l key :
  h !! sc = Some (OScope s) → parent s' = parent s →
  dict_has (items s') key = dict_has (items s) key →
  Scope_contains_rec fuel (<[sc := OScope s']> h) l key = Scope_contains_rec fuel h l key.
Proof.
  intros Hs Hp Hk. revert l. induction fuel as [|fuel IH]; intros l; [done|]. cbn.
  destruct (decide (l = sc)) as [->|Hne].
  - rewrite list_lookup_insert_eq by (by eapply lookup_lt_Some). rewrite Hs, Hk, Hp.
    destruct (dict_has (items s) key); [done|]. destruct (parent s); [apply IH|done].
  - rewrite list_lookup_insert_ne by done.
    destruct (h !! l) as [[s0| | | | | | | | |]|]; try done.
    destruct (dict_has (items s0) key); [done|]. destruct (parent s0); [apply IH|done].
Qed.

Lemma holder_scope_insert self sc s s' h scope :
  holder_scope self h = Ok (scope, h) → h !! sc = Some (OScope s) →
  holder_scope self (<[sc := OScope s']> h) = Ok (scope, <[sc := OScope s']> h).
Proof.
  intros H Hs. apply holder_scope_Ok in H as [_ H].
  assert (self ≠ sc) by (intros ->; destruct H as [(? & ? & _)|(? & ? & _)]; congruence).
  unfold holder_scope, bind, read. rewrite list_lookup_insert_ne by done.
  by destruct H as [(t & -> & ->)|(f & -> & ->)].
Qed.

Lemma holder_scope_eq self h scope h' :
  holder_scope self h = Ok (scope, h') → holder_scope self h = Ok (scope, h).
Proof. intros H. by destruct (holder_scope_Ok _ _ _ _ H) as [-> _]. Qed.

(** [store] binds the name at the end of the local mapping of the holder. *)
Lemma store_inv self name v h h' :
  store self name v h = Ok (tt, h') →
  ∃ sc s, holder_scope self h = Ok (sc, h) ∧ h !! sc = Some (OScope s)
          ∧ dict_get (items s) name = None
          ∧ h' = <[sc := OScope (bound s name v)]> h.
Proof.
  intros H. unfold store in H. mbind H as scope h1 Hscope.
  pose proof (holder_scope_eq _ _ _ _ Hscope) as Hscope'.
  apply holder_scope_Ok in Hscope as [-> _].
  mbind H as c h1 Hc. apply Scope_contains_no_parent_Ok in Hc as (-> & s & Hs & ->).
  mstep H as u Hu. apply negb_true_iff, dict_has_false in Hu.
  rewrite (Scope_setitem_eq _ _ _ _ _ Hs) in H. simplify_eq.
  exists scope, s. split; [done|]. split; [done|]. split; [done|].
  unfold bound. by rewrite dict_set_absent.
Qed.

Lemma recursion_limit_insert h l o : recursion_limit (<[l := o]> h) = recursion_limit h.
Proof. unfold recursion_limit. by rewrite length_insert. Qed.

Lemma get_var_bound self sc s name v h :
  holder_scope self h = Ok (sc, h) → h !! sc = Some (OScope s) →
  dict_get (items s) name = None →
  get_var self name (<[sc := OScope (bound s name v)]> h)
  = Ok (v, <[sc := OScope (bound s name v)]> h).
Proof.
  intros Hscope Hs Hnone. unfold get_var.
  rewrite (bind_eq _ _ _ _ _ (holder_scope_insert _ _ _ _ _ _ Hscope Hs)).
  rewrite Scope_getitem_eq. unfold recursion_limit. cbn [Scope_getitem_rec].
  rewrite list_lookup_insert_eq by (by eapply lookup_lt_Some).
  cbn [bound items set_items]. by rewrite dict_get_app, Hnone; cbn; rewrite decide_True.
Qed.

Lemma get_var_other self sc s name v key h :
  holder_scope self h = Ok (sc, h) → h !! sc = Some (OScope s) →
  key ≠ name →
  eval (get_var self key) (<[sc := OScope (bound s name v)]> h) = eval (get_var self key) h
  ∧ raised (get_var self key) (<[sc := OScope (bound s name v)]> h)
    = raised (get_var self key) h.
Proof.
  intros Hscope Hs Hne. unfold eval, raised, get_var.
  rewrite (bind_eq _ _ _ _ _ (holder_scope_insert _ _ _ _ _ _ Hscope Hs)).
  rewrite (bind_eq _ _ _ _ _ Hscope). cbv beta.
  rewrite !Scope_getitem_eq, recursion_limit_insert.
  rewrite (Scope_getitem_rec_insert _ _ _ s); [|done|done|].
  - by destruct (Scope_getitem_rec _ _ _ _).
  - cbn [bound items set_items]. rewrite dict_get_app.
    destruct (dict_get (items s) key); [done|]. cbn. by rewrite decide_False.
Qed.

Lemma lookup_bound self sc s name v h :
  holder_scope self h = Ok (sc, h) → h !! sc = Some (OScope s) →
  dict_get (items s) name = None →
  lookup self name (<[sc := OScope (bound s name v)]> h)
  = Ok (Some v, <[sc := OScope (bound s name v)]> h).
Proof.
  intros Hscope Hs Hnone. unfold lookup.
  rewrite (bind_eq _ _ _ _ _ (holder_scope_insert _ _ _ _ _ _ Hscope Hs)).
  assert (Hget : dict_get (items (bound s name v)) name = Some v).
  { cbn [bound items set_items]. by rewrite dict_get_app, Hnone; cbn; rewrite decide_True. }
  pose proof (lookup_lt_Some _ _ _ Hs) as Hlt.
  set (h' := <[sc := OScope (bound s name v)]> h).
  assert (Hc : Scope_contains sc name h' = Ok (true, h')).
  { rewrite Scope_contains_eq. unfold recursion_limit, h'. cbn [Scope_contains_rec].
    rewrite list_lookup_insert_eq by done. unfold dict_has. by rewrite Hget. }
  assert (Hg : Scope_getitem sc name h' = Ok (v, h')).
  { rewrite Scope_getitem_eq. unfold recursion_limit, h'. cbn [Scope_getitem_rec].
    rewrite list_lookup_insert_eq by done. by rewrite Hget. }
  rewrite (bind_eq _ _ _ _ _ Hc). by rewrite (bind_eq _ _ _ _ _ Hg).
Qed.

Lemma name_for_bound self sc s name v h :
  holder_scope self h = Ok (sc, h) → h !! sc = Some (OScope s) →
  name_for self v (<[sc := OScope (bound s name v)]> h)
  = Ok (name, <[sc := OScope (bound s name v)]> h).
Proof.
  intros Hscope Hs. unfold name_for.
  rewrite (bind_eq _ _ _ _ _ (holder_scope_insert _ _ _ _ _ _ Hscope Hs)).
  unfold Scope_for_value, pure_read, recursion_limit. cbn [Scope_for_value_rec].
  rewrite list_lookup_insert_eq by (by eapply lookup_lt_Some).
  cbn [bound inverse_dict set_items]. by rewrite dict_get_set_eq.
Qed.

(** X6.  When [store] returns, the holder resolves the name to the value
    ([get_var] and [lookup]), [name_for] gives the name back for the value,
    and every other name resolves as it did before: to the same value, or
    with the same exception. *)
Theorem store_then_get_var (self : loc) (name : string) (value : loc) (h h' : Heap) :
  store self name value h = Ok (tt, h') →
  get_var self name h' = Ok (value, h')
  ∧ lookup self name h' = Ok (Some value, h')
  ∧ name_for self value h' = Ok (name, h')
  ∧ ∀ key, key ≠ name →
      eval (get_var self key) h' = eval (get_var self key) h
      ∧ raised (get_var self key) h' = raised (get_var self key) h.
Proof.
  intros H. apply store_inv in H as (sc & s & Hscope & Hs & Hnone & ->).
  split; [by apply get_var_bound|]. split; [by apply lookup_bound|].
  split; [by apply name_for_bound|]. intros key Hne. by apply get_var_other.
Qed.

(** The unit of [demo_heap] stores its function (object 5) under a second
    name. *)
Lemma store_then_get_var_witness :
  ∃ h', store 0 "main" 5 demo_heap = Ok (tt, h')
        ∧ get_var 0 "main" h' = Ok (5, h')
        ∧ name_for 0 5 h' = Ok ("main", h').
Proof.
  eexists. split; [vm_compute; reflexivity|].
  destruct (store_then_get_var 0 "main" 5 demo_heap _ eq_refl) as (Hget & _ & Hname & _).
  split; [exact Hget | exact Hname].
Defined.

Lemma store_eq self sc s name v h :
  holder_scope self h = Ok (sc, h) → h !! sc = Some (OScope s) →
  store self name v h
  = if dict_has (items s) name then Err (AssertionError name)
    else Ok (tt, <[sc := OScope (bound s name v)]> h).
Proof.
  intros Hscope Hs. unfold store. rewrite (bind_eq _ _ _ _ _ Hscope). cbv beta.
  assert (Hc : Scope_contains_no_parent sc name h = Ok (dict_has (items s) name, h)).
  { unfold Scope_contains_no_parent. by rewrite (bind_eq _ _ _ _ _ (get_scope_eq _ _ _ Hs)). }
  rewrite (bind_eq _ _ _ _ _ Hc). cbv beta.
  destruct (dict_has (items s) name) eqn:Hhas; [done|].
  cbn [negb assert]. unfold bind, ret. rewrite (Scope_setitem_eq _ _ _ _ _ Hs).
  unfold bound. apply dict_has_false in Hhas. by rewrite dict_set_absent.
Qed.

(** X7.  [store] only looks at the local mapping of the holder: a name
    that is bound there is refused with an [AssertionError], whatever the
    value; a name that is not is bound, also when the parent scope binds it,
    and then the holder resolves the name to the new value where it resolved
    it to the value of the parent before. *)
Theorem store_checks_local_names_only (self sc : loc) (s : Scope) (name : string)
    (value : loc) (h : Heap) :
  holder_scope self h = Ok (sc, h) → h !! sc = Some (OScope s) →
  (dict_has (items s) name = true →
   store self name value h = Err (AssertionError name))
  ∧ (dict_has (items s) name = false →
     ∃ h', store self name value h = Ok (tt, h')
           ∧ get_var self name h' = Ok (value, h')
           ∧ ∀ p old, parent s = Some p →
                      Scope_getitem_rec (length h) h p name = Ok old →
                      get_var self name h = Ok (old, h)).
Proof.
  intros Hscope Hs. rewrite (store_eq _ _ _ _ _ _ Hscope Hs). split.
  - by intros ->.
  - intros Hhas. rewrite Hhas. eexists. split; [done|].
    apply dict_has_false in Hhas. split; [by apply get_var_bound|].
    intros p old Hp Hold. unfold get_var. rewrite (bind_eq _ _ _ _ _ Hscope).
    rewrite Scope_getitem_eq. unfold recursion_limit. cbn [Scope_getitem_rec].
    by rewrite Hs, Hhas, Hp, Hold.
Qed.

Lemma store_checks_local_names_only_witness :
  ∃ s, demo_heap !! 6 = Some (OScope s)
       ∧ dict_has (items s) "f" = false
       ∧ get_var 5 "f" demo_heap = Ok (5, demo_heap)
       ∧ ∃ h', store 5 "f" 10 demo_heap = Ok (tt, h')
               ∧ get_var 5 "f" h' = Ok (10, h').
Proof.
  eexists. split; [vm_compute; reflexivity|]. split; [vm_compute; reflexivity|].
  destruct (store_checks_local_names_only 5 6 _ "f" 10 demo_heap eq_refl eq_refl) as [_ H].
  destruct (H eq_refl) as (h' & H1 & H2 & H3).
  split; [by apply (H3 1 5)|]. by exists h'.
Defined.

(** ** Fresh names *)

Lemma uniq_name_loop_least fuel scope hint i h name h' :
  uniq_name_loop fuel scope hint i h = Ok (name, h') →
  ∃ k, i ≤ k ∧ name = hint +:+ pretty k
       ∧ ∀ j, i ≤ j < k → Scope_contains scope (hint +:+ pretty j) h = Ok (true, h).
Proof.
  revert i. induction fuel as [|fuel IH]; intros i H; [done|].
  cbn [uniq_name_loop] in H. mstep H as c Hc.
  pose proof Hc as Hc'. apply Scope_contains_Ok in Hc' as [_ ->].
  destruct c.
  - apply IH in H as (k & Hk & -> & Hall). exists k. split; [lia|]. split; [done|].
    intros j Hj. destruct (decide (j = i)) as [->|]; [done|]. apply Hall. lia.
  - injection H as <- <-. exists i. split; [done|]. split; [done|]. intros j Hj. lia.
Qed.

(** X8.  The name [uniq_name] returns is bound nowhere along the scope
    chain of the holder, and the store is left as it was.  It is the hint
    when the hint is free; otherwise it is the hint followed by the least
    number, counting from 0, that gives a free name. *)
Theorem uniq_name_least_free (self : loc) (hint : string) (h : Heap) (name : string)
    (h' : Heap) :
  uniq_name self hint h = Ok (name, h') →
  h' = h
  ∧ ∃ scope, holder_scope self h = Ok (scope, h)
      ∧ Scope_contains scope name h = Ok (false, h)
      ∧ (Scope_contains scope hint h = Ok (false, h) → name = hint)
      ∧ (Scope_contains scope hint h = Ok (true, h) →
         ∃ i, name = hint +:+ pretty i
              ∧ ∀ j, j < i → Scope_contains scope (hint +:+ pretty j) h = Ok (true, h)).
Proof.
  intros H. pose proof (uniq_name_Ok _ _ _ _ _ H) as (-> & scope & Hscope & Hfree).
  split; [done|]. exists scope. split; [done|]. split; [done|].
  unfold uniq_name in H. rewrite (bind_eq _ _ _ _ _ Hscope) in H. cbv beta in H.
  mstep H as c Hc. pose proof Hc as Hc'. apply Scope_contains_Ok in Hc' as [_ ->].
  destruct c; cbn [negb] in H.
  - split; [congruence|]. intros _. mstep H as hh Hh.
    apply uniq_name_loop_least in H as (k & _ & -> & Hall).
    exists k. split; [done|]. intros j Hj. apply Hall. lia.
  - unfold ret in H. assert (name = hint) as -> by congruence.
    split; [done|]. congruence.
Qed.

Lemma uniq_name_least_free_witness :
  uniq_name 5 "body" demo_heap = Ok ("body0", demo_heap)
  ∧ Scope_contains 6 "body0" demo_heap = Ok (false, demo_heap).
Proof.
  assert (H : uniq_name 5 "body" demo_heap = Ok ("body0", demo_heap))
    by (vm_compute; reflexivity).
  split; [exact H|].
  destruct (uniq_name_least_free _ _ _ _ _ H) as (_ & scope & Hscope & Hfree & _).
  by injection Hscope as <-.
Defined.

(** A scope chain that ends: every link is a scope of the store and the
    last one has no parent. *)
Fixpoint chain_ends (fuel : nat) (h : Heap) (scope : loc) : bool :=
  match fuel with
  | 0 => false
  | S fuel' =>
      match h !! scope with
      | Some (OScope s) =>
          match parent s with
          | Some p => chain_ends fuel' h p
          | None => true
          end
      | _ => false
      end
  end.

Lemma chain_ends_contains fuel h scope key :
  chain_ends fuel h scope = true → ∃ b, Scope_contains_rec fuel h scope key = Ok b.
Proof.
  revert scope. induction fuel as [|fuel IH]; intros scope H; [done|]. cbn in *.
  destruct (h !! scope) as [[s| | | | | | | | |]|]; try done.
  destruct (dict_has (items s) key); [eauto|].
  destruct (parent s); [by apply IH | eauto].
Qed.

(** The names bound in the scopes of the store. *)
Definition all_names (h : Heap) : list string :=
  h ≫= (λ o, match o with OScope s => dict_keys (items s) | _ => [] end).

Lemma all_names_length h : length (all_names h) = scope_entries h.
Proof.
  unfold all_names, scope_entries. induction h as [|o h IH]; [done|].
  cbn. rewrite length_app, IH. f_equal. destruct o; try done.
  unfold dict_keys. by rewrite length_fmap.
Qed.

Lemma Scope_contains_all_names fuel h scope key :
  Scope_contains_rec fuel h scope key = Ok true → key ∈ all_names h.
Proof.
  revert scope. induction fuel as [|fuel IH]; intros scope H; [done|]. cbn in H.
  destruct (h !! scope) as [[s| | | | | | | | |]|] eqn:Hs; try done.
  destruct (dict_has (items s) key) eqn:Hhas.
  - unfold all_names. apply list_elem_of_bind. exists (OScope s).
    split; [|by eapply list_elem_of_lookup_2].
    apply dict_get_keys. by apply dict_has_true.
  - destruct (parent s); [by eapply IH | done].
Qed.

Lemma suffixed_NoDup hint n : NoDup ((λ j, hint +:+ pretty j) <$> seq 0 n).
Proof.
  apply NoDup_fmap_2; [|apply NoDup_seq].
  intros i j H. apply (inj (String.app hint)) in H. by apply (inj pretty) in H.
Qed.

(** As many suffixes as there are names in the store, and one more, cannot
    all be taken. *)
Lemma suffixes_not_all_taken fuel h scope hint :
  ¬ ∀ j, j < S (scope_entries h) →
         Scope_contains_rec fuel h scope (hint +:+ pretty j) = Ok true.
Proof.
  intros Hall.
  assert (Hsub : (λ j, hint +:+ pretty j) <$> seq 0 (S (scope_entries h)) ⊆+ all_names h).
  { apply NoDup_submseteq; [apply suffixed_NoDup|].
    intros x (j & -> & Hj%elem_of_seq)%list_elem_of_fmap.
    eapply Scope_contains_all_names, Hall. lia. }
  apply submseteq_length in Hsub.
  rewrite length_fmap, length_seq, all_names_length in Hsub. lia.
Qed.

Lemma uniq_name_loop_total fuel scope hint i h :
  (∀ key, ∃ b, Scope_contains_rec (recursion_limit h) h scope key = Ok b) →
  (∃ name, uniq_name_loop fuel scope hint i h = Ok (name, h))
  ∨ ∀ j, i ≤ j < i + fuel →
         Scope_contains_rec (recursion_limit h) h scope (hint +:+ pretty j) = Ok true.
Proof.
  intros Hok. revert i. induction fuel as [|fuel IH]; intros i.
  - right. intros j Hj. lia.
  - cbn [uniq_name_loop]. unfold bind. rewrite Scope_contains_eq.
    destruct (Hok (hint +:+ pretty i)) as [[|] Hb]; rewrite Hb.
    + destruct (IH (S i)) as [Hname|Hall]; [by left|]. right.
      intros j Hj. destruct (decide (j = i)) as [->|]; [done|]. apply Hall. lia.
    + left. by eexists.
Qed.

(** X9.  [uniq_name] always finds a name when the scope chain of the holder
    ends: the search for a free suffix stops after at most as many tries as
    there are names in the store, plus one. *)
Theorem uniq_name_finds_a_name (self scope : loc) (hint : string) (h : Heap) :
  holder_scope self h = Ok (scope, h) →
  chain_ends (recursion_limit h) h scope = true →
  ∃ name, uniq_name self hint h = Ok (name, h).
Proof.
  intros Hscope Hchain.
  assert (Hok : ∀ key, ∃ b, Scope_contains_rec (recursion_limit h) h scope key = Ok b)
    by (intros key; by apply chain_ends_contains).
  unfold uniq_name. rewrite (bind_eq _ _ _ _ _ Hscope). cbv beta.
  unfold bind at 1. rewrite Scope_contains_eq.
  destruct (Hok hint) as [[|] Hb]; rewrite Hb; cbn [negb]; [|by eexists].
  unfold bind, get_heap.
  destruct (uniq_name_loop_total (S (scope_entries h)) scope hint 0 h Hok) as [Hname|Hall];
    [done|].
  exfalso. eapply suffixes_not_all_taken. intros j Hj. apply Hall. lia.
Qed.

Lemma uniq_name_finds_a_name_witness :
  ∃ name, uniq_name 5 "body" demo_heap = Ok (name, demo_heap).
Proof. apply (uniq_name_finds_a_name 5 6); reflexivity. Defined.

Lemma Scope_contains_false_getitem fuel h s k :
  Scope_contains_rec fuel h s k = Ok false → Scope_getitem_rec fuel h s k = Err (KeyError k).
Proof.
  revert s. induction fuel as [|fuel IH]; intros s; cbn; [done|].
  destruct (h !! s) as [[sc| | | | | | | | |]|]; try done.
  unfold dict_has. destruct (dict_get (items sc) k) as [v|]; [done|].
  destruct (parent sc) as [p|]; [apply IH | done].
Qed.

Lemma generate_name_inv self hint v h r h' :
  generate_name self hint v h = Ok (r, h') →
  r = v ∧ ∃ sc s name, holder_scope self h = Ok (sc, h) ∧ h !! sc = Some (OScope s)
                       ∧ Scope_contains sc name h = Ok (false, h)
                       ∧ h' = <[sc := OScope (bound s name v)]> h.
Proof.
  intros H. unfold generate_name, uniq in H. mbind H as name h1 Hname.
  apply uniq_name_Ok in Hname as (-> & scope & Hscope & Hc).
  mbind H as obj h2 Hobj. unfold ret in Hobj. simplify_eq.
  rewrite (bind_eq _ _ _ _ _ Hscope) in H. cbv beta in H.
  destruct (Scope_contains_Ok_scope _ _ _ _ _ Hc) as [s Hs].
  pose proof (Scope_contains_Ok _ _ _ _ _ Hc) as [Hrec _].
  pose proof (Scope_contains_false_local _ _ _ _ _ Hs Hrec) as Hnone.
  mbind H as u h3 Hset. rewrite (Scope_setitem_eq _ _ _ _ _ Hs) in Hset.
  unfold ret in H. simplify_eq. split; [done|].
  exists scope, s, name. split; [done|]. split; [done|]. split; [done|].
  unfold bound. by rewrite dict_set_absent.
Qed.

(** X10.  [generate_name] returns the value it was given and binds it to a
    name the holder could not resolve before; every name the holder could
    resolve still resolves to the same value, so no binding is replaced and
    none is shadowed. *)
Theorem generate_name_keeps_bindings (self : loc) (hint : string) (value : loc)
    (h : Heap) (r : loc) (h' : Heap) :
  generate_name self hint value h = Ok (r, h') →
  r = value
  ∧ ∃ name,
      get_var self name h = Err (KeyError name)
      ∧ get_var self name h' = Ok (value, h')
      ∧ name_for self value h' = Ok (name, h')
      ∧ ∀ key v, get_var self key h = Ok (v, h) → get_var self key h' = Ok (v, h').
Proof.
  intros H. apply generate_name_inv in H
    as (-> & sc & s & name & Hscope & Hs & Hc & ->).
  split; [done|]. exists name.
  pose proof (Scope_contains_Ok _ _ _ _ _ Hc) as [Hrec _].
  pose proof (Scope_contains_false_local _ _ _ _ _ Hs Hrec) as Hnone.
  assert (Hbefore : get_var self name h = Err (KeyError name)).
  { unfold get_var. rewrite (bind_eq _ _ _ _ _ Hscope). cbv beta.
    by rewrite Scope_getitem_eq, (Scope_contains_false_getitem _ _ _ _ Hrec). }
  split; [done|]. split; [by apply get_var_bound|]. split; [by apply name_for_bound|].
  intros key v Hkey.
  assert (key ≠ name) as Hne by (intros ->; congruence).
  destruct (get_var_other self sc s name value key h Hscope Hs Hne) as [Heval _].
  unfold eval in Heval. rewrite Hkey in Heval.
  destruct (get_var self key (<[sc := OScope (bound s name value)]> h))
    as [[v' h1]|e] eqn:Hafter; [|done].
  assert (v' = v) as -> by congruence. f_equal. f_equal.
  unfold get_var in Hafter. mbind Hafter as sc' h2 Hsc'.
  apply holder_scope_Ok in Hsc' as [-> _].
  cbv beta in Hafter. unfold Scope_getitem in Hafter.
  by apply pure_read_Ok in Hafter as [-> _].
Qed.

Lemma generate_name_keeps_bindings_witness :
  ∃ h', generate_name 5 "body" 10 demo_heap = Ok (10, h')
        ∧ get_var 5 "body0" h' = Ok (10, h')
        ∧ get_var 5 "body" h' = Ok (10, h').
Proof.
  eexists. split; [vm_compute; reflexivity|].
  split; [vm_compute; reflexivity|].
  destruct (generate_name_keeps_bindings 5 "body" 10 demo_heap 10 _ eq_refl)
    as (_ & name & _ & _ & _ & Hkeep).
  apply Hkeep. reflexivity.
Defined.
(** * The life of a function *)

(** ** A new function *)

(** The objects [IRFunction.__init__] creates, as the function at [n] of the
    unit whose scope is [top_scope]: the function, its scope, its preamble
    and its entry and exit super blocks. *)
Definition fresh_function (n : nat) (name : string) (top_scope : loc)
    (entry_name exit_name : string) : list Obj :=
  [ OFunc (mkFunc (n + 1) name (n + 2) false 0 (n + 3) (n + 4) [] false false false false
                  [] [] []);
    OScope (mkScope [(entry_name, n + 3); (exit_name, n + 4)]
                    [(n + 3, entry_name); (n + 4, exit_name)] (Some top_scope));
    OPreamble (mkPreamble [] n false);
    OBlock (mkBlock [] n entry_name n false true false false 0 true false true);
    OBlock (mkBlock [] n exit_name n false true false false 0 true false false) ].

Ltac recnorm H :=
  cbn [set_entryblock set_exitblock set_is_entry set_finished set_f_use
       f_scope f_name f_preamble _finished f_use _entryblock _exitblock post_exit_insns
       _varsfinalized _is_extern _is_pure _is_inline f_params f_returns future_expect_sig
       insns holder b_name _func needs_success_tracker defined is_function force b_use
       is_super _clear is_entry] in H.

(** [uniq] over a callback that creates one object. *)
Lemma uniq_alloc_Ok self hint (callback : string → M loc) (mk : string → Obj) h obj h' :
  (∀ name, callback name = alloc (mk name)) →
  uniq self hint callback h = Ok (obj, h') →
  ∃ sc s name, holder_scope self h = Ok (sc, h) ∧ h !! sc = Some (OScope s)
               ∧ Scope_contains sc name h = Ok (false, h)
               ∧ dict_get (items s) name = None
               ∧ obj = length h
               ∧ h' = <[sc := OScope (bound s name (length h))]> (h ++ [mk name]).
Proof.
  intros Hcb H. unfold uniq in H. mbind H as name h0 Hname.
  apply uniq_name_Ok in Hname as (-> & scope & Hscope & Hcont).
  destruct (Scope_contains_Ok_scope _ _ _ _ _ Hcont) as [s Hs].
  pose proof (Scope_contains_Ok _ _ _ _ _ Hcont) as [Hrec _].
  pose proof (Scope_contains_false_local _ _ _ _ _ Hs Hrec) as Hnone.
  mbind H as obj' h1 Hnew. rewrite Hcb in Hnew. unfold alloc in Hnew. simplify_eq.
  mbind H as scope' h2 Hscope'.
  pose proof (holder_scope_Ok _ _ _ _ Hscope') as (-> & Hcase).
  pose proof (holder_scope_Ok _ _ _ _ Hscope) as (_ & Hcase0).
  assert (scope' = scope) as ->.
  { destruct Hcase0 as [(t & Ht & ->)|(f & Hf & ->)];
      destruct Hcase as [(t' & Ht' & ->)|(f' & Hf' & ->)];
      rewrite lookup_app_l in * by (by eapply lookup_lt_Some); by simplify_eq. }
  mbind H as u h4 Hset. destruct u. unfold ret in H. simplify_eq.
  assert ((h ++ [mk name]) !! scope = Some (OScope s)) as Hs1
    by (by apply lookup_app_l_Some).
  rewrite (Scope_setitem_eq _ _ _ _ _ Hs1) in Hset. injection Hset as <-.
  exists scope, s, name. repeat (split; [done|]).
  unfold bound. by rewrite dict_set_absent.
Qed.

Lemma IRFunction_init_Ok name top h self h' t :
  IRFunction_init name top h = Ok (self, h') → h !! top = Some (OTop t) →
  self = length h
  ∧ ∃ entry_name exit_name,
      entry_name ≠ exit_name
      ∧ h' = h ++ fresh_function (length h) name (t_scope t) entry_name exit_name.
Proof.
  intros H Ht. unfold IRFunction_init in H.
  rewrite (bind_eq _ _ _ _ _ (get_top_eq _ _ _ Ht)) in H. cbv beta in H.
  unfold alloc at 1 in H. unfold bind at 1 in H.
  unfold alloc at 1 in H. unfold bind at 1 in H.
  unfold alloc at 1 in H. unfold bind at 1 in H.
  unfold write at 1 in H. unfold bind at 1 in H.
  heapnorm H.
  mbind H as entry h1 Hentry.
  eapply (uniq_alloc_Ok _ _ _ (λ name, OBlock (mkBlock [] (length h) name (length h)
            false true false false 0 true false false))) in Hentry; [|done].
  destruct Hentry as (sc & s & entry_name & Hsc & Hs & _ & _ & -> & ->).
  apply holder_scope_Ok in Hsc as [_ [(t' & Ht' & _)|(f & Hf & ->)]].
  { rewrite lookup_end0 in Ht'. done. }
  rewrite lookup_end0 in Hf. cbn in Hf. simplify_eq. cbn [f_scope] in *.
  rewrite lookup_end in Hs. cbn in Hs. simplify_eq.
  heapnorm H.
  mstep H as f Hf. rewrite lookup_end0 in Hf. cbn in Hf. simplify_eq.
  mbind H as u h1 Hw. unfold write in Hw. simplify_eq. heapnorm H. recnorm H.
  mstep H as b Hb. rewrite lookup_end in Hb. cbn in Hb. simplify_eq.
  mbind H as u h1 Hw. unfold write in Hw. simplify_eq. heapnorm H. recnorm H.
  mbind H as exit h1 Hexit.
  eapply (uniq_alloc_Ok _ _ _ (λ name, OBlock (mkBlock [] (length h) name (length h)
            false true false false 0 true false false))) in Hexit; [|done].
  destruct Hexit as (sc & s & exit_name & Hsc & Hs & _ & Hnone & -> & ->).
  apply holder_scope_Ok in Hsc as [_ [(t' & Ht' & _)|(f & Hf & ->)]].
  { rewrite lookup_end0 in Ht'. done. }
  rewrite lookup_end0 in Hf. cbn in Hf. simplify_eq. recnorm Hs.
  rewrite lookup_end in Hs. cbn in Hs. simplify_eq.
  recnorm H. heapnorm H.
  mstep H as f Hf. rewrite lookup_end0 in Hf. cbn in Hf. simplify_eq.
  mbind H as u h1 Hw. unfold write in Hw. unfold ret in H. simplify_eq.
  split; [done|]. exists entry_name, exit_name.
  cbn in Hnone. case_decide as Hne; [done|]. split; [done|].
  rewrite insert_end0. cbn [insert list_insert].
  f_equal. unfold fresh_function, bound, set_exitblock, set_entryblock, set_is_entry. cbn.
  rewrite decide_False by lia.
  repeat f_equal; lia.
Qed.

Section fresh_function.
Context (h : Heap) (name : string) (top_scope : loc) (entry_name exit_name : string).
Local Notation n := (length h).
Local Notation h' := (h ++ fresh_function (length h) name top_scope entry_name exit_name).

Lemma fresh_function_func :
  h' !! n = Some (OFunc (mkFunc (n + 1) name (n + 2) false 0 (n + 3) (n + 4) [] false false
                                false false [] [] [])).
Proof. by rewrite lookup_end0. Qed.

Lemma fresh_function_scope :
  h' !! (n + 1)
  = Some (OScope (mkScope [(entry_name, n + 3); (exit_name, n + 4)]
                          [(n + 3, entry_name); (n + 4, exit_name)] (Some top_scope))).
Proof. by rewrite lookup_end. Qed.

Lemma fresh_function_allblocks : allblocks n h' = Ok ([n + 3; n + 4], h').
Proof.
  rewrite (allblocks_eq _ _ _ _ fresh_function_func fresh_function_scope).
  unfold allblocks_of, is_BasicBlock. cbn [items dict_values fmap list_fmap snd List.filter].
  by rewrite !lookup_end.
Qed.

Lemma fresh_function_blocks : blocks n h' = Ok ([], h').
Proof.
  unfold blocks. rewrite (bind_eq _ _ _ _ _ (get_func_eq _ _ _ fresh_function_func)).
  rewrite (bind_eq _ _ _ _ _ fresh_function_allblocks). cbn [_entryblock _exitblock].
  unfold ret. do 2 f_equal. cbn [List.filter].
  rewrite !bool_decide_eq_true_2; [done| |]; set_solver.
Qed.

Lemma fresh_function_is_defined : is_defined n h' = Ok (false, h').
Proof.
  unfold is_defined. rewrite (bind_eq _ _ _ _ _ (get_func_eq _ _ _ fresh_function_func)).
  cbn [_varsfinalized negb]. by rewrite (bind_eq _ _ _ _ _ fresh_function_blocks).
Qed.

End fresh_function.

(** X11.  A function that has just been created holds its entry and exit
    super blocks and no other block, so it is not defined: [global_name],
    [end] and [variables_finalized] fail their first assertion on it. *)
Theorem new_function_is_undefined (name : string) (top : loc) (h : Heap) (self : loc)
    (h' : Heap) (t : Top) :
  IRFunction_init name top h = Ok (self, h') → h !! top = Some (OTop t) →
  ∃ f be bx,
    h' !! self = Some (OFunc f) ∧ f_name f = name ∧ _entryblock f ≠ _exitblock f
    ∧ h' !! _entryblock f = Some (OBlock be) ∧ is_super be = true ∧ is_entry be = true
    ∧ h' !! _exitblock f = Some (OBlock bx) ∧ is_super bx = true ∧ is_entry bx = false
    ∧ allblocks self h' = Ok ([_entryblock f; _exitblock f], h')
    ∧ blocks self h' = Ok ([], h')
    ∧ is_defined self h' = Ok (false, h')
    ∧ global_name self h' = Err (AssertionError name)
    ∧ IRFunction_end self h' = Err (AssertionError "self.is_defined")
    ∧ variables_finalized self h' = Err (AssertionError name).
Proof.
  intros H Ht. apply (IRFunction_init_Ok _ _ _ _ _ _ H) in Ht
    as (-> & entry_name & exit_name & Hne & ->).
  pose proof (fresh_function_func h name (t_scope t) entry_name exit_name) as Hf.
  pose proof (fresh_function_is_defined h name (t_scope t) entry_name exit_name) as Hd.
  eexists _, _, _. split; [exact Hf|]. cbn [f_name _entryblock _exitblock].
  split; [done|]. split; [lia|].
  split; [by rewrite lookup_end|]. split; [done|]. split; [done|].
  split; [by rewrite lookup_end|]. split; [done|]. split; [done|].
  split; [apply fresh_function_allblocks|]. split; [apply fresh_function_blocks|].
  split; [done|]. split; [|split].
  - unfold global_name. rewrite (bind_eq _ _ _ _ _ (read_eq _ _ _ Hf)). cbv beta iota.
    unfold IRFunction_global_name. rewrite (bind_eq _ _ _ _ _ Hd).
    by rewrite (bind_eq _ _ _ _ _ (get_func_eq _ _ _ Hf)).
  - unfold IRFunction_end. by rewrite (bind_eq _ _ _ _ _ Hd).
  - unfold variables_finalized. rewrite (bind_eq _ _ _ _ _ Hd).
    by rewrite (bind_eq _ _ _ _ _ (get_func_eq _ _ _ Hf)).
Qed.

Lemma new_function_is_undefined_witness :
  ∃ h', IRFunction_init "g" 0 demo_heap = Ok (11, h')
        ∧ global_name 11 h' = Err (AssertionError "g").
Proof.
  eexists. split; [vm_compute; reflexivity|].
  destruct (new_function_is_undefined "g" 0 demo_heap 11 _ _ eq_refl eq_refl)
    as (f & be & bx & _ & _ & _ & _ & _ & _ & _ & _ & _ & _ & _ & _ & Hg & _).
  exact Hg.
Defined.

(** ** The end of a function *)

(** What [IRFunction.end] checks: the function is defined, its user blocks
    are, and every function whose signature was expected while this one was
    not finished is finished and has the parameters and the returns of
    this one. *)
Definition defined_now (h : Heap) (f : Func) (s : Scope) : bool :=
  if negb (_varsfinalized f) then bool_decide (0 < length (blocks_of h f s))
  else bool_decide (0 < length (allblocks_of h s)).

Definition block_defined (h : Heap) (b : loc) : bool :=
  match h !! b with
  | Some (OBlock blk) => defined blk
  | _ => false
  end.

Definition expectation_met (h : Heap) (f : Func) (other : loc) : bool :=
  match h !! other with
  | Some (OFunc g) =>
      _finished g && bool_decide (f_params f = f_params g)
      && bool_decide (f_returns f = f_returns g)
  | Some (OExtern e) =>
      bool_decide (f_params f = e_params e) && bool_decide (f_returns f = e_returns e)
  | _ => false
  end.

Lemma is_defined_eq h self f s :
  h !! self = Some (OFunc f) → h !! f_scope f = Some (OScope s) →
  is_defined self h = Ok (defined_now h f s, h).
Proof.
  intros Hf Hs. unfold is_defined, defined_now.
  rewrite (bind_eq _ _ _ _ _ (get_func_eq _ _ _ Hf)). cbv beta.
  destruct (negb (_varsfinalized f)).
  - by rewrite (bind_eq _ _ _ _ _ (blocks_eq _ _ _ _ Hf Hs)).
  - by rewrite (bind_eq _ _ _ _ _ (allblocks_eq _ _ _ _ Hf Hs)).
Qed.

Lemma Block_end_cases h b :
  Block_end b h = Ok (tt, h) ∧ block_defined h b = true
  ∨ (∃ e, Block_end b h = Err e) ∧ block_defined h b = false.
Proof.
  unfold Block_end, block_defined, get_block, bind, read.
  destruct (h !! b) as [[| |blk| | | | | | |]|]; try (right; split; [by eexists|done]).
  unfold assert, ret, raise. destruct (defined blk); [by left|].
  right. split; [by eexists|done].
Qed.

Lemma for_each_cases {A} (body : A → M unit) (ok : A → bool) h l :
  (∀ x, body x h = Ok (tt, h) ∧ ok x = true ∨ (∃ e, body x h = Err e) ∧ ok x = false) →
  for_each l body h = Ok (tt, h) ∧ forallb ok l = true
  ∨ (∃ e, for_each l body h = Err e) ∧ forallb ok l = false.
Proof.
  intros Hbody. induction l as [|x l IH]; cbn [for_each forallb]; [by left|].
  destruct (Hbody x) as [[Hx ->]|[[e Hx] ->]].
  - rewrite (bind_eq _ _ _ _ _ Hx). apply IH.
  - right. split; [|done]. exists e. by apply bind_fail.
Qed.

Lemma expect_signature_finished_cases h self f other :
  h !! self = Some (OFunc f) → _finished f = true →
  IRFunction_expect_signature self other h = Ok (tt, h) ∧ expectation_met h f other = true
  ∨ (∃ e, IRFunction_expect_signature self other h = Err e)
    ∧ expectation_met h f other = false.
Proof.
  intros Hf Hfin. unfold expectation_met, IRFunction_expect_signature.
  assert (Hfail : ∀ e, finished other h = Err e →
            ∃ e', (fin <- finished other;; assert fin "other.finished";;;
                   f0 <- get_func self;;
                   (if negb (_finished f0)
                    then write self
                           (OFunc (set_future_expect_sig f0 (future_expect_sig f0 ++ [other])))
                    else ps <- params other;; assert (bool_decide (f_params f0 = ps)) "params";;;
                         rs <- returns other;;
                         assert (bool_decide (f_returns f0 = rs)) "returns")) h = Err e').
  { intros e He. exists e. by apply bind_fail. }
  destruct (h !! other) as [o|] eqn:Ho.
  2: { right. split; [|done]. eapply Hfail. unfold finished, bind, read. by rewrite Ho. }
  assert (Hrest : ∀ ps rs,
            params other h = Ok (ps, h) → returns other h = Ok (rs, h) →
            finished other h = Ok (true, h) →
            IRFunction_expect_signature self other h = Ok (tt, h)
            ∧ bool_decide (f_params f = ps) && bool_decide (f_returns f = rs) = true
            ∨ (∃ e, IRFunction_expect_signature self other h = Err e)
              ∧ bool_decide (f_params f = ps) && bool_decide (f_returns f = rs) = false).
  { intros ps rs Hps Hrs Hfo. unfold IRFunction_expect_signature.
    rewrite (bind_eq _ _ _ _ _ Hfo). cbv beta. cbn [assert].
    rewrite (bind_eq _ _ _ _ _ (eq_refl : ret tt h = Ok (tt, h))). cbv beta.
    rewrite (bind_eq _ _ _ _ _ (get_func_eq _ _ _ Hf)). cbv beta. rewrite Hfin. cbn [negb].
    rewrite (bind_eq _ _ _ _ _ Hps). cbv beta.
    destruct (bool_decide (f_params f = ps)); cbn [assert andb];
      [|right; split; [eexists; reflexivity|done]].
    rewrite (bind_eq _ _ _ _ _ (eq_refl : ret tt h = Ok (tt, h))). cbv beta.
    rewrite (bind_eq _ _ _ _ _ Hrs). cbv beta.
    destruct (bool_decide (f_returns f = rs)); cbn [assert]; [by left|].
    right; split; [eexists; reflexivity|done]. }
  destruct o as [| | |g|e| | | | |];
    try (right; split; [|done]; eapply Hfail; unfold finished, bind, read; by rewrite Ho).
  - destruct (_finished g) eqn:Hg; cbn [andb].
    + apply Hrest; unfold params, returns, finished, bind, read, ret; by rewrite Ho, ?Hg.
    + right. split; [|done]. eexists. unfold finished, bind, read. rewrite Ho. cbn.
      unfold ret. by rewrite Hg.
  - apply Hrest; unfold params, returns, finished, bind, read, ret; by rewrite Ho.
Qed.

(** The outcome of [IRFunction.end]. *)
Lemma IRFunction_end_eq h self f s :
  h !! self = Some (OFunc f) → h !! f_scope f = Some (OScope s) →
  let h1 := <[self := OFunc (set_finished f true)]> h in
  let accepted := defined_now h f s && negb (_finished f)
                  && forallb (block_defined h) (blocks_of h f s)
                  && forallb (expectation_met h1 (set_finished f true)) (future_expect_sig f) in
  IRFunction_end self h = Ok (tt, h1) ∧ accepted = true
  ∨ (∃ e, IRFunction_end self h = Err e) ∧ accepted = false.
Proof.
  intros Hf Hs h1 accepted. unfold accepted, IRFunction_end.
  rewrite (bind_eq _ _ _ _ _ (is_defined_eq _ _ _ _ Hf Hs)). cbv beta.
  destruct (defined_now h f s); cbn [assert andb]; [|right; split; [eexists; reflexivity|done]].
  rewrite (bind_eq _ _ _ _ _ (eq_refl : ret tt h = Ok (tt, h))). cbv beta.
  rewrite (bind_eq _ _ _ _ _ (get_func_eq _ _ _ Hf)). cbv beta.
  destruct (_finished f) eqn:Hfin; cbn [negb assert andb]; [right; split; [eexists; reflexivity|done]|].
  rewrite (bind_eq _ _ _ _ _ (eq_refl : ret tt h = Ok (tt, h))). cbv beta.
  rewrite (bind_eq _ _ _ _ _ (blocks_eq _ _ _ _ Hf Hs)). cbv beta.
  destruct (for_each_cases Block_end (block_defined h) h (blocks_of h f s) (Block_end_cases h))
    as [[Hends ->]|[[e Hends] ->]]; [|right; split; [|done]; exists e; by apply bind_fail].
  rewrite (bind_eq _ _ _ _ _ Hends). cbv beta.
  rewrite (bind_eq _ _ _ _ _ (get_func_eq _ _ _ Hf)). cbv beta.
  rewrite (bind_eq _ _ _ _ _ (write_eq _ _ _)). cbv beta. fold h1. cbn [andb].
  assert (Hf1 : h1 !! self = Some (OFunc (set_finished f true))).
  { apply list_lookup_insert_eq. by eapply lookup_lt_Some. }
  destruct (for_each_cases (IRFunction_expect_signature self)
              (expectation_met h1 (set_finished f true)) h1 (future_expect_sig f)
              (λ other, expect_signature_finished_cases h1 self _ other Hf1 eq_refl))
    as [[Hsig ->]|[[e Hsig] ->]]; [by left|]. right. split; [by exists e|done].
Qed.

(** X12.  [IRFunction.end] succeeds exactly when the function is defined
    and not yet finished, each of its user blocks is defined, and each
    function whose signature was expected while this one was unfinished is
    finished and has the same parameters and returns; all it changes then
    is the [finished] flag.  In every other case it raises. *)
Theorem IRFunction_end_accepts (self : loc) (f : Func) (s : Scope) (h : Heap) :
  h !! self = Some (OFunc f) → h !! f_scope f = Some (OScope s) →
  let h1 := <[self := OFunc (set_finished f true)]> h in
  let accepted :=
    defined_now h f s && negb (_finished f)
    && forallb (block_defined h) (blocks_of h f s)
    && forallb (expectation_met h1 (set_finished f true)) (future_expect_sig f) in
  (accepted = true → IRFunction_end self h = Ok (tt, h1))
  ∧ (accepted = false → ∃ e, IRFunction_end self h = Err e)
  ∧ (∀ h', IRFunction_end self h = Ok (tt, h') → h' = h1 ∧ accepted = true).
Proof.
  intros Hf Hs h1 accepted.
  pose proof (IRFunction_end_eq h self f s Hf Hs) as H. cbv zeta in H.
  fold h1 in H. fold accepted in H. clearbody accepted h1.
  destruct H as [[Hok Hacc]|[[e Herr] Hacc]].
  - split; [done|]. split; [congruence|]. intros h' H. split; [congruence|done].
  - split; [congruence|]. split; [by exists e|]. intros h' H. congruence.
Qed.

Lemma IRFunction_end_accepts_witness :
  ∃ f s, demo_heap !! 5 = Some (OFunc f) ∧ demo_heap !! 6 = Some (OScope s)
         ∧ IRFunction_end 5 demo_heap
           = Ok (tt, <[5 := OFunc (set_finished f true)]> demo_heap).
Proof.
  eexists _, _. split; [reflexivity|]. split; [reflexivity|].
  apply (IRFunction_end_accepts 5 _ _ demo_heap eq_refl eq_refl). reflexivity.
Defined.

(** X13.  While a function is not finished, [expect_signature] compares
    nothing: it only requires the other function to be finished and notes
    it.  The comparison is made by [end]: if [end] then succeeds, the other
    function has the parameters and the returns of this one. *)
Theorem expect_signature_deferred_to_end (self : loc) (f : Func) (other : loc) (h : Heap) :
  h !! self = Some (OFunc f) → _finished f = false →
  finished other h = Ok (true, h) →
  let h1 := <[self := OFunc (set_future_expect_sig f (future_expect_sig f ++ [other]))]> h in
  IRFunction_expect_signature self other h = Ok (tt, h1)
  ∧ ∀ h2, IRFunction_end self h1 = Ok (tt, h2) →
          params other h2 = Ok (f_params f, h2) ∧ returns other h2 = Ok (f_returns f, h2).
Proof.
  intros Hf Hfin Hother h1. split.
  - unfold IRFunction_expect_signature. rewrite (bind_eq _ _ _ _ _ Hother). cbv beta.
    cbn [assert]. rewrite (bind_eq _ _ _ _ _ (eq_refl : ret tt h = Ok (tt, h))). cbv beta.
    rewrite (bind_eq _ _ _ _ _ (get_func_eq _ _ _ Hf)). cbv beta. by rewrite Hfin.
  - intros h2 Hend.
    assert (Hf1 : h1 !! self
                  = Some (OFunc (set_future_expect_sig f (future_expect_sig f ++ [other])))).
    { apply list_lookup_insert_eq. by eapply lookup_lt_Some. }
    assert (∃ s, h1 !! f_scope f = Some (OScope s)) as [s Hs].
    { unfold IRFunction_end in Hend. mbind Hend as d h3 Hd. unfold is_defined in Hd.
      mstep Hd as f' Hf'. destruct (negb (_varsfinalized f')); mbind Hd as bs h4 Hbs.
      - apply blocks_Ok in Hbs as (_ & f'' & s & Hf'' & Hs & _). exists s. by simplify_eq.
      - apply allblocks_Ok in Hbs as (_ & f'' & s & Hf'' & Hs & _). exists s. by simplify_eq. }
    destruct (IRFunction_end_eq h1 self _ s Hf1 Hs) as [[Hok Hacc]|[[e Herr] _]];
      [|congruence].
    rewrite Hok in Hend. injection Hend as <-.
    apply andb_true_iff in Hacc as [_ Hacc].
    cbn [future_expect_sig set_future_expect_sig] in Hacc.
    rewrite forallb_app in Hacc. apply andb_true_iff in Hacc as [_ Hacc].
    cbn [forallb] in Hacc. rewrite andb_true_r in Hacc.
    unfold expectation_met in Hacc. unfold params, returns, bind, read.
    destruct (_ !! other) as [[| | |g|e| | | | |]|]; try done.
    + apply andb_true_iff in Hacc as [Hacc Hr]. apply andb_true_iff in Hacc as [_ Hp].
      apply bool_decide_eq_true_1 in Hp, Hr. cbn in Hp, Hr. unfold ret. by rewrite Hp, Hr.
    + apply andb_true_iff in Hacc as [Hp Hr].
      apply bool_decide_eq_true_1 in Hp, Hr. cbn in Hp, Hr. unfold ret. by rewrite Hp, Hr.
Qed.

(** A function that is not finished and a stub whose signature differs. *)
Definition demo_heap_with_stub : list Obj :=
  demo_heap ++ [OExtern (mkExtern "g" [(i32, "byval")] [])].

Lemma expect_signature_deferred_to_end_witness :
  ∃ h1, IRFunction_expect_signature 5 11 demo_heap_with_stub = Ok (tt, h1)
        ∧ IRFunction_end 5 h1 = Err (AssertionError "params").
Proof.
  eexists. split.
  - refine (proj1 (expect_signature_deferred_to_end 5 _ 11 demo_heap_with_stub
                     eq_refl eq_refl eq_refl)).
  - vm_compute. reflexivity.
Defined.

(** ** Blocks make a function defined *)

Lemma create_block_inv self hint h b h' f :
  create_block self hint h = Ok (b, h') → h !! self = Some (OFunc f) →
  ∃ s name,
    h !! f_scope f = Some (OScope s) ∧ dict_get (items s) name = None
    ∧ Scope_contains (f_scope f) name h = Ok (false, h)
    ∧ b = length h
    ∧ h' = <[f_scope f := OScope (bound s name (length h))]>
             (h ++ [OBlock (mkBlock [] self name self false true false false 0
                                    false false false)]).
Proof.
  intros H Hf. unfold create_block in H. mbind H as block h1 Huniq.
  eapply (uniq_alloc_Ok _ _ _ (λ name, OBlock (mkBlock [] self name self
            false false false false 0 false false false))) in Huniq; [|done].
  destruct Huniq as (sc & s & name & Hsc & Hs & Hfree & Hnone & -> & ->).
  apply holder_scope_Ok in Hsc as [_ [(t' & Ht' & _)|(f' & Hf' & ->)]]; [congruence|].
  assert (f' = f) as -> by congruence.
  pose proof (lookup_lt_Some _ _ _ Hs) as Hlt.
  mstep H as blk Hblk. rewrite list_lookup_insert_ne in Hblk by lia.
  rewrite lookup_end0 in Hblk. cbn in Hblk. simplify_eq.
  mbind H as u h2 Hw. unfold write in Hw. unfold ret in H. simplify_eq.
  exists s, name. repeat (split; [done|]).
  rewrite list_insert_insert_ne by lia. f_equal. by rewrite insert_end0.
Qed.

(** X14.  A block made by [create_block] becomes the last user block of the
    function, and from then on the function is defined: [global_name]
    answers, and [end] finds the block defined.  The scope is required to
    name objects of the store only, and so are the entry and exit blocks. *)
Theorem create_block_defines (self : loc) (hint : string) (h : Heap) (b : loc)
    (h' : Heap) (f : Func) (s : Scope) :
  create_block self hint h = Ok (b, h') →
  h !! self = Some (OFunc f) → h !! f_scope f = Some (OScope s) →
  scope_closed h s = true → _entryblock f < length h → _exitblock f < length h →
  blocks self h' = Ok (blocks_of h f s ++ [b], h')
  ∧ is_defined self h' = Ok (true, h')
  ∧ global_name self h' = Ok (f_name f, h')
  ∧ Block_end b h' = Ok (tt, h').
Proof.
  intros H Hf Hs Hclosed Hentry Hexit.
  apply (create_block_inv _ _ _ _ _ _ H) in Hf as Hinv.
  destruct Hinv as (s0 & name & Hs0 & Hnone & _ & -> & ->).
  assert (s0 = s) as -> by congruence. clear Hs0.
  set (blk := mkBlock [] self name self false true false false 0 false false false).
  set (s' := bound s name (length h)).
  set (h' := <[f_scope f := OScope s']> (h ++ [OBlock blk])).
  pose proof (lookup_lt_Some _ _ _ Hf) as Hlt.
  pose proof (lookup_lt_Some _ _ _ Hs) as Hlts.
  assert (Hne : self ≠ f_scope f) by (intros Heq; rewrite Heq in Hf; congruence).
  assert (Hf' : h' !! self = Some (OFunc f)).
  { unfold h'. rewrite list_lookup_insert_ne by done. by apply lookup_app_l_Some. }
  assert (Hs' : h' !! f_scope f = Some (OScope s')).
  { unfold h'. apply list_lookup_insert_eq. rewrite length_app. lia. }
  assert (Hnew : h' !! length h = Some (OBlock blk)).
  { unfold h'. rewrite list_lookup_insert_ne by lia. by rewrite lookup_end0. }
  assert (Hold : ∀ v, v ∈ dict_values (items s) → is_BasicBlock h' v = is_BasicBlock h v).
  { intros v Hv. pose proof (scope_closed_spec _ _ _ Hclosed Hv) as Hvlt.
    unfold is_BasicBlock, h'. destruct (decide (v = f_scope f)) as [->|Hvs].
    - rewrite list_lookup_insert_eq by (rewrite length_app; lia). by rewrite Hs.
    - rewrite list_lookup_insert_ne by done. by rewrite lookup_app_l. }
  assert (Hblocks : blocks_of h' f s' = blocks_of h f s ++ [length h]).
  { unfold blocks_of, allblocks_of, s', bound, dict_values. cbn [items set_items].
    rewrite fmap_app, !List.filter_app. cbn [fmap list_fmap snd List.filter].
    unfold is_BasicBlock at 2. rewrite Hnew. cbn [List.filter].
    assert (Hnotin : length h ∉ [_entryblock f; _exitblock f]).
    { rewrite !elem_of_cons, elem_of_nil. intros [?|[?|[]]]; lia. }
    rewrite (bool_decide_eq_false_2 _ Hnotin). cbn [negb]. f_equal. f_equal. apply List.filter_ext_in. intros v Hv.
    apply Hold. by apply list_elem_of_In. }
  assert (Hdef : defined_now h' f s' = true).
  { unfold defined_now. destruct (negb (_varsfinalized f)).
    - rewrite Hblocks, length_app. cbn. apply bool_decide_eq_true_2. lia.
    - apply bool_decide_eq_true_2.
      assert (length (blocks_of h' f s') ≤ length (allblocks_of h' s')) as Hle.
      { unfold blocks_of. apply filter_length_le. }
      rewrite Hblocks, length_app in Hle. cbn [length] in Hle. lia. }
  split; [by rewrite (blocks_eq _ _ _ _ Hf' Hs'), Hblocks|].
  split; [by rewrite (is_defined_eq _ _ _ _ Hf' Hs'), Hdef|]. split.
  - unfold global_name. rewrite (bind_eq _ _ _ _ _ (read_eq _ _ _ Hf')). cbv beta iota.
    unfold IRFunction_global_name.
    rewrite (bind_eq _ _ _ _ _ (is_defined_eq _ _ _ _ Hf' Hs')), Hdef. cbv beta.
    by rewrite (bind_eq _ _ _ _ _ (get_func_eq _ _ _ Hf')).
  - unfold Block_end. by rewrite (bind_eq _ _ _ _ _ (get_block_eq _ _ _ Hnew)).
Qed.

Lemma create_block_defines_witness :
  ∃ h', create_block 5 "loop" demo_heap = Ok (11, h')
        ∧ blocks 5 h' = Ok ([10; 11], h').
Proof.
  eexists. split; [vm_compute; reflexivity|].
  refine (proj1 (create_block_defines 5 "loop" demo_heap 11 _ _ _ eq_refl eq_refl eq_refl
                   eq_refl _ _)); vm_compute; lia.
Defined.

(** ** Counting the uses of a function *)

Lemma is_BasicBlock_insert_func h l f f' x :
  h !! l = Some (OFunc f) →
  is_BasicBlock (<[l := OFunc f']> h) x = is_BasicBlock h x.
Proof.
  intros Hl. unfold is_BasicBlock. destruct (decide (l = x)) as [->|Hne].
  - rewrite list_lookup_insert_eq by (by eapply lookup_lt_Some). by rewrite Hl.
  - by rewrite list_lookup_insert_ne.
Qed.

Lemma allblocks_of_elem_block h s b :
  b ∈ allblocks_of h s → ∃ blk, h !! b = Some (OBlock blk).
Proof.
  unfold allblocks_of. rewrite list_elem_of_In, filter_In. intros [_ Hb].
  unfold is_BasicBlock in Hb. destruct (h !! b) as [[]|]; try done. eauto.
Qed.

(** X15.  Before the variables of a function are finalized, [usage] needs
    a user block: without one it raises an [IndexError].  With one, and with
    the entry super block (not cleared yet) first in the scope, it counts
    one use of the function and one use of the first user block, and changes
    nothing else: the entry super block does not count the use. *)
Theorem usage_before_finalization (self : loc) (f : Func) (s : Scope) (h : Heap) :
  h !! self = Some (OFunc f) → h !! f_scope f = Some (OScope s) →
  _varsfinalized f = false →
  (blocks_of h f s = [] → IRFunction_usage self h = Err IndexError)
  ∧ (∀ b0 rest be b rest' blk,
       allblocks_of h s = b0 :: rest →
       h !! b0 = Some (OBlock be) → is_super be = true → _clear be = false →
       blocks_of h f s = b :: rest' →
       h !! b = Some (OBlock blk) → is_super blk = false →
       IRFunction_usage self h
       = Ok (tt, <[b := OBlock (set_b_use blk (S (b_use blk)))]>
                   (<[self := OFunc (set_f_use f (S (f_use f)))]> h))).
Proof.
  intros Hf Hs Hfin.
  set (f1 := set_f_use f (S (f_use f))). set (h1 := <[self := OFunc f1]> h).
  pose proof (lookup_lt_Some _ _ _ Hf) as Hlt.
  assert (Hne : self ≠ f_scope f) by (intros Heq; rewrite Heq in Hf; congruence).
  assert (Hf1 : h1 !! self = Some (OFunc f1)) by (by apply list_lookup_insert_eq).
  assert (Hs1 : h1 !! f_scope f1 = Some (OScope s))
    by (unfold h1; by rewrite list_lookup_insert_ne).
  assert (Hall1 : allblocks_of h1 s = allblocks_of h s).
  { unfold allblocks_of. apply List.filter_ext. intros x.
    by eapply is_BasicBlock_insert_func. }
  assert (Hblocks1 : blocks_of h1 f1 s = blocks_of h f s).
  { unfold blocks_of. by rewrite Hall1. }
  assert (Hstart : IRFunction_usage self h = entry_point_usage self h1).
  { unfold IRFunction_usage. rewrite (bind_eq _ _ _ _ _ (get_func_eq _ _ _ Hf)). cbv beta.
    by rewrite (bind_eq _ _ _ _ _ (write_eq _ _ _)). }
  rewrite Hstart. unfold entry_point_usage.
  rewrite (bind_eq _ _ _ _ _ (allblocks_eq _ _ _ _ Hf1 Hs1)), Hall1. cbv beta.
  assert (Hrest : ∀ b0 rest blk0,
            allblocks_of h s = b0 :: rest → h1 !! b0 = Some (OBlock blk0) →
            let h2 := <[b0 := OBlock (Block_usage_obj blk0)]> h1 in
            (Block_usage b0;;; f0 <- get_func self;;
             (if negb (_varsfinalized f0)
              then bs <- blocks self;;
                   match bs with [] => raise IndexError | b :: _ => Block_usage b end
              else ret ())) h1
            = match blocks_of h f s with
              | [] => Err IndexError
              | b :: _ => Block_usage b h2
              end).
  { intros b0 rest blk0 Hall Hb0 h2.
    rewrite (bind_eq _ _ _ _ _ (Block_usage_eq _ _ _ Hb0)). cbv beta. fold h2.
    assert (b0 ≠ self) by (intros ->; congruence).
    assert (b0 ≠ f_scope f) by (intros ->; cbn in Hs1; congruence).
    assert (Hf2 : h2 !! self = Some (OFunc f1))
      by (unfold h2; by rewrite list_lookup_insert_ne).
    assert (Hs2 : h2 !! f_scope f1 = Some (OScope s))
      by (unfold h2; by rewrite list_lookup_insert_ne).
    rewrite (bind_eq _ _ _ _ _ (get_func_eq _ _ _ Hf2)). cbv beta.
    cbn [f1 _varsfinalized set_f_use]. rewrite Hfin. cbn [negb].
    rewrite (bind_eq _ _ _ _ _ (blocks_eq _ _ _ _ Hf2 Hs2)). cbv beta.
    unfold h2. rewrite (blocks_of_insert _ _ _ _ _ _ Hb0), Hblocks1.
    by destruct (blocks_of h f s). }
  split.
  - intros Hnone. destruct (allblocks_of h s) as [|b0 rest] eqn:Hall; [done|].
    destruct (allblocks_of_elem_block h1 s b0) as [blk0 Hb0].
    { rewrite Hall1. by left. }
    rewrite (Hrest _ _ _ eq_refl Hb0). by rewrite Hnone.
  - intros b0 rest be b rest' blk Hall Hb0 Hsuper Hclear Hbs Hb Hplain.
    assert (b0 ≠ self) by (intros ->; congruence).
    assert (b ≠ self) by (intros ->; congruence).
    assert (b ≠ b0) by (intros ->; congruence).
    assert (Hb01 : h1 !! b0 = Some (OBlock be))
      by (unfold h1; by rewrite list_lookup_insert_ne).
    rewrite Hall. rewrite (Hrest _ _ _ Hall Hb01), Hbs.
    assert (Hsame : Block_usage_obj be = be) by (unfold Block_usage_obj; by rewrite Hsuper, Hclear).
    rewrite Hsame, list_insert_id by done.
    assert (Hb1 : h1 !! b = Some (OBlock blk))
      by (unfold h1; by rewrite list_lookup_insert_ne).
    rewrite (Block_usage_eq _ _ _ Hb1). unfold Block_usage_obj. by rewrite Hplain.
Qed.

Lemma usage_before_finalization_witness :
  ∃ f s blk, demo_heap !! 5 = Some (OFunc f) ∧ demo_heap !! 6 = Some (OScope s)
    ∧ demo_heap !! 10 = Some (OBlock blk)
    ∧ IRFunction_usage 5 demo_heap
      = Ok (tt, <[10 := OBlock (set_b_use blk 1)]>
                  (<[5 := OFunc (set_f_use f 1)]> demo_heap)).
Proof.
  eexists _, _, _. split; [reflexivity|]. split; [reflexivity|]. split; [reflexivity|].
  refine (proj2 (usage_before_finalization 5 _ _ demo_heap eq_refl eq_refl eq_refl)
            8 [9; 10] _ 10 [] _ eq_refl eq_refl eq_refl eq_refl eq_refl eq_refl eq_refl).
Defined.
(** * Preambles *)

(** ** A preamble only holds instructions that are safe in a preamble *)

Definition preamble_ok (o : Obj) : bool :=
  match o with
  | OPreamble p => forallb preamble_safe (p_insns p)
  | _ => true
  end.

Definition preambles_safe (h : Heap) : bool := forallb preamble_ok h.

Lemma preambles_safe_spec h :
  preambles_safe h = true ↔ ∀ l o, h !! l = Some o → preamble_ok o = true.
Proof.
  unfold preambles_safe. rewrite forallb_forall. split.
  - intros H l o Hl. apply H, list_elem_of_In. by eapply list_elem_of_lookup_2.
  - intros H o Ho. apply list_elem_of_In, list_elem_of_lookup in Ho as [l Hl]. by eapply H.
Qed.

Lemma preambles_safe_insert h l o :
  preambles_safe h = true → preamble_ok o = true → preambles_safe (<[l := o]> h) = true.
Proof.
  rewrite !preambles_safe_spec. intros H Ho l' o' Hl'.
  destruct (decide (l = l')) as [->|Hne].
  - destruct (decide (l' < length h)) as [Hlt|Hge].
    + rewrite list_lookup_insert_eq in Hl' by done. by simplify_eq.
    + rewrite list_insert_ge in Hl' by lia. by eapply H.
  - rewrite list_lookup_insert_ne in Hl' by done. by eapply H.
Qed.

Lemma preambles_safe_alloc h o :
  preambles_safe h = true → preamble_ok o = true → preambles_safe (h ++ [o]) = true.
Proof.
  unfold preambles_safe. rewrite forallb_app. intros -> Ho. cbn. by rewrite Ho.
Qed.

Lemma preamble_safe_kind i i' : kind i' = kind i → preamble_safe i' = preamble_safe i.
Proof. unfold preamble_safe. by intros ->. Qed.

Lemma seq_append_safe self insn h h' :
  seq_append self insn h = Ok (tt, h') → preambles_safe h = true →
  (∀ p, h !! self = Some (OPreamble p) → preamble_safe insn = true) →
  preambles_safe h' = true.
Proof.
  intros H Hsafe Hinsn. unfold seq_append in H. mstep H as o Ho.
  destruct o as [|p|b| | | | | | |]; try done; unfold write in H; simplify_eq;
    (apply preambles_safe_insert; [done|]); [|done].
  cbn. rewrite forallb_app. cbn. rewrite (Hinsn _ Ho), andb_true_r.
  by apply (proj1 (preambles_safe_spec h) Hsafe _ _ Ho).
Qed.

Lemma write_func_safe (set : Func → Func) holder h h' :
  (f <- get_func holder ;; write holder (OFunc (set f))) h = Ok (tt, h') →
  preambles_safe h = true → preambles_safe h' = true.
Proof.
  intros H Hsafe. mstep H as f Hf. unfold write in H. simplify_eq.
  by apply preambles_safe_insert.
Qed.

Lemma activate_safe insn seq h insn' r h' :
  activate insn seq h = Ok ((insn', r), h') →
  preambles_safe h = true → preambles_safe h' = true.
Proof.
  intros H Hsafe. unfold activate in H.
  destruct (kind insn) eqn:Hkind;
    try (unfold activate_default, ret in H; by simplify_eq);
    try (mstep H as v Hv; unfold ret in H; simplify_eq;
         unfold construct, alloc in Hv; repeat case_match; simplify_eq;
         by apply preambles_safe_alloc).
  - destruct (args insn) as [|[] [|[] [|]]]; try done.
    mstep H as o Ho. destruct o; try done. mbind H as u h1 Hu.
    unfold ret in H. simplify_eq.
    destruct (negb _); [|unfold ret in Hu; by simplify_eq].
    unfold add_advancement_revoke in Hu. mstep Hu as f Hf.
    mbind Hu as r1 h2 Hadd. unfold ret in Hu. simplify_eq.
    unfold add_with in Hadd. mbind Hadd as insn1 h3 Hval.
    pose proof (validate_insn_Ok _ _ _ _ _ Hval) as [-> Hk].
    mbind Hadd as r2 h4 Hact. unfold activate_default, ret in Hact. simplify_eq.
    cbn [fst snd] in Hadd. mbind Hadd as u h5 Happ. destruct u.
    unfold ret in Hadd. simplify_eq.
    eapply seq_append_safe; [done..|]. intros p Hp.
    unfold validate_insn in Hval. rewrite (bind_eq _ _ _ _ _ (read_eq _ _ _ Hp)) in Hval.
    cbv beta iota in Hval. unfold Preamble_validate_insn in Hval. by mstep Hval as u Hu.
  - mbind H as holder h1 Hh. apply seq_holder_Ok in Hh as ->.
    mbind H as u h1 Hu. destruct u. unfold ret in H. simplify_eq.
    by eapply (write_func_safe _ _ _ _ Hu).
  - mbind H as holder h1 Hh. apply seq_holder_Ok in Hh as ->.
    mbind H as u h1 Hu. destruct u. unfold ret in H. simplify_eq.
    by eapply (write_func_safe _ _ _ _ Hu).
  - mbind H as holder h1 Hh. apply seq_holder_Ok in Hh as ->.
    mbind H as u h1 Hu. destruct u. unfold ret in H. simplify_eq.
    by eapply (write_func_safe _ _ _ _ Hu).
  - mbind H as holder h1 Hh. apply seq_holder_Ok in Hh as ->.
    mstep H as f Hf. mbind H as u h1 Hu. unfold write in Hu. unfold ret in H. simplify_eq.
    by apply preambles_safe_insert.
Qed.

(** The steps of a successful [add], whatever the activation hook is. *)
Lemma add_with_Ok_inv act self insn wn nh h r h' :
  add_with act self insn wn nh h = Ok (r, h') →
  ∃ insn1 insn2 r2 h1 h2,
    validate_insn self insn h = Ok (insn1, h)
    ∧ act insn1 self h = Ok ((insn2, r2), h1)
    ∧ seq_append self insn2 h1 = Ok (tt, h2)
    ∧ ((r = None ∧ h' = h2)
       ∨ (∃ v holder name, r = Some v ∧ store holder name v h2 = Ok (tt, h'))).
Proof.
  intros H. unfold add_with in H. mstep H as insn1 Hval.
  pose proof (validate_insn_Ok _ _ _ _ _ Hval) as [-> _].
  mbind H as r1 h1 Hact. destruct r1 as [insn2 r2]. cbn [fst snd] in H.
  mbind H as u h2 Happ. destruct u.
  exists insn1, insn2, r2, h1, h2. split; [done|]. split; [done|]. split; [done|].
  assert (∀ wn', match r2 with
                 | None => raise (AssertionError "ret is not None")
                 | Some v =>
                     holder <- seq_holder self ;;
                     name <- match wn' with
                             | Named name => ret name
                             | _ => uniq_name holder
                                      (match nh with
                                       | Some n => if bool_decide (n = "")
                                                   then insn_name insn1 else n
                                       | None => insn_name insn1
                                       end)
                             end ;;
                     store holder name v ;;; ret (Some v)
                 end h2 = Ok (r, h') →
          ∃ v holder name, r = Some v ∧ store holder name v h2 = Ok (tt, h')) as Hnamed.
  { intros wn' Hn. destruct r2 as [v|]; [|done].
    mstep Hn as holder Hh. apply seq_holder_Ok in Hh as ->.
    mbind Hn as name h3 Hname.
    assert (h3 = h2) as ->.
    { destruct wn'; try (by apply uniq_name_Ok in Hname as [-> _]).
      unfold ret in Hname. by simplify_eq. }
    mbind Hn as u h4 Hstore. destruct u. unfold ret in Hn. simplify_eq.
    by exists v, holder, name. }
  destruct wn as [| |[|]].
  - left. unfold ret in H. by simplify_eq.
  - right. eapply (Hnamed AutoName). exact H.
  - left. unfold ret in H. by simplify_eq.
  - right. eapply (Hnamed (Named _)). exact H.
Qed.

(** What [add] relies on of an activation hook: when the preambles are
    safe the hook leaves them safe, the instruction is as safe after it as
    before, and a block is no preamble afterwards. *)
Definition hook_keeps_safe (act : Insn → loc → M (Insn * option loc)) : Prop :=
  ∀ insn seq h res h',
    act insn seq h = Ok (res, h') → preambles_safe h = true →
    preambles_safe h' = true
    ∧ preamble_safe res.1 = preamble_safe insn
    ∧ ∀ b, h !! seq = Some (OBlock b) → is_Preamble h' seq = false.

(** The hooks of the model keep the preambles safe. *)
Lemma activate_keeps_safe : hook_keeps_safe activate.
Proof.
  intros insn seq h [insn' r] h' H Hsafe.
  split; [by eapply activate_safe|].
  split; [apply preamble_safe_kind; by eapply activate_kind|].
  intros b Hb.
  pose proof (activate_step _ _ _ _ _ _ (λ _, True) H (λ _ _, I)) as Hstep.
  destruct (step_old _ _ _ Hstep _ _ Hb) as (o1 & Ho1 & Hobj).
  unfold is_Preamble. rewrite Ho1. by destruct o1.
Qed.

(** X16.  [Preamble.validate_insn] runs before the activation hook: adding
    an instruction that is not safe in a preamble to a preamble fails its
    assertion whatever the hook of the instruction is.  And [add] itself
    keeps the preambles safe: if every preamble of the store holds only
    instructions that are safe in a preamble, and the hook of the
    instruction added keeps it so, the same is true after [add], with or
    without a name for the result. *)
Theorem add_keeps_preambles_safe (act : Insn → loc → M (Insn * option loc))
    (self : loc) (insn : Insn) (with_name : WithName) (namehint : option string)
    (h : Heap) :
  preambles_safe h = true →
  (∀ p, h !! self = Some (OPreamble p) → preamble_safe insn = false →
        add_with act self insn with_name namehint h
        = Err (AssertionError "insn.preamble_safe"))
  ∧ (hook_keeps_safe act →
     ∀ r h', add_with act self insn with_name namehint h = Ok (r, h') →
             preambles_safe h' = true).
Proof.
  intros Hsafe. split.
  - intros p Hp Hunsafe. unfold add_with.
    apply bind_fail. unfold validate_insn. rewrite (bind_eq _ _ _ _ _ (read_eq _ _ _ Hp)).
    cbv beta iota. unfold Preamble_validate_insn. by rewrite Hunsafe.
  - intros Hhook r h' H.
    apply add_with_Ok_inv in H
      as (insn1 & insn2 & r2 & h1 & h2 & Hval & Hact & Happ & Hname).
    destruct (Hhook _ _ _ _ _ Hact Hsafe) as (Hsafe1 & Hk2 & Hblock). cbn [fst] in Hk2.
    assert (Hsafe2 : preambles_safe h2 = true).
    { eapply seq_append_safe; [done..|]. intros p1 Hp1. rewrite Hk2.
      unfold validate_insn in Hval. mstep Hval as o Ho.
      destruct o as [|p|b| | | | | | |]; try done.
      - unfold Preamble_validate_insn in Hval.
        mstep Hval as u Hu. unfold ret in Hval. by simplify_eq.
      - specialize (Hblock _ Ho). unfold is_Preamble in Hblock.
        by rewrite Hp1 in Hblock. }
    destruct Hname as [(_ & ->) | (v & holder & name & _ & Hstore)]; [done|].
    apply store_inv in Hstore as (sc & s & _ & _ & _ & ->).
    by apply preambles_safe_insert.
Qed.

Lemma add_keeps_preambles_safe_witness :
  preambles_safe call_heap = true
  ∧ add_with activate 16 Return NoName None call_heap
    = Err (AssertionError "insn.preamble_safe")
  ∧ ∃ r h', add_with activate 16 (DefineVariable i32) AutoName (Some "tmp") call_heap
            = Ok (r, h')
            ∧ preambles_safe h' = true.
Proof.
  split; [reflexivity|]. split.
  - exact (proj1 (add_keeps_preambles_safe activate 16 Return NoName None call_heap
                    eq_refl) _ eq_refl eq_refl).
  - destruct (add_with activate 16 (DefineVariable i32) AutoName (Some "tmp") call_heap)
      as [[r h']|e] eqn:Hadd; [|vm_compute in Hadd; discriminate].
    exists r, h'. split; [reflexivity|].
    exact (proj2 (add_keeps_preambles_safe activate 16 _ _ _ call_heap eq_refl)
             activate_keeps_safe r h' Hadd).
Defined.

(** * Calls *)

(** ** The arguments a function accepts *)

(** An argument fits a parameter: a literal [int] a parameter of type
    [i32], a literal [float] one of type [q10], a variable one of its type. *)
Definition arg_accepted (h : Heap) (param : VarType * string) (arg : Val) : bool :=
  match arg with
  | VInt _ => bool_decide (param.1 = i32)
  | VFloat _ => bool_decide (param.1 = q10)
  | VRef l =>
      match h !! l with
      | Some (OVar v) => bool_decide (v_type v = param.1)
      | _ => false
      end
  | _ => false
  end.

(** A destination fits a return: nowhere ([None]), or a variable of its
    type. *)
Definition retvar_accepted (h : Heap) (rtype : VarType) (dest : Val) : bool :=
  match dest with
  | VNone => true
  | VRef l =>
      match h !! l with
      | Some (OVar v) => bool_decide (v_type v = rtype)
      | _ => false
      end
  | _ => false
  end.

(** A list of values fits a signature: there is no list when the signature
    is empty; otherwise there is one, of the same length, that fits
    pairwise. *)
Definition values_accepted {A} (fits : A → Val → bool) (sig : list A)
    (vals : option (list Val)) : Prop :=
  match vals with
  | None => sig = []
  | Some l => sig ≠ [] ∧ Forall2 (λ a v, fits a v = true) sig l
  end.

Lemma forallb_zip_Forall2 {A B} (ok : A → B → bool) (l : list A) (k : list B) :
  length k = length l →
  forallb (λ x, ok x.1 x.2) (zip l k) = true ↔ Forall2 (λ a b, ok a b = true) l k.
Proof.
  revert k. induction l as [|a l IH]; intros [|b k] Hlen; try done.
  cbn in Hlen. cbn [zip zip_with forallb fst snd]. rewrite andb_true_iff, IH by lia. split.
  - intros [? ?]. by constructor.
  - by intros [? ?]%Forall2_cons.
Qed.

(** The checks [validate_args] makes on an argument and on a destination. *)
Local Notation arg_check := (λ pa : (VarType * string) * Val,
  match pa.2 with
  | VInt _ => assert (bool_decide (pa.1.1 = i32)) "Literal int on non i32"
  | VFloat _ => assert (bool_decide (pa.1.1 = q10)) "Literal float on non q10"
  | VRef l =>
      o <- read l ;;
      match o with
      | OVar v => assert (bool_decide (v_type v = pa.1.1)) "Arg type mismatch"
      | _ => raise (AssertionError "Arg must be variable")
      end
  | _ => raise (AssertionError "Arg must be variable")
  end).

Local Notation retvar_check := (λ rd : VarType * Val,
  match rd.2 with
  | VNone => ret tt
  | VRef l =>
      o <- read l ;;
      match o with
      | OVar v => assert (bool_decide (v_type v = rd.1)) "Retvar type mismatch"
      | _ => raise (AssertionError "Retvar must be a var")
      end
  | _ => raise (AssertionError "Retvar must be a var")
  end).

Lemma arg_check_cases h (pa : (VarType * string) * Val) :
  arg_check pa h = Ok (tt, h) ∧ arg_accepted h pa.1 pa.2 = true
  ∨ (∃ e, arg_check pa h = Err e) ∧ arg_accepted h pa.1 pa.2 = false.
Proof.
  destruct pa as [[pt pp] a]. cbn [fst snd]. unfold arg_accepted. cbn [fst].
  destruct a as [| | | | |l]; try (right; split; [eexists; reflexivity|done]).
  - destruct (bool_decide (pt = i32)); [by left|right; split; [eexists; reflexivity|done]].
  - destruct (bool_decide (pt = q10)); [by left|right; split; [eexists; reflexivity|done]].
  - unfold bind, read.
    destruct (h !! l) as [[| | | | | |v| | |]|]; try (right; split; [eexists; reflexivity|done]).
    destruct (bool_decide (v_type v = pt)); [by left|right; split; [eexists; reflexivity|done]].
Qed.

Lemma retvar_check_cases h (rd : VarType * Val) :
  retvar_check rd h = Ok (tt, h) ∧ retvar_accepted h rd.1 rd.2 = true
  ∨ (∃ e, retvar_check rd h = Err e) ∧ retvar_accepted h rd.1 rd.2 = false.
Proof.
  destruct rd as [rt d]. cbn [fst snd]. unfold retvar_accepted.
  destruct d as [| | | | |l]; try (right; split; [eexists; reflexivity|done]).
  - by left.
  - unfold bind, read.
    destruct (h !! l) as [[| | | | | |v| | |]|]; try (right; split; [eexists; reflexivity|done]).
    destruct (bool_decide (v_type v = rt)); [by left|right; split; [eexists; reflexivity|done]].
Qed.

Lemma values_check_cases {A} (fits : A → Val → bool) (body : A * Val → M unit)
    (m1 m2 m3 : string) h (sig : list A) (vals : option (list Val)) :
  (∀ x, body x h = Ok (tt, h) ∧ fits x.1 x.2 = true
        ∨ (∃ e, body x h = Err e) ∧ fits x.1 x.2 = false) →
  let check := match sig, vals with
               | [], None => ret tt
               | [], Some _ => raise (AssertionError m1)
               | _ :: _, None => raise (AssertionError m2)
               | _ :: _, Some l =>
                   assert (bool_decide (length l = length sig)) m3 ;;;
                   for_each (zip sig l) body
               end in
  check h = Ok (tt, h) ∧ values_accepted fits sig vals
  ∨ (∃ e, check h = Err e) ∧ ¬ values_accepted fits sig vals.
Proof.
  intros Hbody check. unfold check, values_accepted.
  destruct sig as [|a sig], vals as [l|].
  - right. split; [eexists; reflexivity | by intros [? _]].
  - by left.
  - set (sig' := a :: sig). case_bool_decide as Hlen.
    + cbn [assert]. rewrite (bind_eq _ _ _ _ _ (eq_refl : ret tt h = Ok (tt, h))). cbv beta.
      destruct (for_each_cases body (λ x, fits x.1 x.2) h (zip sig' l) Hbody)
        as [[Hok Hall]|[[e Herr] Hall]].
      * left. split; [done|]. split; [done|]. by apply forallb_zip_Forall2.
      * right. split; [by exists e|]. intros [_ HF].
        apply forallb_zip_Forall2 in HF; [|done]. congruence.
    + right. split; [eexists; reflexivity|]. intros [_ HF].
      apply Forall2_length in HF. congruence.
  - right. split; [eexists; reflexivity | done].
Qed.

(** X17.  [validate_args] accepts a call exactly when the function is
    finished, the arguments fit the parameters and the destinations fit the
    returns.  A signature without parameters only takes [None] for the
    arguments (an empty list is refused), one with parameters a list of the
    same length in which a literal [int] meets an [i32], a literal [float] a
    [q10] and a variable a parameter of its type; likewise for the returns,
    where a destination may also be [None]. *)
Theorem validate_args_accepts (self : loc) (args retvars : option (list Val)) (h : Heap)
    (fin : bool) (ps : list (VarType * string)) (rs : list VarType) :
  finished self h = Ok (fin, h) → params self h = Ok (ps, h) →
  returns self h = Ok (rs, h) →
  (validate_args self args retvars h = Ok (tt, h)
   ↔ fin = true ∧ values_accepted (arg_accepted h) ps args
     ∧ values_accepted (retvar_accepted h) rs retvars)
  ∧ (validate_args self args retvars h = Ok (tt, h)
     ∨ ∃ e, validate_args self args retvars h = Err e).
Proof.
  intros Hfin Hps Hrs. unfold validate_args.
  rewrite (bind_eq _ _ _ _ _ Hfin). cbv beta.
  destruct fin; cbn [assert].
  2: { split; [|right; eexists; reflexivity]. split; [done|]. by intros [? _]. }
  rewrite (bind_eq _ _ _ _ _ (eq_refl : ret tt h = Ok (tt, h))). cbv beta.
  rewrite (bind_eq _ _ _ _ _ Hps). cbv beta.
  pose proof (values_check_cases (arg_accepted h) arg_check "Args when no params"
                "Missing args" "Incorrect number of args" h ps args (arg_check_cases h))
    as Hargs.
  cbv zeta in Hargs. destruct Hargs as [[Hok Hacc]|[[e Herr] Hrej]].
  2: { split; [|right; exists e; by apply bind_fail].
       split; [|by intros (_ & ? & _)]. intros H. by rewrite (bind_fail _ _ _ _ Herr) in H. }
  rewrite (bind_eq _ _ _ _ _ Hok). cbv beta.
  rewrite (bind_eq _ _ _ _ _ Hrs). cbv beta.
  pose proof (values_check_cases (retvar_accepted h) retvar_check "Retvar when no returns"
                "Missing return variables" "Incorrect num of retvars" h rs retvars
                (retvar_check_cases h)) as Hrets.
  cbv zeta in Hrets. destruct Hrets as [[Hok' Hacc']|[[e Herr] Hrej]].
  - split; [|by left]. split; [done|]. intros _. exact Hok'.
  - split; [|right; by exists e]. split; [|by intros (_ & _ & ?)].
    intros H. congruence.
Qed.

Lemma validate_args_accepts_witness :
  validate_args 5 (Some [VInt 1; VRef 20]) None call_heap = Ok (tt, call_heap).
Proof.
  apply (validate_args_accepts 5 _ _ call_heap true [(i32, "byval"); (i32, "byval")] []
           eq_refl eq_refl eq_refl).
  split; [done|]. split; [|done]. split; [done|].
  repeat constructor.
Defined.
(** * Pragmas *)

(** ** run_pragmas *)

(** A [Pragma] of [known_pragmas]: its [reduce] and [apply] methods.  Both
    are abstract in [core.py]; [reduce] is taken to be a function of its two
    arguments, [apply] a computation on the store that returns a result. *)
Record Pragma (R : Type) : Type := mkPragma {
  reduce : string → string → string;
  apply : loc → string → M R
}.
Arguments reduce {R} _ _ _.
Arguments apply {R} _ _ _.

Section run_pragmas.
Context {R : Type}.
Implicit Types (known_pragmas : list (string * Pragma R)) (final : list (string * string)).

(** The first loop of [run_pragmas], from the pair it is at on. *)
Fixpoint reduce_pragmas known_pragmas final (todo : list (string * string))
    : Res (list (string * string)) :=
  match todo with
  | [] => Ok final
  | (p_key, p_val) :: todo' =>
      match dict_get known_pragmas p_key with
      | None => Err (AssertionError "p_key in known_pragmas")
      | Some pragma =>
          reduce_pragmas known_pragmas
            (match dict_get final p_key with
             | Some acc => dict_set final p_key (reduce pragma acc p_val)
             | None => dict_set final p_key p_val
             end) todo'
      end
  end.

(** The second loop. *)
Fixpoint apply_pragmas known_pragmas (self : loc) (todo : list (string * string))
    (results : list (string * R)) : M (list (string * R)) :=
  match todo with
  | [] => ret results
  | (p_key, p_val) :: todo' =>
      match dict_get known_pragmas p_key with
      | None => raise (KeyError p_key)
      | Some pragma =>
          r <- apply pragma self p_val ;;
          apply_pragmas known_pragmas self todo' (dict_set results p_key r)
      end
  end.

(** [TopLevel.run_pragmas]. *)
Definition run_pragmas (self : loc) known_pragmas : M (list (string * R)) :=
  t <- get_top self ;;
  match reduce_pragmas known_pragmas [] (pragmas t) with
  | Err e => raise e
  | Ok final => apply_pragmas known_pragmas self final []
  end.

(** What the first loop is meant to compute: the values given for a key,
    in order, folded from the left with the reducer of the key. *)
Definition values_of (key : string) (ps : list (string * string)) : list string :=
  (List.filter (λ p, bool_decide (p.1 = key)) ps).*2.

Definition reducer known_pragmas (key : string) : string → string → string :=
  match dict_get known_pragmas key with
  | Some pragma => reduce pragma
  | None => λ acc _, acc
  end.

Definition reduced known_pragmas (key : string) (acc : option string) (vals : list string)
    : option string :=
  match acc, vals with
  | Some a, _ => Some (foldl (reducer known_pragmas key) a vals)
  | None, [] => None
  | None, v :: vals' => Some (foldl (reducer known_pragmas key) v vals')
  end.

(** The keys of a list, each once, in the order of their first occurrence. *)
Fixpoint first_occurrences (keys : list string) : list string :=
  match keys with
  | [] => []
  | k :: keys' => k :: List.filter (λ k', negb (bool_decide (k' = k))) (first_occurrences keys')
  end.

Lemma reduce_pragmas_values known_pragmas final ps final' :
  reduce_pragmas known_pragmas final ps = Ok final' →
  ∀ key, dict_get final' key
         = reduced known_pragmas key (dict_get final key) (values_of key ps).
Proof.
  revert final. induction ps as [|[k0 v0] ps IH]; intros final H key; cbn in H.
  - injection H as <-. unfold reduced, values_of. cbn. by destruct (dict_get final key).
  - destruct (dict_get known_pragmas k0) as [pragma|] eqn:Hk0; [|done].
    rewrite (IH _ H key). unfold values_of. cbn [List.filter fst].
    case_bool_decide as Hkey.
    + subst k0. cbn [fmap list_fmap snd]. unfold reduced, reducer. rewrite Hk0.
      destruct (dict_get final key) as [acc|]; by rewrite dict_get_set_eq.
    + f_equal. destruct (dict_get final k0); by rewrite dict_get_set_ne.
Qed.

Lemma filter_not_in_snoc (seen : list string) k (l : list string) :
  List.filter (λ x, negb (bool_decide (x ∈ seen ++ [k]))) l
  = List.filter (λ x, negb (bool_decide (x ∈ seen)))
                (List.filter (λ x, negb (bool_decide (x = k))) l).
Proof.
  induction l as [|x l IH]; [done|]. cbn [List.filter].
  destruct (decide (x = k)) as [->|Hne].
  - rewrite (bool_decide_eq_true_2 (k = k)) by done. cbn [negb].
    rewrite bool_decide_eq_true_2 by set_solver. done.
  - rewrite (bool_decide_eq_false_2 (x = k)) by done. cbn [negb List.filter].
    rewrite <- IH. destruct (decide (x ∈ seen)) as [Hin|Hin].
    + by rewrite !bool_decide_eq_true_2 by set_solver.
    + by rewrite !bool_decide_eq_false_2 by set_solver.
Qed.

Lemma filter_not_in_seen (seen : list string) k (l : list string) :
  k ∈ seen →
  List.filter (λ x, negb (bool_decide (x ∈ seen)))
              (List.filter (λ x, negb (bool_decide (x = k))) l)
  = List.filter (λ x, negb (bool_decide (x ∈ seen))) l.
Proof.
  intros Hk. induction l as [|x l IH]; [done|]. cbn [List.filter].
  destruct (decide (x = k)) as [->|Hne].
  - rewrite (bool_decide_eq_true_2 (k = k)) by done. cbn [negb].
    by rewrite (bool_decide_eq_true_2 (k ∈ seen)) by done.
  - rewrite (bool_decide_eq_false_2 (x = k)) by done. cbn [negb List.filter].
    by rewrite IH.
Qed.

Lemma reduce_pragmas_keys known_pragmas final ps final' :
  reduce_pragmas known_pragmas final ps = Ok final' →
  dict_keys final'
  = dict_keys final
    ++ List.filter (λ k, negb (bool_decide (k ∈ dict_keys final))) (first_occurrences ps.*1).
Proof.
  revert final. induction ps as [|[k0 v0] ps IH]; intros final H; cbn in H.
  - injection H as <-. cbn. by rewrite app_nil_r.
  - destruct (dict_get known_pragmas k0) as [pragma|] eqn:Hk0; [|done].
    rewrite (IH _ H). cbn [fmap list_fmap fst first_occurrences List.filter].
    assert (Hkeys : ∀ v, dict_keys (dict_set final k0 v)
                         = if dict_has final k0 then dict_keys final
                           else dict_keys final ++ [k0]) by (intros; apply dict_keys_set).
    assert (Heq : dict_keys (match dict_get final k0 with
                             | Some acc => dict_set final k0 (reduce pragma acc v0)
                             | None => dict_set final k0 v0
                             end)
                  = if dict_has final k0 then dict_keys final else dict_keys final ++ [k0])
      by (destruct (dict_get final k0); apply Hkeys).
    rewrite Heq. destruct (dict_has final k0) eqn:Hhas.
    + assert (k0 ∈ dict_keys final) as Hin by (by apply dict_get_keys, dict_has_true).
      rewrite (bool_decide_eq_true_2 _ Hin). cbn [negb]. by rewrite filter_not_in_seen.
    + assert (k0 ∉ dict_keys final) as Hnotin.
      { intros Hin%dict_get_keys%dict_has_true. congruence. }
      rewrite (bool_decide_eq_false_2 _ Hnotin). cbn [negb].
      by rewrite filter_not_in_snoc, <- app_assoc.
Qed.

Lemma reduce_pragmas_known known_pragmas final ps :
  (∀ k, k ∈ ps.*1 → is_Some (dict_get known_pragmas k)) →
  ∃ final', reduce_pragmas known_pragmas final ps = Ok final'.
Proof.
  revert final. induction ps as [|[k0 v0] ps IH]; intros final Hknown; cbn.
  - by eexists.
  - destruct (Hknown k0) as [pragma ->]; [cbn; by left|].
    apply IH. intros k Hk. apply Hknown. cbn. by right.
Qed.

Lemma reduce_pragmas_unknown known_pragmas final ps k :
  k ∈ ps.*1 → dict_get known_pragmas k = None →
  reduce_pragmas known_pragmas final ps = Err (AssertionError "p_key in known_pragmas").
Proof.
  revert final. induction ps as [|[k0 v0] ps IH]; intros final Hk Hnone; cbn in *.
  - by apply elem_of_nil in Hk.
  - destruct (dict_get known_pragmas k0) as [pragma|] eqn:Hk0; [|done].
    apply IH; [|done]. apply elem_of_cons in Hk as [->|Hk]; [congruence|done].
Qed.

(** X18.  [run_pragmas] fails its assertion, before anything is applied,
    when a pragma of the unit has a key that is not known.  Otherwise the
    values it applies are, for each key in the order of its first
    occurrence and once per key, the values given for the key folded from
    the left, in order, with the reducer of the key. *)
Theorem run_pragmas_reduces (self : loc) (t : Top) known_pragmas (h : Heap) :
  h !! self = Some (OTop t) →
  (∀ k, k ∈ (pragmas t).*1 → dict_get known_pragmas k = None →
        run_pragmas self known_pragmas h = Err (AssertionError "p_key in known_pragmas"))
  ∧ ((∀ k, k ∈ (pragmas t).*1 → is_Some (dict_get known_pragmas k)) →
     ∃ final,
       dict_keys final = first_occurrences (pragmas t).*1
       ∧ (∀ key, dict_get final key
                 = reduced known_pragmas key None (values_of key (pragmas t)))
       ∧ run_pragmas self known_pragmas h = apply_pragmas known_pragmas self final [] h).
Proof.
  intros Ht. unfold run_pragmas. rewrite (bind_eq _ _ _ _ _ (get_top_eq _ _ _ Ht)). cbv beta.
  split.
  - intros k Hk Hnone. by rewrite (reduce_pragmas_unknown _ _ _ _ Hk Hnone).
  - intros Hknown. destruct (reduce_pragmas_known known_pragmas [] _ Hknown) as [final Hfinal].
    exists final. rewrite Hfinal. split; [|split; [|done]].
    + rewrite (reduce_pragmas_keys _ _ _ _ Hfinal). cbn [dict_keys fmap list_fmap app].
      induction (first_occurrences _) as [|x l IH]; [done|].
      cbn [List.filter]. rewrite bool_decide_eq_false_2 by set_solver. cbn [negb]. by f_equal.
    + intros key. by rewrite (reduce_pragmas_values _ _ _ _ Hfinal).
Qed.

End run_pragmas.

(** A unit with three pragmas, two of them for the same key, and the
    pragmas known to the caller: values are concatenated, and applying a
    pragma gives its value back. *)
Definition pragma_heap : list Obj :=
  [OTop (mkTop 1 2 false [("opt", "1"); ("dbg", "x"); ("opt", "2")]);
   OScope (mkScope [] [] None); OPreamble (mkPreamble [] 0 true)].

Definition demo_pragmas : list (string * Pragma string) :=
  [("opt", mkPragma string (λ acc v, acc +:+ v) (λ _ v, ret v));
   ("dbg", mkPragma string (λ acc v, acc +:+ v) (λ _ v, ret v))].

Lemma run_pragmas_reduces_witness :
  ∃ final, dict_keys final = ["opt"; "dbg"]
           ∧ dict_get final "opt" = Some "12"
           ∧ run_pragmas 0 demo_pragmas pragma_heap
             = apply_pragmas demo_pragmas 0 final [] pragma_heap.
Proof.
  destruct (proj2 (run_pragmas_reduces 0 _ demo_pragmas pragma_heap eq_refl))
    as (final & Hkeys & Hvals & Hrun).
  { intros k Hk. cbn in Hk.
    repeat (apply elem_of_cons in Hk as [->|Hk]); try (by eexists).
    by apply elem_of_nil in Hk. }
  exists final. split; [exact Hkeys|]. split; [exact (Hvals "opt")|exact Hrun].
Defined.
(** * The functions of a unit *)

(** ** Declaring, looking up and defining a function *)

Lemma Scope_contains_local h scope s key :
  h !! scope = Some (OScope s) → is_Some (dict_get (items s) key) →
  Scope_contains scope key h = Ok (true, h).
Proof.
  intros Hs [v Hv]. rewrite Scope_contains_eq. unfold recursion_limit.
  cbn [Scope_contains_rec]. rewrite Hs. unfold dict_has. by rewrite Hv.
Qed.

Lemma Scope_getitem_local h scope s key v :
  h !! scope = Some (OScope s) → dict_get (items s) key = Some v →
  Scope_getitem scope key h = Ok (v, h).
Proof.
  intros Hs Hv. rewrite Scope_getitem_eq. unfold recursion_limit.
  cbn [Scope_getitem_rec]. by rewrite Hs, Hv.
Qed.

(** A name the scope of the unit binds to a function. *)
Lemma function_bound h self t s name f fn :
  h !! self = Some (OTop t) → h !! t_scope t = Some (OScope s) →
  dict_get (items s) name = Some f → h !! f = Some (OFunc fn) →
  get_or_create_func self name h = Ok (f, h)
  ∧ lookup_func self name h = Ok (Some f, h)
  ∧ define_function self name h = Ok (f, h).
Proof.
  intros Ht Hs Hname Hf.
  assert (Hc : Scope_contains (t_scope t) name h = Ok (true, h))
    by (by eapply Scope_contains_local).
  assert (Hg : Scope_getitem (t_scope t) name h = Ok (f, h))
    by (by eapply Scope_getitem_local).
  assert (Hgoc : get_or_create_func self name h = Ok (f, h)).
  { unfold get_or_create_func. rewrite (bind_eq _ _ _ _ _ (get_top_eq _ _ _ Ht)). cbv beta.
    unfold Scope_get_or_create. by rewrite (bind_eq _ _ _ _ _ Hc). }
  split; [done|]. split.
  - unfold lookup_func, lookup.
    assert (Hscope : holder_scope self h = Ok (t_scope t, h)).
    { unfold holder_scope. by rewrite (bind_eq _ _ _ _ _ (read_eq _ _ _ Ht)). }
    unfold bind at 1. unfold bind at 1. rewrite Hscope.
    rewrite (bind_eq _ _ _ _ _ Hc). cbv beta iota. rewrite (bind_eq _ _ _ _ _ Hg). cbv beta.
    unfold ret at 1. unfold bind, get_heap, is_VisibleFunction. by rewrite Hf.
  - unfold define_function. rewrite (bind_eq _ _ _ _ _ Hgoc). cbv beta.
    unfold bind, get_heap, is_ExternFunction. by rewrite Hf.
Qed.

(** X19.  [get_or_create_func] of a name the unit does not bind yet makes a
    new function, which is not defined yet, and binds the name to it; after
    that [lookup_func] finds it and neither [get_or_create_func] nor
    [define_function] makes a second one: each returns the same function
    and leaves the store as it is. *)
Theorem get_or_create_func_once (self : loc) (t : Top) (s : Scope) (name : string)
    (h : Heap) (f : loc) (h' : Heap) :
  h !! self = Some (OTop t) → h !! t_scope t = Some (OScope s) → parent s = None →
  dict_get (items s) name = None →
  get_or_create_func self name h = Ok (f, h') →
  f = length h
  ∧ is_defined f h' = Ok (false, h')
  ∧ lookup_func self name h' = Ok (Some f, h')
  ∧ get_or_create_func self name h' = Ok (f, h')
  ∧ define_function self name h' = Ok (f, h').
Proof.
  intros Ht Hs Hparent Hnone H.
  unfold get_or_create_func in H. rewrite (bind_eq _ _ _ _ _ (get_top_eq _ _ _ Ht)) in H.
  cbv beta in H. unfold Scope_get_or_create in H.
  assert (Hc : Scope_contains (t_scope t) name h = Ok (false, h)).
  { rewrite Scope_contains_eq. unfold recursion_limit. cbn [Scope_contains_rec].
    rewrite Hs. unfold dict_has. by rewrite Hnone, Hparent. }
  rewrite (bind_eq _ _ _ _ _ Hc) in H. cbv beta in H. cbn [negb] in H.
  mbind H as val h1 Hinit. unfold _create_func in Hinit.
  destruct (IRFunction_init_Ok _ _ _ _ _ _ Hinit Ht)
    as (-> & entry_name & exit_name & Hne & ->).
  set (h1 := h ++ fresh_function (length h) name (t_scope t) entry_name exit_name) in *.
  pose proof (lookup_lt_Some _ _ _ Ht) as Hlt.
  pose proof (lookup_lt_Some _ _ _ Hs) as Hlts.
  assert (Hs1 : h1 !! t_scope t = Some (OScope s)) by (by apply lookup_app_l_Some).
  mbind H as u h2 Hset. rewrite (Scope_setitem_eq _ _ _ _ _ Hs1) in Hset.
  unfold ret in H. simplify_eq.
  rewrite (dict_set_absent _ _ _ Hnone). fold (bound s name (length h)).
  set (h' := <[t_scope t := OScope (bound s name (length h))]> h1).
  assert (Hne1 : self ≠ t_scope t) by (intros Heq; rewrite Heq in Ht; congruence).
  assert (Ht' : h' !! self = Some (OTop t)).
  { unfold h'. rewrite list_lookup_insert_ne by done. by apply lookup_app_l_Some. }
  assert (Hs' : h' !! t_scope t = Some (OScope (bound s name (length h)))).
  { unfold h'. apply list_lookup_insert_eq. unfold h1. rewrite length_app. lia. }
  assert (Hf' : h' !! length h
                = Some (OFunc (mkFunc (length h + 1) name (length h + 2) false 0
                                      (length h + 3) (length h + 4) [] false false false
                                      false [] [] []))).
  { unfold h'. rewrite list_lookup_insert_ne by lia.
    apply fresh_function_func. }
  assert (Hbound : dict_get (items (bound s name (length h))) name = Some (length h)).
  { cbn [bound items set_items]. rewrite dict_get_app, Hnone. cbn. by rewrite decide_True. }
  split; [done|]. split.
  - pose proof (fresh_function_is_defined h name (t_scope t) entry_name exit_name) as Hd.
    pose proof (fresh_function_func h name (t_scope t) entry_name exit_name) as Hf1.
    pose proof (fresh_function_scope h name (t_scope t) entry_name exit_name) as Hsc1.
    fold h1 in Hd, Hf1, Hsc1.
    rewrite (is_defined_eq _ _ _ _ Hf1 Hsc1) in Hd.
    assert (Hsc' : h' !! (length h + 1)
                   = Some (OScope (mkScope [(entry_name, length h + 3); (exit_name, length h + 4)]
                                           [(length h + 3, entry_name); (length h + 4, exit_name)]
                                           (Some (t_scope t)))))
      by (unfold h'; by rewrite list_lookup_insert_ne by lia).
    rewrite (is_defined_eq _ _ _ _ Hf' Hsc').
    assert (Hsame : ∀ l, is_BasicBlock h' l = is_BasicBlock h1 l).
    { intros l. unfold is_BasicBlock, h'. destruct (decide (l = t_scope t)) as [->|].
      - rewrite list_lookup_insert_eq, Hs1; [done|]. unfold h1. rewrite length_app. lia.
      - by rewrite list_lookup_insert_ne. }
    injection Hd as Hd. unfold defined_now, allblocks_of in *.
    rewrite (blocks_of_ext h' h1 _ _ _ _ Hsame eq_refl eq_refl eq_refl).
    rewrite (List.filter_ext _ _ Hsame). by rewrite Hd.
  - destruct (function_bound h' self t _ name (length h) _ Ht' Hs' Hbound Hf')
      as (? & ? & ?). done.
Qed.

Lemma get_or_create_func_once_witness :
  ∃ h', get_or_create_func 0 "g" demo_heap = Ok (11, h')
        ∧ define_function 0 "g" h' = Ok (11, h').
Proof.
  eexists. split; [vm_compute; reflexivity|].
  eapply (get_or_create_func_once 0 _ _ "g" demo_heap 11 _ eq_refl eq_refl eq_refl eq_refl).
  vm_compute. reflexivity.
Defined.

(** ** What the linker refuses *)

Ltac heapnorm_goal :=
  rewrite <- ?app_assoc; cbn [app];
  rewrite ?length_insert, ?length_app; cbn [length];
  rewrite ?insert_end0, ?insert_app_r;
  cbn [insert list_insert];
  rewrite <- ?app_assoc; cbn [app].

(** [TopLevel()] always succeeds. *)
Lemma TopLevel_init_eq h : TopLevel_init h = Ok (length h, h ++ fresh_unit (length h)).
Proof.
  unfold TopLevel_init.
  rewrite (bind_eq _ _ _ _ _ (eq_refl : alloc _ h = Ok (length h, h ++ [_]))). cbv beta.
  rewrite (bind_eq _ _ _ _ _ (eq_refl : alloc _ (h ++ [_]) = Ok (_, (h ++ [_]) ++ [_]))).
  cbv beta.
  rewrite (bind_eq _ _ _ _ _ (eq_refl : alloc _ ((h ++ [_]) ++ [_])
                                        = Ok (_, ((h ++ [_]) ++ [_]) ++ [_]))). cbv beta.
  rewrite (bind_eq _ _ _ _ _ (write_eq _ _ _)). cbv beta.
  heapnorm_goal.
  rewrite (bind_eq _ _ _ _ _ (eq_refl : alloc _ (h ++ [_; _; _]) = Ok (_, (h ++ [_; _; _]) ++ [_]))).
  cbv beta. heapnorm_goal.
  erewrite (bind_eq _ _ _ _ _).
  2: { rewrite (store_eq _ (length h + 1) (mkScope [] [] None)); [reflexivity| |].
       - unfold holder_scope, bind, read. by rewrite lookup_end0.
       - by rewrite lookup_end. }
  cbv beta. heapnorm_goal.
  rewrite (bind_eq _ _ _ _ _ (eq_refl : alloc _ (h ++ [_; _; _; _])
                                        = Ok (_, (h ++ [_; _; _; _]) ++ [_]))).
  cbv beta. heapnorm_goal.
  erewrite (bind_eq _ _ _ _ _).
  2: { rewrite (store_eq _ (length h + 1)
                  (bound (mkScope [] [] None) "pos_util" (length h + 3))); [reflexivity| |].
       - unfold holder_scope, bind, read. by rewrite lookup_end0.
       - by rewrite lookup_end. }
  cbv beta. heapnorm_goal. unfold ret, fresh_unit, bound. cbn.
  rewrite decide_False by lia. reflexivity.
Qed.

(** X20.  When two of the units to link define different functions under
    the same name, the linker raises: the second definition cannot be
    stored in the merged unit. *)
Theorem linker_rejects_two_definitions (tops : list loc) (h : Heap) (name : string)
    (c1 c2 : loc) :
  2 ≤ length tops → closed_units h tops = true →
  c1 ∈ genuine_named h tops name → c2 ∈ genuine_named h tops name → c1 ≠ c2 →
  ∃ err, linker tops h = Err err.
Proof.
  intros Hlen Hclosed Hc1 Hc2 Hne.
  destruct (linker tops h) as [[out h']|err] eqn:H; [|by exists err]. exfalso.
  unfold linker in H.
  destruct tops as [|t1 [|t2 tops']]; [cbn in Hlen; lia | cbn in Hlen; lia |].
  set (tops := t1 :: t2 :: tops') in *. clearbody tops.
  mbind H as out0 h0 Hinit. apply TopLevel_init_Ok in Hinit as [-> ->].
  mbind H as st h1 Hscan.
  eapply (link_tops_inv h tops []) in Hscan; [|apply scan_inv_init|done].
  cbn [app] in Hscan. destruct Hscan as (_ & (s & _ & Hfwd & _) & _).
  apply genuine_in_elem in Hc1 as [Hin1 Hf1]. apply genuine_in_elem in Hc2 as [Hin2 Hf2].
  pose proof (Hfwd _ _ Hin1 Hf1). pose proof (Hfwd _ _ Hin2 Hf2). congruence.
Qed.

(** Two finished units that each define a function ["f"]. *)
Definition two_definitions : M (list loc) :=
  a <- unit_defining "f" ;;
  b <- unit_defining "f" ;;
  ret [a; b].

Definition two_definitions_heap : list Obj :=
  Eval vm_compute in default [] (exec two_definitions []).

Lemma linker_rejects_two_definitions_witness :
  genuine_named two_definitions_heap [0; 11] "f" = [5; 16]
  ∧ ∃ err, linker [0; 11] two_definitions_heap = Err err.
Proof.
  split; [reflexivity|].
  apply (linker_rejects_two_definitions [0; 11] two_definitions_heap "f" 5 16).
  - cbn. lia.
  - reflexivity.
  - vm_compute. set_solver.
  - vm_compute. set_solver.
  - lia.
Defined.

(** X21.  The linker asserts that it is given a unit; given one unit it
    returns that unit as it is, without looking at it; given more, it
    refuses to start on a first unit that is not finished. *)
Theorem linker_few_units (h : Heap) :
  linker [] h = Err (AssertionError "tops")
  ∧ (∀ top, linker [top] h = Ok (top, h))
  ∧ (∀ t1 t2 tops t, h !! t1 = Some (OTop t) → t_finished t = false →
       linker (t1 :: t2 :: tops) h = Err (AssertionError "top.finished")).
Proof.
  split; [done|]. split; [done|]. intros t1 t2 tops t Ht Hfin.
  unfold linker.
  rewrite (bind_eq _ _ _ _ _ (TopLevel_init_eq h)).
  cbv beta. apply bind_fail. cbn [link_tops]. apply bind_fail. unfold link_top.
  assert (Ht0 : (h ++ fresh_unit (length h)) !! t1 = Some (OTop t))
    by (by apply lookup_app_l_Some).
  rewrite (bind_eq _ _ _ _ _ (get_top_eq _ _ _ Ht0)). cbv beta. by rewrite Hfin.
Qed.

Lemma linker_few_units_witness :
  linker [0; 0] demo_heap = Err (AssertionError "top.finished").
Proof. by eapply (proj2 (proj2 (linker_few_units demo_heap)) 0 0 []). Defined.
(** * Rewriting a scope and a sequence *)

(** ** transform_scope *)

(** [del d[k]]. *)
Fixpoint dict_del {K V} `{EqDecision K} (d : list (K * V)) (k : K) : list (K * V) :=
  match d with
  | [] => []
  | (k', v) :: d' => if decide (k' = k) then d' else (k', v) :: dict_del d' k
  end.

(** [del scope[key]].  [Scope] does not override [__delitem__]: the entry
    of the inverse mapping stays. *)
Definition Scope_delitem (self : loc) (key : string) : M unit :=
  s <- get_scope self ;;
  if dict_has (items s) key then
    write self (OScope (set_items s (dict_del (items s) key) (inverse_dict s)))
  else raise (KeyError key).

(** [VariableHolder.transform_scope], over the snapshot [list(items())].
    The callback returns a new key, or [None], and a new value; the values
    of a scope compare by identity. *)
Fixpoint transform_scope_loop (scope : loc) (func : string → loc → M (option string * loc))
    (todo : list (string * loc)) (changed : bool) : M bool :=
  match todo with
  | [] => ret changed
  | (key, value) :: todo' =>
      r <- func key value ;;
      let changed' :=
        if negb changed
        then negb (bool_decide (Some key = r.1)) || negb (bool_decide (value = r.2))
        else changed in
      match r.1 with
      | Some new_key => Scope_setitem scope new_key r.2
      | None => Scope_delitem scope key
      end ;;;
      transform_scope_loop scope func todo' changed'
  end.

Definition transform_scope (self : loc) (func : string → loc → M (option string * loc))
    : M bool :=
  scope <- holder_scope self ;;
  s <- get_scope scope ;;
  transform_scope_loop scope func (items s) false.

(** What one round of the loop does to the scope, for a callback that is a
    function of the key and the value. *)
Definition transformed_item (f : string → loc → option string * loc) (s : Scope)
    (kv : string * loc) : Scope :=
  match (f kv.1 kv.2).1 with
  | Some new_key =>
      set_items s (dict_set (items s) new_key (f kv.1 kv.2).2)
                  (dict_set (inverse_dict s) (f kv.1 kv.2).2 new_key)
  | None => set_items s (dict_del (items s) kv.1) (inverse_dict s)
  end.

Definition item_changed (f : string → loc → option string * loc) (kv : string * loc) : bool :=
  negb (bool_decide (Some kv.1 = (f kv.1 kv.2).1)) || negb (bool_decide (kv.2 = (f kv.1 kv.2).2)).

Lemma dict_get_del_ne {K V} `{EqDecision K} (d : list (K * V)) k k' :
  k ≠ k' → dict_get (dict_del d k) k' = dict_get d k'.
Proof.
  intros Hne. induction d as [|[k0 v0] d IH]; [done|]. cbn.
  destruct (decide (k0 = k)) as [->|Hk].
  - by rewrite decide_False.
  - cbn. by rewrite IH.
Qed.

Lemma dict_get_del_eq {V} (d : list (string * V)) k :
  NoDup (dict_keys d) → dict_get (dict_del d k) k = None.
Proof.
  unfold dict_keys. induction d as [|[k0 v0] d IH]; [done|]. cbn.
  intros [Hnotin Hnd]%NoDup_cons. destruct (decide (k0 = k)) as [->|Hk].
  - destruct (dict_get d k) eqn:Hget; [|done]. exfalso. apply Hnotin.
    apply (dict_get_keys d k). by eexists.
  - cbn. rewrite decide_False by done. by apply IH.
Qed.

Lemma dict_keys_del {K V} `{EqDecision K} (d : list (K * V)) k x :
  x ∈ dict_keys (dict_del d k) → x ∈ dict_keys d.
Proof.
  unfold dict_keys. induction d as [|[k0 v0] d IH]; [done|]. cbn.
  destruct (decide (k0 = k)) as [->|Hk]; cbn.
  - intros ?. by right.
  - rewrite !elem_of_cons. intros [->|?]; [by left | right; auto].
Qed.

Lemma dict_del_NoDup {K V} `{EqDecision K} (d : list (K * V)) k :
  NoDup (dict_keys d) → NoDup (dict_keys (dict_del d k)).
Proof.
  unfold dict_keys. induction d as [|[k0 v0] d IH]; [done|]. cbn.
  intros [Hnotin Hnd]%NoDup_cons. destruct (decide (k0 = k)) as [->|Hk]; [done|].
  cbn. apply NoDup_cons. split; [|by apply IH].
  intros Hin. apply Hnotin. by eapply (dict_keys_del d k).
Qed.

Lemma dict_set_same {K V} `{EqDecision K} (d : list (K * V)) k v :
  dict_get d k = Some v → dict_set d k v = d.
Proof.
  induction d as [|[k0 v0] d IH]; [done|]. cbn.
  destruct (decide (k0 = k)) as [->|Hk].
  - by intros [= ->].
  - intros H. by rewrite IH.
Qed.

(** The loop, run on a callback that is a function. *)
Lemma transform_scope_loop_eq f scope todo changed s h :
  h !! scope = Some (OScope s) →
  NoDup todo.*1 → (∀ k, k ∈ todo.*1 → dict_has (items s) k = true) →
  transform_scope_loop scope (λ k v, ret (f k v)) todo changed h
  = Ok (changed || existsb (item_changed f) todo,
        <[scope := OScope (foldl (transformed_item f) s todo)]> h).
Proof.
  revert changed s h. induction todo as [|[k v] todo IH]; intros changed s h Hs Hnd Hkeys.
  - cbn. unfold ret. by rewrite orb_false_r, list_insert_id.
  - cbn [transform_scope_loop].
    rewrite (bind_eq _ _ _ _ _ (eq_refl : ret (f k v) h = Ok (f k v, h))). cbv beta zeta.
    cbn in Hnd. apply NoDup_cons in Hnd as [Hnotin Hnd].
    pose proof (lookup_lt_Some _ _ _ Hs) as Hlt.
    assert (Hstep : match (f k v).1 with
                    | Some new_key => Scope_setitem scope new_key (f k v).2
                    | None => Scope_delitem scope k
                    end h = Ok (tt, <[scope := OScope (transformed_item f s (k, v))]> h)).
    { unfold transformed_item. cbn [fst snd]. destruct (f k v).1 as [nk|].
      - by rewrite (Scope_setitem_eq _ _ _ _ _ Hs).
      - unfold Scope_delitem. rewrite (bind_eq _ _ _ _ _ (get_scope_eq _ _ _ Hs)). cbv beta.
        rewrite Hkeys; [done|]. cbn. by left. }
    rewrite (bind_eq _ _ _ _ _ Hstep). cbv beta.
    rewrite (IH _ (transformed_item f s (k, v))).
    + rewrite list_insert_insert_eq. cbn [foldl existsb]. f_equal. f_equal.
      unfold item_changed at 2. cbn [fst snd]. by destruct changed.
    + by apply list_lookup_insert_eq.
    + done.
    + intros k' Hk'. assert (k' ≠ k) by (intros ->; done).
      specialize (Hkeys k'). unfold transformed_item. cbn [fst snd].
      unfold dict_has in *. destruct (f k v).1 as [nk|]; cbn [items set_items].
      * destruct (decide (nk = k')) as [->|]; [by rewrite dict_get_set_eq|].
        rewrite dict_get_set_ne by done. apply Hkeys. cbn. by right.
      * rewrite dict_get_del_ne by done. apply Hkeys. cbn. by right.
Qed.

Lemma transformed_keeps_key f todo s k :
  (∀ kv, kv ∈ todo → kv.1 = k → (f kv.1 kv.2).1 ≠ None) →
  is_Some (dict_get (items s) k) →
  is_Some (dict_get (items (foldl (transformed_item f) s todo)) k).
Proof.
  revert s. induction todo as [|[k0 v0] todo IH]; intros s Hf Hk; [done|].
  cbn [foldl]. apply IH; [intros kv Hkv; apply Hf; by right|].
  unfold transformed_item. cbn [fst snd].
  destruct (f k0 v0).1 as [nk|] eqn:Hnk; cbn [items set_items].
  - destruct (decide (nk = k)) as [->|]; [by rewrite dict_get_set_eq|].
    by rewrite dict_get_set_ne.
  - destruct (decide (k0 = k)) as [->|].
    + exfalso. by apply (Hf (k, v0)); [left| |].
    + by rewrite dict_get_del_ne.
Qed.

Lemma transformed_unchanged f todo s :
  (∀ kv, kv ∈ todo → item_changed f kv = false) →
  (∀ kv, kv ∈ todo → dict_get (items s) kv.1 = Some kv.2) →
  items (foldl (transformed_item f) s todo) = items s.
Proof.
  revert s. induction todo as [|[k0 v0] todo IH]; intros s Hf Hget; [done|].
  cbn [foldl].
  assert (Hstep : items (transformed_item f s (k0, v0)) = items s).
  { pose proof (Hf (k0, v0) ltac:(by left)) as Hc. unfold item_changed in Hc. cbn [fst snd] in Hc.
    apply orb_false_iff in Hc as [Hc1 Hc2].
    apply negb_false_iff, bool_decide_eq_true_1 in Hc1, Hc2.
    unfold transformed_item. cbn [fst snd]. rewrite <- Hc1, <- Hc2. cbn [items set_items].
    apply dict_set_same. by apply (Hget (k0, v0)); left. }
  rewrite IH, Hstep; [done|intros; apply Hf; by right|].
  intros kv Hkv. rewrite Hstep. apply Hget. by right.
Qed.

Lemma transformed_NoDup f todo s :
  NoDup (dict_keys (items s)) →
  NoDup (dict_keys (items (foldl (transformed_item f) s todo))).
Proof.
  revert s. induction todo as [|[k0 v0] todo IH]; intros s Hnd; [done|].
  cbn [foldl]. apply IH. unfold transformed_item. cbn [fst snd].
  destruct (f k0 v0).1; cbn [items set_items].
  - by apply dict_keys_set_NoDup.
  - by apply dict_del_NoDup.
Qed.

Lemma transformed_stays_unbound f todo s k :
  (∀ kv, kv ∈ todo → (f kv.1 kv.2).1 ≠ Some k) →
  dict_get (items s) k = None →
  dict_get (items (foldl (transformed_item f) s todo)) k = None.
Proof.
  revert s. induction todo as [|[k0 v0] todo IH]; intros s Hf Hk; [done|].
  cbn [foldl]. apply IH; [intros kv Hkv; apply Hf; by right|].
  unfold transformed_item. cbn [fst snd].
  pose proof (Hf (k0, v0) ltac:(by left)) as Hne. cbn [fst snd] in Hne.
  destruct (f k0 v0).1 as [nk|]; cbn [items set_items].
  - rewrite dict_get_set_ne; [done|]. intros ->. done.
  - destruct (decide (k0 = k)) as [->|]; [|by rewrite dict_get_del_ne].
    clear -Hk. induction (items s) as [|[k1 v1] d IHd]; [done|]. cbn in *.
    destruct (decide (k1 = k)); [done|]. cbn. rewrite decide_False by done. auto.
Qed.

Lemma transformed_deletes f todo s k :
  k ∈ todo.*1 →
  (∀ kv, kv ∈ todo → kv.1 = k → (f kv.1 kv.2).1 = None) →
  (∀ kv, kv ∈ todo → (f kv.1 kv.2).1 ≠ Some k) →
  NoDup (dict_keys (items s)) →
  dict_get (items (foldl (transformed_item f) s todo)) k = None.
Proof.
  revert s. induction todo as [|[k0 v0] todo IH]; intros s Hin Hdel Hnew Hnd.
  - by apply elem_of_nil in Hin.
  - cbn [foldl]. destruct (decide (k0 = k)) as [->|Hne].
    + apply transformed_stays_unbound; [intros kv Hkv; apply Hnew; by right|].
      unfold transformed_item. cbn [fst snd].
      pose proof (Hdel (k, v0) ltac:(by left) eq_refl) as Hd. cbn [fst snd] in Hd.
      rewrite Hd. cbn [items set_items].
      by apply dict_get_del_eq.
    + apply IH.
      * cbn in Hin. apply elem_of_cons in Hin as [->|Hin]; done.
      * intros kv Hkv. apply Hdel. by right.
      * intros kv Hkv. apply Hnew. by right.
      * apply (transformed_NoDup f [(k0, v0)]). done.
Qed.

Lemma transformed_inverse f todo s v :
  (∀ kv, kv ∈ todo → (f kv.1 kv.2).1 ≠ None → (f kv.1 kv.2).2 ≠ v) →
  dict_get (inverse_dict (foldl (transformed_item f) s todo)) v = dict_get (inverse_dict s) v.
Proof.
  revert s. induction todo as [|[k0 v0] todo IH]; intros s Hf; [done|].
  cbn [foldl]. rewrite IH by (intros kv Hkv; apply Hf; by right).
  unfold transformed_item. cbn [fst snd].
  pose proof (Hf (k0, v0) ltac:(by left)) as Hne. cbn [fst snd] in Hne.
  destruct (f k0 v0).1 as [nk|]; cbn [inverse_dict set_items]; [|done].
  rewrite dict_get_set_ne; [done|]. by apply Hne.
Qed.

Lemma transformed_parent f todo s : parent (foldl (transformed_item f) s todo) = parent s.
Proof.
  revert s. induction todo as [|[k0 v0] todo IH]; intros s; [done|].
  cbn [foldl]. rewrite IH. unfold transformed_item. by destruct (f _ _).1.
Qed.

Lemma transform_scope_eq self sc s f h :
  holder_scope self h = Ok (sc, h) → h !! sc = Some (OScope s) →
  NoDup (dict_keys (items s)) →
  transform_scope self (λ k v, ret (f k v)) h
  = Ok (existsb (item_changed f) (items s),
        <[sc := OScope (foldl (transformed_item f) s (items s))]> h).
Proof.
  intros Hscope Hs Hnd. unfold transform_scope.
  rewrite (bind_eq _ _ _ _ _ Hscope). cbv beta.
  rewrite (bind_eq _ _ _ _ _ (get_scope_eq _ _ _ Hs)). cbv beta.
  rewrite (transform_scope_loop_eq f sc (items s) false s h Hs Hnd); [done|].
  intros k Hk. apply dict_has_true. by apply dict_get_keys.
Qed.

(** X22.  For a callback that is a function of the key and the value, and
    a scope whose keys are distinct, [transform_scope] always returns, and
    it returns [True] exactly when the callback changed the key or the value
    of some item.  When it returns [False] the mapping is as it was.  A key
    stays bound unless the callback returned [None] for it: returning
    another key binds that key too and does not remove the old one. *)
Theorem transform_scope_keeps_keys (self sc : loc) (s : Scope)
    (f : string → loc → option string * loc) (h : Heap) :
  holder_scope self h = Ok (sc, h) → h !! sc = Some (OScope s) →
  NoDup (dict_keys (items s)) →
  let s' := foldl (transformed_item f) s (items s) in
  transform_scope self (λ k v, ret (f k v)) h
  = Ok (existsb (item_changed f) (items s), <[sc := OScope s']> h)
  ∧ parent s' = parent s
  ∧ (existsb (item_changed f) (items s) = false → items s' = items s)
  ∧ (∀ k v, dict_get (items s) k = Some v → (f k v).1 ≠ None →
            is_Some (dict_get (items s') k)).
Proof.
  intros Hscope Hs Hnd s'. split; [by apply transform_scope_eq|].
  split; [apply transformed_parent|]. split.
  - intros Hnone. apply transformed_unchanged.
    + intros kv Hkv. destruct (item_changed f kv) eqn:Hc; [|done].
      assert (existsb (item_changed f) (items s) = true); [|congruence].
      apply existsb_exists. exists kv. split; [by apply list_elem_of_In|done].
    + intros [k v] Hkv. by apply elem_of_dict_get.
  - intros k v Hget Hsome. apply transformed_keeps_key; [|by eexists].
    intros [k0 v0] Hkv Hk0. cbn [fst snd] in *. subst k0.
    apply (elem_of_dict_get _ _ _ Hnd) in Hkv. by simplify_eq.
Qed.

(** X23.  Under the same conditions, a key for which the callback returns
    [None], and which is not the new key of any item, is no longer bound
    afterwards; but the inverse mapping is not told: the name that
    [Scope.for_value] gives for a value stays what it was, unless the
    callback returned that value as a new value. *)
Theorem transform_scope_delete_leaves_inverse (self sc : loc) (s : Scope)
    (f : string → loc → option string * loc) (h : Heap) :
  holder_scope self h = Ok (sc, h) → h !! sc = Some (OScope s) →
  NoDup (dict_keys (items s)) →
  ∃ changed s',
    transform_scope self (λ k v, ret (f k v)) h = Ok (changed, <[sc := OScope s']> h)
    ∧ (∀ k v, dict_get (items s) k = Some v → (f k v).1 = None →
              (∀ kv, kv ∈ items s → (f kv.1 kv.2).1 ≠ Some k) →
              dict_get (items s') k = None)
    ∧ (∀ v, (∀ kv, kv ∈ items s → (f kv.1 kv.2).1 ≠ None → (f kv.1 kv.2).2 ≠ v) →
            dict_get (inverse_dict s') v = dict_get (inverse_dict s) v).
Proof.
  intros Hscope Hs Hnd. eexists _, _. split; [by apply transform_scope_eq|]. split.
  - intros k v Hget Hdel Hnew. apply transformed_deletes; [| |done|done].
    + apply dict_get_keys. by eexists.
    + intros [k0 v0] Hkv Hk0. cbn [fst snd] in *. subst k0.
      apply (elem_of_dict_get _ _ _ Hnd) in Hkv. by simplify_eq.
  - intros v Hv. by apply transformed_inverse.
Qed.

(** A callback that gives the block ["body"] the name ["start"], and one
    that drops every name. *)
Definition rename_body (k : string) (v : loc) : option string * loc :=
  (Some (if bool_decide (k = "body") then "start" else k), v).

Definition drop_all (k : string) (v : loc) : option string * loc := (None, v).

Lemma demo_scope_NoDup : NoDup ["0entry"; "0ret"; "body"].
Proof. apply (bool_decide_unpack _). vm_compute. exact I. Defined.

Lemma transform_scope_keeps_keys_witness :
  ∃ s', transform_scope 5 (λ k v, ret (rename_body k v)) demo_heap
        = Ok (true, <[6 := OScope s']> demo_heap)
        ∧ is_Some (dict_get (items s') "body").
Proof.
  destruct (transform_scope_keeps_keys 5 6 _ rename_body demo_heap eq_refl eq_refl
              demo_scope_NoDup) as (Hrun & _ & _ & Hkeep).
  eexists. split; [exact Hrun|]. by apply (Hkeep "body" 10).
Defined.

Lemma transform_scope_delete_leaves_inverse_witness :
  ∃ changed s', transform_scope 5 (λ k v, ret (drop_all k v)) demo_heap
                = Ok (changed, <[6 := OScope s']> demo_heap)
                ∧ dict_get (items s') "body" = None
                ∧ dict_get (inverse_dict s') 10 = Some "body".
Proof.
  destruct (transform_scope_delete_leaves_inverse 5 6 _ drop_all demo_heap eq_refl eq_refl
              demo_scope_NoDup) as (changed & s' & Hrun & Hdel & Hinv).
  exists changed, s'. split; [exact Hrun|]. split.
  - by apply (Hdel "body" 10).
  - by rewrite Hinv.
Defined.

(** ** InstructionSeq.transform *)

(** What the callback of [transform] returns for an instruction: [None], a
    list of instructions, the instruction it was given, or another one. *)
Inductive Transformed : Type :=
| TNone
| TList (l : list Insn)
| TSame
| TOther (new_insn : Insn).

(** [self.insns = new_insns]. *)
Definition seq_set_insns (self : loc) (l : list Insn) : M unit :=
  o <- read self ;;
  match o with
  | OBlock b => write self (OBlock (set_insns b l))
  | OPreamble p => write self (OPreamble (set_p_insns p l))
  | _ => raise (AttributeError "insns")
  end.

Section transform.
(** [new_insn != insn] for an instruction that is not [insn] itself: the
    comparison is defined with the instruction classes, outside [core.py].
    [None] and a list are taken to differ from every instruction. *)
Variable insn_ne : Insn → Insn → bool.

Definition differs (r : Transformed) (insn : Insn) : bool :=
  match r with
  | TNone | TList _ => true
  | TSame => false
  | TOther new_insn => insn_ne new_insn insn
  end.

(** What [new_insns] grows by. *)
Definition kept_as (r : Transformed) (insn : Insn) : list Insn :=
  match r with
  | TNone => []
  | TList l => l
  | TSame => [insn]
  | TOther new_insn => [new_insn]
  end.

(** One round of the loop, on the locals [changed] and [new_insns]. *)
Definition transform_step (func : Insn → M Transformed) (insn : Insn)
    (st : bool * list Insn) : M (bool * list Insn) :=
  new_insn <- func insn ;;
  ret (if negb st.1 && differs new_insn insn then true else st.1,
       st.2 ++ kept_as new_insn insn).

(** [InstructionSeq.transform]. *)
Definition transform (self : loc) (func : Insn → M Transformed) : M bool :=
  st <- fold_insns (seq_insns self) (transform_step func) (false, []) ;;
  seq_set_insns self st.2 ;;;
  ret st.1.

Lemma fold_live_pure {St} fuel (get : M (list Insn)) i (g : Insn → St → St) st h L :
  get h = Ok (L, h) → length L - i < fuel →
  fold_live fuel get i (λ insn st, ret (g insn st)) st h
  = Ok (foldl (λ st insn, g insn st) st (drop i L), h).
Proof.
  intros Hget. revert i st. induction fuel as [|fuel IH]; intros i st Hfuel; [lia|].
  cbn [fold_live]. rewrite (bind_eq _ _ _ _ _ Hget). cbv beta.
  destruct (L !! i) as [insn|] eqn:Hi.
  - rewrite (bind_eq _ _ _ _ _ (eq_refl : ret (g insn st) h = Ok (g insn st, h))). cbv beta.
    rewrite IH by (apply lookup_lt_Some in Hi; lia).
    by rewrite (drop_S _ _ _ Hi).
  - apply lookup_ge_None in Hi. by rewrite drop_ge.
Qed.

Lemma transform_fold (f : Insn → Transformed) L changed acc :
  foldl (λ st insn, (if negb st.1 && differs (f insn) insn then true else st.1,
                     st.2 ++ kept_as (f insn) insn)) (changed, acc) L
  = (changed || existsb (λ insn, differs (f insn) insn) L,
     acc ++ (L ≫= λ insn, kept_as (f insn) insn)).
Proof.
  revert changed acc. induction L as [|insn L IH]; intros changed acc.
  - cbn. by rewrite orb_false_r, app_nil_r.
  - cbn [foldl fst snd existsb]. rewrite IH, bind_cons, app_assoc. f_equal.
    destruct changed, (differs (f insn) insn); done.
Qed.

(** The instructions of a sequence, and the sequence with other ones. *)
Definition insns_of (o : Obj) : list Insn :=
  match o with
  | OBlock b => insns b
  | OPreamble p => p_insns p
  | _ => []
  end.

Definition with_insns (o : Obj) (l : list Insn) : Obj :=
  match o with
  | OBlock b => OBlock (set_insns b l)
  | OPreamble p => OPreamble (set_p_insns p l)
  | _ => o
  end.

Definition is_seq (o : Obj) : bool :=
  match o with
  | OBlock _ | OPreamble _ => true
  | _ => false
  end.

(** X24.  For a callback that is a function of the instruction,
    [transform] replaces the instructions of the sequence by what the
    callback gave for each, in order: nothing for [None], the members of a
    list, the instruction itself.  It returns [True] exactly when the
    callback changed some instruction; a callback that returns every
    instruction as it is makes it return [False] and leave the store as it
    was. *)
Theorem transform_rewrites (self : loc) (o : Obj) (f : Insn → Transformed) (h : Heap) :
  h !! self = Some o → is_seq o = true →
  transform self (λ insn, ret (f insn)) h
  = Ok (existsb (λ insn, differs (f insn) insn) (insns_of o),
        <[self := with_insns o (insns_of o ≫= λ insn, kept_as (f insn) insn)]> h)
  ∧ ((∀ insn, insn ∈ insns_of o → f insn = TSame) →
     transform self (λ insn, ret (f insn)) h = Ok (false, h)).
Proof.
  intros Ho Hseq.
  assert (Hget : seq_insns self h = Ok (insns_of o, h)).
  { unfold seq_insns. rewrite (bind_eq _ _ _ _ _ (read_eq _ _ _ Ho)). by destruct o. }
  assert (Hrun : transform self (λ insn, ret (f insn)) h
                 = Ok (existsb (λ insn, differs (f insn) insn) (insns_of o),
                       <[self := with_insns o (insns_of o ≫= λ insn, kept_as (f insn) insn)]> h)).
  { assert (Hfold : fold_insns (seq_insns self) (transform_step (λ insn, ret (f insn)))
                        (false, []) h
                      = Ok ((existsb (λ insn, differs (f insn) insn) (insns_of o),
                             insns_of o ≫= λ insn, kept_as (f insn) insn), h)).
    { unfold fold_insns. rewrite (bind_eq _ _ _ _ _ Hget). cbv beta.
      change (transform_step (λ insn, ret (f insn)))
        with (λ insn (st : bool * list Insn),
                ret (if negb st.1 && differs (f insn) insn then true else st.1,
                     st.2 ++ kept_as (f insn) insn)).
      rewrite (fold_live_pure _ _ 0 _ _ _ _ Hget) by lia.
      by rewrite drop_0, transform_fold. }
    assert (Hset : ∀ l, seq_set_insns self l h = Ok (tt, <[self := with_insns o l]> h)).
    { intros l. unfold seq_set_insns. rewrite (bind_eq _ _ _ _ _ (read_eq _ _ _ Ho)).
      by destruct o. }
    unfold transform. rewrite (bind_eq _ _ _ _ _ Hfold). cbv beta. cbn [fst snd].
    by rewrite (bind_eq _ _ _ _ _ (Hset _)). }
  split; [done|]. intros Hsame. rewrite Hrun.
  assert (Hd : existsb (λ insn, differs (f insn) insn) (insns_of o) = false).
  { apply not_true_is_false. intros (insn & Hin & Hdiff)%existsb_exists.
    rewrite (Hsame insn) in Hdiff by (by apply list_elem_of_In). done. }
  assert (Hk : insns_of o ≫= (λ insn, kept_as (f insn) insn) = insns_of o).
  { clear -Hsame. induction (insns_of o) as [|insn L IH]; [done|].
    rewrite bind_cons, IH by (intros; apply Hsame; by right).
    rewrite (Hsame insn) by (by left). done. }
  rewrite Hd, Hk. do 2 f_equal.
  assert (with_insns o (insns_of o) = o) as -> by (by destruct o as [|[]|[]| | | | | | |]).
  by apply list_insert_id.
Qed.

End transform.

(** A callback that drops the branches of a block. *)
Definition drop_branches (insn : Insn) : Transformed :=
  if bool_decide (kind insn = KBranch) then TNone else TSame.

Lemma transform_rewrites_witness :
  ∃ b, call_heap !! 13 = Some (OBlock b)
       ∧ length (insns b) = 2
       ∧ transform (λ _ _, true) 13 (λ insn, ret (drop_branches insn)) call_heap
         = Ok (true, <[13 := OBlock (set_insns b (take 1 (insns b)))]> call_heap).
Proof.
  eexists. split; [reflexivity|]. split; [reflexivity|].
  exact (proj1 (transform_rewrites (λ _ _, true) 13 _ drop_branches call_heap
                  eq_refl eq_refl)).
Defined.
(** * Naming what an instruction creates *)

(** ** The name [add] binds *)

(** [namehint or insn.insn_name]. *)
Definition name_hint (namehint : option string) (insn : Insn) : string :=
  match namehint with
  | Some n => if bool_decide (n = "") then insn_name insn else n
  | None => insn_name insn
  end.

Lemma seq_holder_insert_scope self sc s s' h holder :
  seq_holder self h = Ok (holder, h) → h !! sc = Some (OScope s) →
  seq_holder self (<[sc := OScope s']> h) = Ok (holder, <[sc := OScope s']> h).
Proof.
  intros H Hs. unfold seq_holder in *. unfold bind, read in *.
  destruct (h !! self) as [o|] eqn:Ho; [|done].
  assert (self ≠ sc) by (intros ->; destruct o; simplify_eq; done).
  rewrite list_lookup_insert_ne by done. rewrite Ho. destruct o; try done;
    unfold ret in *; by simplify_eq.
Qed.

(** X25.  When [add] is asked for a name it returns the value the
    activation hook of the instruction gave, bound in the holder of the
    sequence: under the given name when [with_name] is a string, otherwise
    under the hint (the name hint, or the name of the instruction when there
    is none) or the hint followed by a number.  Afterwards [get_var] finds
    the value by that name and [name_for] the name by the value.  Without
    [with_name], or with an empty string, [add] returns [None]. *)
Theorem add_binds_the_result (self : loc) (insn : Insn) (with_name : WithName)
    (namehint : option string) (h : Heap) (r : option loc) (h' : Heap) :
  add self insn with_name namehint h = Ok (r, h') →
  match with_name with
  | NoName | Named "" => r = None
  | _ =>
      ∃ v holder name insn1,
        r = Some v
        ∧ validate_insn self insn h = Ok (insn1, h)
        ∧ seq_holder self h' = Ok (holder, h')
        ∧ get_var holder name h' = Ok (v, h')
        ∧ name_for holder v h' = Ok (name, h')
        ∧ match with_name with
          | Named n => name = n
          | _ => name = name_hint namehint insn1
                 ∨ ∃ i : nat, name = name_hint namehint insn1 +:+ pretty i
          end
  end.
Proof.
  intros H. unfold add, add_with in H. mbind H as insn1 h0 Hval.
  pose proof (validate_insn_Ok _ _ _ _ _ Hval) as [-> _].
  mbind H as r1 h1 Hact. destruct r1 as [insn2 r2]. cbn [fst snd] in H.
  mbind H as u h2 Happ. destruct u.
  assert (Hnamed : ∀ wn,
            match r2 with
            | None => raise (AssertionError "ret is not None")
            | Some v =>
                holder <- seq_holder self ;;
                name <- match wn with
                        | Named name => ret name
                        | _ => uniq_name holder (name_hint namehint insn1)
                        end ;;
                store holder name v ;;; ret (Some v)
            end h2 = Ok (r, h') →
            ∃ v holder name,
              r = Some v
              ∧ seq_holder self h' = Ok (holder, h')
              ∧ get_var holder name h' = Ok (v, h')
              ∧ name_for holder v h' = Ok (name, h')
              ∧ match wn with
                | Named n => name = n
                | _ => name = name_hint namehint insn1
                       ∨ ∃ i : nat, name = name_hint namehint insn1 +:+ pretty i
                end).
  { intros wn Hn. destruct r2 as [v|]; [|done].
    mbind Hn as holder h3 Hh. pose proof (seq_holder_Ok _ _ _ _ Hh) as ->.
    mbind Hn as name h3 Hname.
    assert (h3 = h2 ∧ match wn with
                      | Named n => name = n
                      | _ => name = name_hint namehint insn1
                             ∨ ∃ i : nat, name = name_hint namehint insn1 +:+ pretty i
                      end) as [-> Hshape].
    { assert (Huniq : uniq_name holder (name_hint namehint insn1) h2 = Ok (name, h3) →
                      h3 = h2 ∧ (name = name_hint namehint insn1
                                 ∨ ∃ i : nat, name = name_hint namehint insn1 +:+ pretty i)).
      { intros Hu. pose proof (uniq_name_Ok _ _ _ _ _ Hu) as (-> & scope & Hscope & _).
        split; [done|]. unfold uniq_name in Hu.
        rewrite (bind_eq _ _ _ _ _ Hscope) in Hu. cbv beta in Hu.
        mbind Hu as c h4 Hc. apply Scope_contains_Ok in Hc as [_ ->].
        destruct c; cbn [negb] in Hu.
        - mstep Hu as hh Hhh. apply uniq_name_loop_least in Hu as (k & _ & -> & _). eauto.
        - unfold ret in Hu. left. congruence. }
      destruct wn; try (by apply Huniq). unfold ret in Hname. by simplify_eq. }
    mbind Hn as u h4 Hstore. destruct u. unfold ret in Hn. simplify_eq.
    apply store_inv in Hstore as (sc & s & Hscope & Hs & Hnone & ->).
    exists v, holder, name. split; [done|].
    split; [by eapply seq_holder_insert_scope|].
    split; [by apply get_var_bound|]. split; [by apply name_for_bound|]. done. }
  destruct with_name as [| |[|a n]].
  - unfold ret in H. by simplify_eq.
  - destruct (Hnamed AutoName H) as (v & holder & name & ? & ? & ? & ? & ?).
    exists v, holder, name, insn1. done.
  - unfold ret in H. by simplify_eq.
  - destruct (Hnamed (Named (String a n)) H) as (v & holder & name & ? & ? & ? & ? & ?).
    exists v, holder, name, insn1. done.
Qed.

Lemma add_binds_the_result_witness :
  ∃ r h' v holder name,
    add 16 (DefineVariable i32) AutoName (Some "tmp") call_heap = Ok (r, h')
    ∧ r = Some v ∧ get_var holder name h' = Ok (v, h').
Proof.
  destruct (add 16 (DefineVariable i32) AutoName (Some "tmp") call_heap)
    as [[r h']|e] eqn:Hadd; [|vm_compute in Hadd; discriminate].
  destruct (add_binds_the_result _ _ _ _ _ _ _ Hadd)
    as (v & holder & name & insn1 & Hr & _ & _ & Hget & _).
  by exists r, h', v, holder, name.
Defined.

(** * What a unit writes out *)

(** ** Empty functions *)

(** [all(block.is_empty() for block in blocks)]: the first block that is
    not empty ends the run. *)
Fixpoint all_empty (bs : list loc) : M bool :=
  match bs with
  | [] => ret true
  | b :: bs' =>
      blk <- get_block b ;;
      if Block_is_empty_obj blk then all_empty bs' else ret false
  end.

(** [IRFunction.is_empty]. *)
Definition IRFunction_is_empty (self : loc) : M bool :=
  d <- is_defined self ;;
  assert d "self.is_defined" ;;;
  bs <- allblocks self ;;
  all_empty bs.

(** [is_empty()], dispatched on the class of the object:
    [ExternFunction.is_empty] is the constant [False]. *)
Definition is_empty (self : loc) : M bool :=
  o <- read self ;;
  match o with
  | OFunc _ => IRFunction_is_empty self
  | OExtern _ => ret false
  | OBlock b => ret (Block_is_empty_obj b)
  | OPreamble p => ret (bool_decide (length (p_insns p) = 0))
  | _ => raise (AttributeError "is_empty")
  end.

Definition block_empty (h : Heap) (b : loc) : bool :=
  match h !! b with
  | Some (OBlock blk) => Block_is_empty_obj blk
  | _ => false
  end.

Lemma all_empty_eq h bs :
  Forall (λ b, is_BasicBlock h b = true) bs →
  all_empty bs h = Ok (forallb (block_empty h) bs, h).
Proof.
  induction 1 as [|b bs Hb _ IH]; [done|]. cbn [all_empty forallb].
  unfold is_BasicBlock in Hb. unfold block_empty at 1.
  destruct (h !! b) as [[| |blk| | | | | | |]|] eqn:Hblk; try done.
  rewrite (bind_eq _ _ _ _ _ (get_block_eq _ _ _ Hblk)). cbv beta.
  by destruct (Block_is_empty_obj blk).
Qed.

Lemma allblocks_of_Forall h s : Forall (λ b, is_BasicBlock h b = true) (allblocks_of h s).
Proof.
  apply Forall_forall. intros b Hb. unfold allblocks_of in Hb.
  by apply list_elem_of_In, filter_In in Hb as [_ Hb].
Qed.

(** X26.  [IRFunction.is_empty] fails its assertion on a function that is
    not defined.  On a defined one it answers whether every block, the two
    super blocks included, is empty; a super block that has not been cleared
    never is, so as long as the entry super block is not cleared (it is
    cleared when the variables are finalized) the answer is [False] even if
    no block holds an instruction. *)
Theorem is_empty_needs_cleared_entry (self : loc) (f : Func) (s : Scope) (h : Heap) :
  h !! self = Some (OFunc f) → h !! f_scope f = Some (OScope s) →
  (defined_now h f s = false →
   is_empty self h = Err (AssertionError "self.is_defined"))
  ∧ (defined_now h f s = true →
     is_empty self h = Ok (forallb (block_empty h) (allblocks_of h s), h)
     ∧ ∀ be, _entryblock f ∈ allblocks_of h s →
             h !! _entryblock f = Some (OBlock be) →
             is_super be = true → _clear be = false →
             is_empty self h = Ok (false, h)).
Proof.
  intros Hf Hs.
  assert (Hstart : is_empty self h = IRFunction_is_empty self h).
  { unfold is_empty. by rewrite (bind_eq _ _ _ _ _ (read_eq _ _ _ Hf)). }
  rewrite Hstart. unfold IRFunction_is_empty.
  rewrite (bind_eq _ _ _ _ _ (is_defined_eq _ _ _ _ Hf Hs)). cbv beta.
  split; intros Hd; rewrite Hd; [done|]. cbn [assert].
  rewrite (bind_eq _ _ _ _ _ (eq_refl : ret tt h = Ok (tt, h))). cbv beta.
  rewrite (bind_eq _ _ _ _ _ (allblocks_eq _ _ _ _ Hf Hs)). cbv beta.
  rewrite (all_empty_eq _ _ (allblocks_of_Forall h s)). split; [done|].
  intros be Hin Hbe Hsuper Hclear. do 2 f_equal.
  apply not_true_is_false. intros Hall. rewrite forallb_forall in Hall.
  specialize (Hall _ (proj1 (list_elem_of_In _ _) Hin)).
  unfold block_empty, Block_is_empty_obj in Hall. by rewrite Hbe, Hsuper, Hclear in Hall.
Qed.

Lemma is_empty_needs_cleared_entry_witness :
  is_empty 5 demo_heap = Ok (false, demo_heap).
Proof.
  destruct (is_empty_needs_cleared_entry 5 _ _ demo_heap eq_refl eq_refl) as [_ H].
  destruct (H eq_refl) as [_ Hentry].
  eapply Hentry; [|reflexivity..]. vm_compute. set_solver.
Defined.

(** ** The function table *)

(** [BasicBlock.global_name], as [SuperBlock] overrides it: the entry super
    block goes by the name of its function. *)
Definition Block_global_name (self : loc) : M string :=
  b <- get_block self ;;
  if is_super b && is_entry b then global_name (_func b)
  else
    f <- get_func (_func b) ;;
    ret (f_name f +:+ "/" +:+ b_name b).

(** [[block.global_name for block in blocks]]. *)
Fixpoint global_names (bs : list loc) : M (list string) :=
  match bs with
  | [] => ret []
  | b :: bs' =>
      n <- Block_global_name b ;;
      ns <- global_names bs' ;;
      ret (n :: ns)
  end.

(** [IRFunction.get_func_table]. *)
Definition IRFunction_get_func_table (self : loc) : M (list string) :=
  bs <- allblocks self ;;
  names <- global_names bs ;;
  n <- IRFunction_global_name self ;;
  ret (names ++ [n]).

(** [get_func_table()] of a visible function: an [ExternFunction] has an
    empty table. *)
Definition get_func_table (self : loc) : M (list string) :=
  o <- read self ;;
  match o with
  | OFunc _ => IRFunction_get_func_table self
  | OExtern _ => ret []
  | _ => raise (AttributeError "get_func_table")
  end.

(** The blocks of the scope belong to the function. *)
Definition own_blocks (h : Heap) (self : loc) (s : Scope) : bool :=
  forallb (λ b, match h !! b with
                | Some (OBlock blk) => bool_decide (_func blk = self)
                | _ => false
                end) (allblocks_of h s).

(** The name a block of the function [f] has in the table. *)
Definition table_name (h : Heap) (f : Func) (b : loc) : string :=
  match h !! b with
  | Some (OBlock blk) =>
      if is_super blk && is_entry blk then f_name f else f_name f +:+ "/" +:+ b_name blk
  | _ => ""
  end.

Lemma IRFunction_global_name_eq h self f s :
  h !! self = Some (OFunc f) → h !! f_scope f = Some (OScope s) →
  IRFunction_global_name self h
  = if defined_now h f s then Ok (f_name f, h) else Err (AssertionError (f_name f)).
Proof.
  intros Hf Hs. unfold IRFunction_global_name.
  rewrite (bind_eq _ _ _ _ _ (is_defined_eq _ _ _ _ Hf Hs)). cbv beta.
  rewrite (bind_eq _ _ _ _ _ (get_func_eq _ _ _ Hf)). cbv beta.
  by destruct (defined_now h f s).
Qed.

Lemma global_names_eq h self f s bs :
  h !! self = Some (OFunc f) → h !! f_scope f = Some (OScope s) →
  defined_now h f s = true →
  Forall (λ b, ∃ blk, h !! b = Some (OBlock blk) ∧ _func blk = self) bs →
  global_names bs h = Ok (table_name h f <$> bs, h).
Proof.
  intros Hf Hs Hd. induction 1 as [|b bs (blk & Hb & Hfunc) _ IH]; [done|].
  cbn [global_names].
  assert (Hname : Block_global_name b h = Ok (table_name h f b, h)).
  { unfold Block_global_name, table_name.
    rewrite (bind_eq _ _ _ _ _ (get_block_eq _ _ _ Hb)). cbv beta. rewrite Hb, Hfunc.
    destruct (is_super blk && is_entry blk).
    - unfold global_name. rewrite (bind_eq _ _ _ _ _ (read_eq _ _ _ Hf)). cbv beta iota.
      by rewrite (IRFunction_global_name_eq _ _ _ _ Hf Hs), Hd.
    - by rewrite (bind_eq _ _ _ _ _ (get_func_eq _ _ _ Hf)). }
  rewrite (bind_eq _ _ _ _ _ Hname). cbv beta. by rewrite (bind_eq _ _ _ _ _ IH).
Qed.

Lemma global_names_undefined h self f s bs :
  h !! self = Some (OFunc f) → h !! f_scope f = Some (OScope s) →
  defined_now h f s = false →
  Forall (λ b, ∃ blk, h !! b = Some (OBlock blk) ∧ _func blk = self) bs →
  (∃ ns, global_names bs h = Ok (ns, h))
  ∨ global_names bs h = Err (AssertionError (f_name f)).
Proof.
  intros Hf Hs Hd. induction 1 as [|b bs (blk & Hb & Hfunc) _ IH]; [left; by eexists|].
  cbn [global_names].
  assert (Hname : (∃ n, Block_global_name b h = Ok (n, h))
                  ∨ Block_global_name b h = Err (AssertionError (f_name f))).
  { unfold Block_global_name.
    rewrite (bind_eq _ _ _ _ _ (get_block_eq _ _ _ Hb)). cbv beta. rewrite Hfunc.
    destruct (is_super blk && is_entry blk).
    - right. unfold global_name.
      rewrite (bind_eq _ _ _ _ _ (read_eq _ _ _ Hf)). cbv beta iota.
      by rewrite (IRFunction_global_name_eq _ _ _ _ Hf Hs), Hd.
    - left. rewrite (bind_eq _ _ _ _ _ (get_func_eq _ _ _ Hf)). by eexists. }
  destruct Hname as [[n Hn]|Herr]; [|right; by apply bind_fail].
  rewrite (bind_eq _ _ _ _ _ Hn). cbv beta.
  destruct IH as [[ns Hns]|Herr].
  - left. rewrite (bind_eq _ _ _ _ _ Hns). by eexists.
  - right. by apply bind_fail.
Qed.

(** X27.  The table of a defined function lists its blocks in the order of
    the scope, the entry super block under the name of the function itself
    and every other block as [function/block], and ends with the name of
    the function once more; it has one entry more than the function has
    blocks.  A function that is not defined has no table: the call fails
    its assertion. *)
Theorem get_func_table_names (self : loc) (f : Func) (s : Scope) (h : Heap) :
  h !! self = Some (OFunc f) → h !! f_scope f = Some (OScope s) →
  own_blocks h self s = true →
  (defined_now h f s = true →
   ∃ table,
     get_func_table self h = Ok (table, h)
     ∧ table = (table_name h f <$> allblocks_of h s) ++ [f_name f]
     ∧ length table = S (length (allblocks_of h s))
     ∧ last table = Some (f_name f)
     ∧ (_entryblock f ∈ allblocks_of h s →
        ∀ be, h !! _entryblock f = Some (OBlock be) → is_super be = true →
              is_entry be = true → f_name f ∈ removelast table))
  ∧ (defined_now h f s = false →
     get_func_table self h = Err (AssertionError (f_name f))).
Proof.
  intros Hf Hs Hown.
  assert (Hblocks : Forall (λ b, ∃ blk, h !! b = Some (OBlock blk) ∧ _func blk = self)
                           (allblocks_of h s)).
  { apply Forall_forall. intros b Hb. unfold own_blocks in Hown.
    rewrite forallb_forall in Hown. specialize (Hown _ (proj1 (list_elem_of_In _ _) Hb)).
    destruct (h !! b) as [[| |blk| | | | | | |]|]; try done.
    exists blk. split; [done|]. by apply bool_decide_eq_true_1 in Hown. }
  assert (Hstart : get_func_table self h = IRFunction_get_func_table self h).
  { unfold get_func_table. by rewrite (bind_eq _ _ _ _ _ (read_eq _ _ _ Hf)). }
  rewrite Hstart. unfold IRFunction_get_func_table.
  rewrite (bind_eq _ _ _ _ _ (allblocks_eq _ _ _ _ Hf Hs)). cbv beta.
  split; intros Hd.
  - rewrite (bind_eq _ _ _ _ _ (global_names_eq _ _ _ _ _ Hf Hs Hd Hblocks)). cbv beta.
    assert (Hgn : IRFunction_global_name self h = Ok (f_name f, h))
      by (by rewrite (IRFunction_global_name_eq _ _ _ _ Hf Hs), Hd).
    rewrite (bind_eq _ _ _ _ _ Hgn). cbv beta. eexists. split; [reflexivity|]. split; [done|]. split.
    + rewrite length_app, length_fmap. cbn. lia.
    + split; [by rewrite last_snoc|]. intros Hin be Hbe Hsuper Hentry.
      rewrite removelast_last. apply list_elem_of_fmap. exists (_entryblock f).
      split; [|done]. unfold table_name. by rewrite Hbe, Hsuper, Hentry.
  - destruct (global_names_undefined _ _ _ _ _ Hf Hs Hd Hblocks) as [[ns Hns]|Herr].
    + rewrite (bind_eq _ _ _ _ _ Hns). cbv beta. apply bind_fail.
      by rewrite (IRFunction_global_name_eq _ _ _ _ Hf Hs), Hd.
    + by apply bind_fail.
Qed.

Lemma get_func_table_names_witness :
  get_func_table 5 demo_heap = Ok (["f"; "f/0ret"; "f/body"; "f"], demo_heap).
Proof.
  destruct (get_func_table_names 5 _ _ demo_heap eq_refl eq_refl eq_refl) as [H _].
  destruct (H eq_refl) as (table & Hrun & -> & _). exact Hrun.
Defined.
(** * Scopes of a unit and of its functions *)

(** ** The names of the enclosing holder are visible *)

(** X28.  A name stored in a holder is seen from every holder whose scope
    has the scope of the first as its parent, as the scope of a function has
    the scope of its unit: [get_var] and [lookup] of the function find the
    value, unless the function binds the name itself, in which case they
    still find its own value. *)
Theorem outer_names_are_visible (top f : loc) (st : loc) (fn : Func) (sf : Scope)
    (name : string) (v : loc) (h h' : Heap) :
  holder_scope top h = Ok (st, h) →
  h !! f = Some (OFunc fn) → h !! f_scope fn = Some (OScope sf) →
  parent sf = Some st → f_scope fn ≠ st →
  store top name v h = Ok (tt, h') →
  (dict_get (items sf) name = None →
   get_var f name h' = Ok (v, h') ∧ lookup f name h' = Ok (Some v, h'))
  ∧ (∀ w, dict_get (items sf) name = Some w →
          get_var f name h' = Ok (w, h') ∧ lookup f name h' = Ok (Some w, h')).
Proof.
  intros Htop Hf Hsf Hparent Hne Hstore.
  apply store_inv in Hstore as (sc & s & Hscope & Hs & Hnone & ->).
  assert (sc = st) as -> by congruence.
  set (h' := <[st := OScope (bound s name v)]> h).
  pose proof (lookup_lt_Some _ _ _ Hs) as Hlt.
  assert (Hf' : h' !! f = Some (OFunc fn)).
  { unfold h'. rewrite list_lookup_insert_ne; [done|]. intros ->. congruence. }
  assert (Hsf' : h' !! f_scope fn = Some (OScope sf))
    by (unfold h'; by rewrite list_lookup_insert_ne).
  assert (Hs' : h' !! st = Some (OScope (bound s name v)))
    by (by apply list_lookup_insert_eq).
  assert (Hholder : holder_scope f h' = Ok (f_scope fn, h')).
  { unfold holder_scope. by rewrite (bind_eq _ _ _ _ _ (read_eq _ _ _ Hf')). }
  assert (Hlen : length h' = S (pred (length h'))).
  { unfold h'. rewrite length_insert. lia. }
  assert (Hresolve : ∀ w, (dict_get (items sf) name = Some w
                           ∨ dict_get (items sf) name = None ∧ w = v) →
            Scope_contains (f_scope fn) name h' = Ok (true, h')
            ∧ Scope_getitem (f_scope fn) name h' = Ok (w, h')).
  { intros w Hw. rewrite Scope_contains_eq, Scope_getitem_eq. unfold recursion_limit.
    rewrite Hlen. cbn [Scope_contains_rec Scope_getitem_rec]. rewrite Hsf'.
    unfold dict_has. destruct Hw as [->|[-> ->]]; [done|]. rewrite Hparent, Hs'.
    cbn [bound items set_items]. rewrite dict_get_app, Hnone. cbn.
    by rewrite decide_True. }
  assert (Hboth : ∀ w, (dict_get (items sf) name = Some w
                        ∨ dict_get (items sf) name = None ∧ w = v) →
            get_var f name h' = Ok (w, h') ∧ lookup f name h' = Ok (Some w, h')).
  { intros w Hw. destruct (Hresolve w Hw) as [Hc Hg]. split.
    - unfold get_var. by rewrite (bind_eq _ _ _ _ _ Hholder).
    - unfold lookup. rewrite (bind_eq _ _ _ _ _ Hholder). cbv beta.
      rewrite (bind_eq _ _ _ _ _ Hc). cbv beta iota. by rewrite (bind_eq _ _ _ _ _ Hg). }
  split.
  - intros Hlocal. apply Hboth. by right.
  - intros w Hw. apply Hboth. by left.
Qed.

Lemma outer_names_are_visible_witness :
  ∃ h', store 0 "shared" 4 demo_heap = Ok (tt, h')
        ∧ get_var 5 "shared" h' = Ok (4, h').
Proof.
  eexists. split; [vm_compute; reflexivity|].
  refine (proj1 (proj1 (outer_names_are_visible 0 5 1 _ _ "shared" 4 demo_heap _
                          eq_refl eq_refl eq_refl eq_refl _ _) eq_refl)).
  - cbn. lia.
  - vm_compute. reflexivity.
Defined.
(** * Defining a function that was declared as a stub *)

(** ** The sweep over the blocks of the unit *)

Section sweep.
Variable h3 : Heap.
Variable stub real : loc.
Hypothesis real_not_stub : is_ExternFunction h3 real = false.

Local Notation m := [(stub, VRef real)].
Local Notation K := (is_ExternFunction h3).

Lemma sweep_map_insn_idem i : map_insn K m (map_insn K m i) = map_insn K m i.
Proof.
  unfold map_insn. cbn. f_equal. rewrite <- list_fmap_compose.
  apply list_fmap_ext. intros _ a _. cbn.
  destruct a as [| | | | |l]; try done. cbn.
  destruct (K l) eqn:Hl; [|cbn; by rewrite Hl].
  destruct (decide (stub = l)) as [->|Hne]; cbn.
  - by rewrite real_not_stub.
  - by rewrite Hl, decide_False.
Qed.

Lemma sweep_rewrite_idem o : rewrite_obj K m (rewrite_obj K m o) = rewrite_obj K m o.
Proof.
  destruct o; cbn; try done; do 2 f_equal; rewrite <- list_fmap_compose;
    apply list_fmap_ext; intros _ i _; apply sweep_map_insn_idem.
Qed.

(** The blocks in [D] have been swept. *)
Definition swept (D : list loc) (hc : Heap) : Prop :=
  length hc = length h3
  ∧ ∀ l o, h3 !! l = Some o →
      hc !! l = Some (if bool_decide (l ∈ D) then rewrite_obj K m o else o).

Lemma swept_is_ExternFunction D hc l : swept D hc → is_ExternFunction hc l = K l.
Proof.
  intros [Hlen Hall]. unfold is_ExternFunction.
  destruct (h3 !! l) as [o|] eqn:Ho.
  - rewrite (Hall _ _ Ho). case_bool_decide; [|done]. by destruct o.
  - apply lookup_ge_None in Ho. rewrite lookup_ge_None_2; [done|]. lia.
Qed.

Lemma swept_is_BasicBlock D hc l : swept D hc → is_BasicBlock hc l = is_BasicBlock h3 l.
Proof.
  intros [Hlen Hall]. unfold is_BasicBlock.
  destruct (h3 !! l) as [o|] eqn:Ho.
  - rewrite (Hall _ _ Ho). case_bool_decide; [|done]. by destruct o.
  - apply lookup_ge_None in Ho. rewrite lookup_ge_None_2; [done|]. lia.
Qed.

Lemma swept_func D hc l f : swept D hc → h3 !! l = Some (OFunc f) → hc !! l = Some (OFunc f).
Proof. intros [_ Hall] Hl. rewrite (Hall _ _ Hl). by case_bool_decide. Qed.

Lemma swept_scope D hc l s :
  swept D hc → h3 !! l = Some (OScope s) → hc !! l = Some (OScope s).
Proof. intros [_ Hall] Hl. rewrite (Hall _ _ Hl). by case_bool_decide. Qed.

Lemma swept_more D bl hc h' :
  swept D hc →
  for_each bl (λ block, apply_mapping block is_ExternFunction m) hc = Ok (tt, h') →
  swept (D ++ bl) h'.
Proof.
  intros Hsw H. pose proof Hsw as [Hlen Hall].
  apply (apply_mapping_all K) in H as [Hlen' Hall'];
    [|intros l; by eapply swept_is_ExternFunction|apply sweep_rewrite_idem].
  split; [congruence|]. intros l o Ho.
  rewrite (Hall' _ _ (Hall _ _ Ho)). f_equal.
  destruct (decide (l ∈ D)) as [HD|HD], (decide (l ∈ bl)) as [Hbl|Hbl];
    rewrite ?(bool_decide_true (l ∈ D)), ?(bool_decide_false (l ∈ D)),
      ?(bool_decide_true (l ∈ bl)), ?(bool_decide_false (l ∈ bl)) by done.
  - rewrite bool_decide_true by set_solver. apply sweep_rewrite_idem.
  - by rewrite bool_decide_true by set_solver.
  - by rewrite bool_decide_true by set_solver.
  - by rewrite bool_decide_false by set_solver.
Qed.

(** The sweep of [define_function] over the functions [funcs]. *)
Lemma sweep_functions funcs D hc h' :
  swept D hc →
  for_each funcs (λ v,
    bs <- allblocks v ;;
    for_each bs (λ block, apply_mapping block is_ExternFunction m)) hc = Ok (tt, h') →
  ∃ D', swept D' h'
        ∧ (∀ l, l ∈ D → l ∈ D')
        ∧ ∀ v fv sv b, v ∈ funcs → h3 !! v = Some (OFunc fv) →
                       h3 !! f_scope fv = Some (OScope sv) →
                       b ∈ allblocks_of h3 sv → b ∈ D'.
Proof.
  revert D hc. induction funcs as [|v funcs IH]; intros D hc Hsw H.
  - cbn in H. unfold ret in H. simplify_eq. exists D. split; [done|]. split; [done|].
    intros v fv sv b Hv. by apply elem_of_nil in Hv.
  - cbn [for_each] in H. mbind H as u h1 Hv. destruct u.
    mbind Hv as bs h2 Hbs. apply allblocks_Ok in Hbs as (-> & fv & sv & Hfv & Hsv & ->).
    pose proof (swept_more _ _ _ _ Hsw Hv) as Hsw1.
    destruct (IH _ _ Hsw1 H) as (D' & Hsw' & Hsub & Hblocks).
    exists D'. split; [done|]. split; [intros l Hl; apply Hsub; set_solver|].
    intros v' fv' sv' b Hv' Hfv' Hsv' Hb.
    apply elem_of_cons in Hv' as [->|Hv']; [|by eapply Hblocks].
    apply Hsub. apply elem_of_app. right.
    rewrite (swept_func _ _ _ _ Hsw Hfv') in Hfv. simplify_eq.
    rewrite (swept_scope _ _ _ _ Hsw Hsv') in Hsv. simplify_eq.
    unfold allblocks_of in *. apply list_elem_of_In, filter_In.
    apply list_elem_of_In, filter_In in Hb as [Hin Hblk]. split; [done|].
    by rewrite (swept_is_BasicBlock D).
Qed.

End sweep.

Lemma dict_values_set_other {K V} `{EqDecision K} (d : list (K * V)) k v old x :
  dict_get d k = Some old → x ∈ dict_values d → x ≠ old →
  x ∈ dict_values (dict_set d k v).
Proof.
  unfold dict_values. induction d as [|[k' v'] d IH]; intros Hget Hx Hne; cbn in *.
  - by apply elem_of_nil in Hx.
  - case_decide as Hk.
    + simplify_eq. cbn. apply elem_of_cons in Hx as [->|Hx]; [done|]. by right.
    + cbn. apply elem_of_cons in Hx as [->|Hx]; [by left|]. right. by apply IH.
Qed.

(** X29.  [define_function] of a name the unit binds to a stub makes a new
    function, which is not finished and is to have the signature of the stub
    when it ends, and binds the name to it; the stub stays in the store.
    In every block of every function the unit holds, each operand that was
    the stub is the new function, and nothing else of the instructions
    changes. *)
Theorem define_function_replaces_stub (self : loc) (t : Top) (s : Scope) (name : string)
    (stub : loc) (e : Extern) (h : Heap) (r : loc) (h' : Heap) :
  h !! self = Some (OTop t) → h !! t_scope t = Some (OScope s) →
  dict_get (items s) name = Some stub → h !! stub = Some (OExtern e) →
  define_function self name h = Ok (r, h') →
  r = length h
  ∧ (∃ s', h' !! t_scope t = Some (OScope s') ∧ dict_get (items s') name = Some r)
  ∧ (∃ f, h' !! r = Some (OFunc f) ∧ f_name f = name ∧ _finished f = false
          ∧ future_expect_sig f = [stub])
  ∧ h' !! stub = Some (OExtern e)
  ∧ ∀ v fv sv b blk,
      v ∈ dict_values (items s) → h !! v = Some (OFunc fv) →
      f_scope fv ≠ t_scope t → h !! f_scope fv = Some (OScope sv) →
      b ∈ dict_values (items sv) → h !! b = Some (OBlock blk) →
      h' !! b = Some (OBlock (set_insns blk
                   (map_insn (is_ExternFunction h) [(stub, VRef r)] <$> insns blk))).
Proof.
  intros Ht Hs Hname Hstub H.
  assert (Hc : Scope_contains (t_scope t) name h = Ok (true, h))
    by (by eapply Scope_contains_local).
  assert (Hg : Scope_getitem (t_scope t) name h = Ok (stub, h))
    by (by eapply Scope_getitem_local).
  assert (Hgoc : get_or_create_func self name h = Ok (stub, h)).
  { unfold get_or_create_func. rewrite (bind_eq _ _ _ _ _ (get_top_eq _ _ _ Ht)). cbv beta.
    unfold Scope_get_or_create. by rewrite (bind_eq _ _ _ _ _ Hc). }
  unfold define_function in H. rewrite (bind_eq _ _ _ _ _ Hgoc) in H. cbv beta in H.
  unfold bind at 1, get_heap at 1 in H.
  assert (Hext : is_ExternFunction h stub = true) by (unfold is_ExternFunction; by rewrite Hstub).
  rewrite Hext in H.
  mbind H as real h1 Hinit. unfold _create_func in Hinit.
  destruct (IRFunction_init_Ok _ _ _ _ _ _ Hinit Ht) as (-> & en & ex & Hne & ->).
  set (n := length h) in *.
  set (h1 := h ++ fresh_function n name (t_scope t) en ex) in *.
  assert (Hold : ∀ l o, h !! l = Some o → h1 !! l = Some o).
  { intros l o Hl. unfold h1. by apply lookup_app_l_Some. }
  rewrite (bind_eq _ _ _ _ _ (get_top_eq _ _ _ (Hold _ _ Ht))) in H. cbv beta in H.
  rewrite (bind_eq _ _ _ _ _ (Scope_setitem_eq _ name n _ _ (Hold _ _ Hs))) in H.
  cbv beta in H.
  set (s2 := set_items s (dict_set (items s) name n) (dict_set (inverse_dict s) n name)) in *.
  set (h2 := <[t_scope t := OScope s2]> h1) in *.
  assert (Hts : t_scope t < n) by (by eapply lookup_lt_Some).
  assert (Hn1 : h1 !! n = Some (OFunc (mkFunc (n + 1) name (n + 2) false 0 (n + 3) (n + 4)
                                         [] false false false false [] [] []))).
  { unfold h1, n. by rewrite lookup_end0. }
  assert (Hn2 : h2 !! n = h1 !! n) by (unfold h2; apply list_lookup_insert_ne; lia).
  rewrite Hn1 in Hn2.
  assert (Hstub2 : h2 !! stub = Some (OExtern e)).
  { unfold h2. rewrite list_lookup_insert_ne; [by apply Hold|]. intros <-. congruence. }
  mbind H as u h3 Hexp. destruct u.
  unfold expect_signature in Hexp.
  rewrite (bind_eq _ _ _ _ _ (read_eq _ _ _ Hn2)) in Hexp. cbv beta iota in Hexp.
  unfold IRFunction_expect_signature in Hexp.
  rewrite (bind_eq _ _ _ _ _ (finished_extern _ _ _ Hstub2)) in Hexp. cbv beta in Hexp.
  rewrite (bind_eq _ _ _ _ _ (eq_refl : assert true "other.finished" h2 = Ok (tt, h2))) in Hexp.
  rewrite (bind_eq _ _ _ _ _ (get_func_eq _ _ _ Hn2)) in Hexp. cbv beta in Hexp.
  cbn [_finished negb] in Hexp. rewrite write_eq in Hexp. injection Hexp as <-.
  cbn [future_expect_sig app] in H.
  set (f3 := set_future_expect_sig _ _) in H.
  set (h3 := <[n := OFunc f3]> h2) in *.
  assert (Hs3 : h3 !! t_scope t = Some (OScope s2)).
  { unfold h3, h2. rewrite list_lookup_insert_ne by lia.
    apply list_lookup_insert_eq. unfold h1. rewrite length_app. fold n. lia. }
  rewrite (bind_eq _ _ _ _ _ (get_scope_eq _ _ _ Hs3)) in H. cbv beta in H.
  unfold bind at 1, get_heap at 1 in H.
  mbind H as u h4 Hloop. destruct u. unfold ret in H. injection H as <- <-.
  (* what the store kept *)
  assert (Hold3 : ∀ l o, h !! l = Some o → l ≠ t_scope t → h3 !! l = Some o).
  { intros l o Hl Hlt. pose proof (lookup_lt_Some _ _ _ Hl). fold n in H.
    unfold h3, h2. rewrite !list_lookup_insert_ne by lia. by apply Hold. }
  assert (Hn3 : h3 !! n = Some (OFunc f3)).
  { unfold h3. apply list_lookup_insert_eq. unfold h2. rewrite length_insert.
    unfold h1. rewrite length_app. cbn. fold n. lia. }
  assert (HK : ∀ l, is_ExternFunction h3 l = is_ExternFunction h l).
  { intros l. unfold is_ExternFunction. destruct (decide (l < n)) as [Hl|Hl].
    - destruct (decide (l = t_scope t)) as [->|Hlt]; [by rewrite Hs3, Hs|].
      destruct (h !! l) as [o|] eqn:Ho; [by rewrite (Hold3 _ _ Ho Hlt)|].
      apply lookup_ge_None in Ho. fold n in Ho. lia.
    - rewrite (lookup_ge_None_2 h) by (fold n; lia).
      unfold h3, h2. destruct (decide (l = n)) as [->|Hln].
      + fold h2. fold h3. by rewrite Hn3.
      + rewrite !list_lookup_insert_ne by lia. unfold h1.
        replace l with (n + (l - n)) by lia. unfold n. rewrite lookup_end.
        destruct (l - length h) as [|[|[|[|[|k]]]]] eqn:Hk; try done; lia. }
  assert (Hreal : is_ExternFunction h3 n = false).
  { unfold is_ExternFunction. by rewrite Hn3. }
  assert (Hsw0 : swept h3 stub n [] h3).
  { split; [done|]. intros l o Ho. by rewrite bool_decide_false by by intros ?%elem_of_nil. }
  destruct (sweep_functions h3 stub n Hreal _ _ _ _ Hsw0 Hloop) as (D & Hsw & _ & Hblocks).
  pose proof Hsw as [Hlen Hall].
  split; [done|]. split.
  { exists s2. split; [by eapply swept_scope|]. unfold s2. cbn. apply dict_get_set_eq. }
  split.
  { exists f3. split; [by eapply swept_func|]. done. }
  split.
  { rewrite (Hall _ _ (Hold3 _ _ Hstub ltac:(congruence))). by case_bool_decide. }
  intros v fv sv b blk Hv Hfv Hscope Hsv Hb Hblk.
  assert (Hv3 : h3 !! v = Some (OFunc fv)) by (apply Hold3; [done|congruence]).
  assert (Hsv3 : h3 !! f_scope fv = Some (OScope sv)) by (by apply Hold3).
  assert (Hb3 : h3 !! b = Some (OBlock blk)) by (apply Hold3; [done|congruence]).
  rewrite (Hall _ _ Hb3). rewrite bool_decide_true.
  - cbn. do 3 f_equal. apply list_fmap_ext. intros _ i _. by apply map_insn_ext.
  - eapply (Hblocks v fv sv b); [|done|done|].
    + apply list_elem_of_In, filter_In. split.
      * apply list_elem_of_In. unfold s2. cbn.
        eapply dict_values_set_other; [done|done|congruence].
      * unfold is_IRFunction. by rewrite Hv3.
    + unfold allblocks_of. apply list_elem_of_In, filter_In. split.
      * by apply list_elem_of_In.
      * unfold is_BasicBlock. by rewrite Hb3.
Qed.
(** A unit that binds ["g"] to a stub, with a function ["f"] whose block
    ["body"] has an instruction with the stub as an operand: the unit is
    object 0, the stub object 5, the function object 6 and the block object
    11. *)
Definition unit_calling_stub : M loc :=
  top <- TopLevel_init ;;
  stub <- ExternFunction_init "g" (PyParams [(i32, "byval")]) (Some [i32]) ;;
  store top "g" stub ;;;
  f <- create_function top "f" ;;
  b <- create_block f "body" ;;
  add b (mkInsn (KOther "invoke" false false true) [VRef stub; VNone; VNone] None)
      NoName None ;;;
  ret top.

Definition stub_caller_heap : list Obj :=
  Eval vm_compute in default [] (exec unit_calling_stub []).

Lemma define_function_replaces_stub_witness :
  ∃ h', define_function 0 "g" stub_caller_heap = Ok (12, h')
        ∧ ∃ blk, h' !! 11 = Some (OBlock blk)
                 ∧ args <$> insns blk = [[VRef 12; VNone; VNone]].
Proof.
  eexists. split; [vm_compute; reflexivity|].
  pose proof (define_function_replaces_stub 0 _ _ "g" 5 _ stub_caller_heap 12 _
                eq_refl eq_refl eq_refl eq_refl eq_refl) as (_ & _ & _ & _ & Hb).
  eexists. split.
  - refine (Hb 6 _ _ 11 _ _ eq_refl _ eq_refl _ eq_refl).
    + apply (bool_decide_unpack _). vm_compute. exact I.
    + vm_compute. lia.
    + apply (bool_decide_unpack _). vm_compute. exact I.
  - vm_compute. reflexivity.
Defined.
(** * The function markers *)

(** The markers of [func_prop.py]: [ExternInsn], [PureInsn], [InlineInsn]
    and [RunCallbackOnExit]. *)
Inductive Marker : Type :=
| MExtern
| MPure
| MInline
| MRunCallbackOnExit.

Definition marker_kind (m : Marker) : InsnKind :=
  match m with
  | MExtern => KExternInsn
  | MPure => KPureInsn
  | MInline => KInlineInsn
  | MRunCallbackOnExit => KRunCallbackOnExit
  end.

(** What the activation hook of a marker does to the function that holds
    the sequence: it sets a flag, or queues one more deferred callback. *)
Definition marked (m : Marker) (f : Func) : Func :=
  match m with
  | MExtern => set_is_extern f true
  | MPure => set_is_pure f true
  | MInline => set_is_inline f true
  | MRunCallbackOnExit =>
      set_post_exit_insns f (post_exit_insns f ++ [RunDeferredCallback])
  end.

Lemma seq_append_funcs self insn h h' l f :
  seq_append self insn h = Ok (tt, h') → h !! l = Some (OFunc f) →
  h' !! l = Some (OFunc f).
Proof.
  intros H Hl. unfold seq_append in H. mstep H as o Ho.
  destruct o; try done; unfold write in H; simplify_eq;
    (rewrite list_lookup_insert_ne; [done|congruence]).
Qed.

(** The hook of a marker: the holder is a function, and nothing but the
    holder changes. *)
Lemma activate_marker m insn seq holder h insn' r h' :
  kind insn = marker_kind m →
  activate insn seq h = Ok ((insn', r), h') → seq_holder seq h = Ok (holder, h) →
  r = None
  ∧ ∃ fh, h !! holder = Some (OFunc fh) ∧ h' = <[holder := OFunc (marked m fh)]> h.
Proof.
  intros Hk H Hholder. unfold activate in H. rewrite Hk in H.
  destruct m; cbn [marker_kind] in H;
    rewrite (bind_eq _ _ _ _ _ Hholder) in H; cbv beta in H.
  - unfold set_extern in H. mbind H as u h1 Hu. destruct u.
    mstep Hu as fh Hfh. unfold write in Hu. unfold ret in H. simplify_eq. eauto.
  - unfold set_pure in H. mbind H as u h1 Hu. destruct u.
    mstep Hu as fh Hfh. unfold write in Hu. unfold ret in H. simplify_eq. eauto.
  - unfold set_inline in H. mbind H as u h1 Hu. destruct u.
    mstep Hu as fh Hfh. unfold write in Hu. unfold ret in H. simplify_eq. eauto.
  - mstep H as fh Hfh. mbind H as u h1 Hu. destruct u.
    unfold write in Hu. unfold ret in H. simplify_eq. eauto.
Qed.

(** X30.  When [add] of a marker of [func_prop.py] returns, it returns
    [None], the sequence is held by a function, and of all the functions in
    the store only that one has changed: an [extern], [pure_func] or
    [inline] marker has set the flag of that name, and a
    [run_callback_on_exit] marker has queued one more deferred callback
    behind those queued before.  So a marker never clears a flag or takes a
    callback off the queue, and a marker added a second time queues a
    second callback. *)
Theorem add_only_marks_the_holder (m : Marker) (self : loc) (insn : Insn)
    (with_name : WithName) (namehint : option string) (h : Heap) (r : option loc)
    (h' : Heap) :
  kind insn = marker_kind m →
  add self insn with_name namehint h = Ok (r, h') →
  r = None
  ∧ ∃ holder fh,
      seq_holder self h = Ok (holder, h)
      ∧ h !! holder = Some (OFunc fh)
      ∧ h' !! holder = Some (OFunc (marked m fh))
      ∧ ∀ l f, l ≠ holder → h !! l = Some (OFunc f) → h' !! l = Some (OFunc f).
Proof.
  intros Hk H.
  apply add_Ok_inv in H as (insn1 & insn2 & r2 & h1 & h2 & Hval & Hact & Happ & Hrest).
  assert (∃ holder, seq_holder self h = Ok (holder, h)) as [holder Hholder].
  { unfold validate_insn in Hval. mstep Hval as o Ho. unfold seq_holder.
    rewrite (bind_eq _ _ _ _ _ (read_eq _ _ _ Ho)). cbv beta.
    destruct o; try done; by eexists. }
  assert (kind insn1 = marker_kind m) as Hk1.
  { apply validate_insn_Ok in Hval as [_ [->|[Hret _]]]; [done|].
    rewrite Hk in Hret. by destruct m. }
  destruct (activate_marker _ _ _ _ _ _ _ _ Hk1 Hact Hholder) as (-> & fh & Hfh & ->).
  assert (r = None ∧ h' = h2) as [-> ->].
  { destruct Hrest as [(-> & -> & _)|(v & ? & ? & ? & _)]; done. }
  split; [done|]. exists holder, fh. split; [done|]. split; [done|]. split.
  - eapply seq_append_funcs; [done|].
    apply list_lookup_insert_eq. by eapply lookup_lt_Some.
  - intros l f Hne Hl. eapply seq_append_funcs; [done|].
    by rewrite list_lookup_insert_ne.
Qed.

Lemma add_only_marks_the_holder_witness :
  ∃ h' f', add 7 (mkInsn KInlineInsn [] None) NoName None demo_heap = Ok (None, h')
           ∧ seq_holder 7 demo_heap = Ok (5, demo_heap)
           ∧ h' !! 5 = Some (OFunc f') ∧ _is_inline f' = true.
Proof.
  destruct (add 7 (mkInsn KInlineInsn [] None) NoName None demo_heap)
    as [[r h']|e] eqn:Hadd; [|vm_compute in Hadd; discriminate].
  destruct (add_only_marks_the_holder MInline 7 (mkInsn KInlineInsn [] None) NoName None
              demo_heap r h' eq_refl Hadd) as (-> & holder & fh & Hholder & _ & Hfh' & _).
  assert (holder = 5) as -> by (vm_compute in Hholder; congruence).
  exists h', (marked MInline fh).
  split; [reflexivity|]. split; [reflexivity|]. split; [exact Hfh'|reflexivity].
Defined.
